(** * Superannuation engine: money codec, timestamp codec and temporal rules

    A shallow embedding of the micro-savings engine (money.js, time.js and
    the rule engine) together with the properties its specification states.

    Conventions of the embedding
    - a JavaScript [BigInt] is a [Z]; [/] and [%] on BigInt truncate toward
      zero, so they are [Z.quot] and [Z.rem];
    - an integral JavaScript Number far below 2^53 (epoch seconds, array
      indices) is a [Z] or a [nat];
    - a JavaScript string is a [string]: the code units 0..255.  Within that
      range [String.prototype.trim] strips the code units 9-13, 32 and 160;
    - a thrown exception is the [Err] case of a result type, which records
      whether the exception is an [ApiError]. *)

From Stdlib Require Import ZArith Lia List String Ascii Bool.
From stdpp Require Import base list gmap strings numbers sorting.

Open Scope Z_scope.

(** ** The JavaScript runtime the engine relies on *)

Module Js.

(** *** Exceptions *)

(** [ApiError] carries an HTTP status; anything else is a plain [Error]. *)
Inductive error : Type :=
| ApiError (status : Z) (message : string)
| PlainError (message : string).

Inductive result (A : Type) : Type :=
| Ok (a : A)
| Err (e : error).
Arguments Ok {A} a.
Arguments Err {A} e.

Definition bind {A B : Type} (r : result A) (k : A -> result B) : result B :=
  match r with
  | Ok a => k a
  | Err e => Err e
  end.

Definition errorMessage (e : error) : string :=
  match e with
  | ApiError _ m => m
  | PlainError m => m
  end.

Definition isApiError (e : error) : bool :=
  match e with
  | ApiError _ _ => true
  | PlainError _ => false
  end.

(** *** Strings *)

Definition isWhiteSpace (c : ascii) : bool :=
  let n := nat_of_ascii c in
  ((9 <=? n)%nat && (n <=? 13)%nat) || (n =? 32)%nat || (n =? 160)%nat.

Definition isEmpty (s : string) : bool :=
  match s with
  | EmptyString => true
  | String _ _ => false
  end.

Fixpoint trimStart (s : string) : string :=
  match s with
  | EmptyString => EmptyString
  | String c r => if isWhiteSpace c then trimStart r else s
  end.

Fixpoint trimEnd (s : string) : string :=
  match s with
  | EmptyString => EmptyString
  | String c r =>
      let r' := trimEnd r in
      if isEmpty r' && isWhiteSpace c then EmptyString else String c r'
  end.

(** [String.prototype.trim] *)
Definition trim (s : string) : string := trimEnd (trimStart s).

Fixpoint repeatChar (n : nat) (c : ascii) : string :=
  match n with
  | O => EmptyString
  | S k => String c (repeatChar k c)
  end.

(** [String.prototype.padStart] with a one-character filler. *)
Definition padStart (s : string) (targetLength : nat) (c : ascii) : string :=
  (repeatChar (targetLength - String.length s) c ++ s)%string.

(** *** Decimal digits *)

Definition isDigit (c : ascii) : bool :=
  let n := nat_of_ascii c in (48 <=? n)%nat && (n <=? 57)%nat.

Definition digitValue (c : ascii) : Z := Z.of_nat (nat_of_ascii c) - 48.

Definition digitChar (d : Z) : ascii := ascii_of_nat (Z.to_nat (48 + d)).

Fixpoint allDigits (s : string) : bool :=
  match s with
  | EmptyString => true
  | String c r => isDigit c && allDigits r
  end.

(** The value of a string of decimal digits, as [BigInt(digits)] and
    [Number(digits)] read it (leading zeros allowed). *)
Fixpoint digitsValueFrom (acc : Z) (s : string) : Z :=
  match s with
  | EmptyString => acc
  | String c r => digitsValueFrom (10 * acc + digitValue c) r
  end.

Definition digitsValue (s : string) : Z := digitsValueFrom 0 s.

(** The decimal digits of a non-negative integer, most significant first.
    The loop divides by ten; [fuel] bounds its iterations and
    [digitsFuel n] is always enough (lemma [natDigits_unfold] below). *)
Fixpoint natDigitsFuel (fuel : nat) (n : Z) : string :=
  match fuel with
  | O => EmptyString
  | S f =>
      if n <? 10 then String (digitChar n) EmptyString
      else (natDigitsFuel f (n / 10) ++ String (digitChar (n mod 10)) EmptyString)%string
  end.

Definition digitsFuel (n : Z) : nat := S (Z.to_nat (Z.log2 n)).

Definition natDigits (n : Z) : string := natDigitsFuel (digitsFuel n) n.

(** [BigInt.prototype.toString] and [String(n)] for an integral Number. *)
Definition intToString (n : Z) : string :=
  if n <? 0 then String "-"%char (natDigits (- n)) else natDigits n.

(** Splits off the longest prefix of decimal digits. *)
Fixpoint spanDigits (s : string) : string * string :=
  match s with
  | EmptyString => (EmptyString, EmptyString)
  | String c r =>
      if isDigit c then let '(d, rest) := spanDigits r in (String c d, rest)
      else (EmptyString, s)
  end.

(** Takes exactly [n] decimal digits from the front, as [\d{n}] does. *)
Fixpoint takeDigits (n : nat) (s : string) : option (string * string) :=
  match n with
  | O => Some (EmptyString, s)
  | S k =>
      match s with
      | String c r =>
          if isDigit c then
            match takeDigits k r with
            | Some (d, rest) => Some (String c d, rest)
            | None => None
            end
          else None
      | EmptyString => None
      end
  end.

(** Consumes one given character. *)
Definition expectChar (c : ascii) (s : string) : option string :=
  match s with
  | String c' r => if Ascii.eqb c c' then Some r else None
  | EmptyString => None
  end.

End Js.
(** ** JavaScript Numbers (IEEE 754 binary64) *)

Module JsNumber.

(** A Number is not-a-number, an infinity, or the value
    [(-1)^negative * m * 2^e].  The canonical forms are zero ([m = 0],
    [e = 0]), the normal numbers ([2^52 <= m < 2^53], [-1074 <= e <= 971])
    and the subnormal numbers ([0 < m < 2^52], [e = -1074]). *)
Inductive Number : Type :=
| NaN
| Infinity (negative : bool)
| Finite (negative : bool) (m : Z) (e : Z).

Definition isFinite (x : Number) : bool :=
  match x with
  | Finite _ _ _ => true
  | _ => false
  end.

Definition eqb (x y : Number) : bool :=
  match x, y with
  | NaN, NaN => true
  | Infinity a, Infinity b => Bool.eqb a b
  | Finite a m e, Finite b m' e' => Bool.eqb a b && (m =? m') && (e =? e')
  | _, _ => false
  end.

(** The positive rational [p / q] times [b ^ k], as a fraction. *)
Definition mulPow (b p q k : Z) : Z * Z :=
  if 0 <=? k then (p * b ^ k, q) else (p, q * b ^ (- k)).

(** The integer nearest to [num / den], ties to the even one. *)
Definition roundHalfEven (num den : Z) : Z :=
  let fl := num / den in
  let twice := 2 * (num mod den) in
  if twice <? den then fl
  else if den <? twice then fl + 1
  else if Z.even fl then fl else fl + 1.

(** [floor (log2 (p / q))] for positive [p] and [q]. *)
Definition floorLog2 (p q : Z) : Z :=
  let g := Z.log2 p - Z.log2 q in
  let '(n, d) := mulPow 2 p q (- g) in
  if d <=? n then g else g - 1.

(** The Number nearest to the rational [p / q] ([0 <= p], [0 < q]),
    ties to even: the rounding every conversion to a Number applies. *)
Definition roundRational (negative : bool) (p q : Z) : Number :=
  if p =? 0 then Finite negative 0 0
  else
    let e := Z.max (-1074) (floorLog2 p q - 52) in
    let '(n, d) := mulPow 2 p q (- e) in
    let m := roundHalfEven n d in
    let '(m, e) := if m =? 2 ^ 53 then (2 ^ 52, e + 1) else (m, e) in
    if 971 <? e then Infinity negative
    else if m =? 0 then Finite negative 0 0
    else Finite negative m e.

(** The Number of an integer, as a JSON integer literal denotes it. *)
Definition ofZ (n : Z) : Number := roundRational (n <? 0) (Z.abs n) 1.

(** *** Number(text)

    [Number(text)] for a decimal text: an optional sign, digits, and an
    optional point followed by digits, with at least one digit.  Every
    text the engine converts has this form; other literals (exponents,
    hexadecimal, [Infinity]) are not modelled and read as [NaN]. *)
Definition ofDecimalText (text : string) : Number :=
  let '(negative, rest) :=
    match text with
    | String "-"%char r => (true, r)
    | String "+"%char r => (false, r)
    | _ => (false, text)
    end in
  let '(intDigits, rest) := Js.spanDigits rest in
  let '(fracDigits, rest) :=
    match rest with
    | String "."%char r => Js.spanDigits r
    | _ => (EmptyString, rest)
    end in
  if Js.isEmpty rest && negb (Js.isEmpty intDigits && Js.isEmpty fracDigits) then
    roundRational negative
      (Js.digitsValue (intDigits ++ fracDigits))
      (10 ^ Z.of_nat (String.length fracDigits))
  else NaN.

(** *** Number.prototype.toString()

    The digits are the shortest decimal [s * 10^(n - k)], with [k] digits
    in [s], that converts back to the Number; among several, the one
    nearest to the Number, and the even [s] if two are equally near. *)

(** [p / q < 10 ^ n] *)
Definition ltPow10 (p q n : Z) : bool :=
  let '(a, b) := mulPow 10 p q (- n) in a <? b.

(** For [p / q < 1]: the number of zeros between the decimal point and the
    first significant digit.  No positive Number is below [10^-324]. *)
Fixpoint leadingZeros (fuel : nat) (p q : Z) : Z :=
  match fuel with
  | O => 0
  | S f => if q <=? 10 * p then 0 else 1 + leadingZeros f (10 * p) q
  end.

(** The [n] with [10^(n-1) <= p / q < 10^n]. *)
Definition decimalPoint (p q : Z) : Z :=
  if q <=? p then Z.of_nat (String.length (Js.natDigits (p / q)))
  else - leadingZeros 400 p q.

(** Does the decimal [s * 10^(n - k)] convert to [x]? *)
Definition convertsTo (x : Number) (s n k : Z) : bool :=
  let '(a, b) := mulPow 10 s 1 (n - k) in
  eqb (roundRational false a b) x.

(** The [k]-digit decimal for the positive Number [x = p / q], if any. *)
Definition digitsAt (x : Number) (p q n k : Z) : option Z :=
  let '(a, b) := mulPow 10 p q (k - n) in
  let lo := a / b in
  let hi := lo + 1 in
  let twice := 2 * (a mod b) in
  match convertsTo x lo n k, convertsTo x hi n k with
  | true, true =>
      Some (if twice <? b then lo
            else if b <? twice then hi
            else if Z.even lo then lo else hi)
  | true, false => Some lo
  | false, true => Some hi
  | false, false => None
  end.

(** Tries [k], [k + 1], ...: seventeen digits always suffice. *)
Fixpoint shortestFrom (fuel : nat) (x : Number) (p q n k : Z) : Z * Z :=
  match fuel with
  | O => (fst (mulPow 10 p q (k - n)) / snd (mulPow 10 p q (k - n)), k)
  | S f =>
      match digitsAt x p q n k with
      | Some s => (s, k)
      | None => shortestFrom f x p q n (k + 1)
      end
  end.

(** The triple [(s, k, n)] of the positive Number [m * 2^e]. *)
Definition shortestDigits (m e : Z) : Z * Z * Z :=
  let x := Finite false m e in
  let '(p, q) := mulPow 2 m 1 e in
  let n := decimalPoint p q in
  let '(s, k) := shortestFrom 17 x p q n 1 in
  if s =? 10 ^ k then (10 ^ (k - 1), k, n + 1) else (s, k, n).

Fixpoint takeStr (n : nat) (s : string) : string :=
  match n, s with
  | S k, String c r => String c (takeStr k r)
  | _, _ => EmptyString
  end.

Fixpoint dropStr (n : nat) (s : string) : string :=
  match n, s with
  | S k, String _ r => dropStr k r
  | _, _ => s
  end.

Definition formatDigits (s k n : Z) : string :=
  let digits := Js.natDigits s in
  if (k <=? n) && (n <=? 21) then
    (digits ++ Js.repeatChar (Z.to_nat (n - k)) "0")%string
  else if (0 <? n) && (n <=? 21) then
    (takeStr (Z.to_nat n) digits ++ "." ++ dropStr (Z.to_nat n) digits)%string
  else if (-6 <? n) && (n <=? 0) then
    ("0." ++ Js.repeatChar (Z.to_nat (- n)) "0" ++ digits)%string
  else
    let e := n - 1 in
    let exponent :=
      String.append (if e <? 0 then "-"%string else "+"%string) (Js.natDigits (Z.abs e)) in
    if k =? 1 then (digits ++ "e" ++ exponent)%string
    else (takeStr 1 digits ++ "." ++ dropStr 1 digits ++ "e" ++ exponent)%string.

Definition toString (x : Number) : string :=
  match x with
  | NaN => "NaN"
  | Infinity negative => if negative then "-Infinity" else "Infinity"
  | Finite negative m e =>
      if m =? 0 then "0"
      else
        let '(s, k, n) := shortestDigits m e in
        ((if negative then "-" else EmptyString) ++ formatDigits s k n)%string
  end.

(** *** Arithmetic

    [x / y]: the Number nearest to the exact quotient, with the special
    cases of IEEE 754. *)
Definition div (x y : Number) : Number :=
  match x, y with
  | NaN, _ => NaN
  | _, NaN => NaN
  | Infinity _, Infinity _ => NaN
  | Infinity a, Finite b _ _ => Infinity (xorb a b)
  | Finite a _ _, Infinity b => Finite (xorb a b) 0 0
  | Finite a m e, Finite b m' e' =>
      if m' =? 0 then
        if m =? 0 then NaN else Infinity (xorb a b)
      else
        let '(p, q) := mulPow 2 m 1 e in
        let '(p', q') := mulPow 2 m' 1 e' in
        roundRational (xorb a b) (p * q') (q * p')
  end.

End JsNumber.

(** *** Values *)

Module JsValue.

(** The values a parsed JSON document holds, as far as the engine tells
    them apart: [typeof v === 'string'], [typeof v === 'number'],
    [v === undefined] (an absent field), [v ?? d]. *)
Inductive value : Type :=
| JUndefined
| JNull
| JBool (b : bool)
| JNum (x : JsNumber.Number)
| JStr (s : string)
| JOther.

Definition isString (v : value) : bool :=
  match v with
  | JStr _ => true
  | _ => false
  end.

Definition isUndefined (v : value) : bool :=
  match v with
  | JUndefined => true
  | _ => false
  end.

End JsValue.

(** ** money.js *)

Module Money.

Import Js JsNumber JsValue.

(** [MONEY_RE = /^([+-]?)(\d+)(?:\.(\d+))?$/]: the sign, the integer
    digits and the fraction digits (absent when there is no point). *)
Definition matchMoney (text : string) : option (string * string * option string) :=
  let '(sign, rest) :=
    match text with
    | String "+"%char r => ("+"%string, r)
    | String "-"%char r => ("-"%string, r)
    | _ => (EmptyString, text)
    end in
  let '(intDigits, rest) := spanDigits rest in
  if isEmpty intDigits then None
  else
    match rest with
    | EmptyString => Some (sign, intDigits, None)
    | String "."%char r =>
        let '(fracDigits, rest) := spanDigits r in
        if isEmpty fracDigits then None
        else if isEmpty rest then Some (sign, intDigits, Some fracDigits)
        else None
    | _ => None
    end.

Definition normalizeMoneyInput (raw : value) : result string :=
  match raw with
  | JNum x =>
      if isFinite x then Ok (toString x)
      else Err (PlainError "must be a finite number")
  | JStr s =>
      let trimmed := trim s in
      if isEmpty trimmed then Err (PlainError "must not be empty")
      else Ok trimmed
  | _ => Err (PlainError "must be a number or numeric string")
  end.

(** [frac.replace(/\s+/g, '')] *)
Fixpoint removeWhiteSpace (s : string) : string :=
  match s with
  | EmptyString => EmptyString
  | String c r => if isWhiteSpace c then removeWhiteSpace r else String c (removeWhiteSpace r)
  end.

(** [frac.length >= i + 1 ? Number(frac[i]) : 0]; the character is a digit. *)
Definition fracDigit (frac : string) (i : nat) : Z :=
  match String.get i frac with
  | Some c => digitValue c
  | None => 0
  end.

(** The minor units of a decimal text that matched [MONEY_RE]. *)
Definition moneyOfMatch (m : string * string * option string) : Z :=
  let '(signText, intDigits, fracDigits) := m in
  let sign := if String.eqb signText "-" then -1 else 1 in
  let intPart := digitsValue intDigits in
  let frac := removeWhiteSpace (match fracDigits with Some f => f | None => EmptyString end) in
  let first := fracDigit frac 0 in
  let second := fracDigit frac 1 in
  let third := fracDigit frac 2 in
  let cents := first * 10 + second in
  let cents := if third >=? 5 then cents + 1 else cents in
  let '(whole, cents) :=
    if cents >=? 100 then (intPart + 1, cents - 100) else (intPart, cents) in
  sign * (whole * 100 + cents).

Definition parseMoney (raw : value) : result Z :=
  bind (normalizeMoneyInput raw) (fun text =>
  match matchMoney text with
  | None => Err (PlainError "must be a valid decimal value")
  | Some m => Ok (moneyOfMatch m)
  end).

(** The text [moneyToFixed2] builds before it converts it to a Number. *)
Definition fixed2Text (paise : Z) : string :=
  let negative := paise <? 0 in
  let abs := if negative then - paise else paise in
  let whole := Z.quot abs 100 in
  let frac := Z.rem abs 100 in
  ((if negative then "-" else EmptyString) ++ intToString whole ++ "."
     ++ padStart (intToString frac) 2 "0")%string.

Definition moneyToFixed2 (paise : Z) : Number := ofDecimalText (fixed2Text paise).

Definition validateMoneyRange (paise minInclusive maxExclusive : Z) (fieldName : string)
  : result unit :=
  if (paise <? minInclusive) || (paise >=? maxExclusive)
  then Err (PlainError (fieldName ++ " out of allowed range"))
  else Ok tt.

(** [ceilTo100]: the round unit is 100 rupees, that is 10000 paise. *)
Definition ceilTo100 (paise : Z) : Z :=
  let multiple := 10000 in
  let remainder := Z.rem paise multiple in
  if remainder =? 0 then paise
  else paise + (multiple - remainder).

(** [Number(paise) / 100] *)
Definition moneyToNumber (paise : Z) : Number := div (ofZ paise) (ofZ 100).

(** [values.reduce((acc, value) => (value < acc ? value : acc))]: without
    an initial value [reduce] starts from the first element and throws a
    [TypeError] on the empty array. *)
Definition bigintMin (values : list Z) : result Z :=
  match values with
  | [] => Err (PlainError "Reduce of empty array with no initial value")
  | first :: rest =>
      Ok (fold_left (fun acc value => if value <? acc then value else acc) rest first)
  end.

End Money.

(** ** time.js *)

Module Time.

Import Js JsValue.

(** *** The built-in [Date]

    A [Date] is its time value, the milliseconds since the epoch (ECMAScript
    "Time Values and Time Range").  [TimeClip] changes no time value that
    four-digit fields can produce (lemma [DateUTC_range]).  The formatter
    is modelled on the time values a [Date] can hold, at most 8.64e15
    milliseconds from the epoch; beyond them the code prints [NaN] for
    every field, and no theorem below speaks of such an instant. *)

Definition msPerDay : Z := 86400000.
Definition msPerHour : Z := 3600000.
Definition msPerMinute : Z := 60000.
Definition msPerSecond : Z := 1000.

Definition Day (t : Z) : Z := t / msPerDay.

Definition DaysInYear (y : Z) : Z :=
  if negb (y mod 4 =? 0) then 365
  else if negb (y mod 100 =? 0) then 366
  else if negb (y mod 400 =? 0) then 365
  else 366.

Definition DayFromYear (y : Z) : Z :=
  365 * (y - 1970) + (y - 1969) / 4 - (y - 1901) / 100 + (y - 1601) / 400.

(** The largest [y] with [DayFromYear y <= d] (lemma [YearFromDay_spec]):
    an estimate from the mean year length, corrected by at most one. *)
Definition YearFromDay (d : Z) : Z :=
  let y := 1970 + (d * 400) / 146097 in
  if DayFromYear (y + 1) <=? d then y + 1
  else if DayFromYear y <=? d then y
  else y - 1.

Definition YearFromTime (t : Z) : Z := YearFromDay (Day t).

(** 1 in a leap year, 0 otherwise. *)
Definition InLeapYear (y : Z) : Z := if DaysInYear y =? 366 then 1 else 0.

Definition DayWithinYear (t : Z) : Z := Day t - DayFromYear (YearFromTime t).

(** The day within the year on which month [m] (0..11) starts. *)
Definition monthStart (m leap : Z) : Z :=
  if m =? 0 then 0
  else if m =? 1 then 31
  else if m =? 2 then 59 + leap
  else if m =? 3 then 90 + leap
  else if m =? 4 then 120 + leap
  else if m =? 5 then 151 + leap
  else if m =? 6 then 181 + leap
  else if m =? 7 then 212 + leap
  else if m =? 8 then 243 + leap
  else if m =? 9 then 273 + leap
  else if m =? 10 then 304 + leap
  else 334 + leap.

(** The month (0..11) that contains day [d] of a year. *)
Definition monthOfDay (d leap : Z) : Z :=
  if d <? 31 then 0
  else if d <? 59 + leap then 1
  else if d <? 90 + leap then 2
  else if d <? 120 + leap then 3
  else if d <? 151 + leap then 4
  else if d <? 181 + leap then 5
  else if d <? 212 + leap then 6
  else if d <? 243 + leap then 7
  else if d <? 273 + leap then 8
  else if d <? 304 + leap then 9
  else if d <? 334 + leap then 10
  else 11.

Definition MonthFromTime (t : Z) : Z :=
  monthOfDay (DayWithinYear t) (InLeapYear (YearFromTime t)).

Definition DateFromTime (t : Z) : Z :=
  DayWithinYear t - monthStart (MonthFromTime t) (InLeapYear (YearFromTime t)) + 1.

Definition HourFromTime (t : Z) : Z := (t / msPerHour) mod 24.
Definition MinFromTime (t : Z) : Z := (t / msPerMinute) mod 60.
Definition SecFromTime (t : Z) : Z := (t / msPerSecond) mod 60.

(** [MakeDay]: the month may lie outside 0..11 and carries into the year. *)
Definition MakeDay (year month date : Z) : Z :=
  let ym := year + month / 12 in
  let mn := month mod 12 in
  DayFromYear ym + monthStart mn (InLeapYear ym) + date - 1.

Definition MakeTime (hour min sec ms : Z) : Z :=
  hour * msPerHour + min * msPerMinute + sec * msPerSecond + ms.

Definition MakeDate (day time : Z) : Z := day * msPerDay + time.

(** [Date.UTC(year, month, date, hours, minutes, seconds)]; a year from 0
    to 99 means 1900 + year. *)
Definition DateUTC (year month date hours minutes seconds : Z) : Z :=
  let yr := if (0 <=? year) && (year <=? 99) then 1900 + year else year in
  MakeDate (MakeDay yr month date) (MakeTime hours minutes seconds 0).

Definition getUTCFullYear (t : Z) : Z := YearFromTime t.
Definition getUTCMonth (t : Z) : Z := MonthFromTime t.
Definition getUTCDate (t : Z) : Z := DateFromTime t.
Definition getUTCHours (t : Z) : Z := HourFromTime t.
Definition getUTCMinutes (t : Z) : Z := MinFromTime t.
Definition getUTCSeconds (t : Z) : Z := SecFromTime t.

(** *** The codec *)

Definition TIMESTAMP_FORMAT : string := "YYYY-MM-DD HH:mm:ss".

Definition IST_OFFSET_SECONDS : Z := 5 * 3600 + 30 * 60.

(** The six digit groups of a timestamp, in the order of the pattern. *)
Record Fields : Type := {
  yearText : string;
  monthText : string;
  dayText : string;
  hourText : string;
  minuteText : string;
  secondText : string
}.

(** [TIMESTAMP_RE = /^(\d{4})-(\d{2})-(\d{2}) (\d{2}):(\d{2}):(\d{2})$/] *)
Definition matchTimestamp (text : string) : option Fields :=
  '(y, r) ← takeDigits 4 text;
  r ← expectChar "-" r;
  '(mo, r) ← takeDigits 2 r;
  r ← expectChar "-" r;
  '(d, r) ← takeDigits 2 r;
  r ← expectChar " " r;
  '(h, r) ← takeDigits 2 r;
  r ← expectChar ":" r;
  '(mi, r) ← takeDigits 2 r;
  r ← expectChar ":" r;
  '(s, r) ← takeDigits 2 r;
  if isEmpty r then
    Some {| yearText := y; monthText := mo; dayText := d;
            hourText := h; minuteText := mi; secondText := s |}
  else None.

Definition parseTimestampToEpochSeconds (value : value) (fieldName : string) : result Z :=
  match value with
  | JStr text =>
      let trimmed := trim text in
      match matchTimestamp trimmed with
      | None => Err (PlainError (fieldName ++ " must follow " ++ TIMESTAMP_FORMAT))
      | Some f =>
          let year := digitsValue (yearText f) in
          let month := digitsValue (monthText f) in
          let day := digitsValue (dayText f) in
          let hour := digitsValue (hourText f) in
          let minute := digitsValue (minuteText f) in
          let second := digitsValue (secondText f) in
          let utcMs := DateUTC year (month - 1) day hour minute second in
          let asUtc := utcMs in
          if negb (getUTCFullYear asUtc =? year)
             || negb (getUTCMonth asUtc + 1 =? month)
             || negb (getUTCDate asUtc =? day)
             || negb (getUTCHours asUtc =? hour)
             || negb (getUTCMinutes asUtc =? minute)
             || negb (getUTCSeconds asUtc =? second)
          then Err (PlainError (fieldName ++ " is not a valid calendar timestamp"))
          else Ok ((utcMs - IST_OFFSET_SECONDS * 1000) / 1000)
      end
  | _ => Err (PlainError (fieldName ++ " must be a string in format " ++ TIMESTAMP_FORMAT))
  end.

Definition formatEpochSecondsToTimestamp (epochSeconds : Z) : string :=
  let localMs := epochSeconds * 1000 + IST_OFFSET_SECONDS * 1000 in
  let d := localMs in
  let year := getUTCFullYear d in
  let month := padStart (intToString (getUTCMonth d + 1)) 2 "0" in
  let day := padStart (intToString (getUTCDate d)) 2 "0" in
  let hour := padStart (intToString (getUTCHours d)) 2 "0" in
  let minute := padStart (intToString (getUTCMinutes d)) 2 "0" in
  let second := padStart (intToString (getUTCSeconds d)) 2 "0" in
  (intToString year ++ "-" ++ month ++ "-" ++ day ++ " "
     ++ hour ++ ":" ++ minute ++ ":" ++ second)%string.

Definition parseTimestampLike (value fallbackValue : value) (fieldName : string)
  : result string :=
  let chosen := if isString value then value else fallbackValue in
  match chosen with
  | JStr s => Ok s
  | _ => Err (PlainError (fieldName ++ " is required"))
  end.

End Time.

(** ** Arrays: [Array.prototype.sort] *)

Module JsArray.

Section Sort.

Context {A : Type} (compareFn : A -> A -> Z).

(** [x] goes in front of the first element it does not follow. *)
Fixpoint insertSorted (x : A) (sorted : list A) : list A :=
  match sorted with
  | [] => [x]
  | y :: rest =>
      if compareFn x y <=? 0 then x :: sorted else y :: insertSorted x rest
  end.

(** [array.sort(compareFn)]: the sort is stable, so for a comparator that
    is a total preorder its result is the one of a stable insertion sort. *)
Definition sort (array : list A) : list A := foldr insertSorted [] array.

End Sort.

End JsArray.

(** ** class BinaryHeap *)

Module BinaryHeap.

Section Heap.

Context {A : Type} (compareFn : A -> A -> Z).

(** The heap is its [data] array. *)
Definition size (data : list A) : nat := length data.

(** [undefined] on an empty heap *)
Definition peek (data : list A) : option A := data !! 0%nat.

(** [[data[i], data[j]] = [data[j], data[i]]] *)
Definition swap (data : list A) (i j : nat) : list A :=
  match data !! i, data !! j with
  | Some x, Some y => <[j := x]> (<[i := y]> data)
  | _, _ => data
  end.

(** [compareFn(data[i], data[j]) > 0], both indices inside the array. *)
Definition greaterAt (data : list A) (i j : nat) : bool :=
  match data !! i, data !! j with
  | Some x, Some y => 0 <? compareFn x y
  | _, _ => false
  end.

(** The loop of [bubbleUp] moves [index] to its parent, so it runs at most
    [index] times. *)
Fixpoint bubbleUpFuel (fuel : nat) (data : list A) (index : nat) : list A :=
  match fuel with
  | O => data
  | S f =>
      if (0 <? index)%nat then
        let parent := ((index - 1) / 2)%nat in
        if greaterAt data index parent
        then bubbleUpFuel f (swap data index parent) parent
        else data
      else data
  end.

Definition bubbleUp (data : list A) (index : nat) : list A :=
  bubbleUpFuel index data index.

Definition push (data : list A) (value : A) : list A :=
  let data := data ++ [value] in
  bubbleUp data (length data - 1).

(** The loop of [bubbleDown] moves [index] to a child, so it runs at most
    [data.length] times. *)
Fixpoint bubbleDownFuel (fuel : nat) (data : list A) (index : nat) : list A :=
  match fuel with
  | O => data
  | S f =>
      let length := length data in
      let largest := index in
      let left := (2 * index + 1)%nat in
      let right := (2 * index + 2)%nat in
      let largest :=
        if (left <? length)%nat && greaterAt data left largest then left else largest in
      let largest :=
        if (right <? length)%nat && greaterAt data right largest then right else largest in
      if (largest =? index)%nat then data
      else bubbleDownFuel f (swap data index largest) largest
  end.

Definition bubbleDown (data : list A) (index : nat) : list A :=
  bubbleDownFuel (length data) data index.

(** [pop] returns the top and leaves the rest in the heap. *)
Definition pop (data : list A) : option A * list A :=
  match data !! 0%nat, data !! (length data - 1)%nat with
  | Some top, Some last =>
      let data := take (length data - 1) data in
      if (0 <? length data)%nat
      then (Some top, bubbleDown (<[0%nat := last]> data) 0)
      else (Some top, data)
  | _, _ => (None, data)
  end.

End Heap.

End BinaryHeap.

(** ** The rule engine *)

Module Engine.

Import Js JsNumber JsValue.

Definition MAX_RECORDS : Z := 1000000.
Definition MAX_AMOUNT_RUPEES : Z := 500000.
Definition MAX_AMOUNT_PAISE : Z := MAX_AMOUNT_RUPEES * 100.

(** *** Input records

    A field that the JSON object does not have reads as [JUndefined]; an
    array element that is not an object reads as the record whose fields
    are all [JUndefined], which is what [record?.field] yields for it. *)
Record RawTransaction : Type := {
  raw_timestamp : value;
  raw_date : value;
  raw_amount : value;
  raw_ceiling : value;
  raw_remanent : value
}.

Record RawPeriod : Type := {
  raw_id : value;
  raw_fixed : value;
  raw_extra : value;
  raw_start : value;
  raw_end : value
}.

(** A payload field that should hold an array: absent ([undefined] or
    [null], which [??] replaces), some other value, or an array. *)
Inductive field (A : Type) : Type :=
| Absent
| NotArray
| Items (items : list A).
Arguments Absent {A}.
Arguments NotArray {A}.
Arguments Items {A} items.

Record Payload : Type := {
  transactions : field RawTransaction;
  q : field RawPeriod;
  p : field RawPeriod;
  k : field RawPeriod;
  wage : value;
  age : value;
  inflation : value
}.

(** *** Engine records *)

Record Transaction : Type := {
  timestamp : string;
  epochSeconds : Z;
  amountPaise : Z;
  ceilingPaise : Z;
  remanentBasePaise : Z;
  remanentFinalPaise : Z;
  inputIndex : nat
}.

Definition setRemanentFinal (tx : Transaction) (v : Z) : Transaction :=
  {| timestamp := timestamp tx;
     epochSeconds := epochSeconds tx;
     amountPaise := amountPaise tx;
     ceilingPaise := ceilingPaise tx;
     remanentBasePaise := remanentBasePaise tx;
     remanentFinalPaise := v;
     inputIndex := inputIndex tx |}.

Record QPeriod : Type := {
  q_id : value;
  fixedPaise : Z;
  q_start : Z;
  q_end : Z;
  inputOrder : nat
}.

Record PPeriod : Type := {
  p_id : value;
  extraPaise : Z;
  p_start : Z;
  p_end : Z
}.

Record KPeriod : Type := {
  k_id : value;
  k_start : Z;
  k_end : Z;
  startText : value;
  endText : value;
  k_inputOrder : nat
}.

Record SerializedTransaction : Type := {
  s_timestamp : string;
  s_amount : Number;
  s_ceiling : Number;
  s_remanent : Number;
  s_remanentBase : Number;
  s_remanentFinal : Number
}.

Record InvalidTransaction : Type := {
  inv_transaction : RawTransaction + SerializedTransaction;
  inv_code : string;
  inv_message : string
}.

Record Saving : Type := {
  sv_start : value;
  sv_end : value;
  sv_amountPaise : Z
}.

(** *** Parsing *)

Definition assertArray {A : Type} (v : field A) (fieldName : string) : result (list A) :=
  match v with
  | Items l =>
      if MAX_RECORDS <? Z.of_nat (length l) then
        Err (ApiError 400 (fieldName ++ " cannot exceed "
                             ++ intToString MAX_RECORDS ++ " records"))
      else Ok l
  | _ => Err (ApiError 400 (fieldName ++ " must be an array"))
  end.

(** [value ?? []] *)
Definition orEmpty {A : Type} (v : field A) : field A :=
  match v with
  | Absent => Items []
  | _ => v
  end.

Definition getTimestampField (record : RawTransaction) : result string :=
  Time.parseTimestampLike (raw_timestamp record) (raw_date record) "timestamp".

Definition parseNumericField (raw : value) (path : string) : result Z :=
  match Money.parseMoney raw with
  | Ok v => Ok v
  | Err e => Err (ApiError 400 (path ++ " " ++ errorMessage e))
  end.

Definition parsePeriodTimestamp (raw : value) (path : string) : result Z :=
  match Time.parseTimestampToEpochSeconds raw path with
  | Ok v => Ok v
  | Err e => Err (ApiError 400 (errorMessage e))
  end.

Definition indexed (name : string) (index : nat) : string :=
  (name ++ "[" ++ intToString (Z.of_nat index) ++ "]")%string.

Definition buildTransactionFromExpense (expense : RawTransaction) (index : nat)
  : result Transaction :=
  let path := indexed "expenses" index in
  bind (match getTimestampField expense with
        | Ok t => Ok t
        | Err e => Err (ApiError 400 (path ++ "." ++ errorMessage e))
        end) (fun timestamp =>
  bind (match Time.parseTimestampToEpochSeconds (JStr timestamp) (path ++ ".timestamp") with
        | Ok s => Ok s
        | Err e => Err (ApiError 400 (errorMessage e))
        end) (fun epochSeconds =>
  bind (parseNumericField (raw_amount expense) (path ++ ".amount")) (fun amountPaise =>
  bind (Money.validateMoneyRange amountPaise 0 MAX_AMOUNT_PAISE (path ++ ".amount")) (fun _ =>
  let ceilingPaise := Money.ceilTo100 amountPaise in
  let remanentBasePaise := ceilingPaise - amountPaise in
  Ok {| timestamp := timestamp;
        epochSeconds := epochSeconds;
        amountPaise := amountPaise;
        ceilingPaise := ceilingPaise;
        remanentBasePaise := remanentBasePaise;
        remanentFinalPaise := remanentBasePaise;
        inputIndex := index |})))).

Definition parseTransactionInput (transaction : RawTransaction) (index : nat)
    (sourceField : string) : result Transaction :=
  let txPath := indexed sourceField index in
  bind (match getTimestampField transaction with
        | Ok t => Ok t
        | Err e => Err (ApiError 400 (txPath ++ "." ++ errorMessage e))
        end) (fun timestamp =>
  bind (match Time.parseTimestampToEpochSeconds (JStr timestamp) (txPath ++ ".timestamp") with
        | Ok s => Ok s
        | Err e => Err (ApiError 400 (errorMessage e))
        end) (fun epochSeconds =>
  bind (parseNumericField (raw_amount transaction) (txPath ++ ".amount")) (fun amountPaise =>
  bind (Money.validateMoneyRange amountPaise 0 MAX_AMOUNT_PAISE (txPath ++ ".amount")) (fun _ =>
  bind (if negb (isUndefined (raw_ceiling transaction))
        then parseNumericField (raw_ceiling transaction) (txPath ++ ".ceiling")
        else Ok (Money.ceilTo100 amountPaise)) (fun ceilingPaise =>
  if ceilingPaise <? amountPaise then
    Err (ApiError 400 (txPath ++ ".ceiling cannot be less than amount"))
  else
    let hundredPaise := 10000 in
    if negb (Z.rem ceilingPaise hundredPaise =? 0) then
      Err (ApiError 400 (txPath ++ ".ceiling must be a multiple of 100"))
    else
      let remanentBasePaise := ceilingPaise - amountPaise in
      Ok {| timestamp := timestamp;
            epochSeconds := epochSeconds;
            amountPaise := amountPaise;
            ceilingPaise := ceilingPaise;
            remanentBasePaise := remanentBasePaise;
            remanentFinalPaise := remanentBasePaise;
            inputIndex := index |}))))).

Definition serializeTransaction (transaction : Transaction) : SerializedTransaction :=
  {| s_timestamp := timestamp transaction;
     s_amount := Money.moneyToFixed2 (amountPaise transaction);
     s_ceiling := Money.moneyToFixed2 (ceilingPaise transaction);
     s_remanent := Money.moneyToFixed2 (remanentFinalPaise transaction);
     s_remanentBase := Money.moneyToFixed2 (remanentBasePaise transaction);
     s_remanentFinal := Money.moneyToFixed2 (remanentFinalPaise transaction) |}.

Definition buildInvalidTransaction (record : RawTransaction + SerializedTransaction)
    (code message : string) : InvalidTransaction :=
  {| inv_transaction := record; inv_code := code; inv_message := message |}.

(** [array.map((item, index) => f(item, index))] where [f] may throw. *)
Fixpoint mapIndexed {A B : Type} (f : A -> nat -> result B) (l : list A) (index : nat)
  : result (list B) :=
  match l with
  | [] => Ok []
  | x :: rest =>
      bind (f x index) (fun y =>
      bind (mapIndexed f rest (S index)) (fun ys => Ok (y :: ys)))
  end.

(** [period?.id ?? fallback] *)
Definition idOr (id : value) (fallback : string) : value :=
  match id with
  | JUndefined | JNull => JStr fallback
  | _ => id
  end.

Definition parseQPeriod (period : RawPeriod) (index : nat) : result QPeriod :=
  let path := indexed "q" index in
  bind (parseNumericField (raw_fixed period) (path ++ ".fixed")) (fun fixedPaise =>
  bind (Money.validateMoneyRange fixedPaise 0 MAX_AMOUNT_PAISE (path ++ ".fixed")) (fun _ =>
  bind (parsePeriodTimestamp (raw_start period) (path ++ ".start")) (fun start =>
  bind (parsePeriodTimestamp (raw_end period) (path ++ ".end")) (fun end_ =>
  if end_ <? start then Err (ApiError 400 (path ++ " start cannot be after end"))
  else Ok {| q_id := idOr (raw_id period) ("q-" ++ intToString (Z.of_nat index));
             fixedPaise := fixedPaise;
             q_start := start;
             q_end := end_;
             inputOrder := index |})))).

Definition parseQPeriods (periods : list RawPeriod) : result (list QPeriod) :=
  mapIndexed parseQPeriod periods 0.

Definition parsePPeriod (period : RawPeriod) (index : nat) : result PPeriod :=
  let path := indexed "p" index in
  bind (parseNumericField (raw_extra period) (path ++ ".extra")) (fun extraPaise =>
  bind (Money.validateMoneyRange extraPaise 0 MAX_AMOUNT_PAISE (path ++ ".extra")) (fun _ =>
  bind (parsePeriodTimestamp (raw_start period) (path ++ ".start")) (fun start =>
  bind (parsePeriodTimestamp (raw_end period) (path ++ ".end")) (fun end_ =>
  if end_ <? start then Err (ApiError 400 (path ++ " start cannot be after end"))
  else Ok {| p_id := idOr (raw_id period) ("p-" ++ intToString (Z.of_nat index));
             extraPaise := extraPaise;
             p_start := start;
             p_end := end_ |})))).

Definition parsePPeriods (periods : list RawPeriod) : result (list PPeriod) :=
  mapIndexed parsePPeriod periods 0.

Definition parseKPeriod (period : RawPeriod) (index : nat) : result KPeriod :=
  let path := indexed "k" index in
  bind (parsePeriodTimestamp (raw_start period) (path ++ ".start")) (fun start =>
  bind (parsePeriodTimestamp (raw_end period) (path ++ ".end")) (fun end_ =>
  if end_ <? start then Err (ApiError 400 (path ++ " start cannot be after end"))
  else Ok {| k_id := idOr (raw_id period) ("k-" ++ intToString (Z.of_nat index));
             k_start := start;
             k_end := end_;
             startText := raw_start period;
             endText := raw_end period;
             k_inputOrder := index |})).

Definition parseKPeriods (periods : list RawPeriod) : result (list KPeriod) :=
  mapIndexed parseKPeriod periods 0.


(** *** Override periods (q) *)

(** The comparator of [sortedQ]. *)
Definition compareQSort (a b : QPeriod) : Z :=
  if negb (q_start a =? q_start b) then q_start a - q_start b
  else Z.of_nat (inputOrder a) - Z.of_nat (inputOrder b).

(** The comparator of the heap: higher priority to first input occurrence. *)
Definition compareQHeap (a b : QPeriod) : Z :=
  if negb (q_start a =? q_start b) then q_start a - q_start b
  else Z.of_nat (inputOrder b) - Z.of_nat (inputOrder a).

(** [while (qPointer < sortedQ.length && sortedQ[qPointer].start <= ts)]:
    [pending] is [sortedQ] from [qPointer] on. *)
Fixpoint admitStarted (pending heap : list QPeriod) (ts : Z) : list QPeriod * list QPeriod :=
  match pending with
  | period :: rest =>
      if q_start period <=? ts
      then admitStarted rest (BinaryHeap.push compareQHeap heap period) ts
      else (pending, heap)
  | [] => (pending, heap)
  end.

(** [while (heap.size() > 0 && heap.peek().end < ts) heap.pop()]: every
    round removes an element, so the loop runs at most [heap.size()] times. *)
Fixpoint evictFuel (fuel : nat) (heap : list QPeriod) (ts : Z) : list QPeriod :=
  match fuel with
  | O => heap
  | S f =>
      match BinaryHeap.peek heap with
      | Some top =>
          if q_end top <? ts
          then evictFuel f (snd (BinaryHeap.pop compareQHeap heap)) ts
          else heap
      | None => heap
      end
  end.

Definition evict (heap : list QPeriod) (ts : Z) : list QPeriod :=
  evictFuel (BinaryHeap.size heap) heap ts.

Record QState : Type := {
  qs_transactions : list Transaction;
  qs_pending : list QPeriod;
  qs_heap : list QPeriod
}.

(** One round of the loop over [sortedTransactionIndices]. *)
Definition applyQStep (st : QState) (txIndex : nat) : QState :=
  match qs_transactions st !! txIndex with
  | Some tx =>
      let ts := epochSeconds tx in
      let '(pending, heap) := admitStarted (qs_pending st) (qs_heap st) ts in
      let heap := evict heap ts in
      let final :=
        match BinaryHeap.peek heap with
        | Some top => fixedPaise top
        | None => remanentBasePaise tx
        end in
      {| qs_transactions := <[txIndex := setRemanentFinal tx final]> (qs_transactions st);
         qs_pending := pending;
         qs_heap := heap |}
  | None => st
  end.

Definition applyQPeriods (transactions : list Transaction) (qPeriods : list QPeriod)
    (sortedTransactionIndices : list nat) : list Transaction :=
  match qPeriods with
  | [] => transactions
  | _ =>
      let sortedQ := JsArray.sort compareQSort qPeriods in
      qs_transactions
        (fold_left applyQStep sortedTransactionIndices
           {| qs_transactions := transactions; qs_pending := sortedQ; qs_heap := [] |})
  end.

(** *** Additive periods (p) *)

Record Event : Type := { time : Z; delta : Z }.

Definition periodEvents (period : PPeriod) : list Event :=
  [ {| time := p_start period; delta := extraPaise period |};
    {| time := p_end period + 1; delta := - extraPaise period |} ].

(** [while (eventPointer < events.length && events[eventPointer].time <= ts)]:
    [events] is the array from [eventPointer] on. *)
Fixpoint consume (events : list Event) (activeExtra ts : Z) : list Event * Z :=
  match events with
  | event :: rest =>
      if time event <=? ts then consume rest (activeExtra + delta event) ts
      else (events, activeExtra)
  | [] => (events, activeExtra)
  end.

Record PState : Type := {
  ps_transactions : list Transaction;
  ps_events : list Event;
  ps_activeExtra : Z
}.

Definition applyPStep (st : PState) (txIndex : nat) : PState :=
  match ps_transactions st !! txIndex with
  | Some tx =>
      let ts := epochSeconds tx in
      let '(events, activeExtra) := consume (ps_events st) (ps_activeExtra st) ts in
      {| ps_transactions :=
           <[txIndex := setRemanentFinal tx (remanentFinalPaise tx + activeExtra)]>
             (ps_transactions st);
         ps_events := events;
         ps_activeExtra := activeExtra |}
  | None => st
  end.

Definition applyPPeriods (transactions : list Transaction) (pPeriods : list PPeriod)
    (sortedTransactionIndices : list nat) : list Transaction :=
  match pPeriods with
  | [] => transactions
  | _ =>
      let events := flat_map periodEvents pPeriods in
      let events := JsArray.sort (fun a b => time a - time b) events in
      ps_transactions
        (fold_left applyPStep sortedTransactionIndices
           {| ps_transactions := transactions; ps_events := events; ps_activeExtra := 0 |})
  end.

(** *** Aggregation windows (k) *)

(** The loops of [lowerBound] and [upperBound] shrink [right - left], so
    they run at most [array.length] times. *)
Fixpoint lowerBoundFuel (fuel : nat) (array : list Z) (target : Z) (left right : nat) : nat :=
  match fuel with
  | O => left
  | S f =>
      if (left <? right)%nat then
        let mid := ((left + right) / 2)%nat in
        match array !! mid with
        | Some v =>
            if v <? target then lowerBoundFuel f array target (mid + 1) right
            else lowerBoundFuel f array target left mid
        | None => left
        end
      else left
  end.

Definition lowerBound (array : list Z) (target : Z) : nat :=
  lowerBoundFuel (length array) array target 0 (length array).

Fixpoint upperBoundFuel (fuel : nat) (array : list Z) (target : Z) (left right : nat) : nat :=
  match fuel with
  | O => left
  | S f =>
      if (left <? right)%nat then
        let mid := ((left + right) / 2)%nat in
        match array !! mid with
        | Some v =>
            if v <=? target then upperBoundFuel f array target (mid + 1) right
            else upperBoundFuel f array target left mid
        | None => left
        end
      else left
  end.

Definition upperBound (array : list Z) (target : Z) : nat :=
  upperBoundFuel (length array) array target 0 (length array).

(** [prefix[0] = acc] and [prefix[i + 1] = prefix[i] + values[i]]. *)
Fixpoint prefixFrom (acc : Z) (values : list Z) : list Z :=
  acc :: match values with
         | [] => []
         | v :: rest => prefixFrom (acc + v) rest
         end.

(** [prefix[i]]; both indices the engine reads are inside the array. *)
Definition at0 (prefix : list Z) (i : nat) : Z := default 0 (prefix !! i).

Definition buildSavingsByKPeriods (transactions : list Transaction) (kPeriods : list KPeriod)
  : list Saving :=
  let sortedTransactions :=
    JsArray.sort (fun a b => epochSeconds a - epochSeconds b) transactions in
  let times := map epochSeconds sortedTransactions in
  let prefix := prefixFrom 0 (map remanentFinalPaise sortedTransactions) in
  map (fun period =>
         let left := lowerBound times (k_start period) in
         let rightExclusive := upperBound times (k_end period) in
         let sum := at0 prefix rightExclusive - at0 prefix left in
         {| sv_start := startText period; sv_end := endText period; sv_amountPaise := sum |})
      kPeriods.

(** *** The pipeline *)

Record SavingByDates : Type := {
  sd_start : value;
  sd_end : value;
  sd_amount : Number;
  sd_amountPaise : Z
}.

(** The transactions are updated in place; the function returns them next
    to [savingsByDates]. *)
Definition applyTemporalRules (validTransactions : list Transaction)
    (qPeriods : list QPeriod) (pPeriods : list PPeriod) (kPeriods : list KPeriod)
  : list Transaction * list SavingByDates :=
  let sortedTransactionIndices :=
    JsArray.sort
      (fun a b =>
         match validTransactions !! a, validTransactions !! b with
         | Some ta, Some tb => epochSeconds ta - epochSeconds tb
         | _, _ => 0
         end)
      (seq 0 (length validTransactions)) in
  let validTransactions := applyQPeriods validTransactions qPeriods sortedTransactionIndices in
  let validTransactions := applyPPeriods validTransactions pPeriods sortedTransactionIndices in
  let savingsByDates :=
    map (fun entry =>
           {| sd_start := sv_start entry;
              sd_end := sv_end entry;
              sd_amount := Money.moneyToFixed2 (sv_amountPaise entry);
              sd_amountPaise := sv_amountPaise entry |})
        (buildSavingsByKPeriods validTransactions kPeriods) in
  (validTransactions, savingsByDates).

(** *** The batch paths *)

Definition duplicateMessage (first : nat) : string :=
  ("Duplicate timestamp with " ++ indexed "transactions" first)%string.

Record Validation : Type := {
  v_valid : list Transaction;
  v_invalid : list InvalidTransaction;
  v_duplicates : list SerializedTransaction;
  v_seen : gmap string nat
}.

(** The loop of [parseAndValidateTransactionsForValidation] from record [i]
    on.  An exception that is not an [ApiError] leaves the loop, and so does
    the [ApiError] of a malformed [remanent], which no handler catches. *)
Fixpoint validationLoop (rawTransactions : list RawTransaction) (i : nat) (st : Validation)
  : result Validation :=
  match rawTransactions with
  | [] => Ok st
  | raw :: rest =>
      match parseTransactionInput raw i "transactions" with
      | Err e =>
          if isApiError e then
            validationLoop rest (S i)
              {| v_valid := v_valid st;
                 v_invalid := v_invalid st ++
                   [buildInvalidTransaction (inl raw) "INVALID_TRANSACTION" (errorMessage e)];
                 v_duplicates := v_duplicates st;
                 v_seen := v_seen st |}
          else Err e
      | Ok tx =>
          let serialized := serializeTransaction tx in
          match v_seen st !! timestamp tx with
          | Some first =>
              validationLoop rest (S i)
                {| v_valid := v_valid st;
                   v_invalid := v_invalid st ++
                     [buildInvalidTransaction (inr serialized) "DUPLICATE_TIMESTAMP"
                        (duplicateMessage first)];
                   v_duplicates := v_duplicates st ++ [serialized];
                   v_seen := v_seen st |}
          | None =>
              let seen := <[timestamp tx := i]> (v_seen st) in
              bind (if negb (isUndefined (raw_remanent raw))
                    then
                      bind (parseNumericField (raw_remanent raw)
                              (indexed "transactions" i ++ ".remanent"))
                        (fun remanentPaise =>
                           Ok (negb (remanentPaise =? remanentBasePaise tx)))
                    else Ok false) (fun mismatch =>
              if mismatch : bool then
                validationLoop rest (S i)
                  {| v_valid := v_valid st;
                     v_invalid := v_invalid st ++
                       [buildInvalidTransaction (inr serialized) "REMANENT_MISMATCH"
                          "remanent must equal ceiling - amount"];
                     v_duplicates := v_duplicates st;
                     v_seen := seen |}
              else
                validationLoop rest (S i)
                  {| v_valid := v_valid st ++ [tx];
                     v_invalid := v_invalid st;
                     v_duplicates := v_duplicates st;
                     v_seen := seen |})
          end
      end
  end.

Definition parseAndValidateTransactionsForValidation (payload : Payload)
  : result (list Transaction * list InvalidTransaction * list SerializedTransaction) :=
  bind (assertArray (transactions payload) "transactions") (fun rawTransactions =>
  bind (validationLoop rawTransactions 0
          {| v_valid := []; v_invalid := []; v_duplicates := []; v_seen := ∅ |}) (fun st =>
  Ok (v_valid st, v_invalid st, v_duplicates st))).

Record ValidatorResponse : Type := {
  vr_valid : list SerializedTransaction;
  vr_invalid : list InvalidTransaction;
  vr_duplicates : list SerializedTransaction
}.

Definition validateTransactions (payload : Payload) : result ValidatorResponse :=
  bind (parseNumericField (wage payload) "wage") (fun _ =>
  bind (parseAndValidateTransactionsForValidation payload) (fun '(valid, invalid, duplicates) =>
  Ok {| vr_valid := map serializeTransaction valid;
        vr_invalid := invalid;
        vr_duplicates := duplicates |})).

Record Filtering : Type := {
  f_validTransactions : list Transaction;
  f_invalid : list InvalidTransaction;
  f_seen : gmap string nat
}.

(** The loop of [parseForFiltering] from record [i] on. *)
Fixpoint filteringLoop (rawTransactions : list RawTransaction) (i : nat) (st : Filtering)
  : result Filtering :=
  match rawTransactions with
  | [] => Ok st
  | raw :: rest =>
      match parseTransactionInput raw i "transactions" with
      | Err e =>
          if isApiError e then
            filteringLoop rest (S i)
              {| f_validTransactions := f_validTransactions st;
                 f_invalid := f_invalid st ++
                   [buildInvalidTransaction (inl raw) "INVALID_TRANSACTION" (errorMessage e)];
                 f_seen := f_seen st |}
          else Err e
      | Ok tx =>
          match f_seen st !! timestamp tx with
          | Some first =>
              filteringLoop rest (S i)
                {| f_validTransactions := f_validTransactions st;
                   f_invalid := f_invalid st ++
                     [buildInvalidTransaction (inl raw) "DUPLICATE_TIMESTAMP"
                        (duplicateMessage first)];
                   f_seen := f_seen st |}
          | None =>
              filteringLoop rest (S i)
                {| f_validTransactions := f_validTransactions st ++ [tx];
                   f_invalid := f_invalid st;
                   f_seen := <[timestamp tx := i]> (f_seen st) |}
          end
      end
  end.

Record Parsed : Type := {
  validTransactions : list Transaction;
  invalid : list InvalidTransaction;
  qPeriods : list QPeriod;
  pPeriods : list PPeriod;
  kPeriods : list KPeriod
}.

Definition parseForFiltering (payload : Payload) : result Parsed :=
  bind (assertArray (transactions payload) "transactions") (fun rawTransactions =>
  bind (assertArray (orEmpty (q payload)) "q") (fun rawQ =>
  bind (assertArray (orEmpty (p payload)) "p") (fun rawP =>
  bind (assertArray (orEmpty (k payload)) "k") (fun rawK =>
  bind (filteringLoop rawTransactions 0
          {| f_validTransactions := []; f_invalid := []; f_seen := ∅ |}) (fun st =>
  bind (parseQPeriods rawQ) (fun qPeriods =>
  bind (parsePPeriods rawP) (fun pPeriods =>
  bind (parseKPeriods rawK) (fun kPeriods =>
  Ok {| validTransactions := f_validTransactions st;
        invalid := f_invalid st;
        qPeriods := qPeriods;
        pPeriods := pPeriods;
        kPeriods := kPeriods |})))))))).

Record Filtered : Type := {
  fd_validTransactions : list Transaction;
  fd_invalid : list InvalidTransaction;
  fd_savingsByDates : list SavingByDates
}.

Definition processFiltering (payload : Payload) : result Filtered :=
  bind (parseForFiltering payload) (fun parsed =>
  let '(validTransactions, savingsByDates) :=
    applyTemporalRules (validTransactions parsed) (qPeriods parsed)
      (pPeriods parsed) (kPeriods parsed) in
  Ok {| fd_validTransactions := validTransactions;
        fd_invalid := invalid parsed;
        fd_savingsByDates := savingsByDates |}).

Record FilterResponse : Type := {
  fr_valid : list SerializedTransaction;
  fr_invalid : list InvalidTransaction;
  fr_savingsByDates : list (value * value * Number);
  fr_transactionsTotalAmount : Number;
  fr_transactionsTotalCeiling : Number;
  fr_transactionsTotalRemanent : Number
}.

Definition sumOf (f : Transaction -> Z) (l : list Transaction) : Z :=
  fold_left (fun acc tx => acc + f tx) l 0.

Definition filterTransactions (payload : Payload) : result FilterResponse :=
  bind (processFiltering payload) (fun r =>
  Ok {| fr_valid := map serializeTransaction (fd_validTransactions r);
        fr_invalid := fd_invalid r;
        fr_savingsByDates :=
          map (fun e => (sd_start e, sd_end e, sd_amount e)) (fd_savingsByDates r);
        fr_transactionsTotalAmount :=
          Money.moneyToFixed2 (sumOf amountPaise (fd_validTransactions r));
        fr_transactionsTotalCeiling :=
          Money.moneyToFixed2 (sumOf ceilingPaise (fd_validTransactions r));
        fr_transactionsTotalRemanent :=
          Money.moneyToFixed2 (sumOf remanentFinalPaise (fd_validTransactions r)) |}).

(** *** The parse operation *)

(** The payload of [parseTransactions], of which it reads [expenses]. *)
Record ParsePayload : Type := {
  expenses : field RawTransaction
}.

Record ParseResponse : Type := {
  pr_transactions : list SerializedTransaction;
  pr_transactionsTotalAmount : Number;
  pr_transactionsTotalCeiling : Number;
  pr_transactionsTotalRemanent : Number
}.

Definition parseTransactions (payload : ParsePayload) : result ParseResponse :=
  bind (assertArray (expenses payload) "expenses") (fun expenses =>
  bind (mapIndexed buildTransactionFromExpense expenses 0) (fun transactions =>
  let totalAmount := sumOf amountPaise transactions in
  let totalCeiling := sumOf ceilingPaise transactions in
  let totalRemanent := sumOf remanentBasePaise transactions in
  Ok {| pr_transactions := map serializeTransaction transactions;
        pr_transactionsTotalAmount := Money.moneyToFixed2 totalAmount;
        pr_transactionsTotalCeiling := Money.moneyToFixed2 totalCeiling;
        pr_transactionsTotalRemanent := Money.moneyToFixed2 totalRemanent |})).

(** *** Returns

    [calculateReturns] validates the instrument, the age, the inflation and
    the wage, runs [processFiltering] and enriches every window.  The
    arithmetic on Numbers of [parseAge], [normalizeInflation] and of the
    enrichment of one window does not matter to how the operation reads the
    payload, and is left open here. *)
Section Returns.

Variable parseAge : value -> result Number.
Variable normalizeInflation : value -> result Number.
Variable EnrichedSaving : Type.
Variable enrich : string -> Number -> Number -> Z -> SavingByDates -> EnrichedSaving.

Record ReturnsResponse : Type := {
  rr_transactionsTotalAmount : Number;
  rr_transactionsTotalCeiling : Number;
  rr_transactionsTotalRemanent : Number;
  rr_savingsByDates : list EnrichedSaving
}.

Definition calculateReturns (payload : Payload) (instrument : string)
  : result ReturnsResponse :=
  if negb (String.eqb instrument "nps") && negb (String.eqb instrument "index") then
    Err (ApiError 500 "Unsupported instrument")
  else
    bind (parseAge (age payload)) (fun age =>
    bind (normalizeInflation (inflation payload)) (fun inflationRate =>
    bind (parseNumericField (wage payload) "wage") (fun wagePaise =>
    if wagePaise <=? 0 then Err (ApiError 400 "wage must be greater than 0")
    else
      bind (processFiltering payload) (fun r =>
      Ok {| rr_transactionsTotalAmount :=
              Money.moneyToFixed2 (sumOf amountPaise (fd_validTransactions r));
            rr_transactionsTotalCeiling :=
              Money.moneyToFixed2 (sumOf ceilingPaise (fd_validTransactions r));
            rr_transactionsTotalRemanent :=
              Money.moneyToFixed2 (sumOf remanentFinalPaise (fd_validTransactions r));
            rr_savingsByDates :=
              map (enrich instrument age inflationRate wagePaise) (fd_savingsByDates r) |})))).

End Returns.

Arguments rr_transactionsTotalAmount {EnrichedSaving} _.
Arguments rr_transactionsTotalCeiling {EnrichedSaving} _.
Arguments rr_transactionsTotalRemanent {EnrichedSaving} _.
Arguments rr_savingsByDates {EnrichedSaving} _.
Arguments calculateReturns parseAge normalizeInflation {EnrichedSaving} enrich payload instrument.

End Engine.

(** * Specification-level definitions *)

(** ** Rounding *)

(** [r] is the smallest multiple of [unit] that is at least [v]. *)
Definition leastMultipleAtLeast (unit v r : Z) : Prop :=
  r mod unit = 0 /\ v <= r /\ forall r', r' mod unit = 0 -> v <= r' -> r <= r'.

(** The largest amount of minor units, in absolute value, whose display
    value reads back: up to [2^46] whole units the Numbers are spaced by
    less than one hundredth. *)
Definition displayLimit : Z := 2 ^ 46 * 100.

(** ** The calendar *)

(** The Gregorian calendar, stated without reference to [Date]. *)
Definition isLeapYear (y : Z) : bool :=
  ((y mod 4 =? 0) && negb (y mod 100 =? 0)) || (y mod 400 =? 0).

Definition daysInMonth (y m : Z) : Z :=
  if (m =? 4) || (m =? 6) || (m =? 9) || (m =? 11) then 30
  else if m =? 2 then (if isLeapYear y then 29 else 28)
  else 31.

(** Days from 1970-01-01 to the civil date [y]-[m]-[d], by the usual
    era / year-of-era / day-of-year computation on years that start in
    March. *)
Definition daysFromCivil (y m d : Z) : Z :=
  let y' := if m <=? 2 then y - 1 else y in
  let era := y' / 400 in
  let yoe := y' - era * 400 in
  let mp := if m <=? 2 then m + 9 else m - 3 in
  let doy := (153 * mp + 2) / 5 + d - 1 in
  let doe := yoe * 365 + yoe / 4 - yoe / 100 + doy in
  era * 146097 + doe - 719468.

(** Seconds from 1970-01-01 00:00:00 UTC to the civil date and time. *)
Definition civilSeconds (y m d h mi s : Z) : Z :=
  daysFromCivil y m d * 86400 + h * 3600 + mi * 60 + s.

(** ** Timestamps *)

(** The numeric fields of a matched timestamp. *)
Definition fieldYear (f : Time.Fields) : Z := Js.digitsValue (Time.yearText f).
Definition fieldMonth (f : Time.Fields) : Z := Js.digitsValue (Time.monthText f).
Definition fieldDay (f : Time.Fields) : Z := Js.digitsValue (Time.dayText f).
Definition fieldHour (f : Time.Fields) : Z := Js.digitsValue (Time.hourText f).
Definition fieldMinute (f : Time.Fields) : Z := Js.digitsValue (Time.minuteText f).
Definition fieldSecond (f : Time.Fields) : Z := Js.digitsValue (Time.secondText f).

(** The fields name a real date and time of the Gregorian calendar, in a
    year from 100 on ([Date.UTC] reads the years 0 to 99 as 1900 to 1999,
    so no timestamp of those years survives the check of the parser). *)
Definition validFields (f : Time.Fields) : Prop :=
  100 <= fieldYear f
  /\ 1 <= fieldMonth f <= 12
  /\ 1 <= fieldDay f <= daysInMonth (fieldYear f) (fieldMonth f)
  /\ fieldHour f <= 23
  /\ fieldMinute f <= 59
  /\ fieldSecond f <= 59.

(** Seconds from the epoch to the fields read as a UTC date and time. *)
Definition fieldsSeconds (f : Time.Fields) : Z :=
  civilSeconds (fieldYear f) (fieldMonth f) (fieldDay f)
    (fieldHour f) (fieldMinute f) (fieldSecond f).

(** The text the pattern stands for. *)
Definition fieldsText (f : Time.Fields) : string :=
  (Time.yearText f ++ "-" ++ Time.monthText f ++ "-" ++ Time.dayText f ++ " "
     ++ Time.hourText f ++ ":" ++ Time.minuteText f ++ ":" ++ Time.secondText f)%string.

(** Every group has the digits the pattern asks for. *)
Definition wellFormedFields (f : Time.Fields) : Prop :=
  (String.length (Time.yearText f) = 4%nat /\ Js.allDigits (Time.yearText f) = true)
  /\ (String.length (Time.monthText f) = 2%nat /\ Js.allDigits (Time.monthText f) = true)
  /\ (String.length (Time.dayText f) = 2%nat /\ Js.allDigits (Time.dayText f) = true)
  /\ (String.length (Time.hourText f) = 2%nat /\ Js.allDigits (Time.hourText f) = true)
  /\ (String.length (Time.minuteText f) = 2%nat /\ Js.allDigits (Time.minuteText f) = true)
  /\ (String.length (Time.secondText f) = 2%nat /\ Js.allDigits (Time.secondText f) = true).

(** The calendar check of the parser, as a boolean. *)
Definition survivesNormalization (f : Time.Fields) : bool :=
  let utcMs :=
    Time.DateUTC (fieldYear f) (fieldMonth f - 1) (fieldDay f)
      (fieldHour f) (fieldMinute f) (fieldSecond f) in
  (Time.getUTCFullYear utcMs =? fieldYear f)
  && (Time.getUTCMonth utcMs + 1 =? fieldMonth f)
  && (Time.getUTCDate utcMs =? fieldDay f)
  && (Time.getUTCHours utcMs =? fieldHour f)
  && (Time.getUTCMinutes utcMs =? fieldMinute f)
  && (Time.getUTCSeconds utcMs =? fieldSecond f).

(** ** Proof automation *)

(** Case analysis on the conditionals of the goal, innermost first. *)
Ltac case_ifs :=
  repeat (match goal with
          | |- context [if ?b then _ else _] =>
              lazymatch b with
              | context [if _ then _ else _] => fail
              | _ => destruct b eqn:?
              end
          | H : context [if ?b then _ else _] |- _ =>
              lazymatch b with
              | context [if _ then _ else _] => fail
              | _ => destruct b eqn:?
              end
          end; cbv beta iota in *).

(** The same, computing the conditions that are closed terms. *)
Ltac case_ifs_simpl :=
  simpl;
  repeat (match goal with
          | |- context [if ?b then _ else _] =>
              lazymatch b with
              | context [if _ then _ else _] => fail
              | _ => destruct b eqn:?
              end
          end; simpl).

(** The twelve months, one goal each. *)
Ltac month_cases m :=
  let H := fresh in
  assert (H : m = 1 \/ m = 2 \/ m = 3 \/ m = 4 \/ m = 5 \/ m = 6 \/ m = 7 \/ m = 8
              \/ m = 9 \/ m = 10 \/ m = 11 \/ m = 12) by lia;
  repeat (destruct H as [H | H]); subst m.

(** Evaluates [monthStart] at closed arguments. *)
Ltac eval_monthStart :=
  repeat match goal with
         | |- context [Time.monthStart ?a ?b] =>
             let v := eval vm_compute in (Time.monthStart a b) in
             change (Time.monthStart a b) with v
         end.

(** ** Records *)

(** The record with its [timestamp] field replaced. *)
Definition withTimestamp (record : Engine.RawTransaction) (v : JsValue.value)
  : Engine.RawTransaction :=
  {| Engine.raw_timestamp := v;
     Engine.raw_date := Engine.raw_date record;
     Engine.raw_amount := Engine.raw_amount record;
     Engine.raw_ceiling := Engine.raw_ceiling record;
     Engine.raw_remanent := Engine.raw_remanent record |}.

(** The payload with its period fields replaced. *)
Definition withPeriods (payload : Engine.Payload)
    (q p k : Engine.field Engine.RawPeriod) : Engine.Payload :=
  {| Engine.transactions := Engine.transactions payload;
     Engine.q := q;
     Engine.p := p;
     Engine.k := k;
     Engine.wage := Engine.wage payload;
     Engine.age := Engine.age payload;
     Engine.inflation := Engine.inflation payload |}.

(** A transaction as parsing builds it: the final remanent is the base one. *)
Definition fresh (tx : Engine.Transaction) : Prop :=
  Engine.remanentFinalPaise tx = Engine.remanentBasePaise tx.

(** ** Windows *)

(** The instant of the transaction lies in the inclusive interval. *)
Definition inWindow (lo hi : Z) (tx : Engine.Transaction) : bool :=
  (lo <=? Engine.epochSeconds tx) && (Engine.epochSeconds tx <=? hi).

(** The sum of the final remanents of the transactions in the interval. *)
Definition windowSum (txs : list Engine.Transaction) (lo hi : Z) : Z :=
  foldr (fun tx acc => (if inWindow lo hi tx then Engine.remanentFinalPaise tx else 0) + acc)
    0 txs.

Definition sumZ (l : list Z) : Z := foldr Z.add 0 l.

(** ** Binary search *)

(** Both searches are the same loop with another test on the element. *)
Fixpoint searchFuel (test : Z -> bool) (fuel : nat) (array : list Z) (left right : nat) : nat :=
  match fuel with
  | O => left
  | S f =>
      if (left <? right)%nat then
        let mid := ((left + right) / 2)%nat in
        match array !! mid with
        | Some v =>
            if test v then searchFuel test f array (mid + 1) right
            else searchFuel test f array left mid
        | None => left
        end
      else left
  end.

(** ** Heaps *)

(** Index [j] is a child of index [i] in the array of a binary heap. *)
Definition isChild (i j : nat) : Prop := j = (2 * i + 1)%nat \/ j = (2 * i + 2)%nat.

(** No child compares above its parent. *)
Definition heapOrdered {A : Type} (compareFn : A -> A -> Z) (data : list A) : Prop :=
  forall i j x y, isChild i j -> data !! i = Some x -> data !! j = Some y ->
                  compareFn y x <= 0.

(** The heap order, except between index [k] and its parent; the children
    of [k] are in order with the parent of [k].  This is what [bubbleUp]
    maintains. *)
Definition heapOrderedAbove {A : Type} (compareFn : A -> A -> Z) (k : nat)
    (data : list A) : Prop :=
  (forall i j x y, isChild i j -> j <> k -> data !! i = Some x -> data !! j = Some y ->
                   compareFn y x <= 0)
  /\ (forall p c x y, isChild p k -> isChild k c -> data !! p = Some x -> data !! c = Some y ->
                      compareFn y x <= 0).

(** The heap order, except between index [k] and its children; the
    children of [k] are in order with the parent of [k].  This is what
    [bubbleDown] maintains. *)
Definition heapOrderedBelow {A : Type} (compareFn : A -> A -> Z) (k : nat)
    (data : list A) : Prop :=
  (forall i j x y, isChild i j -> i <> k -> data !! i = Some x -> data !! j = Some y ->
                   compareFn y x <= 0)
  /\ (forall p c x y, isChild p k -> isChild k c -> data !! p = Some x -> data !! c = Some y ->
                      compareFn y x <= 0).

(** ** Override and additive periods *)

(** The instant lies in the inclusive interval of the period. *)
Definition containsQ (period : Engine.QPeriod) (ts : Z) : Prop :=
  Engine.q_start period <= ts <= Engine.q_end period.

Definition containsP (period : Engine.PPeriod) (ts : Z) : bool :=
  (Engine.p_start period <=? ts) && (ts <=? Engine.p_end period).

(** [w] has priority over [q]: it starts later, or at the same instant
    with an input position that is not larger. *)
Definition hasPriority (w q : Engine.QPeriod) : Prop :=
  Engine.q_start q < Engine.q_start w
  \/ (Engine.q_start q = Engine.q_start w
      /\ (Engine.inputOrder w <= Engine.inputOrder q)%nat).

(** What the override step leaves as the remanent [f] of a transaction:
    the fixed amount of the containing period that has priority over all
    containing periods, or the base remanent when no period contains the
    instant. *)
Definition overrideOutcome (qs : list Engine.QPeriod) (tx : Engine.Transaction) (f : Z)
  : Prop :=
  ((exists q, q ∈ qs /\ containsQ q (Engine.epochSeconds tx)) ->
   exists w, w ∈ qs /\ containsQ w (Engine.epochSeconds tx)
             /\ (forall q, q ∈ qs -> containsQ q (Engine.epochSeconds tx) -> hasPriority w q)
             /\ f = Engine.fixedPaise w)
  /\ ((forall q, q ∈ qs -> ~ containsQ q (Engine.epochSeconds tx)) ->
      f = Engine.remanentBasePaise tx).

(** The sum of the extras of the additive periods that contain [ts]. *)
Definition extrasAt (ps : list Engine.PPeriod) (ts : Z) : Z :=
  foldr (fun period acc => (if containsP period ts then Engine.extraPaise period else 0) + acc)
    0 ps.

(** The instant of the transaction at an index (0 outside the list). *)
Definition epochAt (txs : list Engine.Transaction) (i : nat) : Z :=
  match txs !! i with
  | Some tx => Engine.epochSeconds tx
  | None => 0
  end.

(** The indices of the transactions, ordered by instant. *)
Definition sortedIndices (txs : list Engine.Transaction) (indices : list nat) : Prop :=
  Permutation indices (seq 0 (length txs))
  /\ StronglySorted (fun a b => epochAt txs a <= epochAt txs b) indices.

(** The state of the override loop after the transactions up to instant
    [T]: the heap is ordered; it holds started periods only; and every
    period is still pending, in the heap, or has ended before [T]. *)
Definition overrideInvariant (qs : list Engine.QPeriod) (T : Z)
    (pending heap : list Engine.QPeriod) : Prop :=
  heapOrdered Engine.compareQHeap heap
  /\ StronglySorted (fun a b => Engine.q_start a <= Engine.q_start b) pending
  /\ (forall q, q ∈ pending -> q ∈ qs)
  /\ (forall q, q ∈ heap -> q ∈ qs /\ Engine.q_start q <= T)
  /\ (forall q, q ∈ qs -> q ∈ pending \/ q ∈ heap \/ Engine.q_end q < T).

(** The sum of the deltas of the events up to [ts]. *)
Definition deltaUpTo (events : list Engine.Event) (ts : Z) : Z :=
  foldr (fun e acc => (if Engine.time e <=? ts then Engine.delta e else 0) + acc) 0 events.

(** The state of the additive sweep after the transactions up to instant
    [T]: the running total and the events not yet consumed add up to the
    deltas of all events, at every instant from [T] on. *)
Definition sweepInvariant (all : list Engine.Event) (T : Z)
    (events : list Engine.Event) (activeExtra : Z) : Prop :=
  StronglySorted (fun a b => Engine.time a <= Engine.time b) events
  /\ forall ts, T <= ts -> activeExtra + deltaUpTo events ts = deltaUpTo all ts.

(** A transaction as parsing builds it. *)
Definition wellBuilt (tx : Engine.Transaction) : Prop :=
  fresh tx
  /\ Engine.remanentBasePaise tx = Engine.ceilingPaise tx - Engine.amountPaise tx.

(** ** The reference fixture

    The four transactions and the periods of the README, as the parser
    builds them. *)

Definition fixtureTransaction (text : string) (epoch amount ceiling : Z) (index : nat)
  : Engine.Transaction :=
  {| Engine.timestamp := text;
     Engine.epochSeconds := epoch;
     Engine.amountPaise := amount;
     Engine.ceilingPaise := ceiling;
     Engine.remanentBasePaise := ceiling - amount;
     Engine.remanentFinalPaise := ceiling - amount;
     Engine.inputIndex := index |}.

Definition fixtureTransactions : list Engine.Transaction :=
  [ fixtureTransaction "2023-10-12 20:15:00" 1697121900 25000 30000 0;
    fixtureTransaction "2023-02-28 15:49:00" 1677579540 37500 40000 1;
    fixtureTransaction "2023-07-01 21:59:00" 1688228940 62000 70000 2;
    fixtureTransaction "2023-12-17 08:09:00" 1702780740 48000 50000 3 ].

Definition fixtureQ : list Engine.QPeriod :=
  [ {| Engine.q_id := JsValue.JStr "q-0"; Engine.fixedPaise := 0;
       Engine.q_start := 1688149800; Engine.q_end := 1690828199;
       Engine.inputOrder := 0 |} ].

Definition fixtureP : list Engine.PPeriod :=
  [ {| Engine.p_id := JsValue.JStr "p-0"; Engine.extraPaise := 2500;
       Engine.p_start := 1696127400; Engine.p_end := 1704032999 |} ].

Definition fixtureK : list Engine.KPeriod :=
  [ {| Engine.k_id := JsValue.JStr "k-0";
       Engine.k_start := 1677609000; Engine.k_end := 1701368999;
       Engine.startText := JsValue.JStr "2023-03-01 00:00:00";
       Engine.endText := JsValue.JStr "2023-11-30 23:59:59";
       Engine.k_inputOrder := 0 |};
    {| Engine.k_id := JsValue.JStr "k-1";
       Engine.k_start := 1672511400; Engine.k_end := 1704047399;
       Engine.startText := JsValue.JStr "2023-01-01 00:00:00";
       Engine.endText := JsValue.JStr "2023-12-31 23:59:59";
       Engine.k_inputOrder := 1 |} ].

(** The indices of the fixture in the order of the instants. *)
Definition fixtureIndices : list nat := [1; 2; 0; 3]%nat.


(** ** The batch paths, record by record *)

Definition initialFiltering : Engine.Filtering :=
  {| Engine.f_validTransactions := []; Engine.f_invalid := []; Engine.f_seen := ∅ |}.

Definition initialValidation : Engine.Validation :=
  {| Engine.v_valid := []; Engine.v_invalid := []; Engine.v_duplicates := [];
     Engine.v_seen := ∅ |}.

(** The transaction that record [i] of the list parses to, if it does. *)
Definition parsedAt (raws : list Engine.RawTransaction) (i : nat)
  : option Engine.Transaction :=
  match raws !! i with
  | Some raw =>
      match Engine.parseTransactionInput raw i "transactions" with
      | Js.Ok tx => Some tx
      | Js.Err _ => None
      end
  | None => None
  end.

(** Record [j] parses and carries the timestamp text [text]. *)
Definition hasText (raws : list Engine.RawTransaction) (text : string) (j : nat) : bool :=
  match parsedAt raws j with
  | Some tx => bool_decide (Engine.timestamp tx = text)
  | None => false
  end.

(** The first position before [i] whose record parses and carries the
    timestamp text [text]. *)
Definition firstWithText (raws : list Engine.RawTransaction) (i : nat) (text : string)
  : option nat :=
  List.find (hasText raws text) (seq 0 i).

(** The declared [remanent] of record [i] differs from the base remanent
    of its transaction. *)
Definition remanentMismatch (raw : Engine.RawTransaction) (i : nat)
    (tx : Engine.Transaction) : bool :=
  negb (JsValue.isUndefined (Engine.raw_remanent raw))
  && match Engine.parseNumericField (Engine.raw_remanent raw)
             (Engine.indexed "transactions" i ++ ".remanent")%string with
     | Js.Ok remanentPaise => negb (remanentPaise =? Engine.remanentBasePaise tx)
     | Js.Err _ => false
     end.

(** What becomes of one record of a batch. *)
Inductive Outcome : Type :=
  | Unparsed (raw : Engine.RawTransaction) (e : Js.error)
  | Duplicate (raw : Engine.RawTransaction) (tx : Engine.Transaction) (first : nat)
  | Mismatch (tx : Engine.Transaction)
  | Kept (tx : Engine.Transaction).

Definition classify (checkRemanent : bool) (raws : list Engine.RawTransaction) (i : nat)
  : option Outcome :=
  match raws !! i with
  | Some raw =>
      Some
        match Engine.parseTransactionInput raw i "transactions" with
        | Js.Err e => Unparsed raw e
        | Js.Ok tx =>
            match firstWithText raws i (Engine.timestamp tx) with
            | Some first => Duplicate raw tx first
            | None =>
                if checkRemanent && remanentMismatch raw i tx then Mismatch tx else Kept tx
            end
        end
  | None => None
  end.

Definition outcomes (checkRemanent : bool) (raws : list Engine.RawTransaction) (n : nat)
  : list Outcome :=
  omap (classify checkRemanent raws) (seq 0 n).

Definition keptOf (o : Outcome) : list Engine.Transaction :=
  match o with
  | Kept tx => [tx]
  | _ => []
  end.

Definition filterReport (o : Outcome) : list Engine.InvalidTransaction :=
  match o with
  | Unparsed raw e =>
      [Engine.buildInvalidTransaction (inl raw) "INVALID_TRANSACTION" (Js.errorMessage e)]
  | Duplicate raw tx first =>
      [Engine.buildInvalidTransaction (inl raw) "DUPLICATE_TIMESTAMP"
         (Engine.duplicateMessage first)]
  | _ => []
  end.

Definition validatorReport (o : Outcome) : list Engine.InvalidTransaction :=
  match o with
  | Unparsed raw e =>
      [Engine.buildInvalidTransaction (inl raw) "INVALID_TRANSACTION" (Js.errorMessage e)]
  | Duplicate raw tx first =>
      [Engine.buildInvalidTransaction (inr (Engine.serializeTransaction tx))
         "DUPLICATE_TIMESTAMP" (Engine.duplicateMessage first)]
  | Mismatch tx =>
      [Engine.buildInvalidTransaction (inr (Engine.serializeTransaction tx))
         "REMANENT_MISMATCH" "remanent must equal ceiling - amount"]
  | Kept _ => []
  end.

Definition duplicateOf (o : Outcome) : list Engine.SerializedTransaction :=
  match o with
  | Duplicate _ tx _ => [Engine.serializeTransaction tx]
  | _ => []
  end.

(** No record of the batch raises an exception that is not an [ApiError]. *)
Definition noPlainErrors (raws : list Engine.RawTransaction) : Prop :=
  forall i raw e,
    raws !! i = Some raw ->
    Engine.parseTransactionInput raw i "transactions" = Js.Err e ->
    Js.isApiError e = true.

(** The declared [remanent] of every first occurrence is a decimal value. *)
Definition remanentsParse (raws : list Engine.RawTransaction) : Prop :=
  forall i raw tx,
    raws !! i = Some raw ->
    Engine.parseTransactionInput raw i "transactions" = Js.Ok tx ->
    firstWithText raws i (Engine.timestamp tx) = None ->
    JsValue.isUndefined (Engine.raw_remanent raw) = false ->
    exists remanentPaise,
      Engine.parseNumericField (Engine.raw_remanent raw)
        (Engine.indexed "transactions" i ++ ".remanent")%string
      = Js.Ok remanentPaise.

(** The state of the filter loop before record [n]. *)
Definition filteringAt (raws : list Engine.RawTransaction) (n : nat)
    (st : Engine.Filtering) : Prop :=
  Engine.f_validTransactions st = flat_map keptOf (outcomes false raws n)
  /\ Engine.f_invalid st = flat_map filterReport (outcomes false raws n)
  /\ forall text, Engine.f_seen st !! text = firstWithText raws n text.

(** The state of the validator loop before record [n]. *)
Definition validationAt (raws : list Engine.RawTransaction) (n : nat)
    (st : Engine.Validation) : Prop :=
  Engine.v_valid st = flat_map keptOf (outcomes true raws n)
  /\ Engine.v_invalid st = flat_map validatorReport (outcomes true raws n)
  /\ Engine.v_duplicates st = flat_map duplicateOf (outcomes true raws n)
  /\ forall text, Engine.v_seen st !! text = firstWithText raws n text.

(** The two records of the validator test, and a pair of records whose
    texts differ by a trailing blank. *)
Definition rawRecord (text : string) (amount ceiling remanent : Z) : Engine.RawTransaction :=
  {| Engine.raw_timestamp := JsValue.JStr text;
     Engine.raw_date := JsValue.JUndefined;
     Engine.raw_amount := JsValue.JNum (JsNumber.ofZ amount);
     Engine.raw_ceiling := JsValue.JNum (JsNumber.ofZ ceiling);
     Engine.raw_remanent := JsValue.JNum (JsNumber.ofZ remanent) |}.

Definition duplicateRecords : list Engine.RawTransaction :=
  [ rawRecord "2023-01-01 00:00:00" 250 300 50;
    rawRecord "2023-01-01 00:00:00" 150 200 50 ].

Definition blankRecords : list Engine.RawTransaction :=
  [ rawRecord "2023-01-01 00:00:00" 250 300 50;
    rawRecord "2023-01-01 00:00:00 " 150 200 50 ].

Definition payloadOf (raws : list Engine.RawTransaction) : Engine.Payload :=
  {| Engine.wage := JsValue.JNum (JsNumber.ofZ 50000);
     Engine.transactions := Engine.Items raws;
     Engine.q := Engine.Absent;
     Engine.p := Engine.Absent;
     Engine.k := Engine.Absent;
     Engine.age := JsValue.JNum (JsNumber.ofZ 29);
     Engine.inflation := JsValue.JNum (JsNumber.ofZ 5) |}.

(** ** Records between the operations *)

(** A serialized transaction as a client sends it back: the record with
    the fields [timestamp], [amount], [ceiling] and [remanent] of the
    serialized transaction (its other fields are not read). *)
Definition asRaw (s : Engine.SerializedTransaction) : Engine.RawTransaction :=
  {| Engine.raw_timestamp := JsValue.JStr (Engine.s_timestamp s);
     Engine.raw_date := JsValue.JUndefined;
     Engine.raw_amount := JsValue.JNum (Engine.s_amount s);
     Engine.raw_ceiling := JsValue.JNum (Engine.s_ceiling s);
     Engine.raw_remanent := JsValue.JNum (Engine.s_remanent s) |}.

(** The transaction with another input position. *)
Definition atIndex (tx : Engine.Transaction) (index : nat) : Engine.Transaction :=
  {| Engine.timestamp := Engine.timestamp tx;
     Engine.epochSeconds := Engine.epochSeconds tx;
     Engine.amountPaise := Engine.amountPaise tx;
     Engine.ceilingPaise := Engine.ceilingPaise tx;
     Engine.remanentBasePaise := Engine.remanentBasePaise tx;
     Engine.remanentFinalPaise := Engine.remanentFinalPaise tx;
     Engine.inputIndex := index |}.

(** The amount of an expense record with a timestamp text. *)
Definition expenseRecord (text : string) (amount : JsValue.value) : Engine.RawTransaction :=
  {| Engine.raw_timestamp := JsValue.JStr text;
     Engine.raw_date := JsValue.JUndefined;
     Engine.raw_amount := amount;
     Engine.raw_ceiling := JsValue.JUndefined;
     Engine.raw_remanent := JsValue.JUndefined |}.

(** The expenses of the tests. *)
Definition sampleExpenses : list Engine.RawTransaction :=
  [ expenseRecord "2023-10-12 20:15:00" (JsValue.JNum (JsNumber.ofZ 250));
    expenseRecord "2023-02-28 15:49:00" (JsValue.JNum (JsNumber.ofZ 375));
    expenseRecord "2023-07-01 21:59:00" (JsValue.JNum (JsNumber.ofZ 620));
    expenseRecord "2023-12-17 08:09:00" (JsValue.JNum (JsNumber.ofZ 480)) ].

(** The transactions with the input positions [i], [i + 1], ... *)
Fixpoint reindexed (txs : list Engine.Transaction) (i : nat) : list Engine.Transaction :=
  match txs with
  | [] => []
  | tx :: rest => atIndex tx i :: reindexed rest (S i)
  end.

(** A payload whose transactions are the serialized transactions sent back,
    without periods. *)
Definition echoPayload (sent : list Engine.SerializedTransaction) (wage : JsValue.value)
  : Engine.Payload :=
  {| Engine.transactions := Engine.Items (map asRaw sent);
     Engine.q := Engine.Absent;
     Engine.p := Engine.Absent;
     Engine.k := Engine.Absent;
     Engine.wage := wage;
     Engine.age := JsValue.JUndefined;
     Engine.inflation := JsValue.JUndefined |}.

(** What a client reads in a serialized transaction: timestamp, amount,
    ceiling and remanent in minor units. *)
Definition displays (s : Engine.SerializedTransaction) (text : string)
    (amount ceiling remanent : Z) : Prop :=
  Engine.s_timestamp s = text
  /\ Money.parseMoney (JsValue.JNum (Engine.s_amount s)) = Js.Ok amount
  /\ Money.parseMoney (JsValue.JNum (Engine.s_ceiling s)) = Js.Ok ceiling
  /\ Money.parseMoney (JsValue.JNum (Engine.s_remanent s)) = Js.Ok remanent
  /\ Engine.s_remanentBase s = Engine.s_remanent s
  /\ Engine.s_remanentFinal s = Engine.s_remanent s.

(** ** The heap as a priority queue *)

(** The heap after the values are pushed one after another. *)
Definition pushAll {A : Type} (compareFn : A -> A -> Z) (data values : list A) : list A :=
  fold_left (BinaryHeap.push compareFn) values data.

(** The values [pop] returns until the heap is empty, at most [fuel] of
    them. *)
Fixpoint popAll {A : Type} (compareFn : A -> A -> Z) (fuel : nat) (data : list A) : list A :=
  match fuel with
  | O => []
  | S f =>
      match BinaryHeap.pop compareFn data with
      | (Some top, rest) => top :: popAll compareFn f rest
      | (None, _) => []
      end
  end.

(** The comparator of numbers by size. *)
Definition bySize (a b : Z) : Z := a - b.

(** An array in ascending order with a repeated element. *)
Definition sampleArray : list Z := [1; 3; 3; 7].

(** ** The request of the tests *)

Definition rawPeriod (fixed extra : JsValue.value) (start end_ : string) : Engine.RawPeriod :=
  {| Engine.raw_id := JsValue.JUndefined;
     Engine.raw_fixed := fixed;
     Engine.raw_extra := extra;
     Engine.raw_start := JsValue.JStr start;
     Engine.raw_end := JsValue.JStr end_ |}.

(** The transactions of the parse operation on [sampleExpenses], sent back
    with the periods of the tests. *)
Definition samplePayload : Engine.Payload :=
  {| Engine.transactions :=
       Engine.Items (map asRaw (map Engine.serializeTransaction fixtureTransactions));
     Engine.q :=
       Engine.Items
         [ rawPeriod (JsValue.JNum (JsNumber.ofZ 0)) JsValue.JUndefined
             "2023-07-01 00:00:00" "2023-07-31 23:59:59" ];
     Engine.p :=
       Engine.Items
         [ rawPeriod JsValue.JUndefined (JsValue.JNum (JsNumber.ofZ 25))
             "2023-10-01 08:00:00" "2023-12-31 19:59:59" ];
     Engine.k :=
       Engine.Items
         [ rawPeriod JsValue.JUndefined JsValue.JUndefined
             "2023-03-01 00:00:00" "2023-11-30 23:59:59";
           rawPeriod JsValue.JUndefined JsValue.JUndefined
             "2023-01-01 00:00:00" "2023-12-31 23:59:59" ];
     Engine.wage := JsValue.JNum (JsNumber.ofZ 50000);
     Engine.age := JsValue.JNum (JsNumber.ofZ 29);
     Engine.inflation := JsValue.JUndefined |}.

(** What the filter path makes of it. *)
Definition sampleFiltered : Engine.Filtered :=
  {| Engine.fd_validTransactions :=
       fst (Engine.applyTemporalRules fixtureTransactions fixtureQ fixtureP fixtureK);
     Engine.fd_invalid := [];
     Engine.fd_savingsByDates :=
       snd (Engine.applyTemporalRules fixtureTransactions fixtureQ fixtureP fixtureK) |}.

(** ** The codecs *)

(** The epoch seconds at which the year [y] starts in Indian time. *)
Definition yearStart (y : Z) : Z :=
  Time.DayFromYear y * 86400 - Time.IST_OFFSET_SECONDS.

(** The integer nearest to [num / den], halves upward. *)
Definition halfUp (num den : Z) : Z := (2 * num + den) / (2 * den).

(** The decimal text with the integer digits [i] and the decimals [f]. *)
Definition decimalText (negative : bool) (i f : string) : string :=
  ((if negative then "-" else EmptyString) ++ i ++ "." ++ f)%string.

(** ** Requests that fail *)

(** Expenses of which the second has a date for its timestamp. *)
Definition brokenExpenses : list Engine.RawTransaction :=
  [ expenseRecord "2023-10-12 20:15:00" (JsValue.JNum (JsNumber.ofZ 250));
    expenseRecord "2023-10-12" (JsValue.JNum (JsNumber.ofZ 375));
    expenseRecord "2023-07-01 21:59:00" (JsValue.JNum (JsNumber.ofZ 620)) ].

(** The record with another declared [remanent]. *)
Definition withRemanent (raw : Engine.RawTransaction) (remanent : JsValue.value)
  : Engine.RawTransaction :=
  {| Engine.raw_timestamp := Engine.raw_timestamp raw;
     Engine.raw_date := Engine.raw_date raw;
     Engine.raw_amount := Engine.raw_amount raw;
     Engine.raw_ceiling := Engine.raw_ceiling raw;
     Engine.raw_remanent := remanent |}.

(** Two records of which the second declares a [remanent] that is no
    decimal value. *)
Definition malformedRemanentRecords : list Engine.RawTransaction :=
  [ rawRecord "2023-01-01 00:00:00" 250 300 50;
    withRemanent (rawRecord "2023-01-02 00:00:00" 150 200 50) (JsValue.JStr "fifty") ].

(** ** Scenarios with overlapping periods *)

(** Every field but the final remanent is the one of [tx]. *)
Definition sameButFinal (tx r : Engine.Transaction) : Prop :=
  Engine.timestamp r = Engine.timestamp tx
  /\ Engine.epochSeconds r = Engine.epochSeconds tx
  /\ Engine.amountPaise r = Engine.amountPaise tx
  /\ Engine.ceilingPaise r = Engine.ceilingPaise tx
  /\ Engine.remanentBasePaise r = Engine.remanentBasePaise tx
  /\ Engine.inputIndex r = Engine.inputIndex tx.

Definition qPeriod (fixed start end_ : Z) (order : nat) : Engine.QPeriod :=
  {| Engine.q_id := JsValue.JStr "q"; Engine.fixedPaise := fixed;
     Engine.q_start := start; Engine.q_end := end_; Engine.inputOrder := order |}.

Definition pPeriod (extra start end_ : Z) : Engine.PPeriod :=
  {| Engine.p_id := JsValue.JStr "p"; Engine.extraPaise := extra;
     Engine.p_start := start; Engine.p_end := end_ |}.

(** Override periods around the third transaction of the fixture (instant
    1688228940): the period of the README, two later periods with the same
    start, a period that starts after the instant, and a still later start
    that has ended before it. *)
Definition overlapQ : list Engine.QPeriod :=
  [ qPeriod 0 1688149800 1690828199 0;
    qPeriod 1000 1688200000 1690000000 1;
    qPeriod 2000 1688200000 1690000000 2;
    qPeriod 3000 1688300000 1690000000 3;
    qPeriod 4000 1688210000 1688220000 4 ].

(** Additive periods: two that contain the instant 1688228940 (one of them
    ends at it) and the period of the README, which does not. *)
Definition overlapP : list Engine.PPeriod :=
  [ pPeriod 2500 1688149800 1690828199;
    pPeriod 700 1688000000 1688228940;
    pPeriod 900 1696127400 1704032999 ].

(** ** Records and fields a client may leave out *)

(** A record with a [date] and no [timestamp]. *)
Definition dateOnlyRecord : Engine.RawTransaction :=
  {| Engine.raw_timestamp := JsValue.JUndefined;
     Engine.raw_date := JsValue.JStr "2023-10-12 20:15:00";
     Engine.raw_amount := JsValue.JNum (JsNumber.ofZ 250);
     Engine.raw_ceiling := JsValue.JUndefined;
     Engine.raw_remanent := JsValue.JUndefined |}.

(** How a period field is read: an absent field as the empty list, a list
    of at most [MAX_RECORDS] periods as what its parser returns. *)
Definition readsAs {A : Type} (v : Engine.field Engine.RawPeriod)
    (parse : list Engine.RawPeriod -> Js.result (list A)) (periods : list A) : Prop :=
  (v = Engine.Absent /\ periods = [])
  \/ (exists raws,
        v = Engine.Items raws
        /\ Z.of_nat (length raws) <= Engine.MAX_RECORDS
        /\ parse raws = Js.Ok periods).

(** A period of a single instant. *)
Definition instantPeriod : Engine.RawPeriod :=
  rawPeriod (JsValue.JNum (JsNumber.ofZ 0)) (JsValue.JNum (JsNumber.ofZ 25))
    "2023-07-01 00:00:00" "2023-07-01 00:00:00".
(** * Properties *)

(** ** Rounding up to the round unit *)

Lemma ceilTo100_nonneg_eq (v : Z) :
  0 <= v ->
  Money.ceilTo100 v = if v mod 10000 =? 0 then v else v + (10000 - v mod 10000).
Proof.
  intros Hv. unfold Money.ceilTo100. cbv zeta.
  rewrite Z.rem_mod_nonneg by lia. reflexivity.
Qed.

(** C1, as the specification states it, fails: the round unit of the code is
    10000 minor units (100 rupees), not 100 minor units.  150 is rounded up
    to 10000 although 200 is a smaller multiple of 100, and 100, a multiple
    of 100, is not returned unchanged. *)
Lemma ceilTo100_unit_is_not_100 :
  ~ leastMultipleAtLeast 100 150 (Money.ceilTo100 150)
  /\ 100 mod 100 = 0 /\ Money.ceilTo100 100 <> 100.
Proof.
  split; [| split; [reflexivity | vm_compute; discriminate]].
  intros (_ & _ & Hmin). specialize (Hmin 200 eq_refl ltac:(lia)).
  vm_compute in Hmin. apply Hmin. reflexivity.
Qed.

(** C1 (amended): for every minor-unit value [v >= 0], [ceilTo100 v] is the
    smallest multiple of 10000 minor units that is at least [v]; it is
    therefore a multiple of 100 as well, and it equals [v] exactly when [v]
    is a multiple of 10000. *)
Theorem ceilTo100_least_multiple (v : Z) :
  0 <= v ->
  leastMultipleAtLeast 10000 v (Money.ceilTo100 v)
  /\ Money.ceilTo100 v mod 100 = 0
  /\ (Money.ceilTo100 v = v <-> v mod 10000 = 0).
Proof.
  intros Hv. rewrite ceilTo100_nonneg_eq by assumption.
  pose proof (Z.mod_pos_bound v 10000 ltac:(lia)) as Hb.
  pose proof (Z.div_mod v 10000 ltac:(lia)) as Hdm.
  assert (H100 : forall n, (n * 10000) mod 100 = 0).
  { intros n. replace (n * 10000) with (n * 100 * 100) by lia. apply Z.mod_mul. lia. }
  destruct (Z.eqb_spec (v mod 10000) 0) as [H0 | Hn0].
  - split; [split; [assumption | split; [lia | intros; assumption]] |].
    split; [| tauto].
    replace v with (v / 10000 * 10000) by lia. apply H100.
  - assert (Hr : v + (10000 - v mod 10000) = (v / 10000 + 1) * 10000) by lia.
    split; [split; [| split] |].
    + rewrite Hr. apply Z.mod_mul. lia.
    + lia.
    + intros r' Hr' Hle.
      pose proof (Z.div_mod r' 10000 ltac:(lia)) as Hdm'.
      rewrite Hr' in Hdm'. lia.
    + split; [rewrite Hr; apply H100 |].
      split; [lia | intros; contradiction].
Qed.

Lemma ceilTo100_least_multiple_witness :
  leastMultipleAtLeast 10000 25001 (Money.ceilTo100 25001)
  /\ Money.ceilTo100 25001 mod 100 = 0
  /\ (Money.ceilTo100 25001 = 25001 <-> 25001 mod 10000 = 0).
Proof. apply (ceilTo100_least_multiple 25001). lia. Defined.

(** ** Decimal digits and strings *)

Lemma append_String (c : ascii) (s1 s2 : string) :
  (String c s1 ++ s2)%string = String c (s1 ++ s2).
Proof. reflexivity. Qed.

Lemma append_Empty (s : string) : (EmptyString ++ s)%string = s.
Proof. reflexivity. Qed.

Lemma append_Empty_r (s : string) : (s ++ EmptyString)%string = s.
Proof. induction s as [| c s IH]; [reflexivity |]. rewrite append_String, IH. reflexivity. Qed.

Lemma append_assoc (s1 s2 s3 : string) :
  ((s1 ++ s2) ++ s3)%string = (s1 ++ (s2 ++ s3))%string.
Proof.
  induction s1 as [| c s1 IH]; [reflexivity |].
  rewrite !append_String, IH. reflexivity.
Qed.

Section Digits.

Import Js.

Lemma isDigit_bounds (c : ascii) :
  isDigit c = true -> 0 <= digitValue c <= 9.
Proof.
  unfold isDigit, digitValue. cbv zeta. intros H.
  apply andb_true_iff in H as [H1 H2].
  apply Nat.leb_le in H1, H2. lia.
Qed.

Lemma digitChar_digitValue (c : ascii) :
  isDigit c = true -> digitChar (digitValue c) = c.
Proof.
  intros H. pose proof (isDigit_bounds c H) as Hb.
  unfold digitChar, digitValue in *.
  replace (Z.to_nat (48 + (Z.of_nat (nat_of_ascii c) - 48))) with (nat_of_ascii c) by lia.
  apply ascii_nat_embedding.
Qed.

Lemma digitValue_digitChar (d : Z) :
  0 <= d <= 9 -> digitValue (digitChar d) = d /\ isDigit (digitChar d) = true.
Proof.
  intros Hd. unfold digitValue, digitChar, isDigit. cbv zeta.
  rewrite nat_ascii_embedding by lia.
  split; [lia |].
  apply andb_true_iff. split; apply Nat.leb_le; lia.
Qed.

Lemma digitsValueFrom_app (s1 s2 : string) (acc : Z) :
  digitsValueFrom acc (s1 ++ s2) = digitsValueFrom (digitsValueFrom acc s1) s2.
Proof.
  revert acc. induction s1 as [| c s1 IH]; intros acc; simpl; [reflexivity | apply IH].
Qed.

Lemma digitsValueFrom_shift (s : string) (acc : Z) :
  digitsValueFrom acc s = acc * 10 ^ Z.of_nat (String.length s) + digitsValueFrom 0 s.
Proof.
  revert acc. induction s as [| c s IH]; intros acc.
  - simpl. lia.
  - cbn [digitsValueFrom String.length]. rewrite IH. rewrite (IH (10 * 0 + digitValue c)).
    rewrite Nat2Z.inj_succ, Z.pow_succ_r by lia. ring.
Qed.

Lemma digitsValue_snoc (s : string) (c : ascii) :
  digitsValue (s ++ String c EmptyString) = 10 * digitsValue s + digitValue c.
Proof.
  unfold digitsValue. rewrite digitsValueFrom_app. reflexivity.
Qed.

Lemma digitsValueFrom_nonneg (s : string) (acc : Z) :
  allDigits s = true -> 0 <= acc -> 0 <= digitsValueFrom acc s.
Proof.
  revert acc. induction s as [| c s IH]; intros acc Hd Hacc; simpl in *; [assumption |].
  apply andb_true_iff in Hd as [Hc Hs].
  apply IH; [assumption |]. pose proof (isDigit_bounds c Hc). lia.
Qed.

Lemma digitsValue_upper (s : string) :
  allDigits s = true -> 0 <= digitsValue s < 10 ^ Z.of_nat (String.length s).
Proof.
  unfold digitsValue.
  induction s as [| c s IH]; intros Hd; [simpl; lia |].
  cbn [allDigits] in Hd. apply andb_true_iff in Hd as [Hc Hs].
  specialize (IH Hs). pose proof (isDigit_bounds c Hc) as Hb.
  cbn [digitsValueFrom String.length]. rewrite digitsValueFrom_shift.
  rewrite Nat2Z.inj_succ, Z.pow_succ_r by lia. nia.
Qed.

(** The loop of [natDigits] has fuel to spare. *)
Lemma digitsFuel_div10 (n : Z) :
  10 <= n -> (digitsFuel (n / 10) < digitsFuel n)%nat.
Proof.
  intros Hn. unfold digitsFuel.
  assert (H0 : 0 < n / 10) by (apply Z.div_str_pos; lia).
  assert (Z.log2 (n / 10) + 1 <= Z.log2 n).
  { pose proof (Z.log2_double (n / 10) H0) as Hd.
    pose proof (Z.log2_le_mono (2 * (n / 10)) n) as Hm.
    pose proof (Z.mul_div_le n 10 ltac:(lia)). lia. }
  pose proof (Z.log2_nonneg (n / 10)). lia.
Qed.

Lemma natDigitsFuel_enough (fuel : nat) (n : Z) :
  (digitsFuel n <= fuel)%nat -> natDigitsFuel fuel n = natDigits n.
Proof.
  unfold natDigits.
  assert (H : forall f1 f2 m, (digitsFuel m <= f1)%nat -> (digitsFuel m <= f2)%nat ->
                         natDigitsFuel f1 m = natDigitsFuel f2 m).
  { induction f1 as [| f1 IH]; intros f2 m H1 H2.
    - unfold digitsFuel in H1. lia.
    - destruct f2 as [| f2]; [unfold digitsFuel in H2; lia |].
      cbn [natDigitsFuel]. destruct (Z.ltb_spec m 10) as [Hlt | Hge]; [reflexivity |].
      pose proof (digitsFuel_div10 m Hge).
      rewrite (IH f2 (m / 10)) by lia. reflexivity. }
  intros Hf. apply H; [assumption | lia].
Qed.

Lemma natDigits_unfold (n : Z) :
  natDigits n =
    if n <? 10 then String (digitChar n) EmptyString
    else (natDigits (n / 10) ++ String (digitChar (n mod 10)) EmptyString)%string.
Proof.
  unfold natDigits at 1. unfold digitsFuel at 1. cbn [natDigitsFuel].
  destruct (Z.ltb_spec n 10) as [Hlt | Hge]; [reflexivity |].
  rewrite natDigitsFuel_enough; [reflexivity |].
  pose proof (digitsFuel_div10 n Hge). unfold digitsFuel in *. lia.
Qed.

Lemma natDigits_small (n : Z) : n < 10 -> natDigits n = String (digitChar n) EmptyString.
Proof.
  intros H. rewrite natDigits_unfold. destruct (Z.ltb_spec n 10); [reflexivity | lia].
Qed.

Lemma natDigits_large (n : Z) :
  10 <= n ->
  natDigits n = (natDigits (n / 10) ++ String (digitChar (n mod 10)) EmptyString)%string.
Proof.
  intros H. rewrite natDigits_unfold. destruct (Z.ltb_spec n 10); [lia | reflexivity].
Qed.

(** Induction along the loop of [natDigits]. *)
Lemma natDigits_ind (P : Z -> Prop) :
  (forall n, 0 <= n < 10 -> P n) ->
  (forall n, 10 <= n -> P (n / 10) -> P n) ->
  forall n, 0 <= n -> P n.
Proof.
  intros Hsmall Hlarge. apply Zlt_0_ind. intros n IH Hn.
  destruct (Z_lt_dec n 10) as [Hlt | Hge]; [apply Hsmall; lia |].
  apply Hlarge; [lia |]. apply IH.
  pose proof (Z.div_lt n 10 ltac:(lia) ltac:(lia)).
  pose proof (Z.div_pos n 10 ltac:(lia) ltac:(lia)). lia.
Qed.

Lemma natDigits_allDigits (n : Z) : 0 <= n -> allDigits (natDigits n) = true.
Proof.
  assert (Happ : forall s1 s2, allDigits s1 = true -> allDigits s2 = true ->
                          allDigits (s1 ++ s2) = true).
  { induction s1 as [| c s1 IH]; intros s2 H1 H2; simpl in *; [assumption |].
    apply andb_true_iff in H1 as [Hc H1]. rewrite Hc. simpl. apply IH; assumption. }
  revert n. apply natDigits_ind.
  - intros n Hn. rewrite natDigits_small by lia. simpl.
    rewrite (proj2 (digitValue_digitChar n ltac:(lia))). reflexivity.
  - intros n Hn IH. rewrite natDigits_large by assumption. apply Happ; [assumption |].
    simpl. pose proof (Z.mod_pos_bound n 10 ltac:(lia)).
    rewrite (proj2 (digitValue_digitChar (n mod 10) ltac:(lia))). reflexivity.
Qed.

Lemma digitsValue_natDigits (n : Z) : 0 <= n -> digitsValue (natDigits n) = n.
Proof.
  revert n. apply natDigits_ind.
  - intros n Hn. rewrite natDigits_small by lia. unfold digitsValue. simpl.
    rewrite (proj1 (digitValue_digitChar n ltac:(lia))). lia.
  - intros n Hn IH. rewrite natDigits_large by assumption.
    rewrite digitsValue_snoc, IH.
    pose proof (Z.mod_pos_bound n 10 ltac:(lia)).
    rewrite (proj1 (digitValue_digitChar (n mod 10) ltac:(lia))).
    pose proof (Z.div_mod n 10 ltac:(lia)). lia.
Qed.

(** Induction on a string from its end. *)
Lemma string_snoc_ind (P : string -> Prop) :
  P EmptyString ->
  (forall s c, P s -> P (s ++ String c EmptyString)%string) ->
  forall s, P s.
Proof.
  intros Hnil Hsnoc s.
  assert (H : forall n s, String.length s = n -> P s).
  { induction n as [| n IH]; intros s0 Hlen.
    - destruct s0; [exact Hnil | discriminate].
    - assert (Hex : exists s1 c, s0 = (s1 ++ String c EmptyString)%string
                            /\ String.length s1 = n).
      { clear -Hlen. revert n Hlen. induction s0 as [| a s0 IHs]; intros n Hlen; [discriminate |].
        simpl in Hlen. injection Hlen as Hlen. destruct s0 as [| b s0].
        - exists EmptyString, a. simpl in *. split; [reflexivity | assumption].
        - destruct n as [| n]; [discriminate |].
          destruct (IHs n Hlen) as (s1 & c & Heq & Hl).
          exists (String a s1), c. split; [rewrite append_String; f_equal; exact Heq | simpl; lia]. }
      destruct Hex as (s1 & c & -> & Hl). apply Hsnoc. apply IH. assumption. }
  apply (H (String.length s)). reflexivity.
Qed.

Lemma allDigits_app (s1 s2 : string) :
  allDigits (s1 ++ s2) = allDigits s1 && allDigits s2.
Proof.
  induction s1 as [| c s1 IH]; simpl; [reflexivity |].
  rewrite IH. apply andb_assoc.
Qed.

(** A digit string without a leading zero is the decimal text of its value. *)
Lemma natDigits_digitsValue (s : string) :
  allDigits s = true ->
  String.get 0 s <> Some "0"%char ->
  s <> EmptyString ->
  natDigits (digitsValue s) = s /\ 0 < digitsValue s.
Proof.
  induction s as [| s c IH] using string_snoc_ind; intros Hd H0 Hne; [congruence |].
  rewrite allDigits_app in Hd. apply andb_true_iff in Hd as [Hds Hc].
  simpl in Hc. rewrite andb_true_r in Hc.
  pose proof (isDigit_bounds c Hc) as Hb.
  rewrite digitsValue_snoc.
  destruct s as [| a s].
  - change (digitsValue EmptyString) with 0. rewrite append_Empty in *.
    replace (10 * 0 + digitValue c) with (digitValue c) by lia.
    rewrite natDigits_small by lia. rewrite digitChar_digitValue by assumption.
    split; [reflexivity |].
    assert (digitValue c <> 0); [| lia].
    intros Hz. apply H0. cbn [String.get]. f_equal.
    rewrite <- (digitChar_digitValue c Hc), Hz. reflexivity.
  - destruct IH as [IH1 IH2]; [assumption | exact H0 | discriminate |].
    rewrite natDigits_large by lia.
    replace ((10 * digitsValue (String a s) + digitValue c) / 10) with (digitsValue (String a s))
      by (apply Z.div_unique with (r := digitValue c); lia).
    replace ((10 * digitsValue (String a s) + digitValue c) mod 10) with (digitValue c)
      by (apply Z.mod_unique with (q := digitsValue (String a s)); lia).
    rewrite IH1, digitChar_digitValue by assumption. split; [reflexivity | lia].
Qed.

Lemma length_app_string (s1 s2 : string) :
  String.length (s1 ++ s2) = (String.length s1 + String.length s2)%nat.
Proof. induction s1 as [| c s1 IH]; simpl; [reflexivity | rewrite IH; reflexivity]. Qed.

Lemma natDigits_length (n : Z) (k : nat) :
  0 <= n ->
  (String.length (natDigits n) <= S k)%nat <-> n < 10 ^ Z.of_nat (S k).
Proof.
  intros Hn. revert n Hn k. refine (natDigits_ind _ _ _).
  - intros n Hn k. rewrite natDigits_small by lia. simpl String.length.
    assert (10 ^ 1 <= 10 ^ Z.of_nat (S k)) by (apply Z.pow_le_mono_r; lia).
    split; intros; lia.
  - intros n Hn IH k. rewrite natDigits_large by assumption.
    rewrite length_app_string. simpl String.length.
    pose proof (Z.div_mod n 10 ltac:(lia)) as Hdm.
    pose proof (Z.mod_pos_bound n 10 ltac:(lia)) as Hmb.
    destruct k as [| k].
    + assert (0 < n / 10) by (apply Z.div_str_pos; lia).
      assert (Hl : (0 < String.length (natDigits (n / 10)))%nat).
      { rewrite natDigits_unfold. destruct (n / 10 <? 10); [simpl; lia |].
        rewrite length_app_string. simpl. lia. }
      change (10 ^ Z.of_nat 1) with 10. split; intros; lia.
    + specialize (IH k).
      replace (Z.of_nat (S (S k))) with (Z.succ (Z.of_nat (S k))) by lia.
      rewrite Z.pow_succ_r by lia.
      split; intros H.
      * assert (n / 10 < 10 ^ Z.of_nat (S k)) by (apply IH; lia). lia.
      * assert (n / 10 < 10 ^ Z.of_nat (S k)) by lia.
        apply IH in H0. lia.
Qed.

End Digits.

(** ** The calendar of the built-in [Date] *)

Section Calendar.

Import Time.

Lemma InLeapYear_isLeapYear (y : Z) :
  InLeapYear y = if isLeapYear y then 1 else 0.
Proof.
  unfold InLeapYear, DaysInYear, isLeapYear.
  destruct (Z.eqb_spec (y mod 4) 0), (Z.eqb_spec (y mod 100) 0), (Z.eqb_spec (y mod 400) 0);
    try reflexivity; exfalso; Z.div_mod_to_equations; lia.
Qed.

Lemma DayFromYear_succ (y : Z) : DayFromYear (y + 1) = DayFromYear y + DaysInYear y.
Proof.
  unfold DayFromYear, DaysInYear.
  destruct (Z.eqb_spec (y mod 4) 0); destruct (Z.eqb_spec (y mod 100) 0);
    destruct (Z.eqb_spec (y mod 400) 0); cbn [negb];
    Z.div_mod_to_equations; lia.
Qed.

Lemma DayFromYear_epoch : DayFromYear 1970 = 0.
Proof. reflexivity. Qed.

Lemma DaysInYear_isLeapYear (y : Z) : DaysInYear y = 365 + InLeapYear y.
Proof. unfold InLeapYear, DaysInYear. destruct (y mod 4 =? 0), (y mod 100 =? 0), (y mod 400 =? 0); reflexivity. Qed.

Lemma DayFromYear_lt (y1 y2 : Z) : y1 < y2 -> DayFromYear y1 < DayFromYear y2.
Proof. unfold DayFromYear. intros. Z.div_mod_to_equations. lia. Qed.

(** [YearFromDay d] is the year that contains day [d]. *)
Lemma YearFromDay_spec (d : Z) :
  DayFromYear (YearFromDay d) <= d < DayFromYear (YearFromDay d + 1).
Proof.
  unfold YearFromDay. cbv zeta.
  destruct (Z.leb_spec (DayFromYear (1970 + d * 400 / 146097 + 1)) d).
  - split; [assumption |]. unfold DayFromYear in *. Z.div_mod_to_equations; lia.
  - destruct (Z.leb_spec (DayFromYear (1970 + d * 400 / 146097)) d).
    + split; assumption.
    + split.
      * unfold DayFromYear in *. Z.div_mod_to_equations; lia.
      * replace (1970 + d * 400 / 146097 - 1 + 1) with (1970 + d * 400 / 146097) by lia.
        assumption.
Qed.

Lemma YearFromDay_unique (d y : Z) :
  DayFromYear y <= d < DayFromYear (y + 1) -> YearFromDay d = y.
Proof.
  intros Hy. pose proof (YearFromDay_spec d) as Hs.
  destruct (Z.lt_trichotomy (YearFromDay d) y) as [Hlt | [Heq | Hgt]]; [| assumption |].
  - destruct (Z.eq_dec (YearFromDay d + 1) y) as [He | Hne].
    + rewrite He in Hs. lia.
    + pose proof (DayFromYear_lt (YearFromDay d + 1) y ltac:(lia)). lia.
  - destruct (Z.eq_dec (y + 1) (YearFromDay d)) as [He | Hne].
    + rewrite He in Hy. lia.
    + pose proof (DayFromYear_lt (y + 1) (YearFromDay d) ltac:(lia)). lia.
Qed.

(** The first day of each month, against the length of the months. *)
Lemma monthStart_succ (y m : Z) :
  1 <= m <= 11 ->
  monthStart m (InLeapYear y) = monthStart (m - 1) (InLeapYear y) + daysInMonth y m.
Proof.
  intros Hm. rewrite InLeapYear_isLeapYear. unfold daysInMonth.
  assert (Hc : m = 1 \/ m = 2 \/ m = 3 \/ m = 4 \/ m = 5 \/ m = 6 \/ m = 7 \/ m = 8
               \/ m = 9 \/ m = 10 \/ m = 11) by lia.
  destruct (isLeapYear y);
    repeat (destruct Hc as [-> | Hc]; [reflexivity |]); subst m; reflexivity.
Qed.

Lemma monthStart_last (y : Z) :
  monthStart 11 (InLeapYear y) + daysInMonth y 12 = DaysInYear y.
Proof.
  rewrite DaysInYear_isLeapYear, InLeapYear_isLeapYear. unfold daysInMonth.
  destruct (isLeapYear y); reflexivity.
Qed.

(** [MakeDay] on a real date counts the days from 1970-01-01. *)
Lemma MakeDay_daysFromCivil (y m d : Z) :
  1 <= m <= 12 -> MakeDay y (m - 1) d = daysFromCivil y m d.
Proof.
  intros Hm. unfold MakeDay, daysFromCivil. cbv zeta.
  replace ((m - 1) / 12) with 0 by (Z.div_mod_to_equations; lia).
  replace ((m - 1) mod 12) with (m - 1) by (Z.div_mod_to_equations; lia).
  rewrite Z.add_0_r, InLeapYear_isLeapYear.
  unfold isLeapYear, DayFromYear, monthStart.
  repeat match goal with
         | |- context [if ?b then _ else _] => destruct b eqn:?
         end;
    cbn [negb andb orb] in *; try discriminate;
    Z.div_mod_to_equations; lia.
Qed.

End Calendar.

(** ** [Date.UTC] and the getters *)

Section DateFacts.

Import Time.

Lemma YearFromTime_eq (t : Z) : YearFromTime t = YearFromDay (Day t).
Proof. reflexivity. Qed.

Lemma Day_MakeDate (day time : Z) :
  0 <= time < msPerDay -> Day (MakeDate day time) = day.
Proof.
  intros Ht. unfold Day, MakeDate, msPerDay in *.
  symmetry. apply Z.div_unique with (r := time); lia.
Qed.

Lemma monthStart_bounds (m leap : Z) :
  0 <= leap <= 1 -> 0 <= monthStart m leap <= 335.
Proof.
  intros Hl. unfold monthStart.
  repeat match goal with
         | |- context [if ?b then _ else _] => destruct b
         end; lia.
Qed.

Lemma InLeapYear_bounds (y : Z) : 0 <= InLeapYear y <= 1.
Proof. unfold InLeapYear. destruct (DaysInYear y =? 366); lia. Qed.

Lemma DayWithinYear_bounds (t : Z) :
  0 <= DayWithinYear t < 365 + InLeapYear (YearFromTime t).
Proof.
  unfold DayWithinYear, YearFromTime.
  pose proof (YearFromDay_spec (Day t)) as Hs.
  rewrite DayFromYear_succ, DaysInYear_isLeapYear in Hs. lia.
Qed.

(** What the getters return is always a real date and time. *)
Lemma getters_range (t : Z) :
  0 <= MonthFromTime t <= 11
  /\ 1 <= DateFromTime t <= daysInMonth (YearFromTime t) (MonthFromTime t + 1)
  /\ 0 <= HourFromTime t <= 23
  /\ 0 <= MinFromTime t <= 59
  /\ 0 <= SecFromTime t <= 59.
Proof.
  pose proof (DayWithinYear_bounds t) as Hd.
  split; [| split; [| unfold HourFromTime, MinFromTime, SecFromTime;
                      repeat split; Z.div_mod_to_equations; lia]].
  - unfold MonthFromTime, monthOfDay. case_ifs; lia.
  - unfold DateFromTime, MonthFromTime, monthOfDay, daysInMonth, monthStart.
    rewrite InLeapYear_isLeapYear in *.
    generalize dependent (DayWithinYear t). intros d Hd.
    destruct (isLeapYear (YearFromTime t)); case_ifs_simpl; lia.
Qed.

Lemma monthOfDay_spec (y m d : Z) :
  1 <= m <= 12 -> 1 <= d <= daysInMonth y m ->
  monthOfDay (monthStart (m - 1) (InLeapYear y) + d - 1) (InLeapYear y) = m - 1.
Proof.
  intros Hm. rewrite InLeapYear_isLeapYear. unfold daysInMonth.
  destruct (isLeapYear y); month_cases m; eval_monthStart; simpl; intros Hd;
    unfold monthOfDay; case_ifs; lia.
Qed.

(** The getters give back the fields of a real date and time. *)
Lemma Date_roundtrip (y m d h mi s : Z) :
  1 <= m <= 12 -> 1 <= d <= daysInMonth y m ->
  0 <= h <= 23 -> 0 <= mi <= 59 -> 0 <= s <= 59 ->
  let t := MakeDate (MakeDay y (m - 1) d) (MakeTime h mi s 0) in
  YearFromTime t = y /\ MonthFromTime t + 1 = m /\ DateFromTime t = d
  /\ HourFromTime t = h /\ MinFromTime t = mi /\ SecFromTime t = s.
Proof.
  intros Hm Hd Hh Hmi Hs t.
  assert (Htime : 0 <= MakeTime h mi s 0 < msPerDay).
  { unfold MakeTime, msPerDay, msPerHour, msPerMinute, msPerSecond. lia. }
  assert (HD : Day t = MakeDay y (m - 1) d) by (apply Day_MakeDate; assumption).
  assert (HMD : MakeDay y (m - 1) d = DayFromYear y + monthStart (m - 1) (InLeapYear y) + d - 1).
  { unfold MakeDay. cbv zeta.
    replace ((m - 1) / 12) with 0 by (Z.div_mod_to_equations; lia).
    replace ((m - 1) mod 12) with (m - 1) by (Z.div_mod_to_equations; lia).
    rewrite Z.add_0_r. reflexivity. }
  assert (Hin : 0 <= monthStart (m - 1) (InLeapYear y) + d - 1 < 365 + InLeapYear y).
  { revert Hd. rewrite InLeapYear_isLeapYear. unfold daysInMonth.
    destruct (isLeapYear y); month_cases m; eval_monthStart; simpl; lia. }
  assert (HY : YearFromTime t = y).
  { unfold YearFromTime. rewrite HD, HMD. apply YearFromDay_unique.
    rewrite DayFromYear_succ, DaysInYear_isLeapYear. lia. }
  assert (HW : DayWithinYear t = monthStart (m - 1) (InLeapYear y) + d - 1).
  { unfold DayWithinYear. rewrite HY, HD, HMD. lia. }
  assert (HM : MonthFromTime t = m - 1).
  { unfold MonthFromTime. rewrite HY, HW. apply monthOfDay_spec; assumption. }
  split; [assumption |].
  split; [lia |].
  split; [unfold DateFromTime; rewrite HM, HY, HW; lia |].
  assert (Ht : t = MakeDay y (m - 1) d * 86400000 + h * 3600000 + mi * 60000 + s * 1000).
  { subst t. unfold MakeDate, MakeTime, msPerDay, msPerHour, msPerMinute, msPerSecond. lia. }
  unfold HourFromTime, MinFromTime, SecFromTime, msPerHour, msPerMinute, msPerSecond.
  rewrite Ht. repeat split; Z.div_mod_to_equations; lia.
Qed.

End DateFacts.

(** ** The timestamp codec *)

Section Timestamp.

Import Js JsValue Time.

Lemma takeDigits_Some (n : nat) (s d r : string) :
  takeDigits n s = Some (d, r) ->
  s = (d ++ r)%string /\ String.length d = n /\ allDigits d = true.
Proof.
  revert s d r. induction n as [| n IH]; intros s d r H.
  - simpl in H. injection H as <- <-. repeat split.
  - cbn [takeDigits] in H. destruct s as [| c s]; [discriminate |].
    destruct (isDigit c) eqn:Hc; [| discriminate].
    destruct (takeDigits n s) as [[d' r'] |] eqn:Ht; [| discriminate].
    injection H as <- <-. destruct (IH _ _ _ Ht) as (-> & Hl & Hd).
    repeat split.
    + simpl. rewrite Hl. reflexivity.
    + simpl. rewrite Hc, Hd. reflexivity.
Qed.

Lemma expectChar_Some (c : ascii) (s r : string) :
  expectChar c s = Some r -> s = String c r.
Proof.
  unfold expectChar. destruct s as [| c' s]; [discriminate |].
  destruct (Ascii.eqb_spec c c'); [| discriminate].
  intros [= <-]. subst. reflexivity.
Qed.

Lemma matchTimestamp_Some (text : string) (f : Fields) :
  matchTimestamp text = Some f -> text = fieldsText f /\ wellFormedFields f.
Proof.
  unfold matchTimestamp. intros H.
  repeat match type of H with
         | mbind _ ?o = Some _ =>
             let E := fresh "E" in
             destruct o as [[? ?] |] eqn:E; [cbn [mbind option_bind] in H | discriminate H]
         | mbind _ ?o = Some _ =>
             let E := fresh "E" in
             destruct o as [? |] eqn:E; [cbn [mbind option_bind] in H | discriminate H]
         end.
  destruct (isEmpty _) eqn:Hend in H; [| discriminate].
  injection H as <-.
  repeat match goal with
         | E : takeDigits _ _ = Some _ |- _ => apply takeDigits_Some in E; destruct E as (? & ? & ?)
         | E : expectChar _ _ = Some _ |- _ => apply expectChar_Some in E
         end.
  match goal with
  | H : isEmpty ?s = true |- _ => destruct s; [| discriminate]
  end.
  subst. unfold fieldsText, wellFormedFields. cbn [yearText monthText dayText hourText minuteText secondText].
  split; [| tauto].
  rewrite append_Empty_r. reflexivity.
Qed.

Lemma parse_matched (text fieldName : string) (f : Fields) :
  matchTimestamp (trim text) = Some f ->
  parseTimestampToEpochSeconds (JStr text) fieldName =
    if survivesNormalization f
    then Ok ((DateUTC (fieldYear f) (fieldMonth f - 1) (fieldDay f)
                (fieldHour f) (fieldMinute f) (fieldSecond f)
              - IST_OFFSET_SECONDS * 1000) / 1000)
    else Err (PlainError (fieldName ++ " is not a valid calendar timestamp")).
Proof.
  intros Hm. unfold parseTimestampToEpochSeconds. rewrite Hm. cbv zeta.
  unfold survivesNormalization, fieldYear, fieldMonth, fieldDay, fieldHour,
    fieldMinute, fieldSecond. cbv zeta.
  repeat match goal with
         | |- context [?a =? ?b] => destruct (a =? b); cbn [negb orb andb]
         end; reflexivity.
Qed.

Lemma wellFormed_nonneg (f : Fields) :
  wellFormedFields f ->
  0 <= fieldYear f <= 9999 /\ 0 <= fieldMonth f <= 99 /\ 0 <= fieldDay f <= 99
  /\ 0 <= fieldHour f <= 99 /\ 0 <= fieldMinute f <= 99 /\ 0 <= fieldSecond f <= 99.
Proof.
  intros ((L1 & D1) & (L2 & D2) & (L3 & D3) & (L4 & D4) & (L5 & D5) & (L6 & D6)).
  pose proof (digitsValue_upper _ D1) as H1. rewrite L1 in H1.
  pose proof (digitsValue_upper _ D2) as H2. rewrite L2 in H2.
  pose proof (digitsValue_upper _ D3) as H3. rewrite L3 in H3.
  pose proof (digitsValue_upper _ D4) as H4. rewrite L4 in H4.
  pose proof (digitsValue_upper _ D5) as H5. rewrite L5 in H5.
  pose proof (digitsValue_upper _ D6) as H6. rewrite L6 in H6.
  change (10 ^ Z.of_nat 4) with 10000 in H1.
  change (10 ^ Z.of_nat 2) with 100 in H2, H3, H4, H5, H6.
  unfold fieldYear, fieldMonth, fieldDay, fieldHour, fieldMinute, fieldSecond. lia.
Qed.

(** [TimeClip] is the identity on the time value of four-digit fields. *)
Lemma DateUTC_range (f : Fields) :
  wellFormedFields f ->
  Z.abs (DateUTC (fieldYear f) (fieldMonth f - 1) (fieldDay f)
           (fieldHour f) (fieldMinute f) (fieldSecond f)) <= 8640000000000000.
Proof.
  intros Hw. pose proof (wellFormed_nonneg f Hw) as Hb.
  unfold DateUTC, MakeDate, MakeDay, MakeTime, msPerDay, msPerHour, msPerMinute, msPerSecond.
  cbv zeta.
  match goal with
  | |- context [monthStart ?m ?l] =>
      pose proof (monthStart_bounds m l (InLeapYear_bounds _)) as Hms
  end.
  generalize dependent (monthStart ((fieldMonth f - 1) mod 12)).
  intros ms Hms. specialize (Hms _ eq_refl) || idtac.
  unfold DayFromYear.
  destruct ((0 <=? fieldYear f) && (fieldYear f <=? 99)); Z.div_mod_to_equations; lia.
Qed.

(** The getters give back the arguments of [Date.UTC] exactly on the real
    dates and times from the year 100 on. *)
Lemma DateUTC_getters (y mo d h mi s : Z) :
  0 <= y -> 0 <= h -> 0 <= mi -> 0 <= s ->
  (YearFromTime (DateUTC y (mo - 1) d h mi s) = y
   /\ MonthFromTime (DateUTC y (mo - 1) d h mi s) + 1 = mo
   /\ DateFromTime (DateUTC y (mo - 1) d h mi s) = d
   /\ HourFromTime (DateUTC y (mo - 1) d h mi s) = h
   /\ MinFromTime (DateUTC y (mo - 1) d h mi s) = mi
   /\ SecFromTime (DateUTC y (mo - 1) d h mi s) = s)
  <-> (100 <= y /\ 1 <= mo <= 12 /\ 1 <= d <= daysInMonth y mo
       /\ h <= 23 /\ mi <= 59 /\ s <= 59).
Proof.
  intros Hy0 Hh0 Hmi0 Hs0. split.
  - intros (HY & HM & HD & HH & HMi & HS).
    pose proof (getters_range (DateUTC y (mo - 1) d h mi s)) as (Rm & Rd & Rh & Rmi & Rs).
    rewrite HY, HM, HD in Rd. rewrite HH in Rh. rewrite HMi in Rmi. rewrite HS in Rs.
    assert (Hmo : 1 <= mo <= 12) by lia.
    split; [| lia].
    destruct (Z_lt_dec y 100) as [Hlt | Hge]; [exfalso | lia].
    clear HM HD HH HMi HS Rm.
    assert (Hc : (0 <=? y) && (y <=? 99) = true)
      by (apply andb_true_iff; split; apply Z.leb_le; lia).
    assert (HU : DateUTC y (mo - 1) d h mi s
                 = MakeDate (MakeDay (1900 + y) (mo - 1) d) (MakeTime h mi s 0)).
    { unfold DateUTC. rewrite Hc. reflexivity. }
    assert (Htime : 0 <= MakeTime h mi s 0 < msPerDay).
    { unfold MakeTime, msPerDay, msPerHour, msPerMinute, msPerSecond. lia. }
    rewrite HU, YearFromTime_eq, (Day_MakeDate _ _ Htime) in HY.
    pose proof (YearFromDay_spec (MakeDay (1900 + y) (mo - 1) d)) as Hs.
    rewrite HY in Hs.
    assert (Hday : DayFromYear (1900 + y) <= MakeDay (1900 + y) (mo - 1) d).
    { unfold MakeDay. cbv zeta.
      replace ((mo - 1) / 12) with 0 by (Z.div_mod_to_equations; lia).
      rewrite Z.add_0_r.
      pose proof (monthStart_bounds ((mo - 1) mod 12) _ (InLeapYear_bounds (1900 + y))). lia. }
    pose proof (DayFromYear_lt (y + 1) (1900 + y) ltac:(lia)). lia.
  - intros (Hy & Hmo & Hd & Hh & Hmi & Hs).
    unfold DateUTC.
    assert (Hc : (0 <=? y) && (y <=? 99) = false)
      by (apply andb_false_iff; right; apply Z.leb_gt; lia).
    rewrite Hc.
    exact (Date_roundtrip y mo d h mi s Hmo Hd (conj Hh0 Hh) (conj Hmi0 Hmi) (conj Hs0 Hs)).
Qed.

(** The check of the parser passes exactly on the real dates and times. *)
Lemma survivesNormalization_valid (f : Fields) :
  wellFormedFields f ->
  survivesNormalization f = true <-> validFields f.
Proof.
  intros Hw. pose proof (wellFormed_nonneg f Hw) as Hb.
  unfold survivesNormalization, validFields. cbv zeta.
  unfold getUTCFullYear, getUTCMonth, getUTCDate, getUTCHours, getUTCMinutes, getUTCSeconds.
  rewrite !andb_true_iff, !Z.eqb_eq.
  rewrite <- (DateUTC_getters (fieldYear f) (fieldMonth f) (fieldDay f)
                (fieldHour f) (fieldMinute f) (fieldSecond f)) by lia.
  tauto.
Qed.

Lemma parsed_seconds (f : Fields) :
  1 <= fieldMonth f <= 12 ->
  (DateUTC (fieldYear f) (fieldMonth f - 1) (fieldDay f)
     (fieldHour f) (fieldMinute f) (fieldSecond f) - IST_OFFSET_SECONDS * 1000) / 1000
  = (if (0 <=? fieldYear f) && (fieldYear f <=? 99)
     then civilSeconds (1900 + fieldYear f) (fieldMonth f) (fieldDay f)
            (fieldHour f) (fieldMinute f) (fieldSecond f)
     else fieldsSeconds f) - 19800.
Proof.
  intros Hm. unfold DateUTC, fieldsSeconds, civilSeconds.
  destruct ((0 <=? fieldYear f) && (fieldYear f <=? 99));
    rewrite <- MakeDay_daysFromCivil by assumption;
    unfold MakeDate, MakeTime, msPerDay, msPerHour, msPerMinute, msPerSecond,
      IST_OFFSET_SECONDS;
    symmetry; apply Z.div_unique with (r := 0); lia.
Qed.

End Timestamp.

(** ** The claims on the timestamp codec *)

Section TimestampClaims.

Import Js JsValue Time.

Lemma takeDigits_complete (n : nat) (d r : string) :
  String.length d = n -> allDigits d = true -> takeDigits n (d ++ r) = Some (d, r).
Proof.
  intros <-. induction d as [| c d IH]; intros Hd; [reflexivity |].
  cbn [allDigits] in Hd. apply andb_true_iff in Hd as [Hc Hd].
  rewrite append_String. cbn [String.length takeDigits]. rewrite Hc, (IH Hd). reflexivity.
Qed.

Lemma expectChar_complete (c : ascii) (r : string) :
  expectChar c (String c EmptyString ++ r) = Some r.
Proof. rewrite append_String, append_Empty. cbn [expectChar]. rewrite Ascii.eqb_refl. reflexivity. Qed.

(** [matchTimestamp] accepts exactly the texts of the pattern. *)
Lemma matchTimestamp_complete (f : Fields) :
  wellFormedFields f -> matchTimestamp (fieldsText f) = Some f.
Proof.
  intros ((L1 & D1) & (L2 & D2) & (L3 & D3) & (L4 & D4) & (L5 & D5) & (L6 & D6)).
  destruct f as [y mo d h mi s]. cbn [yearText monthText dayText hourText minuteText secondText] in *.
  unfold matchTimestamp, fieldsText. cbn [yearText monthText dayText hourText minuteText secondText].
  rewrite (takeDigits_complete 4 y _ L1 D1). cbn [mbind option_bind].
  rewrite expectChar_complete. cbn [mbind option_bind].
  rewrite (takeDigits_complete 2 mo _ L2 D2). cbn [mbind option_bind].
  rewrite expectChar_complete. cbn [mbind option_bind].
  rewrite (takeDigits_complete 2 d _ L3 D3). cbn [mbind option_bind].
  rewrite expectChar_complete. cbn [mbind option_bind].
  rewrite (takeDigits_complete 2 h _ L4 D4). cbn [mbind option_bind].
  rewrite expectChar_complete. cbn [mbind option_bind].
  rewrite (takeDigits_complete 2 mi _ L5 D5). cbn [mbind option_bind].
  rewrite expectChar_complete. cbn [mbind option_bind].
  rewrite <- (append_Empty_r s) at 1.
  rewrite (takeDigits_complete 2 s _ L6 D6). reflexivity.
Qed.

(** C6, as the specification states it, fails: the parser removes leading
    and trailing white space before it matches the pattern, so a text that
    does not match the pattern exactly is accepted. *)
Lemma parseTimestamp_trims_first :
  matchTimestamp " 2023-10-12 20:15:00" = None
  /\ parseTimestampToEpochSeconds (JStr " 2023-10-12 20:15:00") "timestamp" = Ok 1697121900.
Proof. split; vm_compute; reflexivity. Qed.

(** The example of the specification: 30 February is rejected. *)
Example parseTimestamp_rejects_february_30 :
  parseTimestampToEpochSeconds (JStr "2023-02-30 10:00:00") "timestamp"
  = Err (PlainError "timestamp is not a valid calendar timestamp").
Proof. vm_compute. reflexivity. Qed.

(** C6 (amended): the parser throws exactly when the text, with the white
    space around it removed, does not match the pattern
    [YYYY-MM-DD HH:mm:ss], or matches it with fields that are not a real
    date and time of the calendar; on success it returns the seconds from
    the epoch to the fields read in UTC, minus 19800. *)
Theorem parseTimestamp_accepts_exactly (text fieldName : string) :
  (forall e,
      parseTimestampToEpochSeconds (JStr text) fieldName = Ok e <->
      exists f, matchTimestamp (trim text) = Some f /\ validFields f
                /\ e = fieldsSeconds f - 19800)
  /\ ((exists err, parseTimestampToEpochSeconds (JStr text) fieldName = Err err) <->
      (matchTimestamp (trim text) = None
       \/ exists f, matchTimestamp (trim text) = Some f /\ ~ validFields f)).
Proof.
  destruct (matchTimestamp (trim text)) as [f |] eqn:Hm.
  - pose proof (matchTimestamp_Some _ _ Hm) as [_ Hw].
    pose proof (survivesNormalization_valid f Hw) as Hv.
    rewrite (parse_matched text fieldName f Hm).
    destruct (survivesNormalization f) eqn:Hs.
    + assert (Hval : validFields f) by (apply Hv; reflexivity).
      assert (Hmo : 1 <= fieldMonth f <= 12) by (destruct Hval as (_ & ? & _); assumption).
      assert (Hy : (0 <=? fieldYear f) && (fieldYear f <=? 99) = false).
      { destruct Hval as (? & _). apply andb_false_iff. right. apply Z.leb_gt. lia. }
      rewrite (parsed_seconds f Hmo), Hy.
      split.
      * intros e. split.
        -- intros [= <-]. exists f. auto.
        -- intros (f' & [= <-] & _ & ->). reflexivity.
      * split.
        -- intros (err & Herr). discriminate.
        -- intros [Hn | (f' & [= <-] & Hnv)]; [discriminate | contradiction].
    + assert (Hnv : ~ validFields f).
      { intros Hval. apply Hv in Hval. discriminate. }
      split.
      * intros e. split; [discriminate |].
        intros (f' & [= <-] & Hval & _). contradiction.
      * split; [| eauto]. intros _. right. exists f. auto.
  - unfold parseTimestampToEpochSeconds. rewrite Hm. split.
    + intros e. split; [discriminate | intros (f & Hf & _); discriminate].
    + split; [auto | eauto].
Qed.

Lemma intToString_nonneg (n : Z) : 0 <= n -> intToString n = natDigits n.
Proof. intros H. unfold intToString. destruct (Z.ltb_spec n 0); [lia | reflexivity]. Qed.

(** A group of two digits is the padded text of its value. *)
Lemma padStart_two_digits (s : string) :
  String.length s = 2%nat -> allDigits s = true ->
  padStart (intToString (digitsValue s)) 2 "0" = s.
Proof.
  intros Hl Hd.
  destruct s as [| c1 [| c2 [| c3 s]]]; try discriminate.
  cbn [allDigits] in Hd. apply andb_true_iff in Hd as [H1 Hd].
  apply andb_true_iff in Hd as [H2 _].
  pose proof (isDigit_bounds c1 H1) as B1. pose proof (isDigit_bounds c2 H2) as B2.
  rewrite <- (digitChar_digitValue c1 H1), <- (digitChar_digitValue c2 H2).
  generalize dependent (digitValue c1). generalize dependent (digitValue c2).
  intros d2 B2 d1 B1.
  assert (C1 : d1 = 0 \/ d1 = 1 \/ d1 = 2 \/ d1 = 3 \/ d1 = 4 \/ d1 = 5 \/ d1 = 6
               \/ d1 = 7 \/ d1 = 8 \/ d1 = 9) by lia.
  assert (C2 : d2 = 0 \/ d2 = 1 \/ d2 = 2 \/ d2 = 3 \/ d2 = 4 \/ d2 = 5 \/ d2 = 6
               \/ d2 = 7 \/ d2 = 8 \/ d2 = 9) by lia.
  clear B1 B2.
  repeat (destruct C1 as [C1 | C1]); subst d1;
    repeat (destruct C2 as [C2 | C2]); subst d2; vm_compute; reflexivity.
Qed.

(** A year of four digits from 1000 on is the text of its value. *)
Lemma intToString_year (s : string) :
  String.length s = 4%nat -> allDigits s = true -> 1000 <= digitsValue s ->
  intToString (digitsValue s) = s.
Proof.
  intros Hl Hd Hy. rewrite intToString_nonneg by lia.
  apply natDigits_digitsValue; [assumption | | intros ->; discriminate].
  destruct s as [| c s]; [discriminate |].
  cbn [String.get]. intros [= ->].
  cbn [allDigits] in Hd. apply andb_true_iff in Hd as [_ Hd].
  pose proof (digitsValue_upper s Hd) as Hu.
  injection Hl as Hl. rewrite Hl in Hu. change (10 ^ Z.of_nat 3) with 1000 in Hu.
  unfold digitsValue in Hy. cbn [digitsValueFrom] in Hy.
  change (10 * 0 + digitValue "0") with 0 in Hy. unfold digitsValue in Hu. lia.
Qed.

Lemma survivesNormalization_getters (f : Fields) :
  survivesNormalization f = true ->
  let utcMs := DateUTC (fieldYear f) (fieldMonth f - 1) (fieldDay f)
                 (fieldHour f) (fieldMinute f) (fieldSecond f) in
  getUTCFullYear utcMs = fieldYear f
  /\ getUTCMonth utcMs + 1 = fieldMonth f
  /\ getUTCDate utcMs = fieldDay f
  /\ getUTCHours utcMs = fieldHour f
  /\ getUTCMinutes utcMs = fieldMinute f
  /\ getUTCSeconds utcMs = fieldSecond f.
Proof.
  unfold survivesNormalization. cbv zeta.
  rewrite !andb_true_iff, !Z.eqb_eq. tauto.
Qed.

Lemma DateUTC_whole_seconds (y mo d h mi s : Z) :
  (DateUTC y mo d h mi s - IST_OFFSET_SECONDS * 1000) / 1000 * 1000
  + IST_OFFSET_SECONDS * 1000 = DateUTC y mo d h mi s.
Proof.
  unfold DateUTC, MakeDate, MakeTime, msPerDay, msPerHour, msPerMinute, msPerSecond,
    IST_OFFSET_SECONDS. cbv zeta.
  generalize (MakeDay (if (0 <=? y) && (y <=? 99) then 1900 + y else y) mo d). intros D.
  Z.div_mod_to_equations. lia.
Qed.

Lemma format_eq (epochSeconds : Z) :
  formatEpochSecondsToTimestamp epochSeconds =
    let d := epochSeconds * 1000 + IST_OFFSET_SECONDS * 1000 in
    (intToString (getUTCFullYear d) ++ "-"
       ++ padStart (intToString (getUTCMonth d + 1)) 2 "0" ++ "-"
       ++ padStart (intToString (getUTCDate d)) 2 "0" ++ " "
       ++ padStart (intToString (getUTCHours d)) 2 "0" ++ ":"
       ++ padStart (intToString (getUTCMinutes d)) 2 "0" ++ ":"
       ++ padStart (intToString (getUTCSeconds d)) 2 "0")%string.
Proof. reflexivity. Qed.

(** C7, as the specification states it, fails in two ways: the formatter
    returns the text without the white space the parser removed, and it
    does not pad the year, so an accepted year below 1000 loses its
    leading zero. *)
Lemma format_parse_not_identity :
  parseTimestampToEpochSeconds (JStr " 2023-10-12 20:15:00") "timestamp" = Ok 1697121900
  /\ formatEpochSecondsToTimestamp 1697121900 = "2023-10-12 20:15:00"%string
  /\ parseTimestampToEpochSeconds (JStr "0123-01-01 00:00:00") "timestamp" = Ok (-58285719000)
  /\ formatEpochSecondsToTimestamp (-58285719000) = "123-01-01 00:00:00"%string.
Proof. repeat split; vm_compute; reflexivity. Qed.

(** C7 (amended): for every text the parser accepts whose year is 1000 or
    later, formatting the parsed instant gives the text without the white
    space around it; so [format (parse T) = T] for every accepted [T] with
    such a year and no white space around it. *)
Theorem format_parse_roundtrip (text fieldName : string) (e : Z) (f : Fields) :
  parseTimestampToEpochSeconds (JStr text) fieldName = Ok e ->
  matchTimestamp (trim text) = Some f ->
  1000 <= fieldYear f ->
  formatEpochSecondsToTimestamp e = trim text.
Proof.
  intros Hp Hm Hy.
  rewrite (parse_matched text fieldName f Hm) in Hp.
  destruct (survivesNormalization f) eqn:Hs; [| discriminate].
  injection Hp as <-.
  pose proof (survivesNormalization_getters f Hs) as HG. cbv zeta in HG.
  destruct HG as (G1 & G2 & G3 & G4 & G5 & G6).
  rewrite format_eq. cbv zeta. rewrite DateUTC_whole_seconds.
  rewrite G1, G2, G3, G4, G5, G6.
  destruct (matchTimestamp_Some _ _ Hm) as
    (Ht & (L1 & D1) & (L2 & D2) & (L3 & D3) & (L4 & D4) & (L5 & D5) & (L6 & D6)).
  unfold fieldYear, fieldMonth, fieldDay, fieldHour, fieldMinute, fieldSecond in *.
  rewrite (intToString_year _ L1 D1 Hy).
  rewrite (padStart_two_digits _ L2 D2), (padStart_two_digits _ L3 D3),
    (padStart_two_digits _ L4 D4), (padStart_two_digits _ L5 D5),
    (padStart_two_digits _ L6 D6).
  symmetry. exact Ht.
Qed.

Lemma format_parse_roundtrip_witness :
  formatEpochSecondsToTimestamp 1697121900 = trim " 2023-10-12 20:15:00 ".
Proof.
  apply (format_parse_roundtrip " 2023-10-12 20:15:00 " "timestamp" 1697121900
           {| yearText := "2023"; monthText := "10"; dayText := "12";
              hourText := "20"; minuteText := "15"; secondText := "00" |}).
  - vm_compute. reflexivity.
  - vm_compute. reflexivity.
  - vm_compute. discriminate.
Defined.

End TimestampClaims.

(** ** The [date] fallback and absent period fields *)

Section Interface.

Import Js JsValue Engine.

Lemma getTimestampField_eq (record : RawTransaction) :
  getTimestampField record =
    match (if isString (raw_timestamp record) then raw_timestamp record else raw_date record) with
    | JStr s => Ok s
    | _ => Err (PlainError "timestamp is required")
    end.
Proof. reflexivity. Qed.

Lemma bind_Ok {A B : Type} (r : result A) (k : A -> result B) (b : B) :
  bind r k = Ok b -> exists a, r = Ok a /\ k a = Ok b.
Proof. destruct r as [a | e]; [eauto | discriminate]. Qed.

(** What [parseTransactionInput] builds. *)
Lemma parseTransactionInput_Ok (raw : RawTransaction) (i : nat) (source : string)
    (tx : Transaction) :
  parseTransactionInput raw i source = Ok tx ->
  fresh tx /\ inputIndex tx = i
  /\ remanentBasePaise tx = ceilingPaise tx - amountPaise tx
  /\ getTimestampField raw = Ok (timestamp tx)
  /\ Time.parseTimestampToEpochSeconds (JStr (timestamp tx)) (indexed source i ++ ".timestamp")
     = Ok (epochSeconds tx).
Proof.
  unfold parseTransactionInput. cbv zeta. intros H.
  apply bind_Ok in H as (ts & Hts & H).
  apply bind_Ok in H as (es & Hes & H).
  apply bind_Ok in H as (am & Ham & H).
  apply bind_Ok in H as (u & Hu & H).
  apply bind_Ok in H as (ce & Hce & H).
  destruct (ce <? am); [discriminate |].
  destruct (negb (Z.rem ce 10000 =? 0)); [discriminate |].
  injection H as <-. unfold fresh.
  cbn [timestamp epochSeconds amountPaise ceilingPaise remanentBasePaise
         remanentFinalPaise inputIndex].
  repeat split.
  - revert Hts. destruct (getTimestampField raw); [intros [= ->]; reflexivity | discriminate].
  - revert Hes. destruct (Time.parseTimestampToEpochSeconds _ _);
      [intros [= ->]; reflexivity | discriminate].
Qed.

Lemma parseTransactionInput_getTimestamp (raw : RawTransaction) (i : nat) (source : string)
    (tx : Transaction) :
  parseTransactionInput raw i source = Ok tx -> getTimestampField raw = Ok (timestamp tx).
Proof. intros H. apply (parseTransactionInput_Ok _ _ _ _ H). Qed.

Lemma append_cancel_l (p a b : string) : (p ++ a)%string = (p ++ b)%string -> a = b.
Proof.
  induction p as [| c p IH]; [rewrite !append_Empty; trivial |].
  rewrite !append_String. intros [= H]. exact (IH H).
Qed.

(** The two errors of the timestamp parser on a text. *)
Lemma parseTimestamp_errors (text name : string) (e : error) :
  Time.parseTimestampToEpochSeconds (JStr text) name = Err e ->
  e = PlainError (name ++ " must follow " ++ Time.TIMESTAMP_FORMAT)
  \/ e = PlainError (name ++ " is not a valid calendar timestamp").
Proof.
  unfold Time.parseTimestampToEpochSeconds.
  destruct (Time.matchTimestamp (trim text)) as [f |]; [| intros [= <-]; auto].
  cbv zeta.
  match goal with
  | |- (if ?b then _ else _) = _ -> _ => destruct b
  end; [intros [= <-]; auto | discriminate].
Qed.

(** No later step of the two parsers answers "timestamp is required". *)
Lemma not_required_after_timestamp (path text : string) (e : error) :
  Time.parseTimestampToEpochSeconds (JStr text) (path ++ ".timestamp") = Err e ->
  errorMessage e <> (path ++ ".timestamp is required")%string.
Proof.
  intros He H. apply parseTimestamp_errors in He as [-> | ->];
    cbn [errorMessage] in H;
    rewrite append_assoc in H; apply append_cancel_l in H; discriminate H.
Qed.

Lemma not_required_from_number (raw : value) (path rest : string) (c : ascii) (e : error) :
  c <> "t"%char ->
  parseNumericField raw (path ++ String "." (String c rest)) = Err e ->
  e <> ApiError 400 (path ++ ".timestamp is required").
Proof.
  intros Hc He H. unfold parseNumericField in He.
  destruct (Money.parseMoney raw) as [v | cause]; [discriminate |].
  injection He as <-. injection H as H.
  rewrite append_assoc in H. apply append_cancel_l in H.
  rewrite !append_String in H. injection H as H _. congruence.
Qed.

(** C9: a record without a string [timestamp] but with a string [date] is
    read with [date] as its timestamp text, by the transaction path and by
    the expense path alike: both accept the record, with that text as the
    timestamp of the transaction, whenever the text is a timestamp and the
    amount is in range; each path rejects a record with "timestamp is
    required" exactly when neither field is a string. *)
Theorem date_is_the_fallback_timestamp (record : RawTransaction) (index : nat)
    (sourceField : string) :
  (forall d,
      isString (raw_timestamp record) = false -> raw_date record = JStr d ->
      getTimestampField record = Ok d
      /\ parseTransactionInput record index sourceField
         = parseTransactionInput (withTimestamp record (JStr d)) index sourceField
      /\ buildTransactionFromExpense record index
         = buildTransactionFromExpense (withTimestamp record (JStr d)) index
      /\ (forall seconds amount,
             Time.parseTimestampToEpochSeconds (JStr d)
               (indexed "expenses" index ++ ".timestamp") = Ok seconds ->
             parseNumericField (raw_amount record) (indexed "expenses" index ++ ".amount")
             = Ok amount ->
             0 <= amount < MAX_AMOUNT_PAISE ->
             buildTransactionFromExpense record index
             = Ok {| timestamp := d;
                     epochSeconds := seconds;
                     amountPaise := amount;
                     ceilingPaise := Money.ceilTo100 amount;
                     remanentBasePaise := Money.ceilTo100 amount - amount;
                     remanentFinalPaise := Money.ceilTo100 amount - amount;
                     inputIndex := index |})
      /\ (forall seconds amount,
             Time.parseTimestampToEpochSeconds (JStr d)
               (indexed sourceField index ++ ".timestamp") = Ok seconds ->
             parseNumericField (raw_amount record) (indexed sourceField index ++ ".amount")
             = Ok amount ->
             0 <= amount < MAX_AMOUNT_PAISE ->
             raw_ceiling record = JUndefined ->
             parseTransactionInput record index sourceField
             = Ok {| timestamp := d;
                     epochSeconds := seconds;
                     amountPaise := amount;
                     ceilingPaise := Money.ceilTo100 amount;
                     remanentBasePaise := Money.ceilTo100 amount - amount;
                     remanentFinalPaise := Money.ceilTo100 amount - amount;
                     inputIndex := index |})
      /\ (forall tx, parseTransactionInput record index sourceField = Ok tx ->
                     timestamp tx = d)
      /\ (forall tx, buildTransactionFromExpense record index = Ok tx -> timestamp tx = d))
  /\ (parseTransactionInput record index sourceField
      = Err (ApiError 400 (indexed sourceField index ++ ".timestamp is required"))
      <-> isString (raw_timestamp record) = false /\ isString (raw_date record) = false)
  /\ (buildTransactionFromExpense record index
      = Err (ApiError 400 (indexed "expenses" index ++ ".timestamp is required"))
      <-> isString (raw_timestamp record) = false /\ isString (raw_date record) = false)
  /\ ((exists e, getTimestampField record = Err e)
      <-> isString (raw_timestamp record) = false /\ isString (raw_date record) = false)
  /\ (forall e, getTimestampField record = Err e -> e = PlainError "timestamp is required").
Proof.
  assert (Hrange : forall amount name,
             0 <= amount < MAX_AMOUNT_PAISE ->
             Money.validateMoneyRange amount 0 MAX_AMOUNT_PAISE name = Ok tt).
  { intros amount name Ha. unfold Money.validateMoneyRange.
    destruct (Z.ltb_spec amount 0); [lia |].
    destruct (Z.geb_spec amount MAX_AMOUNT_PAISE); [lia | reflexivity]. }
  assert (Hceil : forall amount,
             0 <= amount ->
             (Money.ceilTo100 amount <? amount) = false
             /\ negb (Z.rem (Money.ceilTo100 amount) 10000 =? 0) = false).
  { intros amount Ha. unfold Money.ceilTo100. cbv zeta.
    destruct (Z.eqb_spec (Z.rem amount 10000) 0) as [H0 | Hn].
    - split; [apply Z.ltb_ge; lia | rewrite H0; reflexivity].
    - split; [apply Z.ltb_ge; Z.to_euclidean_division_equations; lia |].
      apply negb_false_iff, Z.eqb_eq. Z.to_euclidean_division_equations. lia. }
  assert (Hnone : isString (raw_timestamp record) = false /\ isString (raw_date record) = false ->
                  getTimestampField record = Err (PlainError "timestamp is required")).
  { intros [Ht Hd]. rewrite getTimestampField_eq, Ht.
    destruct (raw_date record); try reflexivity; discriminate. }
  assert (Hsome : ~ (isString (raw_timestamp record) = false
                     /\ isString (raw_date record) = false) ->
                  exists text, getTimestampField record = Ok text).
  { intros Hn. rewrite getTimestampField_eq.
    destruct (raw_timestamp record) eqn:Ht, (raw_date record) eqn:Hd; cbn [isString] in *;
      eauto; exfalso; apply Hn; split; reflexivity. }
  split; [| split; [| split; [| split]]].
  - intros d Ht Hd.
    assert (Hg : getTimestampField record = Ok d).
    { rewrite getTimestampField_eq, Ht, Hd. reflexivity. }
    assert (Hg' : getTimestampField (withTimestamp record (JStr d)) = Ok d) by reflexivity.
    split; [exact Hg |].
    split; [unfold parseTransactionInput; rewrite Hg, Hg'; reflexivity |].
    split; [unfold buildTransactionFromExpense; rewrite Hg, Hg'; reflexivity |].
    split; [| split; [| split]].
    + intros seconds amount Hs Ha Hin.
      unfold buildTransactionFromExpense. cbv zeta. rewrite Hg. cbn [bind].
      rewrite Hs. cbn [bind]. rewrite Ha. cbn [bind].
      rewrite (Hrange amount _ Hin). reflexivity.
    + intros seconds amount Hs Ha Hin Hc.
      unfold parseTransactionInput. cbv zeta. rewrite Hg. cbn [bind].
      rewrite Hs. cbn [bind]. rewrite Ha. cbn [bind].
      rewrite (Hrange amount _ Hin). cbn [bind]. rewrite Hc. cbn [isUndefined negb bind].
      destruct (Hceil amount ltac:(lia)) as [H1 H2]. rewrite H1, H2. reflexivity.
    + intros tx Htx. apply parseTransactionInput_getTimestamp in Htx. congruence.
    + intros tx Htx. unfold buildTransactionFromExpense in Htx. cbv zeta in Htx.
      rewrite Hg in Htx. cbn [bind] in Htx.
      destruct (Time.parseTimestampToEpochSeconds (JStr d) _); [| discriminate].
      cbn [bind] in Htx.
      destruct (parseNumericField (raw_amount record) _); [| discriminate].
      cbn [bind] in Htx.
      destruct (Money.validateMoneyRange _ _ _ _); [| discriminate].
      injection Htx as <-. reflexivity.
  - split.
    + intros H.
      destruct (isString (raw_timestamp record)) eqn:Ht, (isString (raw_date record)) eqn:Hd;
        try (split; reflexivity); exfalso;
        (destruct Hsome as [text Hg]; [intros [? ?]; discriminate |]);
        revert H; unfold parseTransactionInput; cbv zeta; rewrite Hg; cbn [bind];
        (destruct (Time.parseTimestampToEpochSeconds (JStr text) _) as [seconds | e] eqn:Hs;
         cbn [bind];
         [| intros [= H]; exact (not_required_after_timestamp _ _ _ Hs H)]);
        (destruct (parseNumericField (raw_amount record) _) as [amount | e] eqn:Ha;
         cbn [bind];
         [| intros [= H]; revert H;
            apply (not_required_from_number _ _ "mount" "a" _ ltac:(discriminate) Ha)]);
        (destruct (Money.validateMoneyRange _ _ _ _) as [u | e] eqn:Hv; cbn [bind];
         [| unfold Money.validateMoneyRange in Hv;
            destruct (_ || _); [injection Hv as <-; discriminate | discriminate]]);
        (destruct (negb (isUndefined (raw_ceiling record))); cbn [bind];
         [destruct (parseNumericField (raw_ceiling record) _) as [ceiling | e] eqn:Hc;
          cbn [bind];
          [| intros [= H]; revert H;
             apply (not_required_from_number _ _ "eiling" "c" _ ltac:(discriminate) Hc)] |]);
        (match goal with
         | |- (if ?b then _ else _) = _ -> _ => destruct b
         end;
         [intros [= H]; apply append_cancel_l in H; discriminate H |]);
        (match goal with
         | |- (if ?b then _ else _) = _ -> _ => destruct b
         end;
         [intros [= H]; apply append_cancel_l in H; discriminate H | discriminate]).
    + intros Hboth. unfold parseTransactionInput. rewrite (Hnone Hboth). reflexivity.
  - split.
    + intros H.
      destruct (isString (raw_timestamp record)) eqn:Ht, (isString (raw_date record)) eqn:Hd;
        try (split; reflexivity); exfalso;
        (destruct Hsome as [text Hg]; [intros [? ?]; discriminate |]);
        revert H; unfold buildTransactionFromExpense; cbv zeta; rewrite Hg; cbn [bind];
        (destruct (Time.parseTimestampToEpochSeconds (JStr text) _) as [seconds | e] eqn:Hs;
         cbn [bind];
         [| intros [= H]; exact (not_required_after_timestamp _ _ _ Hs H)]);
        (destruct (parseNumericField (raw_amount record) _) as [amount | e] eqn:Ha;
         cbn [bind];
         [| intros [= H]; revert H;
            apply (not_required_from_number _ _ "mount" "a" _ ltac:(discriminate) Ha)]);
        (destruct (Money.validateMoneyRange _ _ _ _) as [u | e] eqn:Hv; cbn [bind];
         [discriminate
         | unfold Money.validateMoneyRange in Hv;
           destruct (_ || _); [injection Hv as <-; discriminate | discriminate]]).
    + intros Hboth. unfold buildTransactionFromExpense. rewrite (Hnone Hboth). reflexivity.
  - rewrite getTimestampField_eq.
    destruct (raw_timestamp record), (raw_date record); cbn [isString];
      (split; [intros [e He]; (discriminate || (split; reflexivity))
              | intros [H1 H2]; (discriminate || eauto)]).
  - intros e. rewrite getTimestampField_eq.
    destruct (raw_timestamp record), (raw_date record); cbn [isString];
      intros [= <-] || discriminate; reflexivity.
Qed.

(** A record with a [date] and no [timestamp] is accepted by both paths. *)
Lemma date_is_the_fallback_timestamp_witness :
  getTimestampField dateOnlyRecord = Ok "2023-10-12 20:15:00"%string
  /\ parseTransactionInput dateOnlyRecord 0 "transactions"
     = Ok (fixtureTransaction "2023-10-12 20:15:00" 1697121900 25000 30000 0)
  /\ buildTransactionFromExpense dateOnlyRecord 0
     = Ok (fixtureTransaction "2023-10-12 20:15:00" 1697121900 25000 30000 0).
Proof.
  destruct (date_is_the_fallback_timestamp dateOnlyRecord 0 "transactions") as (Hd & _).
  destruct (Hd "2023-10-12 20:15:00"%string eq_refl eq_refl)
    as (Hg & _ & _ & Hbuild & Hparse & _).
  split; [exact Hg |]. split.
  - rewrite (Hparse 1697121900 25000); [reflexivity | | | | reflexivity].
    + vm_compute. reflexivity.
    + vm_compute. reflexivity.
    + vm_compute. split; congruence.
  - rewrite (Hbuild 1697121900 25000); [reflexivity | | |].
    + vm_compute. reflexivity.
    + vm_compute. reflexivity.
    + vm_compute. split; congruence.
Defined.

Lemma filteringLoop_fresh (raws : list RawTransaction) (i : nat) (st st' : Filtering) :
  filteringLoop raws i st = Ok st' ->
  Forall fresh (f_validTransactions st) -> Forall fresh (f_validTransactions st').
Proof.
  revert i st. induction raws as [| raw raws IH]; intros i st H Hf.
  - injection H as <-. assumption.
  - cbn [filteringLoop] in H.
    destruct (parseTransactionInput raw i "transactions") as [tx | e] eqn:Hp.
    + destruct (f_seen st !! timestamp tx).
      * apply IH in H; assumption.
      * apply IH in H; [assumption |]. cbn.
        apply Forall_app. split; [assumption |].
        constructor; [| constructor]. apply (parseTransactionInput_Ok _ _ _ _ Hp).
    + destruct (isApiError e); [| discriminate]. apply IH in H; assumption.
Qed.

Lemma applyTemporalRules_no_periods (txs : list Transaction) (ks : list KPeriod) :
  fst (applyTemporalRules txs [] [] ks) = txs.
Proof. reflexivity. Qed.

Lemma applyTemporalRules_no_windows (txs : list Transaction) (qs : list QPeriod)
    (ps : list PPeriod) :
  snd (applyTemporalRules txs qs ps []) = [].
Proof. reflexivity. Qed.

Lemma parseForFiltering_absent_q (payload : Payload) (parsed : Parsed) :
  q payload = Absent -> parseForFiltering payload = Ok parsed -> qPeriods parsed = [].
Proof.
  intros Hq H. unfold parseForFiltering in H. rewrite Hq in H.
  repeat (apply bind_Ok in H as (? & ? & H)). injection H as <-. cbn.
  match goal with
  | H : assertArray (orEmpty Absent) "q" = Ok ?l, H' : parseQPeriods ?l = Ok ?r |- ?r = [] =>
      injection H as <-; injection H' as <-; reflexivity
  end.
Qed.

Lemma parseForFiltering_absent_p (payload : Payload) (parsed : Parsed) :
  p payload = Absent -> parseForFiltering payload = Ok parsed -> pPeriods parsed = [].
Proof.
  intros Hq H. unfold parseForFiltering in H. rewrite Hq in H.
  repeat (apply bind_Ok in H as (? & ? & H)). injection H as <-. cbn.
  match goal with
  | H : assertArray (orEmpty Absent) "p" = Ok ?l, H' : parsePPeriods ?l = Ok ?r |- ?r = [] =>
      injection H as <-; injection H' as <-; reflexivity
  end.
Qed.

Lemma parseForFiltering_absent_k (payload : Payload) (parsed : Parsed) :
  k payload = Absent -> parseForFiltering payload = Ok parsed -> kPeriods parsed = [].
Proof.
  intros Hq H. unfold parseForFiltering in H. rewrite Hq in H.
  repeat (apply bind_Ok in H as (? & ? & H)). injection H as <-. cbn.
  match goal with
  | H : assertArray (orEmpty Absent) "k" = Ok ?l, H' : parseKPeriods ?l = Ok ?r |- ?r = [] =>
      injection H as <-; injection H' as <-; reflexivity
  end.
Qed.

Lemma parseForFiltering_fresh (payload : Payload) (parsed : Parsed) :
  parseForFiltering payload = Ok parsed -> Forall fresh (validTransactions parsed).
Proof.
  intros H. unfold parseForFiltering in H.
  repeat (apply bind_Ok in H as (? & ? & H)). injection H as <-. cbn.
  match goal with
  | H : filteringLoop _ _ _ = Ok _ |- _ => apply filteringLoop_fresh in H; [assumption | constructor]
  end.
Qed.

Lemma processFiltering_Ok (payload : Payload) (r : Filtered) :
  processFiltering payload = Ok r ->
  exists parsed,
    parseForFiltering payload = Ok parsed
    /\ fd_validTransactions r
       = fst (applyTemporalRules (validTransactions parsed) (qPeriods parsed)
                (pPeriods parsed) (kPeriods parsed))
    /\ fd_invalid r = invalid parsed
    /\ fd_savingsByDates r
       = snd (applyTemporalRules (validTransactions parsed) (qPeriods parsed)
                (pPeriods parsed) (kPeriods parsed)).
Proof.
  unfold processFiltering. intros H. apply bind_Ok in H as (parsed & Hp & H).
  exists parsed. split; [assumption |].
  destruct (applyTemporalRules _ _ _ _) as [txs svs]. injection H as <-. auto.
Qed.

Lemma sumOf_ext (f g : Transaction -> Z) (l : list Transaction) :
  Forall (fun tx => f tx = g tx) l -> sumOf f l = sumOf g l.
Proof.
  unfold sumOf. generalize 0. induction l as [| tx l IH]; intros acc H; [reflexivity |].
  inversion H as [| ? ? Htx Hl]; subst. cbn [fold_left]. rewrite Htx. apply IH. assumption.
Qed.

Lemma readsAs_steps {A : Type} (v : field RawPeriod)
    (parse : list RawPeriod -> result (list A)) (periods : list A) (name : string) :
  readsAs v parse periods ->
  parse [] = Ok [] ->
  exists raws, assertArray (orEmpty v) name = Ok raws /\ parse raws = Ok periods.
Proof.
  intros [[-> ->] | (raws & -> & Hlen & Hparse)] Hnil.
  - exists []. split; [reflexivity | exact Hnil].
  - exists raws. split; [| exact Hparse]. cbn [orEmpty assertArray].
    destruct (Z.ltb_spec MAX_RECORDS (Z.of_nat (length raws))); [lia | reflexivity].
Qed.

Lemma readsAs_absent {A : Type} (v : field RawPeriod)
    (parse : list RawPeriod -> result (list A)) (periods : list A) :
  readsAs v parse periods -> v = Absent -> periods = [].
Proof. intros [[_ ->] | (raws & -> & _)]; [reflexivity | discriminate]. Qed.

(** C10: an absent [q], [p] or [k] field is read as the empty list, by the
    filter operation and by the returns operation alike, and no operation
    fails for it: whenever the transactions are processed and the period
    fields that are present parse, the operations return the result of
    the rules on the periods read, the empty list standing for an absent
    field.  With [q] and [p] absent every valid transaction is returned
    unchanged, its final remanent being its base remanent, and with [k]
    absent [savingsByDates] is empty. *)
Theorem absent_periods_are_empty (payload : Payload) :
  parseForFiltering payload
  = parseForFiltering
      (withPeriods payload (orEmpty (q payload)) (orEmpty (p payload)) (orEmpty (k payload)))
  /\ (forall raws st qs ps ks,
         transactions payload = Items raws ->
         Z.of_nat (length raws) <= MAX_RECORDS ->
         filteringLoop raws 0 initialFiltering = Ok st ->
         readsAs (q payload) parseQPeriods qs ->
         readsAs (p payload) parsePPeriods ps ->
         readsAs (k payload) parseKPeriods ks ->
         let out := applyTemporalRules (f_validTransactions st) qs ps ks in
         processFiltering payload
         = Ok {| fd_validTransactions := fst out;
                 fd_invalid := f_invalid st;
                 fd_savingsByDates := snd out |}
         /\ filterTransactions payload
            = Ok {| fr_valid := map serializeTransaction (fst out);
                    fr_invalid := f_invalid st;
                    fr_savingsByDates :=
                      map (fun e => (sd_start e, sd_end e, sd_amount e)) (snd out);
                    fr_transactionsTotalAmount :=
                      Money.moneyToFixed2 (sumOf amountPaise (fst out));
                    fr_transactionsTotalCeiling :=
                      Money.moneyToFixed2 (sumOf ceilingPaise (fst out));
                    fr_transactionsTotalRemanent :=
                      Money.moneyToFixed2 (sumOf remanentFinalPaise (fst out)) |}
         /\ (forall parseAge normalizeInflation (EnrichedSaving : Type)
                (enrich : string -> JsNumber.Number -> JsNumber.Number -> Z -> SavingByDates
                          -> EnrichedSaving)
                (instrument : string) a rate w,
                instrument = "nps"%string \/ instrument = "index"%string ->
                parseAge (age payload) = Ok a ->
                normalizeInflation (inflation payload) = Ok rate ->
                parseNumericField (wage payload) "wage" = Ok w ->
                0 < w ->
                calculateReturns parseAge normalizeInflation enrich payload instrument
                = Ok {| rr_transactionsTotalAmount :=
                          Money.moneyToFixed2 (sumOf amountPaise (fst out));
                        rr_transactionsTotalCeiling :=
                          Money.moneyToFixed2 (sumOf ceilingPaise (fst out));
                        rr_transactionsTotalRemanent :=
                          Money.moneyToFixed2 (sumOf remanentFinalPaise (fst out));
                        rr_savingsByDates := map (enrich instrument a rate w) (snd out) |})
         /\ (q payload = Absent -> p payload = Absent ->
             fst out = f_validTransactions st
             /\ Forall (fun tx => remanentFinalPaise tx = remanentBasePaise tx) (fst out))
         /\ (k payload = Absent -> snd out = []))
  /\ (q payload = Absent -> p payload = Absent -> k payload = Absent ->
      processFiltering payload
      = bind (assertArray (transactions payload) "transactions") (fun rawTransactions =>
        bind (filteringLoop rawTransactions 0
                {| f_validTransactions := []; f_invalid := []; f_seen := ∅ |}) (fun st =>
        Ok {| fd_validTransactions := f_validTransactions st;
              fd_invalid := f_invalid st;
              fd_savingsByDates := [] |})))
  /\ (q payload = Absent -> p payload = Absent ->
      (forall r, processFiltering payload = Ok r ->
                 Forall (fun tx => remanentFinalPaise tx = remanentBasePaise tx)
                   (fd_validTransactions r))
      /\ (forall resp, filterTransactions payload = Ok resp ->
                       Forall (fun s => s_remanentFinal s = s_remanentBase s) (fr_valid resp)))
  /\ (k payload = Absent ->
      (forall r, processFiltering payload = Ok r -> fd_savingsByDates r = [])
      /\ (forall resp, filterTransactions payload = Ok resp -> fr_savingsByDates resp = []))
  /\ (forall parseAge normalizeInflation (EnrichedSaving : Type)
         (enrich : string -> JsNumber.Number -> JsNumber.Number -> Z -> SavingByDates
                   -> EnrichedSaving)
         (instrument : string),
         calculateReturns parseAge normalizeInflation enrich payload instrument
         = calculateReturns parseAge normalizeInflation enrich
             (withPeriods payload (orEmpty (q payload)) (orEmpty (p payload))
                (orEmpty (k payload))) instrument
         /\ (forall resp,
                calculateReturns parseAge normalizeInflation enrich payload instrument = Ok resp ->
                (k payload = Absent -> rr_savingsByDates resp = [])
                /\ (q payload = Absent -> p payload = Absent ->
                    exists r,
                      processFiltering payload = Ok r
                      /\ rr_transactionsTotalRemanent resp
                         = Money.moneyToFixed2
                             (sumOf remanentBasePaise (fd_validTransactions r))))).
Proof.
  assert (Hnew : forall raws st qs ps ks,
             transactions payload = Items raws ->
             Z.of_nat (length raws) <= MAX_RECORDS ->
             filteringLoop raws 0 initialFiltering = Ok st ->
             readsAs (q payload) parseQPeriods qs ->
             readsAs (p payload) parsePPeriods ps ->
             readsAs (k payload) parseKPeriods ks ->
             processFiltering payload
             = Ok {| fd_validTransactions :=
                       fst (applyTemporalRules (f_validTransactions st) qs ps ks);
                     fd_invalid := f_invalid st;
                     fd_savingsByDates :=
                       snd (applyTemporalRules (f_validTransactions st) qs ps ks) |}).
  { intros raws st qs ps ks Ht Hlen Hloop Hq Hp Hk.
    destruct (readsAs_steps _ _ _ "q" Hq eq_refl) as (rawQ & Hq1 & Hq2).
    destruct (readsAs_steps _ _ _ "p" Hp eq_refl) as (rawP & Hp1 & Hp2).
    destruct (readsAs_steps _ _ _ "k" Hk eq_refl) as (rawK & Hk1 & Hk2).
    unfold processFiltering, parseForFiltering. rewrite Ht. cbn [assertArray].
    destruct (Z.ltb_spec MAX_RECORDS (Z.of_nat (length raws))); [lia |].
    cbn [bind]. rewrite Hq1. cbn [bind]. rewrite Hp1. cbn [bind]. rewrite Hk1. cbn [bind].
    change {| f_validTransactions := []; f_invalid := []; f_seen := ∅ |}
      with initialFiltering.
    rewrite Hloop. cbn [bind]. rewrite Hq2. cbn [bind]. rewrite Hp2. cbn [bind].
    rewrite Hk2. cbn [bind validTransactions qPeriods pPeriods kPeriods invalid].
    destruct (applyTemporalRules (f_validTransactions st) qs ps ks) as [txs svs].
    reflexivity. }
  assert (Hreads : forall raws st qs ps ks,
             transactions payload = Items raws ->
             Z.of_nat (length raws) <= MAX_RECORDS ->
             filteringLoop raws 0 initialFiltering = Ok st ->
             readsAs (q payload) parseQPeriods qs ->
             readsAs (p payload) parsePPeriods ps ->
             readsAs (k payload) parseKPeriods ks ->
             let out := applyTemporalRules (f_validTransactions st) qs ps ks in
             processFiltering payload
             = Ok {| fd_validTransactions := fst out;
                     fd_invalid := f_invalid st;
                     fd_savingsByDates := snd out |}
             /\ filterTransactions payload
                = Ok {| fr_valid := map serializeTransaction (fst out);
                        fr_invalid := f_invalid st;
                        fr_savingsByDates :=
                          map (fun e => (sd_start e, sd_end e, sd_amount e)) (snd out);
                        fr_transactionsTotalAmount :=
                          Money.moneyToFixed2 (sumOf amountPaise (fst out));
                        fr_transactionsTotalCeiling :=
                          Money.moneyToFixed2 (sumOf ceilingPaise (fst out));
                        fr_transactionsTotalRemanent :=
                          Money.moneyToFixed2 (sumOf remanentFinalPaise (fst out)) |}
             /\ (forall parseAge normalizeInflation (EnrichedSaving : Type)
                    (enrich : string -> JsNumber.Number -> JsNumber.Number -> Z
                              -> SavingByDates -> EnrichedSaving)
                    (instrument : string) a rate w,
                    instrument = "nps"%string \/ instrument = "index"%string ->
                    parseAge (age payload) = Ok a ->
                    normalizeInflation (inflation payload) = Ok rate ->
                    parseNumericField (wage payload) "wage" = Ok w ->
                    0 < w ->
                    calculateReturns parseAge normalizeInflation enrich payload instrument
                    = Ok {| rr_transactionsTotalAmount :=
                              Money.moneyToFixed2 (sumOf amountPaise (fst out));
                            rr_transactionsTotalCeiling :=
                              Money.moneyToFixed2 (sumOf ceilingPaise (fst out));
                            rr_transactionsTotalRemanent :=
                              Money.moneyToFixed2 (sumOf remanentFinalPaise (fst out));
                            rr_savingsByDates :=
                              map (enrich instrument a rate w) (snd out) |})
             /\ (q payload = Absent -> p payload = Absent ->
                 fst out = f_validTransactions st
                 /\ Forall (fun tx => remanentFinalPaise tx = remanentBasePaise tx) (fst out))
             /\ (k payload = Absent -> snd out = [])).
  { intros raws st qs ps ks Ht Hlen Hloop Hq Hp Hk out.
    pose proof (Hnew raws st qs ps ks Ht Hlen Hloop Hq Hp Hk) as Hprocess. fold out in Hprocess.
    split; [exact Hprocess |].
    split; [unfold filterTransactions; rewrite Hprocess; reflexivity |].
    split; [| split].
    - intros parseAge normalizeInflation EnrichedSaving enrich instrument a rate w
        Hinstrument Hage Hrate Hwage Hw.
      unfold calculateReturns.
      assert (Hsupported : negb (instrument =? "nps")%string
                           && negb (instrument =? "index")%string = false)
        by (destruct Hinstrument as [-> | ->]; reflexivity).
      rewrite Hsupported, Hage. cbn [bind]. rewrite Hrate. cbn [bind]. rewrite Hwage.
      cbn [bind]. destruct (Z.leb_spec w 0); [lia |].
      rewrite Hprocess. reflexivity.
    - intros Habsent_q Habsent_p. subst out.
      rewrite (readsAs_absent _ _ _ Hq Habsent_q), (readsAs_absent _ _ _ Hp Habsent_p).
      rewrite applyTemporalRules_no_periods. split; [reflexivity |].
      assert (Hfresh : Forall fresh (f_validTransactions st))
        by (apply (filteringLoop_fresh raws 0 initialFiltering st Hloop); constructor).
      exact Hfresh.
    - intros Habsent_k. subst out. rewrite (readsAs_absent _ _ _ Hk Habsent_k).
      apply applyTemporalRules_no_windows. }
  clear Hnew.
  assert (Hsame : parseForFiltering payload
                  = parseForFiltering
                      (withPeriods payload (orEmpty (q payload)) (orEmpty (p payload))
                         (orEmpty (k payload)))).
  { unfold parseForFiltering, withPeriods. cbn.
    destruct (q payload), (p payload), (k payload); reflexivity. }
  assert (Hbase : q payload = Absent -> p payload = Absent ->
                  forall r, processFiltering payload = Ok r ->
                            Forall (fun tx => remanentFinalPaise tx = remanentBasePaise tx)
                              (fd_validTransactions r)).
  { intros Hq Hp r Hr. apply processFiltering_Ok in Hr as (parsed & Hparsed & Hv & _).
    rewrite Hv, (parseForFiltering_absent_q _ _ Hq Hparsed),
      (parseForFiltering_absent_p _ _ Hp Hparsed), applyTemporalRules_no_periods.
    exact (parseForFiltering_fresh _ _ Hparsed). }
  assert (Hnone : k payload = Absent ->
                  forall r, processFiltering payload = Ok r -> fd_savingsByDates r = []).
  { intros Hk r Hr. apply processFiltering_Ok in Hr as (parsed & Hparsed & _ & _ & Hs).
    rewrite Hs, (parseForFiltering_absent_k _ _ Hk Hparsed).
    apply applyTemporalRules_no_windows. }
  split; [| split; [exact Hreads |]]; [| clear Hreads; split; [| split; [| split]]]; cycle 4.
  - intros parseAge normalizeInflation EnrichedSaving enrich instrument. split.
    + unfold calculateReturns, processFiltering. rewrite <- Hsame. reflexivity.
    + intros resp Hresp. unfold calculateReturns in Hresp.
      destruct (negb (instrument =? "nps")%string && negb (instrument =? "index")%string);
        [discriminate |].
      apply bind_Ok in Hresp as (a & _ & Hresp).
      apply bind_Ok in Hresp as (rate & _ & Hresp).
      apply bind_Ok in Hresp as (wagePaise & _ & Hresp).
      destruct (wagePaise <=? 0); [discriminate |].
      apply bind_Ok in Hresp as (r & Hr & Hresp). injection Hresp as <-.
      cbn [rr_savingsByDates rr_transactionsTotalRemanent]. split.
      * intros Hk. rewrite (Hnone Hk r Hr). reflexivity.
      * intros Hq Hp. exists r. split; [assumption |].
        f_equal. apply sumOf_ext. exact (Hbase Hq Hp r Hr).
  - exact Hsame.
  - intros Hq Hp Hk. unfold processFiltering, parseForFiltering. rewrite Hq, Hp, Hk.
    destruct (assertArray (transactions payload) "transactions") as [raws | e]; [| reflexivity].
    cbn [bind orEmpty assertArray length]. cbn [Z.of_nat]. cbn [Z.ltb Z.compare bind].
    destruct (filteringLoop raws 0 _) as [st | e]; reflexivity.
  - intros Hq Hp. pose proof (Hbase Hq Hp) as H1.
    split; [exact H1 |].
    intros resp Hresp. unfold filterTransactions in Hresp.
    apply bind_Ok in Hresp as (r & Hr & Hresp). injection Hresp as <-. cbn.
    specialize (H1 r Hr). apply Forall_map. 
    eapply Forall_impl; [exact H1 |]. intros tx Htx. cbn. rewrite Htx. reflexivity.
  - intros Hk. pose proof (Hnone Hk) as H1.
    split; [exact H1 |].
    intros resp Hresp. unfold filterTransactions in Hresp.
    apply bind_Ok in Hresp as (r & Hr & Hresp). injection Hresp as <-. cbn.
    rewrite (H1 r Hr). reflexivity.
Qed.

(** A payload without [q], [p] and [k]: the filter operation and the
    returns operation succeed, the valid transaction keeps its base
    remanent and [savingsByDates] is empty. *)
Lemma absent_periods_are_empty_witness :
  exists st,
    filteringLoop duplicateRecords 0 initialFiltering = Ok st
    /\ length (f_validTransactions st) = 1%nat
    /\ filterTransactions (payloadOf duplicateRecords)
       = Ok {| fr_valid := map serializeTransaction (f_validTransactions st);
               fr_invalid := f_invalid st;
               fr_savingsByDates := [];
               fr_transactionsTotalAmount := Money.moneyToFixed2 25000;
               fr_transactionsTotalCeiling := Money.moneyToFixed2 30000;
               fr_transactionsTotalRemanent := Money.moneyToFixed2 5000 |}
    /\ Forall (fun tx => remanentFinalPaise tx = remanentBasePaise tx) (f_validTransactions st)
    /\ calculateReturns (fun _ => Ok (JsNumber.ofZ 29)) (fun _ => Ok (JsNumber.ofZ 5))
         (fun _ _ _ _ entry => entry) (payloadOf duplicateRecords) "index"
       = Ok {| rr_transactionsTotalAmount := Money.moneyToFixed2 25000;
               rr_transactionsTotalCeiling := Money.moneyToFixed2 30000;
               rr_transactionsTotalRemanent := Money.moneyToFixed2 5000;
               rr_savingsByDates := [] |}.
Proof.
  destruct (filteringLoop duplicateRecords 0 initialFiltering) as [st | e] eqn:Hloop;
    [| vm_compute in Hloop; discriminate Hloop].
  destruct (absent_periods_are_empty (payloadOf duplicateRecords)) as (_ & Hreads & _).
  destruct (Hreads duplicateRecords st [] [] [] eq_refl ltac:(vm_compute; discriminate) Hloop
              (or_introl (conj eq_refl eq_refl)) (or_introl (conj eq_refl eq_refl))
              (or_introl (conj eq_refl eq_refl)))
    as (_ & Hfilter & Hreturns & Hsame & _).
  destruct (Hsame eq_refl eq_refl) as [_ Hbase].
  assert (Hst : st = {| f_validTransactions :=
                          [fixtureTransaction "2023-01-01 00:00:00" 1672511400 25000 30000 0];
                        f_invalid := f_invalid st;
                        f_seen := f_seen st |}).
  { vm_compute in Hloop. injection Hloop as <-. reflexivity. }
  exists st. split; [reflexivity |].
  split; [rewrite Hst; reflexivity |].
  split; [rewrite Hfilter, Hst; reflexivity |].
  split; [exact Hbase |].
  rewrite (Hreturns (fun _ => Ok (JsNumber.ofZ 29)) (fun _ => Ok (JsNumber.ofZ 5)) _
             (fun _ _ _ _ entry => entry) "index"%string (JsNumber.ofZ 29) (JsNumber.ofZ 5)
             5000000 (or_intror eq_refl) eq_refl eq_refl).
  - rewrite Hst. reflexivity.
  - vm_compute. reflexivity.
  - reflexivity.
Defined.

End Interface.

(** ** Sorting *)

Section SortFacts.

Context {A : Type} (key : A -> Z).

Let byKey (a b : A) : Z := key a - key b.
Let ordered (a b : A) : Prop := key a <= key b.

Lemma insertSorted_Permutation (cmp : A -> A -> Z) (x : A) (l : list A) :
  Permutation (JsArray.insertSorted cmp x l) (x :: l).
Proof.
  induction l as [| y l IH]; [reflexivity |].
  cbn [JsArray.insertSorted]. destruct (cmp x y <=? 0); [reflexivity |].
  rewrite IH. apply perm_swap.
Qed.

Lemma sort_Permutation (cmp : A -> A -> Z) (l : list A) :
  Permutation (JsArray.sort cmp l) l.
Proof.
  induction l as [| x l IH]; [reflexivity |].
  unfold JsArray.sort in *. cbn [foldr]. rewrite insertSorted_Permutation, IH. reflexivity.
Qed.

Lemma insertSorted_sorted (x : A) (l : list A) :
  StronglySorted ordered l -> StronglySorted ordered (JsArray.insertSorted byKey x l).
Proof.
  induction l as [| y l IH]; intros Hs.
  - repeat constructor.
  - cbn [JsArray.insertSorted]. subst byKey ordered. cbn beta.
    apply StronglySorted_inv in Hs as [Hl Hy].
    destruct (Z.leb_spec (key x - key y) 0) as [Hle | Hgt].
    + constructor; [constructor; assumption |].
      constructor; [lia |].
      eapply Forall_impl; [exact Hy |]. cbn. intros z Hz. lia.
    + constructor; [apply IH; assumption |].
      rewrite (insertSorted_Permutation _ x l). constructor; [lia | assumption].
Qed.

Lemma sort_sorted (l : list A) : StronglySorted ordered (JsArray.sort byKey l).
Proof.
  induction l as [| x l IH]; [constructor |].
  unfold JsArray.sort in *. cbn [foldr]. apply insertSorted_sorted. assumption.
Qed.

Lemma sorted_lookup (l : list A) (i j : nat) (a b : A) :
  StronglySorted ordered l -> (i <= j)%nat -> l !! i = Some a -> l !! j = Some b ->
  key a <= key b.
Proof.
  intros Hs. revert i j. induction Hs as [| x l Hs IH Hx]; intros i j Hij Hi Hj.
  - discriminate.
  - destruct i as [| i], j as [| j]; cbn in Hi, Hj.
    + injection Hi as <-. injection Hj as <-. lia.
    + injection Hi as <-. apply list_elem_of_lookup_2 in Hj.
      rewrite Forall_forall in Hx. apply (Hx b Hj).
    + lia.
    + apply (IH i j); [lia | assumption | assumption].
Qed.

End SortFacts.

Section SortGeneral.

Context {A : Type} (cmp : A -> A -> Z).

Hypothesis cmp_trans : forall a b c, cmp a b <= 0 -> cmp b c <= 0 -> cmp a c <= 0.
Hypothesis cmp_total : forall a b, 0 < cmp a b -> cmp b a <= 0.

Lemma insertSorted_sorted_general (x : A) (l : list A) :
  StronglySorted (fun a b => cmp a b <= 0) l ->
  StronglySorted (fun a b => cmp a b <= 0) (JsArray.insertSorted cmp x l).
Proof.
  induction l as [| y l IH]; intros Hs.
  - repeat constructor.
  - cbn [JsArray.insertSorted].
    apply StronglySorted_inv in Hs as [Hl Hy].
    destruct (Z.leb_spec (cmp x y) 0) as [Hle | Hgt].
    + constructor; [constructor; assumption |].
      constructor; [assumption |].
      eapply Forall_impl; [exact Hy |]. cbn. intros z Hz. eapply cmp_trans; eassumption.
    + constructor; [apply IH; assumption |].
      rewrite (insertSorted_Permutation cmp x l). constructor; [| assumption].
      apply cmp_total. assumption.
Qed.

Lemma sort_sorted_general (l : list A) :
  StronglySorted (fun a b => cmp a b <= 0) (JsArray.sort cmp l).
Proof.
  induction l as [| x l IH]; [constructor |].
  unfold JsArray.sort in *. cbn [foldr]. apply insertSorted_sorted_general. assumption.
Qed.

End SortGeneral.

Lemma StronglySorted_weaken {A : Type} (R1 R2 : A -> A -> Prop) (l : list A) :
  (forall a b, R1 a b -> R2 a b) -> StronglySorted R1 l -> StronglySorted R2 l.
Proof.
  intros HR. induction 1 as [| x l Hs IH Hx]; constructor; [assumption |].
  eapply Forall_impl; [exact Hx |]. intros y. apply HR.
Qed.

(** The sort only looks at the comparator on the elements of the array. *)
Lemma sort_ext {A : Type} (cmp1 cmp2 : A -> A -> Z) (l : list A) :
  (forall a b, a ∈ l -> b ∈ l -> cmp1 a b = cmp2 a b) ->
  JsArray.sort cmp1 l = JsArray.sort cmp2 l.
Proof.
  induction l as [| x l IH]; intros Hext; [reflexivity |].
  unfold JsArray.sort in *. cbn [foldr].
  rewrite IH by (intros a b Ha Hb; apply Hext; apply elem_of_cons; auto).
  assert (Hsub : forall y, y ∈ foldr (JsArray.insertSorted cmp2) [] l -> y ∈ l).
  { intros y Hy. change (y ∈ JsArray.sort cmp2 l) in Hy.
    rewrite sort_Permutation in Hy. assumption. }
  revert Hsub. generalize (foldr (JsArray.insertSorted cmp2) [] l). intros s Hsub.
  induction s as [| y s IHs]; [reflexivity |].
  cbn [JsArray.insertSorted].
  rewrite (Hext x y (list_elem_of_here x l) (list_elem_of_further y x l (Hsub y (list_elem_of_here y s)))).
  destruct (cmp2 x y <=? 0); [reflexivity |].
  f_equal. apply IHs. intros z Hz. apply Hsub. right. assumption.
Qed.

(** ** Aggregation windows *)

Section Windows.

Import Engine.

(** *** Binary search *)

Lemma lowerBoundFuel_search (fuel : nat) (array : list Z) (target : Z) (left right : nat) :
  lowerBoundFuel fuel array target left right
  = searchFuel (fun v => v <? target) fuel array left right.
Proof.
  revert left right. induction fuel as [| f IH]; intros left right; [reflexivity |].
  cbn [lowerBoundFuel searchFuel]. destruct (left <? right)%nat; [| reflexivity].
  destruct (array !! _); [| reflexivity]. rewrite !IH. reflexivity.
Qed.

Lemma upperBoundFuel_search (fuel : nat) (array : list Z) (target : Z) (left right : nat) :
  upperBoundFuel fuel array target left right
  = searchFuel (fun v => v <=? target) fuel array left right.
Proof.
  revert left right. induction fuel as [| f IH]; intros left right; [reflexivity |].
  cbn [upperBoundFuel searchFuel]. destruct (left <? right)%nat; [| reflexivity].
  destruct (array !! _); [| reflexivity]. rewrite !IH. reflexivity.
Qed.

(** The search returns the boundary between the elements that pass the
    test and those that fail it, when no passing element follows a failing
    one. *)
Lemma searchFuel_spec (test : Z -> bool) (array : list Z) :
  (forall i j vi vj, (i <= j)%nat -> array !! i = Some vi -> array !! j = Some vj ->
                     test vj = true -> test vi = true) ->
  forall fuel left right,
    (left <= right <= length array)%nat ->
    (right - left <= fuel)%nat ->
    (forall i v, (i < left)%nat -> array !! i = Some v -> test v = true) ->
    (forall i v, (right <= i)%nat -> array !! i = Some v -> test v = false) ->
    let r := searchFuel test fuel array left right in
    (r <= length array)%nat
    /\ (forall i v, (i < r)%nat -> array !! i = Some v -> test v = true)
    /\ (forall i v, (r <= i)%nat -> array !! i = Some v -> test v = false).
Proof.
  intros Hmono. induction fuel as [| f IH]; intros left right Hlr Hfuel Hleft Hright.
  - cbn. assert (left = right) by lia. subst. repeat split; [lia | assumption | assumption].
  - cbn [searchFuel]. destruct (Nat.ltb_spec left right) as [Hlt | Hge].
    + assert (Hmid : (left <= (left + right) / 2 < right)%nat).
      { split; [apply Nat.div_le_lower_bound; lia | apply Nat.Div0.div_lt_upper_bound; lia]. }
      destruct (lookup_lt_is_Some_2 array ((left + right) / 2) ltac:(lia)) as [v Hv].
      rewrite Hv. destruct (test v) eqn:Htest.
      * apply IH; [lia | lia | | assumption].
        intros i vi Hi Hvi. apply (Hmono i ((left + right) / 2)%nat vi v); [lia | assumption ..].
      * apply IH; [lia | lia | assumption |].
        intros i vi Hi Hvi. destruct (test vi) eqn:Hti; [| reflexivity].
        rewrite (Hmono ((left + right) / 2)%nat i v vi ltac:(lia) Hv Hvi Hti) in Htest.
        discriminate.
    + assert (left = right) by lia. subst. repeat split; [lia | assumption | assumption].
Qed.

(** *** Prefix sums *)

Lemma prefixFrom_lookup (values : list Z) (acc : Z) (i : nat) :
  (i <= length values)%nat ->
  prefixFrom acc values !! i = Some (acc + sumZ (take i values)).
Proof.
  revert acc i. induction values as [| v values IH]; intros acc i Hi.
  - destruct i as [| i]; [| cbn [length] in Hi; lia]. cbn. f_equal. lia.
  - destruct i as [| i].
    + cbn. f_equal. lia.
    + cbn [length] in Hi. cbn [prefixFrom].
      change ((acc :: prefixFrom (acc + v) values) !! S i)
        with (prefixFrom (acc + v) values !! i).
      rewrite IH by lia. cbn [take sumZ foldr]. f_equal. unfold sumZ. lia.
Qed.

Lemma sumZ_app (l1 l2 : list Z) : sumZ (l1 ++ l2) = sumZ l1 + sumZ l2.
Proof. unfold sumZ. induction l1 as [| x l1 IH]; cbn; [reflexivity | rewrite IH; lia]. Qed.

(** *** Sums over a window *)

Lemma windowSum_app (l1 l2 : list Transaction) (lo hi : Z) :
  windowSum (l1 ++ l2) lo hi = windowSum l1 lo hi + windowSum l2 lo hi.
Proof.
  unfold windowSum. induction l1 as [| x l1 IH]; cbn; [reflexivity | rewrite IH; lia].
Qed.

Lemma windowSum_Permutation (l1 l2 : list Transaction) (lo hi : Z) :
  Permutation l1 l2 -> windowSum l1 lo hi = windowSum l2 lo hi.
Proof.
  unfold windowSum. induction 1; cbn; lia.
Qed.

Lemma windowSum_outside (l : list Transaction) (lo hi : Z) :
  Forall (fun tx => inWindow lo hi tx = false) l -> windowSum l lo hi = 0.
Proof.
  unfold windowSum. induction 1 as [| x l Hx Hl IH]; cbn; [reflexivity |].
  rewrite Hx, IH. reflexivity.
Qed.

Lemma windowSum_inside (l : list Transaction) (lo hi : Z) :
  Forall (fun tx => inWindow lo hi tx = true) l ->
  windowSum l lo hi = sumZ (map remanentFinalPaise l).
Proof.
  unfold windowSum, sumZ. induction 1 as [| x l Hx Hl IH]; cbn; [reflexivity |].
  rewrite Hx, IH. reflexivity.
Qed.

Lemma lookup_map {A B : Type} (f : A -> B) (l : list A) (i : nat) :
  map f l !! i = f <$> (l !! i).
Proof. revert i. induction l as [| x l IH]; intros [| i]; cbn; auto. Qed.

Lemma lowerBound_spec (times : list Z) (lo : Z) :
  (forall i j vi vj, (i <= j)%nat -> times !! i = Some vi -> times !! j = Some vj -> vi <= vj) ->
  (lowerBound times lo <= length times)%nat
  /\ (forall i v, (i < lowerBound times lo)%nat -> times !! i = Some v -> v < lo)
  /\ (forall i v, (lowerBound times lo <= i)%nat -> times !! i = Some v -> lo <= v).
Proof.
  intros Hs. unfold lowerBound. rewrite lowerBoundFuel_search.
  destruct (searchFuel_spec (fun v => v <? lo) times) with
    (fuel := length times) (left := 0%nat) (right := length times) as (H1 & H2 & H3).
  - intros i j vi vj Hij Hi Hj Ht. apply Z.ltb_lt in Ht. apply Z.ltb_lt.
    specialize (Hs i j vi vj Hij Hi Hj). lia.
  - lia.
  - lia.
  - intros i v Hi. lia.
  - intros i v Hi Hv. apply lookup_lt_Some in Hv. lia.
  - split; [exact H1 |]. split.
    + intros i v Hi Hv. apply Z.ltb_lt. eapply H2; eassumption.
    + intros i v Hi Hv. apply Z.ltb_ge. eapply H3; eassumption.
Qed.

Lemma upperBound_spec (times : list Z) (hi : Z) :
  (forall i j vi vj, (i <= j)%nat -> times !! i = Some vi -> times !! j = Some vj -> vi <= vj) ->
  (upperBound times hi <= length times)%nat
  /\ (forall i v, (i < upperBound times hi)%nat -> times !! i = Some v -> v <= hi)
  /\ (forall i v, (upperBound times hi <= i)%nat -> times !! i = Some v -> hi < v).
Proof.
  intros Hs. unfold upperBound. rewrite upperBoundFuel_search.
  destruct (searchFuel_spec (fun v => v <=? hi) times) with
    (fuel := length times) (left := 0%nat) (right := length times) as (H1 & H2 & H3).
  - intros i j vi vj Hij Hi Hj Ht. apply Z.leb_le in Ht. apply Z.leb_le.
    specialize (Hs i j vi vj Hij Hi Hj). lia.
  - lia.
  - lia.
  - intros i v Hi. lia.
  - intros i v Hi Hv. apply lookup_lt_Some in Hv. lia.
  - split; [exact H1 |]. split.
    + intros i v Hi Hv. apply Z.leb_le. eapply H2; eassumption.
    + intros i v Hi Hv. apply Z.leb_gt. eapply H3; eassumption.
Qed.

(** The difference of two prefix sums is the sum over the window. *)
Lemma prefix_difference (sorted : list Transaction) (lo hi : Z) :
  StronglySorted (fun a b => epochSeconds a <= epochSeconds b) sorted ->
  lo <= hi ->
  at0 (prefixFrom 0 (map remanentFinalPaise sorted))
    (upperBound (map epochSeconds sorted) hi)
  - at0 (prefixFrom 0 (map remanentFinalPaise sorted))
      (lowerBound (map epochSeconds sorted) lo)
  = windowSum sorted lo hi.
Proof.
  intros Hs Hlohi.
  set (times := map epochSeconds sorted).
  assert (Htimes : forall i j vi vj, (i <= j)%nat -> times !! i = Some vi ->
                                times !! j = Some vj -> vi <= vj).
  { intros i j vi vj Hij Hi Hj. subst times. rewrite lookup_map in Hi, Hj.
    destruct (sorted !! i) as [a |] eqn:Ha; [| discriminate].
    destruct (sorted !! j) as [b |] eqn:Hb; [| discriminate].
    injection Hi as <-. injection Hj as <-.
    exact (sorted_lookup epochSeconds sorted i j a b Hs Hij Ha Hb). }
  destruct (lowerBound_spec times lo Htimes) as (Hl1 & Hl2 & Hl3).
  destruct (upperBound_spec times hi Htimes) as (Hu1 & Hu2 & Hu3).
  set (lb := lowerBound times lo) in *. set (ub := upperBound times hi) in *.
  assert (Hlen : length times = length sorted) by (subst times; apply length_map).
  assert (Hlu : (lb <= ub)%nat).
  { destruct (le_lt_dec lb ub) as [H | H]; [assumption | exfalso].
    destruct (lookup_lt_is_Some_2 times ub ltac:(lia)) as [v Hv].
    specialize (Hl2 ub v H Hv). specialize (Hu3 ub v ltac:(lia) Hv). lia. }
  assert (Hat : forall i, (i <= length sorted)%nat ->
                     at0 (prefixFrom 0 (map remanentFinalPaise sorted)) i
                     = sumZ (take i (map remanentFinalPaise sorted))).
  { intros i Hi. unfold at0. rewrite prefixFrom_lookup by (rewrite length_map; lia).
    cbn. lia. }
  rewrite !Hat by lia.
  assert (Hsplit : sorted = take lb sorted ++ drop lb (take ub sorted) ++ drop ub sorted).
  { rewrite <- (take_drop ub sorted) at 1.
    rewrite <- (take_drop lb (take ub sorted)) at 1.
    rewrite take_take. replace (lb `min` ub)%nat with lb by lia.
    rewrite <- app_assoc. reflexivity. }
  assert (Hin : forall i x, sorted !! i = Some x -> times !! i = Some (epochSeconds x)).
  { intros i x Hx. subst times. rewrite lookup_map, Hx. reflexivity. }
  rewrite Hsplit at 3. rewrite !windowSum_app.
  rewrite (windowSum_outside (take lb sorted)).
  2:{ apply Forall_lookup. intros i x Hx. apply lookup_take_Some in Hx as [Hx Hi].
      specialize (Hl2 i _ Hi (Hin _ _ Hx)). unfold inWindow.
      apply andb_false_iff. left. apply Z.leb_gt. lia. }
  rewrite (windowSum_outside (drop ub sorted)).
  2:{ apply Forall_lookup. intros i x Hx. rewrite lookup_drop in Hx.
      specialize (Hu3 (ub + i)%nat _ ltac:(lia) (Hin _ _ Hx)). unfold inWindow.
      apply andb_false_iff. right. apply Z.leb_gt. lia. }
  rewrite (windowSum_inside (drop lb (take ub sorted))).
  2:{ apply Forall_lookup. intros i x Hx. rewrite lookup_drop in Hx.
      apply lookup_take_Some in Hx as [Hx Hi].
      specialize (Hl3 (lb + i)%nat _ ltac:(lia) (Hin _ _ Hx)).
      specialize (Hu2 (lb + i)%nat _ Hi (Hin _ _ Hx)). unfold inWindow.
      apply andb_true_iff. split; apply Z.leb_le; lia. }
  assert (Htake : take ub (map remanentFinalPaise sorted)
                  = take lb (map remanentFinalPaise sorted)
                    ++ map remanentFinalPaise (drop lb (take ub sorted))).
  { rewrite <- (take_drop lb (take ub (map remanentFinalPaise sorted))).
    rewrite take_take. replace (lb `min` ub)%nat with lb by lia.
    f_equal. change (map remanentFinalPaise sorted) with (remanentFinalPaise <$> sorted).
    change (map remanentFinalPaise (drop lb (take ub sorted)))
      with (remanentFinalPaise <$> drop lb (take ub sorted)).
    rewrite fmap_drop, fmap_take. reflexivity. }
  rewrite Htake, sumZ_app. lia.
Qed.

Lemma buildSavingsByKPeriods_eq (txs : list Transaction) (ks : list KPeriod) :
  buildSavingsByKPeriods txs ks =
    map (fun period =>
           let sorted := JsArray.sort (fun a b => epochSeconds a - epochSeconds b) txs in
           {| sv_start := startText period;
              sv_end := endText period;
              sv_amountPaise :=
                at0 (prefixFrom 0 (map remanentFinalPaise sorted))
                  (upperBound (map epochSeconds sorted) (k_end period))
                - at0 (prefixFrom 0 (map remanentFinalPaise sorted))
                    (lowerBound (map epochSeconds sorted) (k_start period)) |}) ks.
Proof. reflexivity. Qed.

(** The windows that [parseKPeriods] builds start no later than they end. *)
Lemma mapIndexed_Forall {A B : Type} (f : A -> nat -> Js.result B) (P : B -> Prop)
    (l : list A) (i : nat) (r : list B) :
  (forall x j y, f x j = Js.Ok y -> P y) ->
  mapIndexed f l i = Js.Ok r -> Forall P r.
Proof.
  intros Hf. revert i r. induction l as [| x l IH]; intros i r H.
  - injection H as <-. constructor.
  - cbn [mapIndexed] in H. apply bind_Ok in H as (y & Hy & H).
    apply bind_Ok in H as (ys & Hys & H). injection H as <-.
    constructor; [eapply Hf; eassumption | eapply IH; eassumption].
Qed.

Lemma parseKPeriods_ordered (raws : list RawPeriod) (ks : list KPeriod) :
  parseKPeriods raws = Js.Ok ks -> Forall (fun period => k_start period <= k_end period) ks.
Proof.
  apply mapIndexed_Forall. intros raw j period H. unfold parseKPeriod in H. cbv zeta in H.
  apply bind_Ok in H as (st & _ & H). apply bind_Ok in H as (en & _ & H).
  destruct (Z.ltb_spec en st); [discriminate |]. injection H as <-. cbn. lia.
Qed.

(** C4: every window reports the exact sum of the final remanents of the
    transactions whose instant lies in its inclusive interval; the entry of
    a window depends on that window alone, so overlapping windows each
    count a transaction and reordering the windows reorders the entries
    without changing any of them. *)
Theorem window_sums_are_exact (txs : list Transaction) (ks : list KPeriod) :
  Forall (fun period => k_start period <= k_end period) ks ->
  buildSavingsByKPeriods txs ks
  = map (fun period =>
           {| sv_start := startText period;
              sv_end := endText period;
              sv_amountPaise := windowSum txs (k_start period) (k_end period) |}) ks
  /\ (forall ks', Permutation ks ks' ->
                  Permutation (buildSavingsByKPeriods txs ks) (buildSavingsByKPeriods txs ks'))
  /\ (forall qs ps,
         map sd_amountPaise (snd (applyTemporalRules txs qs ps ks))
         = map (fun period =>
                  windowSum (fst (applyTemporalRules txs qs ps ks))
                    (k_start period) (k_end period)) ks).
Proof.
  intros Hks.
  assert (Hmain : forall l,
             map sv_amountPaise (buildSavingsByKPeriods l ks)
             = map (fun period => windowSum l (k_start period) (k_end period)) ks
             /\ buildSavingsByKPeriods l ks
                = map (fun period =>
                         {| sv_start := startText period;
                            sv_end := endText period;
                            sv_amountPaise := windowSum l (k_start period) (k_end period) |})
                    ks).
  { intros l. rewrite buildSavingsByKPeriods_eq. cbv zeta.
    set (sorted := JsArray.sort (fun a b => epochSeconds a - epochSeconds b) l).
    assert (Hsorted : StronglySorted (fun a b => epochSeconds a <= epochSeconds b) sorted)
      by apply (sort_sorted epochSeconds).
    assert (Hperm : Permutation sorted l) by apply sort_Permutation.
    clear -Hks Hsorted Hperm.
    induction Hks as [| period ks Hp Hks IH]; [split; reflexivity |].
    destruct IH as [IH1 IH2]. cbn [map sv_amountPaise].
    rewrite (prefix_difference sorted _ _ Hsorted Hp).
    rewrite (windowSum_Permutation _ _ _ _ Hperm).
    split; f_equal; assumption. }
  split; [apply Hmain |]. split.
  - intros ks' Hperm. rewrite !buildSavingsByKPeriods_eq. apply Permutation_map. assumption.
  - intros qs ps. unfold applyTemporalRules. cbv zeta. cbn [fst snd].
    rewrite map_map. cbn [sd_amountPaise].
    change (map (fun x => sv_amountPaise x) ?l) with (map sv_amountPaise l).
    apply Hmain.
Qed.

Lemma window_sums_are_exact_witness :
  buildSavingsByKPeriods fixtureTransactions fixtureK
  = map (fun period =>
           {| sv_start := startText period;
              sv_end := endText period;
              sv_amountPaise :=
                windowSum fixtureTransactions (k_start period) (k_end period) |}) fixtureK
  /\ (forall ks', Permutation fixtureK ks' ->
                  Permutation (buildSavingsByKPeriods fixtureTransactions fixtureK)
                    (buildSavingsByKPeriods fixtureTransactions ks'))
  /\ (forall qs ps,
         map sd_amountPaise (snd (applyTemporalRules fixtureTransactions qs ps fixtureK))
         = map (fun period =>
                  windowSum (fst (applyTemporalRules fixtureTransactions qs ps fixtureK))
                    (k_start period) (k_end period)) fixtureK).
Proof.
  apply (window_sums_are_exact fixtureTransactions fixtureK).
  repeat constructor; vm_compute; discriminate.
Defined.

End Windows.

(** ** The binary heap *)

Section HeapFacts.

Import BinaryHeap.

Context {A : Type} (compareFn : A -> A -> Z).

(** The comparator is a total preorder. *)
Hypothesis compare_trans :
  forall a b c, compareFn a b <= 0 -> compareFn b c <= 0 -> compareFn a c <= 0.
Hypothesis compare_total : forall a b, 0 < compareFn a b -> compareFn b a <= 0.

Lemma compare_refl (a : A) : compareFn a a <= 0.
Proof.
  destruct (Z_lt_dec 0 (compareFn a a)) as [H | H]; [| lia].
  apply compare_total. assumption.
Qed.

(** *** Swapping two elements *)

Lemma swap_length (data : list A) (i j : nat) : length (swap data i j) = length data.
Proof.
  unfold swap. destruct (data !! i), (data !! j); try reflexivity.
  rewrite !length_insert. reflexivity.
Qed.

Lemma swap_Permutation (data : list A) (i j : nat) : Permutation (swap data i j) data.
Proof.
  unfold swap. destruct (data !! i) eqn:Hi, (data !! j) eqn:Hj; try reflexivity.
  apply Permutation_insert_swap; assumption.
Qed.

Lemma swap_lookup (data : list A) (i j m : nat) (x y : A) :
  data !! i = Some x -> data !! j = Some y -> i <> j ->
  swap data i j !! m
  = if decide (m = j) then Some x else if decide (m = i) then Some y else data !! m.
Proof.
  intros Hi Hj Hij. unfold swap. rewrite Hi, Hj.
  pose proof (lookup_lt_Some _ _ _ Hi). pose proof (lookup_lt_Some _ _ _ Hj).
  destruct (decide (m = j)) as [-> | Hmj].
  - apply list_lookup_insert_eq. rewrite length_insert. assumption.
  - rewrite list_lookup_insert_ne by congruence.
    destruct (decide (m = i)) as [-> | Hmi].
    + apply list_lookup_insert_eq. assumption.
    + apply list_lookup_insert_ne. congruence.
Qed.

Lemma greaterAt_true (data : list A) (i j : nat) :
  greaterAt compareFn data i j = true ->
  exists x y, data !! i = Some x /\ data !! j = Some y /\ 0 < compareFn x y.
Proof.
  unfold greaterAt. destruct (data !! i) as [x |], (data !! j) as [y |]; try discriminate.
  intros H. apply Z.ltb_lt in H. eauto.
Qed.

Lemma greaterAt_false (data : list A) (i j : nat) (x y : A) :
  greaterAt compareFn data i j = false ->
  data !! i = Some x -> data !! j = Some y -> compareFn x y <= 0.
Proof.
  unfold greaterAt. intros H Hi Hj. rewrite Hi, Hj in H. apply Z.ltb_ge in H. assumption.
Qed.

(** *** The top of an ordered heap *)

Lemma heapOrdered_top (data : list A) (top : A) :
  heapOrdered compareFn data -> peek data = Some top ->
  forall x, x ∈ data -> compareFn x top <= 0.
Proof.
  intros Hh Htop x Hx. apply list_elem_of_lookup_1 in Hx as [j Hj].
  revert x Hj. induction j as [j IH] using lt_wf_ind. intros x Hj.
  destruct j as [| j].
  - unfold peek in Htop. rewrite Htop in Hj. injection Hj as <-. apply compare_refl.
  - assert (Hp : isChild (j / 2) (S j)).
    { unfold isChild. pose proof (Nat.div_mod_eq j 2).
      pose proof (Nat.mod_upper_bound j 2 ltac:(lia)). lia. }
    assert (Hlt : (j / 2 < S j)%nat).
    { pose proof (Nat.div_mod_eq j 2). lia. }
    destruct (lookup_lt_is_Some_2 data (j / 2)) as [y Hy].
    { apply lookup_lt_Some in Hj. lia. }
    apply compare_trans with y; [apply (Hh (j / 2)%nat (S j)); assumption |].
    apply (IH (j / 2)%nat); assumption.
Qed.

(** *** bubbleUp *)

Lemma heapOrderedAbove_root (data : list A) :
  heapOrderedAbove compareFn 0 data -> heapOrdered compareFn data.
Proof.
  intros [H _] i j x y Hc. apply H; [assumption |]. destruct Hc; lia.
Qed.

Lemma bubbleUpFuel_ordered (fuel : nat) (data : list A) (k : nat) :
  (k <= fuel)%nat -> (k < length data)%nat ->
  heapOrderedAbove compareFn k data ->
  heapOrdered compareFn (bubbleUpFuel compareFn fuel data k).
Proof.
  revert data k. induction fuel as [| f IH]; intros data k Hk Hlen Hinv.
  - assert (k = 0%nat) by lia. subst. apply heapOrderedAbove_root. assumption.
  - cbn [bubbleUpFuel]. destruct (Nat.ltb_spec 0 k) as [Hpos | Hzero];
      [| assert (k = 0%nat) by lia; subst; apply heapOrderedAbove_root; assumption].
    set (p := ((k - 1) / 2)%nat).
    assert (Hpk : isChild p k).
    { unfold isChild. subst p. pose proof (Nat.div_mod_eq (k - 1) 2).
      pose proof (Nat.mod_upper_bound (k - 1) 2 ltac:(lia)). lia. }
    assert (Hplt : (p < k)%nat) by (destruct Hpk; lia).
    destruct (lookup_lt_is_Some_2 data k Hlen) as [x Hx].
    destruct (lookup_lt_is_Some_2 data p ltac:(lia)) as [y Hy].
    destruct Hinv as [Hord Hgrand].
    destruct (greaterAt compareFn data k p) eqn:Hgt.
    + apply greaterAt_true in Hgt as (x' & y' & Hx' & Hy' & Hgt).
      rewrite Hx in Hx'. rewrite Hy in Hy'. injection Hx' as <-. injection Hy' as <-.
      assert (Hyx : compareFn y x <= 0) by (apply compare_total; assumption).
      apply IH; [lia | rewrite swap_length; lia |].
      assert (Hsw : forall m, swap data k p !! m
                         = if decide (m = p) then Some x
                           else if decide (m = k) then Some y else data !! m).
      { intros m. apply swap_lookup; [assumption | assumption | lia]. }
      split.
      * intros i j a b Hc Hjp Ha Hb. rewrite Hsw in Ha, Hb.
        destruct (decide (j = p)) as [-> | _]; [congruence |].
        destruct (decide (j = k)) as [-> | Hjk].
        -- injection Hb as <-.
           assert (i = p) by (destruct Hc, Hpk; lia). subst i.
           destruct (decide (p = p)); [| congruence]. injection Ha as <-. assumption.
        -- destruct (decide (i = p)) as [-> | Hip].
           ++ injection Ha as <-.
              apply compare_trans with y; [| assumption].
              apply (Hord p j); assumption.
           ++ destruct (decide (i = k)) as [-> | Hik].
              ** injection Ha as <-. apply (Hgrand p j); assumption.
              ** apply (Hord i j); assumption.
      * intros pp c a b Hpp Hc Ha Hb. rewrite Hsw in Ha, Hb.
        assert (Hppp : pp <> p /\ pp <> k) by (destruct Hpp, Hpk; lia).
        destruct Hppp as [H1 H2].
        destruct (decide (pp = p)); [congruence |].
        destruct (decide (pp = k)); [congruence |].
        assert (Hyg : compareFn y a <= 0) by (apply (Hord pp p); [assumption | lia | assumption ..]).
        destruct (decide (c = p)) as [-> | Hcp]; [destruct Hc; lia |].
        destruct (decide (c = k)) as [-> | Hck].
        -- injection Hb as <-. assumption.
        -- apply compare_trans with y; [| assumption].
           apply (Hord p c); assumption.
    + intros i j a b Hc Ha Hb.
      destruct (decide (j = k)) as [-> | Hjk].
      * assert (i = p) by (destruct Hc, Hpk; lia). subst i.
        rewrite Hx in Hb. rewrite Hy in Ha. injection Ha as <-. injection Hb as <-.
        apply (greaterAt_false data k p); assumption.
      * apply (Hord i j); assumption.
Qed.

Lemma bubbleUpFuel_Permutation (fuel : nat) (data : list A) (k : nat) :
  Permutation (bubbleUpFuel compareFn fuel data k) data.
Proof.
  revert data k. induction fuel as [| f IH]; intros data k; [reflexivity |].
  cbn [bubbleUpFuel]. destruct (0 <? k)%nat; [| reflexivity].
  destruct (greaterAt compareFn data k _); [| reflexivity].
  rewrite IH. apply swap_Permutation.
Qed.

Lemma push_Permutation (data : list A) (value : A) :
  Permutation (push compareFn data value) (value :: data).
Proof.
  unfold push, bubbleUp. cbv zeta. rewrite bubbleUpFuel_Permutation.
  symmetry. apply Permutation_cons_append.
Qed.

Lemma push_ordered (data : list A) (value : A) :
  heapOrdered compareFn data -> heapOrdered compareFn (push compareFn data value).
Proof.
  intros Hh. unfold push, bubbleUp. cbv zeta.
  rewrite length_app. cbn [length]. replace (length data + 1 - 1)%nat with (length data) by lia.
  apply bubbleUpFuel_ordered; [lia | rewrite length_app; cbn; lia |].
  split.
  - intros i j x y Hc Hj Hx Hy.
    assert (Hjl : (j < length data)%nat).
    { apply lookup_lt_Some in Hy. rewrite length_app in Hy. cbn in Hy. lia. }
    rewrite lookup_app_l in Hx by (destruct Hc; lia).
    rewrite lookup_app_l in Hy by assumption.
    apply (Hh i j); assumption.
  - intros pp c x y _ Hc _ Hy. apply lookup_lt_Some in Hy. rewrite length_app in Hy.
    cbn in Hy. destruct Hc; lia.
Qed.

(** *** bubbleDown *)

Lemma heapOrderedBelow_leaf (data : list A) (k : nat) :
  (length data <= 2 * k + 1)%nat ->
  heapOrderedBelow compareFn k data -> heapOrdered compareFn data.
Proof.
  intros Hlen [H _] i j x y Hc Hx Hy. apply (H i j); try assumption.
  intros ->. apply lookup_lt_Some in Hy. destruct Hc; lia.
Qed.

Lemma bubbleDownFuel_ordered (fuel : nat) (data : list A) (k : nat) :
  (length data - k <= fuel)%nat ->
  heapOrderedBelow compareFn k data ->
  heapOrdered compareFn (bubbleDownFuel compareFn fuel data k).
Proof.
  revert data k. induction fuel as [| f IH]; intros data k Hfuel Hinv.
  - apply (heapOrderedBelow_leaf data k); [lia | assumption].
  - cbn [bubbleDownFuel]. cbv zeta.
    destruct (le_lt_dec (length data) k) as [Hout | Hin].
    { (* the index is outside the array: no child is inside either *)
      replace (2 * k + 1 <? length data)%nat with false by (symmetry; apply Nat.ltb_ge; lia).
      replace (2 * k + 2 <? length data)%nat with false by (symmetry; apply Nat.ltb_ge; lia).
      cbn [andb]. rewrite Nat.eqb_refl.
      apply (heapOrderedBelow_leaf data k); [lia | assumption]. }
    destruct (lookup_lt_is_Some_2 data k Hin) as [x Hx].
    destruct Hinv as [Hord Hgrand].
    set (left := (2 * k + 1)%nat). set (right := (2 * k + 2)%nat).
    set (l1 := if (left <? length data)%nat && greaterAt compareFn data left k
               then left else k).
    set (l2 := if (right <? length data)%nat && greaterAt compareFn data right l1
               then right else l1).
    (* what the two tests say about the children *)
    assert (H1 : (l1 = left /\ exists a, data !! left = Some a /\ 0 < compareFn a x)
                 \/ (l1 = k /\ forall a, data !! left = Some a -> compareFn a x <= 0)).
    { subst l1. destruct (Nat.ltb_spec left (length data)) as [Hl | Hl]; cbn [andb].
      - destruct (greaterAt compareFn data left k) eqn:Hg.
        + left. split; [reflexivity |].
          apply greaterAt_true in Hg as (a & x' & Ha & Hx' & Hg).
          rewrite Hx in Hx'. injection Hx' as <-. eauto.
        + right. split; [reflexivity |]. intros a Ha.
          apply (greaterAt_false data left k); assumption.
      - right. split; [reflexivity |]. intros a Ha. apply lookup_lt_Some in Ha. lia. }
    assert (Hl1 : exists z, data !! l1 = Some z /\ compareFn x z <= 0
                       /\ forall a, data !! left = Some a -> compareFn a z <= 0).
    { destruct H1 as [(-> & a & Ha & Hg) | (-> & Hle)].
      - exists a. split; [assumption |]. split; [apply compare_total; assumption |].
        intros a' Ha'. rewrite Ha in Ha'. injection Ha' as <-. apply compare_refl.
      - exists x. split; [assumption |]. split; [apply compare_refl | assumption]. }
    destruct Hl1 as (z & Hz & Hxz & Hleftz).
    assert (H2 : (l2 = right /\ exists b, data !! right = Some b /\ 0 < compareFn b z)
                 \/ (l2 = l1 /\ forall b, data !! right = Some b -> compareFn b z <= 0)).
    { subst l2. destruct (Nat.ltb_spec right (length data)) as [Hr | Hr]; cbn [andb].
      - destruct (greaterAt compareFn data right l1) eqn:Hg.
        + left. split; [reflexivity |].
          apply greaterAt_true in Hg as (b & z' & Hb & Hz' & Hg).
          rewrite Hz in Hz'. injection Hz' as <-. eauto.
        + right. split; [reflexivity |]. intros b Hb.
          apply (greaterAt_false data right l1); assumption.
      - right. split; [reflexivity |]. intros b Hb. apply lookup_lt_Some in Hb. lia. }
    (* the largest of the three, and how the other two compare with it *)
    assert (Hl2 : exists w, data !! l2 = Some w /\ compareFn x w <= 0
                       /\ (forall a, data !! left = Some a -> compareFn a w <= 0)
                       /\ (forall b, data !! right = Some b -> compareFn b w <= 0)
                       /\ (l2 = k \/ isChild k l2)).
    { destruct H2 as [(-> & b & Hb & Hg) | (-> & Hle)].
      - exists b. split; [assumption |].
        assert (Hzb : compareFn z b <= 0) by (apply compare_total; assumption).
        split; [apply compare_trans with z; assumption |].
        split; [intros a Ha; apply compare_trans with z; [apply Hleftz |]; assumption |].
        split; [intros b' Hb'; rewrite Hb in Hb'; injection Hb' as <-; apply compare_refl |].
        right. right. reflexivity.
      - exists z. split; [assumption |]. split; [assumption |].
        split; [assumption |]. split; [assumption |].
        destruct H1 as [(-> & _) | (-> & _)]; [right; left; reflexivity | left; reflexivity]. }
    destruct Hl2 as (w & Hw & Hxw & Hleftw & Hrightw & Hkind).
    destruct (Nat.eqb_spec l2 k) as [Heq | Hne].
    + (* nothing to swap: both children are in order with [k] *)
      rewrite Heq in Hw. rewrite Hx in Hw. injection Hw as <-.
      intros i j a b Hc Ha Hb.
      destruct (decide (i = k)) as [-> | Hik]; [| apply (Hord i j); assumption].
      rewrite Hx in Ha. injection Ha as <-.
      destruct Hc as [-> | ->]; [apply Hleftw | apply Hrightw]; assumption.
    + destruct Hkind as [? | Hchild]; [congruence |].
      assert (Hlt : (k < l2)%nat) by (destruct Hchild; lia).
      assert (Hl2in : (l2 < length data)%nat) by (apply lookup_lt_Some in Hw; assumption).
      apply IH; [rewrite swap_length; lia |].
      assert (Hsw : forall m, swap data k l2 !! m
                         = if decide (m = l2) then Some x
                           else if decide (m = k) then Some w else data !! m).
      { intros m. apply swap_lookup; [assumption | assumption | lia]. }
      split.
      * intros i j a b Hc Hil Ha Hb. rewrite Hsw in Ha, Hb.
        destruct (decide (i = l2)); [congruence |].
        destruct (decide (i = k)) as [-> | Hik].
        -- injection Ha as <-.
           destruct (decide (j = l2)) as [-> | Hjl].
           ++ injection Hb as <-. assumption.
           ++ destruct (decide (j = k)); [destruct Hc; lia |].
              destruct Hc as [-> | ->]; [apply Hleftw | apply Hrightw]; assumption.
        -- destruct (decide (j = l2)) as [-> | Hjl].
           ++ exfalso. destruct Hc, Hchild; lia.
           ++ destruct (decide (j = k)) as [-> | Hjk].
              ** injection Hb as <-. apply (Hgrand i l2); assumption.
              ** apply (Hord i j); assumption.
      * intros pp c a b Hpp Hc Ha Hb. rewrite Hsw in Ha, Hb.
        assert (pp = k) by (destruct Hpp, Hchild; lia). subst pp.
        destruct (decide (k = l2)); [lia |].
        destruct (decide (k = k)); [| congruence]. injection Ha as <-.
        destruct (decide (c = l2)); [destruct Hc; lia |].
        destruct (decide (c = k)); [destruct Hc; lia |].
        apply (Hord l2 c); [assumption | lia | assumption ..].
Qed.

Lemma bubbleDownFuel_Permutation (fuel : nat) (data : list A) (k : nat) :
  Permutation (bubbleDownFuel compareFn fuel data k) data.
Proof.
  revert data k. induction fuel as [| f IH]; intros data k; [reflexivity |].
  cbn [bubbleDownFuel]. cbv zeta.
  destruct (_ =? k)%nat; [reflexivity |].
  rewrite IH. apply swap_Permutation.
Qed.

(** *** pop *)

Lemma pop_empty : pop compareFn (@nil A) = (None, []).
Proof. reflexivity. Qed.

Lemma pop_spec (data : list A) (top : A) :
  peek data = Some top ->
  exists rest,
    pop compareFn data = (Some top, rest)
    /\ Permutation data (top :: rest)
    /\ (heapOrdered compareFn data -> heapOrdered compareFn rest).
Proof.
  unfold peek, pop. intros Htop. rewrite Htop.
  assert (Hlen : (0 < length data)%nat) by (apply lookup_lt_Some in Htop; assumption).
  destruct (lookup_lt_is_Some_2 data (length data - 1)) as [last Hlast]; [lia |].
  rewrite Hlast. cbv zeta.
  assert (Hdata : data = take (length data - 1) data ++ [last]).
  { rewrite <- (take_drop (length data - 1) data) at 1. f_equal.
    apply list_eq. intros [| i].
    - rewrite lookup_drop, Nat.add_0_r. assumption.
    - rewrite lookup_drop. cbn. apply lookup_ge_None. lia. }
  destruct (Nat.ltb_spec 0 (length (take (length data - 1) data))) as [Hpos | Hzero].
  - eexists. split; [reflexivity |].
    destruct (take (length data - 1) data) as [| first body] eqn:Htake; [cbn in Hpos; lia |].
    assert (first = top).
    { rewrite Hdata in Htop. cbn in Htop. congruence. }
    subst first. cbn [insert list_insert].
    split.
    + unfold bubbleDown. rewrite bubbleDownFuel_Permutation.
      rewrite Hdata at 1. cbn. rewrite <- Permutation_cons_append.
      apply Permutation_skip. reflexivity.
    + intros Hh. unfold bubbleDown. apply bubbleDownFuel_ordered; [lia |].
      split.
      * intros i j x y Hc Hi Hx Hy.
        destruct i as [| i]; [congruence |].
        assert (Hj : exists j', j = S j') by (exists (j - 1)%nat; destruct Hc; lia).
        destruct Hj as [j' ->].
        apply (Hh (S i) (S j')); [assumption | |].
        -- rewrite Hdata. cbn. cbn in Hx. apply lookup_app_l_Some. assumption.
        -- rewrite Hdata. cbn. cbn in Hy. apply lookup_app_l_Some. assumption.
      * intros pp c x y Hpp. destruct Hpp; lia.
  - eexists. split; [reflexivity |].
    assert (Hnil : take (length data - 1) data = []).
    { destruct (take _ data); [reflexivity | cbn in Hzero; lia]. }
    rewrite Hnil in *. split.
    + rewrite Hdata in Htop |- *. cbn in Htop. injection Htop as ->. reflexivity.
    + intros _ i j x y _ Hx. discriminate.
Qed.

End HeapFacts.

(** ** Override periods *)

Section Override.

Import Engine.

Lemma compareQHeap_le (a b : QPeriod) : compareQHeap a b <= 0 <-> hasPriority b a.
Proof.
  unfold compareQHeap, hasPriority.
  destruct (Z.eqb_spec (q_start a) (q_start b)); cbn [negb]; lia.
Qed.

Lemma compareQHeap_trans (a b c : QPeriod) :
  compareQHeap a b <= 0 -> compareQHeap b c <= 0 -> compareQHeap a c <= 0.
Proof. rewrite !compareQHeap_le. unfold hasPriority. lia. Qed.

Lemma compareQHeap_total (a b : QPeriod) : 0 < compareQHeap a b -> compareQHeap b a <= 0.
Proof.
  unfold compareQHeap.
  destruct (Z.eqb_spec (q_start a) (q_start b)), (Z.eqb_spec (q_start b) (q_start a));
    cbn [negb]; lia.
Qed.

(** Admission: the started periods leave [pending] and enter the heap. *)
Lemma admitStarted_spec (pending heap : list QPeriod) (ts : Z) :
  heapOrdered compareQHeap heap ->
  exists admitted pending' heap',
    admitStarted pending heap ts = (pending', heap')
    /\ pending = admitted ++ pending'
    /\ Permutation heap' (admitted ++ heap)
    /\ Forall (fun q => q_start q <= ts) admitted
    /\ (forall q rest, pending' = q :: rest -> ts < q_start q)
    /\ heapOrdered compareQHeap heap'.
Proof.
  revert heap. induction pending as [| period pending IH]; intros heap Hh.
  - exists [], [], heap. repeat split; try assumption; try reflexivity; try constructor.
    intros q rest Hq. discriminate.
  - cbn [admitStarted]. destruct (Z.leb_spec (q_start period) ts) as [Hle | Hgt].
    + destruct (IH (BinaryHeap.push compareQHeap heap period)) as
        (admitted & pending' & heap' & Heq & Hp & Hperm & Hall & Hhead & Hh').
      { apply push_ordered;
          [exact compareQHeap_trans | exact compareQHeap_total | assumption]. }
      exists (period :: admitted), pending', heap'.
      split; [assumption |]. split; [cbn; f_equal; assumption |].
      split.
      * rewrite Hperm, (push_Permutation compareQHeap heap period).
        cbn. symmetry. apply Permutation_middle.
      * split; [constructor; assumption |]. split; assumption.
    + exists [], (period :: pending), heap.
      repeat split; try assumption; try reflexivity; try constructor.
      intros q rest [= <- <-]. assumption.
Qed.

(** Eviction: the periods it removes have ended, and the top that stays
    has not. *)
Lemma evictFuel_spec (fuel : nat) (heap : list QPeriod) (ts : Z) :
  (length heap <= fuel)%nat ->
  heapOrdered compareQHeap heap ->
  exists evicted,
    Permutation heap (evicted ++ evictFuel fuel heap ts)
    /\ Forall (fun q => q_end q < ts) evicted
    /\ (forall top, BinaryHeap.peek (evictFuel fuel heap ts) = Some top -> ts <= q_end top)
    /\ heapOrdered compareQHeap (evictFuel fuel heap ts).
Proof.
  revert heap. induction fuel as [| f IH]; intros heap Hlen Hh.
  - destruct heap; [| cbn in Hlen; lia].
    exists []. cbn. repeat split; try constructor; try assumption. intros top Ht. discriminate.
  - cbn [evictFuel]. destruct (BinaryHeap.peek heap) as [top |] eqn:Htop.
    + destruct (Z.ltb_spec (q_end top) ts) as [Hlt | Hge].
      * destruct (pop_spec compareQHeap compareQHeap_trans compareQHeap_total heap top Htop)
          as (rest & Hpop & Hperm & Hord).
        rewrite Hpop. cbn [snd].
        destruct (IH rest) as (evicted & Hp & Hall & Hpeek & Hh').
        { apply Permutation_length in Hperm. cbn in Hperm. lia. }
        { apply Hord. assumption. }
        exists (top :: evicted). split; [rewrite Hperm; cbn; rewrite <- Hp; reflexivity |].
        split; [constructor; assumption |]. split; assumption.
      * exists []. cbn [app]. split; [reflexivity |]. split; [constructor |].
        split; [| assumption]. intros top' Ht. rewrite Htop in Ht. injection Ht as <-. lia.
    + exists []. cbn [app]. split; [reflexivity |]. split; [constructor |].
      split; [| assumption]. intros top' Ht. congruence.
Qed.

(** One round of the loop: the invariant moves on to the instant of the
    transaction, and the top of the heap, if any, is the winner. *)
Lemma override_round (qs pending heap : list QPeriod) (T ts : Z) :
  overrideInvariant qs T pending heap -> T <= ts ->
  exists pending' heap1,
    admitStarted pending heap ts = (pending', heap1)
    /\ overrideInvariant qs ts pending' (evict heap1 ts)
    /\ match BinaryHeap.peek (evict heap1 ts) with
       | Some top =>
           top ∈ qs /\ containsQ top ts
           /\ forall q, q ∈ qs -> containsQ q ts -> hasPriority top q
       | None => forall q, q ∈ qs -> ~ containsQ q ts
       end.
Proof.
  intros (Hh & Hsorted & Hpend & Hheap & Hcover) HT.
  destruct (admitStarted_spec pending heap ts Hh) as
    (admitted & pending' & heap1 & Heq & Hp & Hperm1 & Hadm & Hhead & Hh1).
  destruct (evictFuel_spec (length heap1) heap1 ts (le_n _) Hh1) as
    (evicted & Hperm2 & Hev & Hpeek & Hh2).
  change (evictFuel (length heap1) heap1 ts) with (evict heap1 ts) in Hperm2, Hpeek, Hh2.
  remember (evict heap1 ts) as heap2 eqn:Hheap2eq.
  assert (Hpending' : forall q, q ∈ pending' -> ts < q_start q).
  { subst pending. apply StronglySorted_app_1_r in Hsorted.
    intros q Hq. destruct pending' as [| q0 rest]; [inversion Hq |].
    specialize (Hhead q0 rest eq_refl).
    apply StronglySorted_inv in Hsorted as [_ Hall].
    apply elem_of_cons in Hq as [-> | Hq]; [assumption |].
    rewrite Forall_forall in Hall. specialize (Hall q Hq). cbn in Hall. lia. }
  assert (Hin1 : forall q, q ∈ heap1 <-> q ∈ admitted \/ q ∈ heap).
  { intros q. rewrite Hperm1, elem_of_app. reflexivity. }
  assert (Hin2 : forall q, q ∈ heap1 <-> q ∈ evicted \/ q ∈ heap2).
  { intros q. rewrite Hperm2, elem_of_app. reflexivity. }
  assert (Hheap2 : forall q, q ∈ heap2 -> q ∈ qs /\ q_start q <= ts).
  { intros q Hq. assert (H1 : q ∈ heap1) by (apply Hin2; auto).
    apply Hin1 in H1 as [Ha | Hb].
    - split; [apply Hpend; subst pending; apply elem_of_app; auto |].
      rewrite Forall_forall in Hadm. apply Hadm. assumption.
    - destruct (Hheap q Hb). split; [assumption | lia]. }
  assert (Hcover2 : forall q, q ∈ qs -> q ∈ pending' \/ q ∈ heap2 \/ q_end q < ts).
  { intros q Hq.
    assert (H1 : q ∈ pending' \/ q ∈ heap1 \/ q_end q < ts).
    { destruct (Hcover q Hq) as [H | [H | H]].
      - subst pending. apply elem_of_app in H as [H | H]; [| auto].
        right. left. apply Hin1. auto.
      - right. left. apply Hin1. auto.
      - right. right. lia. }
    destruct H1 as [H | [H | H]]; [auto | | auto].
    apply Hin2 in H as [H | H]; [| auto].
    right. right. rewrite Forall_forall in Hev. apply Hev. assumption. }
  exists pending', heap1. rewrite <- Hheap2eq. split; [assumption |]. split.
  - split; [assumption |]. split.
    + subst pending. apply StronglySorted_app_1_r in Hsorted. assumption.
    + split; [| split; assumption].
      intros q Hq. apply Hpend. subst pending. apply elem_of_app. auto.
  - destruct (BinaryHeap.peek heap2) as [top |] eqn:Htop.
    + assert (Htin : top ∈ heap2) by (apply list_elem_of_lookup_2 with 0%nat; exact Htop).
      destruct (Hheap2 top Htin) as [Hq Hs].
      split; [assumption |]. split; [split; [assumption | apply Hpeek; reflexivity] |].
      intros q Hqin [Hqs Hqe].
      destruct (Hcover2 q Hqin) as [H | [H | H]].
      * specialize (Hpending' q H). lia.
      * apply compareQHeap_le.
        apply (heapOrdered_top compareQHeap compareQHeap_trans compareQHeap_total heap2 top);
          assumption.
      * lia.
    + intros q Hqin [Hqs Hqe].
      destruct (Hcover2 q Hqin) as [H | [H | H]].
      * specialize (Hpending' q H). lia.
      * unfold BinaryHeap.peek in Htop. destruct heap2; [inversion H | discriminate].
      * lia.
Qed.

Lemma setRemanentFinal_id (tx : Transaction) :
  setRemanentFinal tx (remanentFinalPaise tx) = tx.
Proof. destruct tx. reflexivity. Qed.

Lemma setRemanentFinal_twice (tx : Transaction) (f g : Z) :
  setRemanentFinal (setRemanentFinal tx f) g = setRemanentFinal tx g.
Proof. reflexivity. Qed.

Lemma applyQStep_eq (st : QState) (j : nat) (tx : Transaction) :
  qs_transactions st !! j = Some tx ->
  applyQStep st j =
    let ts := epochSeconds tx in
    let heap := evict (snd (admitStarted (qs_pending st) (qs_heap st) ts)) ts in
    {| qs_transactions :=
         <[j := setRemanentFinal tx
                  (match BinaryHeap.peek heap with
                   | Some top => fixedPaise top
                   | None => remanentBasePaise tx
                   end)]> (qs_transactions st);
       qs_pending := fst (admitStarted (qs_pending st) (qs_heap st) ts);
       qs_heap := heap |}.
Proof.
  intros Hj. unfold applyQStep. rewrite Hj. cbv zeta.
  destruct (admitStarted _ _ _) as [pending heap]. reflexivity.
Qed.

(** The loop over the transactions in the order of their instants. *)
Lemma override_fold (qs : list QPeriod) (ek : nat -> Z) (indices : list nat) :
  forall (st : QState) (T : Z),
    overrideInvariant qs T (qs_pending st) (qs_heap st) ->
    NoDup indices ->
    StronglySorted (fun a b => ek a <= ek b) indices ->
    (forall i tx, qs_transactions st !! i = Some tx -> epochSeconds tx = ek i) ->
    (forall i, i ∈ indices -> (i < length (qs_transactions st))%nat /\ T <= ek i) ->
    forall i tx,
      qs_transactions st !! i = Some tx ->
      exists f,
        qs_transactions (fold_left applyQStep indices st) !! i = Some (setRemanentFinal tx f)
        /\ (i ∈ indices -> overrideOutcome qs tx f)
        /\ (i ∉ indices -> f = remanentFinalPaise tx).
Proof.
  induction indices as [| j rest IH]; intros st T Hinv Hnd Hsorted Hek Hrange i tx Hi.
  - exists (remanentFinalPaise tx). cbn [fold_left]. rewrite setRemanentFinal_id.
    split; [assumption |]. split; [intros H; inversion H | reflexivity].
  - cbn [fold_left].
    destruct (Hrange j ltac:(left)) as [Hjlen HjT].
    destruct (lookup_lt_is_Some_2 _ _ Hjlen) as [txj Hj].
    pose proof (Hek j txj Hj) as Hts.
    destruct (override_round qs _ _ T (epochSeconds txj) Hinv ltac:(lia))
      as (pending' & heap1 & Hadm & Hinv' & Hres).
    rewrite (applyQStep_eq st j txj Hj). cbv zeta. rewrite Hadm. cbn [fst snd].
    set (fj := match BinaryHeap.peek (evict heap1 (epochSeconds txj)) with
               | Some top => fixedPaise top
               | None => remanentBasePaise txj
               end).
    set (st1 := {| qs_transactions := <[j := setRemanentFinal txj fj]> (qs_transactions st);
                   qs_pending := pending';
                   qs_heap := evict heap1 (epochSeconds txj) |}).
    apply NoDup_cons in Hnd as [Hjrest Hnd].
    apply StronglySorted_inv in Hsorted as [Hsorted Hjle].
    assert (Hout : overrideOutcome qs txj fj).
    { subst fj. destruct (BinaryHeap.peek (evict heap1 (epochSeconds txj))) as [top |].
      - destruct Hres as (Htq & Htc & Hmax). split.
        + intros _. exists top. auto.
        + intros Hnone. exfalso. apply (Hnone top); assumption.
      - split.
        + intros (q & Hq & Hc). exfalso. apply (Hres q); assumption.
        + intros _. reflexivity. }
    assert (IH' := IH st1 (epochSeconds txj) Hinv' Hnd Hsorted).
    assert (Hek1 : forall i tx, qs_transactions st1 !! i = Some tx -> epochSeconds tx = ek i).
    { intros i0 tx0 H0. cbn [qs_transactions st1] in H0.
      destruct (decide (i0 = j)) as [-> | Hne].
      - rewrite list_lookup_insert_eq in H0 by assumption. injection H0 as <-. exact Hts.
      - rewrite list_lookup_insert_ne in H0 by congruence. apply Hek. assumption. }
    assert (Hrange1 : forall i, i ∈ rest ->
                           (i < length (qs_transactions st1))%nat /\ epochSeconds txj <= ek i).
    { intros i0 H0. cbn [qs_transactions st1]. rewrite length_insert. split.
      - apply Hrange. right. assumption.
      - rewrite Forall_forall in Hjle. specialize (Hjle i0 H0). cbn in Hjle. lia. }
    specialize (IH' Hek1 Hrange1).
    destruct (decide (i = j)) as [-> | Hne].
    + rewrite Hj in Hi. injection Hi as <-.
      destruct (IH' j (setRemanentFinal txj fj)) as (f & Hf & _ & Hkeep).
      { cbn [qs_transactions st1]. apply list_lookup_insert_eq. assumption. }
      rewrite (Hkeep Hjrest) in Hf. exists fj.
      split; [exact Hf |]. split; [intros _; exact Hout |].
      intros Hnot. exfalso. apply Hnot. left.
    + destruct (IH' i tx) as (f & Hf & Hin & Hnotin).
      { cbn [qs_transactions st1]. rewrite list_lookup_insert_ne by congruence. assumption. }
      exists f. split; [exact Hf |]. split.
      * intros H. apply elem_of_cons in H as [-> | H]; [congruence | auto].
      * intros H. apply Hnotin. intros H'. apply H. right. assumption.
Qed.

Lemma compareQSort_trans (a b c : QPeriod) :
  compareQSort a b <= 0 -> compareQSort b c <= 0 -> compareQSort a c <= 0.
Proof.
  unfold compareQSort.
  destruct (Z.eqb_spec (q_start a) (q_start b)), (Z.eqb_spec (q_start b) (q_start c)),
    (Z.eqb_spec (q_start a) (q_start c)); cbn [negb]; lia.
Qed.

Lemma compareQSort_total (a b : QPeriod) : 0 < compareQSort a b -> compareQSort b a <= 0.
Proof.
  unfold compareQSort.
  destruct (Z.eqb_spec (q_start a) (q_start b)), (Z.eqb_spec (q_start b) (q_start a));
    cbn [negb]; lia.
Qed.

Lemma sortedIndices_facts (txs : list Transaction) (indices : list nat) :
  sortedIndices txs indices ->
  NoDup indices /\ (forall i, i ∈ indices <-> (i < length txs)%nat).
Proof.
  intros [Hperm _]. split.
  - rewrite Hperm. apply NoDup_seq.
  - intros i. rewrite Hperm, elem_of_seq. lia.
Qed.

(** The override step on its own. *)
Lemma applyQPeriods_outcome (txs : list Transaction) (qs : list QPeriod)
    (indices : list nat) :
  sortedIndices txs indices ->
  forall i tx,
    txs !! i = Some tx ->
    exists f,
      applyQPeriods txs qs indices !! i = Some (setRemanentFinal tx f)
      /\ (qs <> [] -> overrideOutcome qs tx f)
      /\ (qs = [] -> f = remanentFinalPaise tx).
Proof.
  intros Hsi i tx Hi.
  destruct (sortedIndices_facts txs indices Hsi) as [Hnd Hmem].
  destruct qs as [| q0 qs'] eqn:Hqs.
  - exists (remanentFinalPaise tx). cbn [applyQPeriods]. rewrite setRemanentFinal_id.
    split; [assumption |]. split; [congruence | reflexivity].
  - rewrite <- Hqs. 
    assert (Happ : applyQPeriods txs qs indices
                   = qs_transactions
                       (fold_left applyQStep indices
                          {| qs_transactions := txs;
                             qs_pending := JsArray.sort compareQSort qs;
                             qs_heap := [] |})).
    { rewrite Hqs. reflexivity. }
    rewrite Happ.
    set (T := match indices with [] => 0 | j :: _ => epochAt txs j end).
    destruct (override_fold qs (epochAt txs) indices
                {| qs_transactions := txs;
                   qs_pending := JsArray.sort compareQSort qs;
                   qs_heap := [] |} T) with (i := i) (tx := tx) as (f & Hf & Hin & _).
    + split; [intros a b x y _ Hx; discriminate |].
      split.
      * cbn [qs_pending].
        eapply StronglySorted_weaken;
          [| apply (sort_sorted_general compareQSort compareQSort_trans compareQSort_total)].
        intros a b. unfold compareQSort.
        destruct (Z.eqb_spec (q_start a) (q_start b)); cbn [negb]; lia.
      * cbn [qs_pending qs_heap].
        split; [intros q Hq; rewrite sort_Permutation in Hq; assumption |].
        split; [intros q Hq; inversion Hq |].
        intros q Hq. left. rewrite sort_Permutation. assumption.
    + assumption.
    + apply Hsi.
    + intros i0 tx0 H0. cbn [qs_transactions] in H0. unfold epochAt. rewrite H0. reflexivity.
    + intros i0 H0. cbn [qs_transactions]. split; [apply Hmem; assumption |].
      subst T. destruct indices as [| j rest]; [inversion H0 |].
      destruct Hsi as [_ Hs]. apply StronglySorted_inv in Hs as [_ Hall].
      apply elem_of_cons in H0 as [-> | H0]; [lia |].
      rewrite Forall_forall in Hall. apply (Hall i0 H0).
    + assumption.
    + exists f. split; [assumption |]. split; [| congruence].
      intros _. apply Hin. apply Hmem. apply lookup_lt_Some in Hi. assumption.
Qed.

End Override.

(** ** Additive periods *)

Section Additive.

Import Engine.

Lemma deltaUpTo_app (l1 l2 : list Event) (ts : Z) :
  deltaUpTo (l1 ++ l2) ts = deltaUpTo l1 ts + deltaUpTo l2 ts.
Proof.
  unfold deltaUpTo. induction l1 as [| e l1 IH]; cbn; [reflexivity | rewrite IH; lia].
Qed.

Lemma deltaUpTo_Permutation (l1 l2 : list Event) (ts : Z) :
  Permutation l1 l2 -> deltaUpTo l1 ts = deltaUpTo l2 ts.
Proof. unfold deltaUpTo. induction 1; cbn; lia. Qed.

Lemma deltaUpTo_after (l : list Event) (ts : Z) :
  Forall (fun e => ts < time e) l -> deltaUpTo l ts = 0.
Proof.
  unfold deltaUpTo. induction 1 as [| e l He Hl IH]; cbn; [reflexivity |].
  rewrite IH. destruct (Z.leb_spec (time e) ts); lia.
Qed.

(** The events of the periods add up to the extras of the periods that
    contain the instant. *)
Lemma deltaUpTo_periodEvents (ps : list PPeriod) (ts : Z) :
  Forall (fun period => p_start period <= p_end period) ps ->
  deltaUpTo (flat_map periodEvents ps) ts = extrasAt ps ts.
Proof.
  unfold deltaUpTo, extrasAt. induction 1 as [| period ps Hp Hps IH]; [reflexivity |].
  cbn [flat_map periodEvents app foldr time delta]. rewrite IH. unfold containsP.
  destruct (Z.leb_spec (p_start period) ts), (Z.leb_spec (p_end period + 1) ts),
    (Z.leb_spec ts (p_end period)); cbn [andb]; lia.
Qed.

(** Consumption: the events up to the instant leave the list and enter the
    running total. *)
Lemma consume_spec (events : list Event) (activeExtra ts : Z) :
  StronglySorted (fun a b => time a <= time b) events ->
  exists consumed rest,
    consume events activeExtra ts = (rest, activeExtra + deltaUpTo consumed ts)
    /\ events = consumed ++ rest
    /\ Forall (fun e => time e <= ts) consumed
    /\ Forall (fun e => ts < time e) rest.
Proof.
  intros Hs. revert activeExtra. induction Hs as [| e events Hs IH He]; intros activeExtra.
  - exists [], []. cbn. repeat split; try constructor. f_equal. unfold deltaUpTo. cbn. lia.
  - cbn [consume]. destruct (Z.leb_spec (time e) ts) as [Hle | Hgt].
    + destruct (IH (activeExtra + delta e)) as (consumed & rest & Hc & Heq & H1 & H2).
      exists (e :: consumed), rest. rewrite Hc. split.
      * f_equal. unfold deltaUpTo. cbn [foldr].
        destruct (Z.leb_spec (time e) ts); [| lia]. fold (deltaUpTo consumed ts). lia.
      * split; [cbn; f_equal; assumption |]. split; [constructor; assumption | assumption].
    + exists [], (e :: events). split.
      * f_equal. unfold deltaUpTo. cbn. lia.
      * split; [reflexivity |]. split; [constructor |].
        constructor; [assumption |].
        eapply Forall_impl; [exact He |]. cbn. intros e' He'. lia.
Qed.

Lemma sweep_round (all events : list Event) (activeExtra T ts : Z) :
  sweepInvariant all T events activeExtra -> T <= ts ->
  exists rest,
    consume events activeExtra ts = (rest, deltaUpTo all ts)
    /\ sweepInvariant all ts rest (deltaUpTo all ts).
Proof.
  intros [Hs Hsum] HT.
  destruct (consume_spec events activeExtra ts Hs) as (consumed & rest & Hc & Heq & H1 & H2).
  assert (Hnow : activeExtra + deltaUpTo consumed ts = deltaUpTo all ts).
  { rewrite <- (Hsum ts HT), Heq, deltaUpTo_app, (deltaUpTo_after rest ts H2). lia. }
  exists rest. rewrite Hc, Hnow. split; [reflexivity |]. split.
  - subst events. apply StronglySorted_app_1_r in Hs. assumption.
  - intros ts' Hts'. rewrite <- (Hsum ts' ltac:(lia)), <- Hnow, Heq, deltaUpTo_app.
    assert (Hsame : deltaUpTo consumed ts = deltaUpTo consumed ts').
    { clear -H1 Hts'. unfold deltaUpTo. induction H1 as [| e l He Hl IH]; cbn; [reflexivity |].
      rewrite IH. destruct (Z.leb_spec (time e) ts), (Z.leb_spec (time e) ts'); lia. }
    lia.
Qed.

Lemma applyPStep_eq (st : PState) (j : nat) (tx : Transaction) :
  ps_transactions st !! j = Some tx ->
  applyPStep st j =
    let r := consume (ps_events st) (ps_activeExtra st) (epochSeconds tx) in
    {| ps_transactions :=
         <[j := setRemanentFinal tx (remanentFinalPaise tx + snd r)]> (ps_transactions st);
       ps_events := fst r;
       ps_activeExtra := snd r |}.
Proof.
  intros Hj. unfold applyPStep. rewrite Hj. cbv zeta.
  destruct (consume _ _ _) as [events activeExtra]. reflexivity.
Qed.

(** The loop over the transactions in the order of their instants. *)
Lemma sweep_fold (all : list Event) (ek : nat -> Z) (indices : list nat) :
  forall (st : PState) (T : Z),
    sweepInvariant all T (ps_events st) (ps_activeExtra st) ->
    NoDup indices ->
    StronglySorted (fun a b => ek a <= ek b) indices ->
    (forall i tx, ps_transactions st !! i = Some tx -> epochSeconds tx = ek i) ->
    (forall i, i ∈ indices -> (i < length (ps_transactions st))%nat /\ T <= ek i) ->
    forall i tx,
      ps_transactions st !! i = Some tx ->
      exists f,
        ps_transactions (fold_left applyPStep indices st) !! i = Some (setRemanentFinal tx f)
        /\ (i ∈ indices -> f = remanentFinalPaise tx + deltaUpTo all (epochSeconds tx))
        /\ (i ∉ indices -> f = remanentFinalPaise tx).
Proof.
  induction indices as [| j rest IH]; intros st T Hinv Hnd Hsorted Hek Hrange i tx Hi.
  - exists (remanentFinalPaise tx). cbn [fold_left]. rewrite setRemanentFinal_id.
    split; [assumption |]. split; [intros H; inversion H | reflexivity].
  - cbn [fold_left].
    destruct (Hrange j ltac:(left)) as [Hjlen HjT].
    destruct (lookup_lt_is_Some_2 _ _ Hjlen) as [txj Hj].
    pose proof (Hek j txj Hj) as Hts.
    destruct (sweep_round all _ _ T (epochSeconds txj) Hinv ltac:(lia)) as (events' & Hc & Hinv').
    rewrite (applyPStep_eq st j txj Hj). cbv zeta. rewrite Hc. cbn [fst snd].
    set (fj := remanentFinalPaise txj + deltaUpTo all (epochSeconds txj)).
    set (st1 := {| ps_transactions := <[j := setRemanentFinal txj fj]> (ps_transactions st);
                   ps_events := events';
                   ps_activeExtra := deltaUpTo all (epochSeconds txj) |}).
    apply NoDup_cons in Hnd as [Hjrest Hnd].
    apply StronglySorted_inv in Hsorted as [Hsorted Hjle].
    assert (IH' := IH st1 (epochSeconds txj) Hinv' Hnd Hsorted).
    assert (Hek1 : forall i tx, ps_transactions st1 !! i = Some tx -> epochSeconds tx = ek i).
    { intros i0 tx0 H0. cbn [ps_transactions st1] in H0.
      destruct (decide (i0 = j)) as [-> | Hne].
      - rewrite list_lookup_insert_eq in H0 by assumption. injection H0 as <-. exact Hts.
      - rewrite list_lookup_insert_ne in H0 by congruence. apply Hek. assumption. }
    assert (Hrange1 : forall i, i ∈ rest ->
                           (i < length (ps_transactions st1))%nat /\ epochSeconds txj <= ek i).
    { intros i0 H0. cbn [ps_transactions st1]. rewrite length_insert. split.
      - apply Hrange. right. assumption.
      - rewrite Forall_forall in Hjle. specialize (Hjle i0 H0). cbn in Hjle. lia. }
    specialize (IH' Hek1 Hrange1).
    destruct (decide (i = j)) as [-> | Hne].
    + rewrite Hj in Hi. injection Hi as <-.
      destruct (IH' j (setRemanentFinal txj fj)) as (f & Hf & _ & Hkeep).
      { cbn [ps_transactions st1]. apply list_lookup_insert_eq. assumption. }
      rewrite (Hkeep Hjrest) in Hf. exists fj.
      split; [exact Hf |]. split; [intros _; reflexivity |].
      intros Hnot. exfalso. apply Hnot. left.
    + destruct (IH' i tx) as (f & Hf & Hin & Hnotin).
      { cbn [ps_transactions st1]. rewrite list_lookup_insert_ne by congruence. assumption. }
      exists f. split; [exact Hf |]. split.
      * intros H. apply elem_of_cons in H as [-> | H]; [congruence | auto].
      * intros H. apply Hnotin. intros H'. apply H. right. assumption.
Qed.

(** The additive step on its own. *)
Lemma applyPPeriods_outcome (txs : list Transaction) (ps : list PPeriod)
    (indices : list nat) :
  sortedIndices txs indices ->
  Forall (fun period => p_start period <= p_end period) ps ->
  forall i tx,
    txs !! i = Some tx ->
    applyPPeriods txs ps indices !! i
    = Some (setRemanentFinal tx (remanentFinalPaise tx + extrasAt ps (epochSeconds tx))).
Proof.
  intros Hsi Hps i tx Hi.
  destruct (sortedIndices_facts txs indices Hsi) as [Hnd Hmem].
  destruct (decide (ps = [])) as [-> | Hne].
  - cbn [applyPPeriods]. unfold extrasAt. cbn [foldr]. rewrite Z.add_0_r, setRemanentFinal_id.
    assumption.
  - set (all := JsArray.sort (fun a b => time a - time b) (flat_map periodEvents ps)).
    assert (Happ : applyPPeriods txs ps indices
                   = ps_transactions
                       (fold_left applyPStep indices
                          {| ps_transactions := txs; ps_events := all; ps_activeExtra := 0 |})).
    { subst all. destruct ps; [congruence | reflexivity]. }
    rewrite Happ.
    set (T := match indices with [] => 0 | j :: _ => epochAt txs j end).
    destruct (sweep_fold all (epochAt txs) indices
                {| ps_transactions := txs; ps_events := all; ps_activeExtra := 0 |} T)
      with (i := i) (tx := tx) as (f & Hf & Hin & _).
    + split; [apply (sort_sorted time) |]. intros ts _. cbn [ps_events ps_activeExtra]. lia.
    + assumption.
    + apply Hsi.
    + intros i0 tx0 H0. cbn [ps_transactions] in H0. unfold epochAt. rewrite H0. reflexivity.
    + intros i0 H0. cbn [ps_transactions]. split; [apply Hmem; assumption |].
      subst T. destruct indices as [| j rest]; [inversion H0 |].
      destruct Hsi as [_ Hs]. apply StronglySorted_inv in Hs as [_ Hall].
      apply elem_of_cons in H0 as [-> | H0]; [lia |].
      rewrite Forall_forall in Hall. apply (Hall i0 H0).
    + assumption.
    + rewrite Hf, Hin by (apply Hmem; apply lookup_lt_Some in Hi; assumption).
      subst all. rewrite (deltaUpTo_Permutation _ _ _ (sort_Permutation _ _)).
      rewrite (deltaUpTo_periodEvents ps _ Hps). reflexivity.
Qed.

End Additive.

(** ** The rule pipeline *)

Section Pipeline.

Import Engine.

Lemma applyQStep_length (st : QState) (j : nat) :
  length (qs_transactions (applyQStep st j)) = length (qs_transactions st).
Proof.
  unfold applyQStep. destruct (qs_transactions st !! j); [| reflexivity].
  cbv zeta. destruct (admitStarted _ _ _). cbn. apply length_insert.
Qed.

Lemma applyQPeriods_length (txs : list Transaction) (qs : list QPeriod) (indices : list nat) :
  length (applyQPeriods txs qs indices) = length txs.
Proof.
  unfold applyQPeriods. destruct qs; [reflexivity |].
  cbv zeta.
  match goal with
  | |- length (qs_transactions (fold_left applyQStep indices ?st)) = _ =>
      change txs with (qs_transactions st) at 2; generalize st
  end.
  induction indices as [| j rest IH]; intros st; [reflexivity |].
  cbn [fold_left]. rewrite IH. apply applyQStep_length.
Qed.

(** The indices [applyTemporalRules] computes are the indices in the order
    of the instants. *)
Lemma pipeline_indices (txs : list Transaction) :
  sortedIndices txs
    (JsArray.sort
       (fun a b =>
          match txs !! a, txs !! b with
          | Some ta, Some tb => epochSeconds ta - epochSeconds tb
          | _, _ => 0
          end)
       (seq 0 (length txs))).
Proof.
  rewrite (sort_ext _ (fun a b => epochAt txs a - epochAt txs b)).
  - split; [apply sort_Permutation | apply (sort_sorted (epochAt txs))].
  - intros a b Ha Hb. apply elem_of_seq in Ha, Hb. unfold epochAt.
    destruct (lookup_lt_is_Some_2 txs a ltac:(lia)) as [ta ->].
    destruct (lookup_lt_is_Some_2 txs b ltac:(lia)) as [tb ->]. reflexivity.
Qed.

(** Updating final remanents keeps the order of the instants. *)
Lemma sortedIndices_same_instants (txs txs' : list Transaction) (indices : list nat) :
  length txs' = length txs ->
  (forall i tx, txs !! i = Some tx -> exists f, txs' !! i = Some (setRemanentFinal tx f)) ->
  sortedIndices txs indices -> sortedIndices txs' indices.
Proof.
  intros Hlen Hsame [Hperm Hsorted]. split; [rewrite Hlen; assumption |].
  assert (Heq : forall i, epochAt txs' i = epochAt txs i).
  { intros i. unfold epochAt. destruct (txs !! i) as [tx |] eqn:Hi.
    - destruct (Hsame i tx Hi) as [f ->]. reflexivity.
    - apply lookup_ge_None in Hi. rewrite (lookup_ge_None_2 txs' i) by lia. reflexivity. }
  eapply StronglySorted_weaken; [| exact Hsorted].
  intros a b. cbn. rewrite !Heq. trivial.
Qed.

(** C3: where some override period contains the instant of a transaction,
    the override step overwrites its final remanent with the fixed amount
    of the containing period with the latest start, and among containing
    periods of that start with the one of the smallest input position;
    where none contains it, the final remanent is the base remanent.  The
    step changes no other field. *)
Theorem override_latest_start_wins (txs : list Transaction) (qs : list QPeriod)
    (indices : list nat) :
  sortedIndices txs indices ->
  Forall fresh txs ->
  (forall i q, qs !! i = Some q -> inputOrder q = i) ->
  forall i tx,
    txs !! i = Some tx ->
    exists r,
      applyQPeriods txs qs indices !! i = Some r
      /\ sameButFinal tx r
      /\ ((exists q, q ∈ qs /\ containsQ q (epochSeconds tx)) ->
          exists w,
            w ∈ qs /\ containsQ w (epochSeconds tx)
            /\ remanentFinalPaise r = fixedPaise w
            /\ forall q, q ∈ qs -> containsQ q (epochSeconds tx) ->
                         q = w
                         \/ q_start q < q_start w
                         \/ (q_start q = q_start w /\ (inputOrder w < inputOrder q)%nat))
      /\ ((forall q, q ∈ qs -> ~ containsQ q (epochSeconds tx)) ->
          remanentFinalPaise r = remanentBasePaise tx).
Proof.
  intros Hsi Hfresh Hpos i tx Hi.
  destruct (applyQPeriods_outcome txs qs indices Hsi i tx Hi) as (f & Hf & Hne & Hnil).
  exists (setRemanentFinal tx f). split; [assumption |].
  split; [repeat split |].
  assert (Hfinal : remanentFinalPaise (setRemanentFinal tx f) = f) by reflexivity.
  rewrite Hfinal.
  assert (Hfr : fresh tx).
  { rewrite Forall_forall in Hfresh. apply Hfresh. eapply list_elem_of_lookup_2. eassumption. }
  destruct (decide (qs = [])) as [-> | Hq].
  - split.
    + intros (q & Hq & _). inversion Hq.
    + intros _. rewrite (Hnil eq_refl). exact Hfr.
  - destruct (Hne Hq) as [Hsome Hnone]. split; [| assumption].
    intros Hex. destruct (Hsome Hex) as (w & Hw & Hwc & Hmax & ->).
    exists w. split; [assumption |]. split; [assumption |]. split; [reflexivity |].
    intros q Hqin Hqc. destruct (Hmax q Hqin Hqc) as [Hlt | [Heq Hle]]; [auto |].
    destruct (decide (inputOrder w = inputOrder q)) as [Hsame | Hdiff].
    + left. apply list_elem_of_lookup_1 in Hqin as [iq Hiq].
      apply list_elem_of_lookup_1 in Hw as [iw Hiw].
      rewrite <- (Hpos _ _ Hiq), <- Hsame, (Hpos _ _ Hiw) in Hiq. congruence.
    + right. right. split; [assumption | lia].
Qed.

(** Five periods around the instant 1688228940 of the third transaction:
    three contain it; the two with the latest start tie, and the one
    declared first (position 1, fixed amount 1000) wins over the one
    declared after it and over the period that started earlier. *)
Lemma override_latest_start_wins_witness :
  exists r w,
    applyQPeriods fixtureTransactions overlapQ fixtureIndices !! 2%nat = Some r
    /\ sameButFinal (fixtureTransaction "2023-07-01 21:59:00" 1688228940 62000 70000 2) r
    /\ w ∈ overlapQ
    /\ containsQ w 1688228940
    /\ remanentFinalPaise r = fixedPaise w
    /\ remanentFinalPaise r = 1000
    /\ (forall q, q ∈ overlapQ -> containsQ q 1688228940 ->
                  q = w
                  \/ q_start q < q_start w
                  \/ (q_start q = q_start w /\ (inputOrder w < inputOrder q)%nat))
    /\ containsQ (qPeriod 0 1688149800 1690828199 0) 1688228940
    /\ containsQ (qPeriod 2000 1688200000 1690000000 2) 1688228940.
Proof.
  destruct (override_latest_start_wins fixtureTransactions overlapQ fixtureIndices)
    with (i := 2%nat) (tx := fixtureTransaction "2023-07-01 21:59:00" 1688228940 62000 70000 2)
    as (r & Hr & Hsame & Hsome & _).
  - split.
    + apply (bool_decide_unpack _). vm_compute. exact I.
    + repeat constructor; vm_compute; discriminate.
  - repeat constructor.
  - intros [| [| [| [| [| i]]]]] q Hq; try discriminate; injection Hq as <-; reflexivity.
  - reflexivity.
  - destruct Hsome as (w & Hw & Hwc & Hfinal & Hmax).
    { exists (qPeriod 0 1688149800 1690828199 0). split; [left |].
      unfold containsQ. cbn. lia. }
    exists r, w. split; [exact Hr |]. split; [exact Hsame |]. split; [exact Hw |].
    split; [exact Hwc |]. split; [exact Hfinal |].
    split; [| split; [exact Hmax | split; unfold containsQ; cbn; lia]].
    assert (Hc : applyQPeriods fixtureTransactions overlapQ fixtureIndices !! 2%nat
                 = Some (setRemanentFinal
                           (fixtureTransaction "2023-07-01 21:59:00" 1688228940 62000 70000 2)
                           1000)) by (vm_compute; reflexivity).
    rewrite Hc in Hr. injection Hr as <-. reflexivity.
Defined.

Lemma applyTemporalRules_fst (txs : list Transaction) (qs : list QPeriod)
    (ps : list PPeriod) (ks : list KPeriod) :
  fst (applyTemporalRules txs qs ps ks)
  = let indices :=
      JsArray.sort
        (fun a b =>
           match txs !! a, txs !! b with
           | Some ta, Some tb => epochSeconds ta - epochSeconds tb
           | _, _ => 0
           end)
        (seq 0 (length txs)) in
    applyPPeriods (applyQPeriods txs qs indices) ps indices.
Proof. reflexivity. Qed.

(** C2: after the pipeline the final remanent of a transaction is the
    result of the override step (the fixed amount of the winning period,
    or the base remanent [ceiling - amount] when no override period
    contains the instant) plus the extras of all additive periods that
    contain the instant; the pipeline changes no other field. *)
Theorem final_remanent_is_override_plus_extras (txs : list Transaction)
    (qs : list QPeriod) (ps : list PPeriod) (ks : list KPeriod) :
  Forall wellBuilt txs ->
  Forall (fun period => p_start period <= p_end period) ps ->
  forall i tx,
    txs !! i = Some tx ->
    exists o r,
      fst (applyTemporalRules txs qs ps ks) !! i = Some r
      /\ remanentFinalPaise r = o + extrasAt ps (epochSeconds tx)
      /\ sameButFinal tx r
      /\ ((exists q, q ∈ qs /\ containsQ q (epochSeconds tx)) ->
          exists w,
            w ∈ qs /\ containsQ w (epochSeconds tx)
            /\ (forall q, q ∈ qs -> containsQ q (epochSeconds tx) -> hasPriority w q)
            /\ o = fixedPaise w)
      /\ ((forall q, q ∈ qs -> ~ containsQ q (epochSeconds tx)) ->
          o = ceilingPaise tx - amountPaise tx).
Proof.
  intros Hwb Hps i tx Hi.
  rewrite applyTemporalRules_fst. cbv zeta.
  pose proof (pipeline_indices txs) as Hsi.
  set (indices := JsArray.sort _ (seq 0 (length txs))) in *.
  destruct (applyQPeriods_outcome txs qs indices Hsi i tx Hi) as (o & Ho & Hne & Hnil).
  assert (Hsi' : sortedIndices (applyQPeriods txs qs indices) indices).
  { apply (sortedIndices_same_instants txs); [apply applyQPeriods_length | | assumption].
    intros i0 tx0 H0.
    destruct (applyQPeriods_outcome txs qs indices Hsi i0 tx0 H0) as (f0 & Hf0 & _). eauto. }
  rewrite (applyPPeriods_outcome _ ps indices Hsi' Hps i _ Ho).
  exists o.
  exists (setRemanentFinal (setRemanentFinal tx o)
            (remanentFinalPaise (setRemanentFinal tx o)
             + extrasAt ps (epochSeconds (setRemanentFinal tx o)))).
  split; [reflexivity |]. split; [reflexivity |]. split; [repeat split |].
  assert (Hw : wellBuilt tx).
  { rewrite Forall_forall in Hwb. apply Hwb. eapply list_elem_of_lookup_2. eassumption. }
  destruct Hw as [Hfresh Hbase].
  destruct (decide (qs = [])) as [-> | Hq].
  - split.
    + intros (q & Hq & _). inversion Hq.
    + intros _. rewrite (Hnil eq_refl), Hfresh. assumption.
  - destruct (Hne Hq) as [Hsome Hnone]. split; [assumption |].
    intros Hno. rewrite (Hnone Hno). assumption.
Qed.

(** The third transaction of the fixture under [overlapQ] and [overlapP]:
    the override gives 1000, two additive periods contain the instant (one
    ends at it) and add 2500 and 700 on top, the third does not. *)
Lemma final_remanent_is_override_plus_extras_witness :
  exists o r w,
    fst (applyTemporalRules fixtureTransactions overlapQ overlapP fixtureK) !! 2%nat = Some r
    /\ remanentFinalPaise r = o + extrasAt overlapP 1688228940
    /\ sameButFinal (fixtureTransaction "2023-07-01 21:59:00" 1688228940 62000 70000 2) r
    /\ w ∈ overlapQ
    /\ containsQ w 1688228940
    /\ o = fixedPaise w
    /\ o = 1000
    /\ extrasAt overlapP 1688228940 = 2500 + 700
    /\ remanentFinalPaise r = 4200
    /\ map remanentFinalPaise
         (fst (applyTemporalRules fixtureTransactions overlapQ overlapP fixtureK))
       = [5900; 2500; 4200; 2900].
Proof.
  destruct (final_remanent_is_override_plus_extras fixtureTransactions overlapQ overlapP
              fixtureK)
    with (i := 2%nat) (tx := fixtureTransaction "2023-07-01 21:59:00" 1688228940 62000 70000 2)
    as (o & r & Hr & Hfinal & Hsame & Hsome & _).
  - repeat constructor.
  - repeat constructor; vm_compute; discriminate.
  - reflexivity.
  - destruct Hsome as (w & Hw & Hwc & _ & Ho).
    { exists (qPeriod 0 1688149800 1690828199 0). split; [left |].
      unfold containsQ. cbn. lia. }
    assert (Hc : fst (applyTemporalRules fixtureTransactions overlapQ overlapP fixtureK)
                   !! 2%nat
                 = Some (setRemanentFinal
                           (fixtureTransaction "2023-07-01 21:59:00" 1688228940 62000 70000 2)
                           4200)) by (vm_compute; reflexivity).
    assert (He : extrasAt overlapP 1688228940 = 2500 + 700) by (vm_compute; reflexivity).
    assert (H4200 : remanentFinalPaise r = 4200).
    { rewrite Hc in Hr. injection Hr as <-. reflexivity. }
    exists o, r, w. split; [exact Hr |]. split; [exact Hfinal |]. split; [exact Hsame |].
    split; [exact Hw |]. split; [exact Hwc |]. split; [exact Ho |].
    split; [| split; [exact He |]].
    { rewrite H4200 in Hfinal. cbn [epochSeconds fixtureTransaction] in Hfinal.
      rewrite He in Hfinal. lia. }
    split; [exact H4200 |]. vm_compute. reflexivity.
Defined.

(** The reference scenario of the README: the final remanents and the sums
    of the two windows. *)
Example fixture_scenario :
  map remanentFinalPaise
    (fst (applyTemporalRules fixtureTransactions fixtureQ fixtureP fixtureK))
  = [7500; 2500; 0; 4500]
  /\ map sd_amountPaise
       (snd (applyTemporalRules fixtureTransactions fixtureQ fixtureP fixtureK))
     = [7500; 14500].
Proof. split; vm_compute; reflexivity. Qed.

(** The parser builds the periods the pipeline expects. *)
Lemma mapIndexed_lookup {A B : Type} (f : A -> nat -> Js.result B) (l : list A)
    (start : nat) (r : list B) :
  mapIndexed f l start = Js.Ok r ->
  forall i y, r !! i = Some y -> exists x, l !! i = Some x /\ f x (start + i)%nat = Js.Ok y.
Proof.
  revert start r. induction l as [| x l IH]; intros start r H i y Hy.
  - injection H as <-. discriminate.
  - cbn [mapIndexed] in H. apply bind_Ok in H as (y0 & Hy0 & H).
    apply bind_Ok in H as (ys & Hys & H). injection H as <-.
    destruct i as [| i].
    + injection Hy as <-. exists x. rewrite Nat.add_0_r. auto.
    + cbn in Hy. destruct (IH _ _ Hys i y Hy) as (x' & Hx' & Hf).
      exists x'. split; [assumption |]. rewrite <- Hf. f_equal. lia.
Qed.

Lemma parseQPeriods_positions (raws : list RawPeriod) (qs : list QPeriod) :
  parseQPeriods raws = Js.Ok qs ->
  forall i q, qs !! i = Some q -> inputOrder q = i /\ q_start q <= q_end q.
Proof.
  intros H i q Hq.
  destruct (mapIndexed_lookup parseQPeriod raws 0 qs H i q Hq) as (raw & _ & Hp).
  cbn [Nat.add] in Hp. unfold parseQPeriod in Hp. cbv zeta in Hp.
  repeat (apply bind_Ok in Hp as (? & _ & Hp)).
  match type of Hp with
  | (if ?b then _ else _) = _ => destruct b eqn:Hb; [discriminate |]
  end.
  injection Hp as <-. cbn. apply Z.ltb_ge in Hb. split; [reflexivity | lia].
Qed.

Lemma parsePPeriods_ordered (raws : list RawPeriod) (ps : list PPeriod) :
  parsePPeriods raws = Js.Ok ps -> Forall (fun period => p_start period <= p_end period) ps.
Proof.
  apply mapIndexed_Forall. intros raw j period H. unfold parsePPeriod in H. cbv zeta in H.
  repeat (apply bind_Ok in H as (? & _ & H)).
  match type of H with
  | (if ?b then _ else _) = _ => destruct b eqn:Hb; [discriminate |]
  end.
  injection H as <-. cbn. apply Z.ltb_ge in Hb. lia.
Qed.

Lemma filteringLoop_wellBuilt (raws : list RawTransaction) (i : nat) (st st' : Filtering) :
  filteringLoop raws i st = Js.Ok st' ->
  Forall wellBuilt (f_validTransactions st) -> Forall wellBuilt (f_validTransactions st').
Proof.
  revert i st. induction raws as [| raw raws IH]; intros i st H Hf.
  - injection H as <-. assumption.
  - cbn [filteringLoop] in H.
    destruct (parseTransactionInput raw i "transactions") as [tx | e] eqn:Hp.
    + destruct (f_seen st !! timestamp tx).
      * apply IH in H; assumption.
      * apply IH in H; [assumption |]. cbn.
        apply Forall_app. split; [assumption |].
        constructor; [| constructor].
        destruct (parseTransactionInput_Ok _ _ _ _ Hp) as (H1 & _ & H2 & _). split; assumption.
    + destruct (Js.isApiError e); [| discriminate]. apply IH in H; assumption.
Qed.

(** What [parseForFiltering] hands to the pipeline meets the conditions
    of the theorems on the pipeline. *)
Lemma parseForFiltering_conditions (payload : Payload) (parsed : Parsed) :
  parseForFiltering payload = Js.Ok parsed ->
  Forall wellBuilt (validTransactions parsed)
  /\ (forall i q, qPeriods parsed !! i = Some q -> inputOrder q = i /\ q_start q <= q_end q)
  /\ Forall (fun period => p_start period <= p_end period) (pPeriods parsed)
  /\ Forall (fun period => k_start period <= k_end period) (kPeriods parsed).
Proof.
  intros H. unfold parseForFiltering in H.
  repeat (apply bind_Ok in H as (? & ? & H)). injection H as <-. cbn.
  repeat match goal with
         | H : filteringLoop _ _ _ = _ |- _ =>
             apply filteringLoop_wellBuilt in H; [| constructor]
         | H : parseQPeriods _ = _ |- _ =>
             pose proof (parseQPeriods_positions _ _ H); clear H
         | H : parsePPeriods _ = _ |- _ => apply parsePPeriods_ordered in H
         | H : parseKPeriods _ = _ |- _ => apply parseKPeriods_ordered in H
         end.
  split; [assumption |]. split; [assumption |]. split; assumption.
Qed.

End Pipeline.


(** * The batch paths: duplicates *)

Section Batches.

Import Js JsValue Engine.

Lemma find_snoc {A : Type} (f : A -> bool) (l : list A) (x : A) :
  find f (l ++ [x])
  = match find f l with
    | Some y => Some y
    | None => if f x then Some x else None
    end.
Proof.
  induction l as [| y l IH]; cbn; [reflexivity |].
  destruct (f y); [reflexivity | assumption].
Qed.

Lemma firstWithText_S (raws : list RawTransaction) (n : nat) (text : string) :
  firstWithText raws (S n) text
  = match firstWithText raws n text with
    | Some first => Some first
    | None => if hasText raws text n then Some n else None
    end.
Proof. unfold firstWithText. rewrite seq_S. apply find_snoc. Qed.

Lemma firstWithText_None (raws : list RawTransaction) (i : nat) (text : string) :
  firstWithText raws i text = None ->
  forall j tx, (j < i)%nat -> parsedAt raws j = Some tx -> timestamp tx <> text.
Proof.
  induction i as [| i IH]; [lia |].
  rewrite firstWithText_S.
  destruct (firstWithText raws i text) eqn:Hk; [discriminate |].
  destruct (hasText raws text i) eqn:Hh; [discriminate |]. intros _ j tx Hlt Hp.
  destruct (decide (j = i)) as [-> | Hne].
  - unfold hasText in Hh. rewrite Hp in Hh. apply (bool_decide_eq_false_1 _ Hh).
  - apply (IH eq_refl j tx); [lia | assumption].
Qed.

(** [firstWithText] finds the least position that carries the text. *)
Lemma firstWithText_Some (raws : list RawTransaction) (i : nat) (text : string)
    (first : nat) :
  firstWithText raws i text = Some first ->
  (first < i)%nat
  /\ (exists tx, parsedAt raws first = Some tx /\ timestamp tx = text)
  /\ forall j tx, (j < first)%nat -> parsedAt raws j = Some tx -> timestamp tx <> text.
Proof.
  induction i as [| i IH]; [discriminate |].
  rewrite firstWithText_S.
  destruct (firstWithText raws i text) as [f |] eqn:Hf.
  - intros [= <-]. destruct (IH eq_refl) as (Hlt & Htx & Hmin).
    split; [lia | split; assumption].
  - destruct (hasText raws text i) eqn:Hh; [| discriminate].
    intros [= <-]. split; [lia |]. split.
    + unfold hasText in Hh. destruct (parsedAt raws i) as [tx |]; [| discriminate].
      exists tx. split; [reflexivity |]. apply (bool_decide_eq_true_1 _ Hh).
    + intros j tx Hj. apply (firstWithText_None raws i text Hf j tx Hj).
Qed.

Lemma outcomes_S (c : bool) (raws : list RawTransaction) (n : nat) :
  outcomes c raws (S n)
  = outcomes c raws n ++ match classify c raws n with Some o => [o] | None => [] end.
Proof.
  unfold outcomes. rewrite seq_S, omap_app. cbn.
  destruct (classify c raws n); reflexivity.
Qed.

Lemma outcomes_length (c : bool) (raws : list RawTransaction) (n : nat) :
  (n <= length raws)%nat -> length (outcomes c raws n) = n.
Proof.
  induction n as [| n IH]; [reflexivity |]. intros Hn.
  rewrite outcomes_S, length_app, IH by lia.
  destruct (lookup_lt_is_Some_2 raws n) as [raw Hraw]; [lia |].
  unfold classify. rewrite Hraw. cbn. lia.
Qed.

Lemma outcomes_lookup (c : bool) (raws : list RawTransaction) (n i : nat) :
  (i < n)%nat -> (n <= length raws)%nat -> outcomes c raws n !! i = classify c raws i.
Proof.
  induction n as [| n IH]; [lia |]. intros Hi Hn.
  rewrite outcomes_S.
  destruct (decide (i = n)) as [-> | Hne].
  - rewrite lookup_app_r; rewrite outcomes_length by lia; [| lia].
    rewrite Nat.sub_diag.
    destruct (lookup_lt_is_Some_2 raws n) as [raw Hraw]; [lia |].
    unfold classify. rewrite Hraw. reflexivity.
  - rewrite lookup_app_l; [apply IH; lia |]. rewrite outcomes_length; lia.
Qed.

Lemma classify_at (c : bool) (raws : list RawTransaction) (n : nat) (raw : RawTransaction) :
  raws !! n = Some raw ->
  classify c raws n
  = Some
      match parseTransactionInput raw n "transactions" with
      | Err e => Unparsed raw e
      | Ok tx =>
          match firstWithText raws n (timestamp tx) with
          | Some first => Duplicate raw tx first
          | None => if c && remanentMismatch raw n tx then Mismatch tx else Kept tx
          end
      end.
Proof. intros H. unfold classify. rewrite H. reflexivity. Qed.

Lemma hasText_at (raws : list RawTransaction) (n : nat) (raw : RawTransaction)
    (text : string) :
  raws !! n = Some raw ->
  hasText raws text n
  = match parseTransactionInput raw n "transactions" with
    | Ok tx => bool_decide (timestamp tx = text)
    | Err _ => false
    end.
Proof.
  intros H. unfold hasText, parsedAt. rewrite H.
  destruct (parseTransactionInput raw n "transactions"); reflexivity.
Qed.

(** The table [seen] after a record that leaves it alone. *)
Lemma seen_unchanged (raws : list RawTransaction) (n : nat) (raw : RawTransaction)
    (seen : gmap string nat) :
  raws !! n = Some raw ->
  (forall text, seen !! text = firstWithText raws n text) ->
  (forall tx, parseTransactionInput raw n "transactions" = Ok tx ->
              is_Some (seen !! timestamp tx)) ->
  forall text, seen !! text = firstWithText raws (S n) text.
Proof.
  intros Hraw Hseen Hdup text.
  rewrite firstWithText_S, (hasText_at raws n raw text Hraw), <- Hseen.
  destruct (seen !! text) eqn:Hs; [reflexivity |].
  destruct (parseTransactionInput raw n "transactions") as [tx | e] eqn:Hp; [| reflexivity].
  destruct (decide (timestamp tx = text)) as [<- | Hne].
  - destruct (Hdup tx eq_refl) as [first Hfirst]. congruence.
  - rewrite bool_decide_eq_false_2 by assumption. reflexivity.
Qed.

(** The table [seen] after a first occurrence. *)
Lemma seen_inserted (raws : list RawTransaction) (n : nat) (raw : RawTransaction)
    (tx : Transaction) (seen : gmap string nat) :
  raws !! n = Some raw ->
  (forall text, seen !! text = firstWithText raws n text) ->
  parseTransactionInput raw n "transactions" = Ok tx ->
  seen !! timestamp tx = None ->
  forall text, <[timestamp tx := n]> seen !! text = firstWithText raws (S n) text.
Proof.
  intros Hraw Hseen Hp Hnone text.
  rewrite firstWithText_S, (hasText_at raws n raw text Hraw), Hp, <- Hseen.
  destruct (decide (timestamp tx = text)) as [<- | Hne].
  - rewrite lookup_insert_eq, Hnone, bool_decide_eq_true_2 by reflexivity. reflexivity.
  - rewrite lookup_insert_ne by assumption.
    rewrite bool_decide_eq_false_2 by assumption.
    destruct (seen !! text); reflexivity.
Qed.

(** The filter loop runs through the whole list and keeps [filteringAt]. *)
Lemma filteringLoop_run (raws : list RawTransaction) :
  noPlainErrors raws ->
  forall rest pre st,
    raws = pre ++ rest ->
    filteringAt raws (length pre) st ->
    exists st',
      filteringLoop rest (length pre) st = Ok st' /\ filteringAt raws (length raws) st'.
Proof.
  intros Hplain. induction rest as [| raw rest IH]; intros pre st Hall Hinv.
  - rewrite app_nil_r in Hall. subst pre. eauto.
  - assert (Hraw : raws !! length pre = Some raw).
    { rewrite Hall. apply list_lookup_middle. reflexivity. }
    assert (Hnext : forall st1, filteringAt raws (S (length pre)) st1 ->
              exists st', filteringLoop rest (S (length pre)) st1 = Ok st'
                          /\ filteringAt raws (length raws) st').
    { intros st1 H1. specialize (IH (pre ++ [raw]) st1).
      rewrite length_app, Nat.add_1_r, <- app_assoc in IH. apply IH; assumption. }
    destruct Hinv as (Hvalid & Hinvalid & Hseen).
    cbn [filteringLoop].
    destruct (parseTransactionInput raw (length pre) "transactions") as [tx | e] eqn:Hp.
    + destruct (f_seen st !! timestamp tx) as [first |] eqn:Hs.
      * apply Hnext. unfold filteringAt. cbn [f_validTransactions f_invalid f_seen].
        rewrite outcomes_S, (classify_at false raws _ raw Hraw), Hp, <- Hseen, Hs.
        rewrite !flat_map_app, Hvalid, Hinvalid. cbn [flat_map keptOf filterReport app andb]. rewrite ?app_nil_r.
        split; [reflexivity |]. split; [reflexivity |].
        apply (seen_unchanged raws _ raw); [assumption | assumption |].
        intros tx' Htx'. rewrite Hp in Htx'. injection Htx' as <-. eauto.
      * apply Hnext. unfold filteringAt. cbn [f_validTransactions f_invalid f_seen].
        rewrite outcomes_S, (classify_at false raws _ raw Hraw), Hp, <- Hseen, Hs.
        rewrite !flat_map_app, Hvalid, Hinvalid. cbn [flat_map keptOf filterReport app andb]. rewrite ?app_nil_r.
        split; [reflexivity |]. split; [reflexivity |].
        apply (seen_inserted raws _ raw); assumption.
    + rewrite (Hplain _ _ _ Hraw Hp).
      apply Hnext. unfold filteringAt. cbn [f_validTransactions f_invalid f_seen].
      rewrite outcomes_S, (classify_at false raws _ raw Hraw), Hp.
      rewrite !flat_map_app, Hvalid, Hinvalid. cbn [flat_map keptOf filterReport app andb]. rewrite ?app_nil_r.
      split; [reflexivity |]. split; [reflexivity |].
      apply (seen_unchanged raws _ raw); [assumption | assumption |].
      intros tx'. rewrite Hp. discriminate.
Qed.

(** The validator loop runs through the whole list and keeps
    [validationAt]. *)
Lemma validationLoop_run (raws : list RawTransaction) :
  noPlainErrors raws ->
  remanentsParse raws ->
  forall rest pre st,
    raws = pre ++ rest ->
    validationAt raws (length pre) st ->
    exists st',
      validationLoop rest (length pre) st = Ok st' /\ validationAt raws (length raws) st'.
Proof.
  intros Hplain Hrem. induction rest as [| raw rest IH]; intros pre st Hall Hinv.
  - rewrite app_nil_r in Hall. subst pre. eauto.
  - assert (Hraw : raws !! length pre = Some raw).
    { rewrite Hall. apply list_lookup_middle. reflexivity. }
    assert (Hnext : forall st1, validationAt raws (S (length pre)) st1 ->
              exists st', validationLoop rest (S (length pre)) st1 = Ok st'
                          /\ validationAt raws (length raws) st').
    { intros st1 H1. specialize (IH (pre ++ [raw]) st1).
      rewrite length_app, Nat.add_1_r, <- app_assoc in IH. apply IH; assumption. }
    destruct Hinv as (Hvalid & Hinvalid & Hdups & Hseen).
    cbn [validationLoop].
    destruct (parseTransactionInput raw (length pre) "transactions") as [tx | e] eqn:Hp.
    + cbv zeta. destruct (v_seen st !! timestamp tx) as [first |] eqn:Hs.
      * apply Hnext. unfold validationAt. cbn [v_valid v_invalid v_duplicates v_seen].
        rewrite outcomes_S, (classify_at true raws _ raw Hraw), Hp, <- Hseen, Hs.
        rewrite !flat_map_app, Hvalid, Hinvalid, Hdups. cbn [flat_map keptOf validatorReport duplicateOf app andb]. rewrite app_nil_r.
        split; [reflexivity |]. split; [reflexivity |]. split; [reflexivity |].
        apply (seen_unchanged raws _ raw); [assumption | assumption |].
        intros tx' Htx'. rewrite Hp in Htx'. injection Htx' as <-. eauto.
      * assert (Hfirst : firstWithText raws (length pre) (timestamp tx) = None)
          by (rewrite <- Hseen; assumption).
        assert (Hclass : classify true raws (length pre)
                         = Some (if remanentMismatch raw (length pre) tx
                                 then Mismatch tx else Kept tx)).
        { rewrite (classify_at true raws _ raw Hraw), Hp, Hfirst. reflexivity. }
        pose proof (seen_inserted raws _ raw tx _ Hraw Hseen Hp Hs) as Hseen'.
        unfold remanentMismatch in Hclass.
        destruct (isUndefined (raw_remanent raw)) eqn:Hu; cbn [negb andb bind] in *.
        -- apply Hnext. unfold validationAt. cbn [v_valid v_invalid v_duplicates v_seen].
           rewrite outcomes_S, Hclass, !flat_map_app, Hvalid, Hinvalid, Hdups.
              cbn [flat_map keptOf validatorReport duplicateOf app].
           rewrite !app_nil_r. auto.
        -- destruct (Hrem _ _ _ Hraw Hp Hfirst Hu) as [remanentPaise Hr].
           rewrite Hr in *. cbn [bind].
           destruct (negb (remanentPaise =? remanentBasePaise tx)).
           ++ apply Hnext. unfold validationAt. cbn [v_valid v_invalid v_duplicates v_seen].
              rewrite outcomes_S, Hclass, !flat_map_app, Hvalid, Hinvalid, Hdups.
              cbn [flat_map keptOf validatorReport duplicateOf app].
              rewrite !app_nil_r. auto.
           ++ apply Hnext. unfold validationAt. cbn [v_valid v_invalid v_duplicates v_seen].
              rewrite outcomes_S, Hclass, !flat_map_app, Hvalid, Hinvalid, Hdups.
              cbn [flat_map keptOf validatorReport duplicateOf app].
              rewrite !app_nil_r. auto.
    + rewrite (Hplain _ _ _ Hraw Hp).
      apply Hnext. unfold validationAt. cbn [v_valid v_invalid v_duplicates v_seen].
      rewrite outcomes_S, (classify_at true raws _ raw Hraw), Hp.
      rewrite !flat_map_app, Hvalid, Hinvalid, Hdups. cbn [flat_map keptOf validatorReport duplicateOf app andb]. rewrite !app_nil_r.
      split; [reflexivity |]. split; [reflexivity |]. split; [reflexivity |].
      apply (seen_unchanged raws _ raw); [assumption | assumption |].
      intros tx'. rewrite Hp. discriminate.
Qed.

Lemma outcomes_elem (c : bool) (raws : list RawTransaction) (n : nat) (o : Outcome) :
  o ∈ outcomes c raws n <-> exists j, (j < n)%nat /\ classify c raws j = Some o.
Proof.
  unfold outcomes. rewrite list_elem_of_omap. split.
  - intros (j & Hj & Hc). apply elem_of_seq in Hj. exists j. split; [lia | assumption].
  - intros (j & Hj & Hc). exists j. split; [apply elem_of_seq; lia | assumption].
Qed.

Lemma flat_map_elem {A B : Type} (f : A -> list B) (l : list A) (y : B) :
  y ∈ flat_map f l <-> exists x, x ∈ l /\ y ∈ f x.
Proof.
  rewrite list_elem_of_In, in_flat_map. split; intros (x & Hx & Hy); exists x.
  - rewrite !list_elem_of_In. auto.
  - rewrite <- !list_elem_of_In. auto.
Qed.

Lemma kept_elem (c : bool) (raws : list RawTransaction) (n : nat) (tx : Transaction) :
  tx ∈ flat_map keptOf (outcomes c raws n)
  <-> exists j, (j < n)%nat /\ classify c raws j = Some (Kept tx).
Proof.
  rewrite flat_map_elem. split.
  - intros (o & Ho & Hk). apply outcomes_elem in Ho.
    destruct o; cbn in Hk; try (inversion Hk; fail).
    apply list_elem_of_singleton in Hk. subst. assumption.
  - intros H. exists (Kept tx). split; [apply outcomes_elem; assumption |].
    cbn. apply list_elem_of_singleton. reflexivity.
Qed.

(** A transaction is kept only at its own position. *)
Lemma classify_Kept (c : bool) (raws : list RawTransaction) (j : nat) (tx : Transaction) :
  classify c raws j = Some (Kept tx) ->
  inputIndex tx = j
  /\ firstWithText raws j (timestamp tx) = None
  /\ exists raw, raws !! j = Some raw /\ (c && remanentMismatch raw j tx = false).
Proof.
  unfold classify. destruct (raws !! j) as [raw |]; [| discriminate].
  destruct (parseTransactionInput raw j "transactions") as [tx' | e] eqn:Hp; [| discriminate].
  destruct (firstWithText raws j (timestamp tx')) eqn:Hf; [discriminate |].
  destruct (c && remanentMismatch raw j tx') eqn:Hm; [discriminate |].
  intros [= <-]. apply parseTransactionInput_Ok in Hp as (_ & Hi & _). eauto.
Qed.

Lemma kept_only_here (c : bool) (raws : list RawTransaction) (i j : nat)
    (raw : RawTransaction) (tx : Transaction) (o : Outcome) :
  parseTransactionInput raw i "transactions" = Ok tx ->
  classify c raws i = Some o ->
  classify c raws j = Some (Kept tx) ->
  o = Kept tx.
Proof.
  intros Hp Hc Hj. pose proof Hj as Hj'. apply classify_Kept in Hj' as (Hj' & _).
  apply parseTransactionInput_Ok in Hp as (_ & Hidx & _).
  assert (j = i) by congruence. subst j. congruence.
Qed.

Lemma reports_length (report : Outcome -> list InvalidTransaction) (l : list Outcome) :
  (forall o, o ∈ l -> length (keptOf o) + length (report o) = 1)%nat ->
  (length (flat_map keptOf l) + length (flat_map report l) = length l)%nat.
Proof.
  induction l as [| o l IH]; intros H; [reflexivity |].
  cbn [flat_map]. rewrite !length_app. cbn [length].
  pose proof (H o (list_elem_of_here o l)) as Ho.
  assert (IH' := IH (fun o' Ho' => H o' (list_elem_of_further o' o l Ho'))). lia.
Qed.

(** The filter path declares no remanent mismatch. *)
Lemma classify_filter (raws : list RawTransaction) (j : nat) (tx : Transaction) :
  classify false raws j <> Some (Mismatch tx).
Proof.
  unfold classify. destruct (raws !! j) as [raw |]; [| discriminate].
  destruct (parseTransactionInput raw j "transactions") as [tx' | e]; [| discriminate].
  destruct (firstWithText raws j (timestamp tx')); discriminate.
Qed.

Lemma parseForFiltering_loop (payload : Payload) (parsed : Parsed) :
  parseForFiltering payload = Ok parsed ->
  exists raws st,
    transactions payload = Items raws
    /\ filteringLoop raws 0 initialFiltering = Ok st
    /\ validTransactions parsed = f_validTransactions st
    /\ invalid parsed = f_invalid st.
Proof.
  unfold parseForFiltering. intros H.
  apply bind_Ok in H as (raws & Hraws & H).
  do 3 (apply bind_Ok in H as (? & _ & H)).
  apply bind_Ok in H as (st & Hst & H).
  do 3 (apply bind_Ok in H as (? & _ & H)). injection H as <-.
  exists raws, st. cbn. repeat split; try assumption.
  unfold assertArray in Hraws. destruct (transactions payload); try discriminate.
  destruct (_ <? _); [discriminate |]. injection Hraws as ->. reflexivity.
Qed.

(** C5, as stated, fails: two records whose timestamp texts differ by a
    trailing blank parse to the same instant, and both batch paths keep
    both of them and report nothing. *)
Lemma same_instant_is_kept_twice :
  bind (parseForFiltering (payloadOf blankRecords))
    (fun parsed => Ok (map epochSeconds (validTransactions parsed), invalid parsed))
  = Ok ([1672511400; 1672511400], [])
  /\ bind (parseAndValidateTransactionsForValidation (payloadOf blankRecords))
       (fun '(valid, invalid, duplicates) => Ok (map epochSeconds valid, invalid, duplicates))
     = Ok ([1672511400; 1672511400], [], []).
Proof. split; vm_compute; reflexivity. Qed.

(** The test of the validator: the second record repeats the text of the
    first. *)
Example validator_reports_duplicates :
  bind (validateTransactions (payloadOf duplicateRecords))
    (fun r => Ok (length (vr_valid r), length (vr_duplicates r), map inv_code (vr_invalid r)))
  = Ok (1%nat, 1%nat, ["DUPLICATE_TIMESTAMP"]).
Proof. vm_compute. reflexivity. Qed.

(** C5 (amended): in both batch loops a record that parses and whose
    timestamp text equals the text of an earlier record that parses is
    left out of the valid output and reported with code
    DUPLICATE_TIMESTAMP and a message that names the position of the first
    record with that text, which the filter path keeps; a record whose text
    is new is kept (in the validator unless its declared remanent is
    inconsistent).  Provided no record raises an exception other than an
    ApiError (and, in the validator, no declared remanent of a first
    occurrence is malformed), the loop runs through the whole list, and
    every record ends either in the valid or in the invalid output. *)
Theorem duplicate_timestamp_texts_first_wins (raws : list RawTransaction) :
  noPlainErrors raws ->
  (exists st,
     filteringLoop raws 0 initialFiltering = Ok st
     /\ (length (f_validTransactions st) + length (f_invalid st) = length raws)%nat
     /\ forall i raw tx,
          raws !! i = Some raw ->
          parseTransactionInput raw i "transactions" = Ok tx ->
          match firstWithText raws i (timestamp tx) with
          | Some first =>
              (tx ∉ f_validTransactions st)
              /\ (buildInvalidTransaction (inl raw) "DUPLICATE_TIMESTAMP"
                    (duplicateMessage first) ∈ f_invalid st)
              /\ exists tx0, parsedAt raws first = Some tx0
                             /\ timestamp tx0 = timestamp tx
                             /\ (tx0 ∈ f_validTransactions st)
          | None => tx ∈ f_validTransactions st
          end)
  /\ (remanentsParse raws ->
      exists st,
        validationLoop raws 0 initialValidation = Ok st
        /\ (length (v_valid st) + length (v_invalid st) = length raws)%nat
        /\ forall i raw tx,
             raws !! i = Some raw ->
             parseTransactionInput raw i "transactions" = Ok tx ->
             match firstWithText raws i (timestamp tx) with
             | Some first =>
                 (tx ∉ v_valid st)
                 /\ (buildInvalidTransaction (inr (serializeTransaction tx))
                       "DUPLICATE_TIMESTAMP" (duplicateMessage first) ∈ v_invalid st)
                 /\ (serializeTransaction tx ∈ v_duplicates st)
             | None =>
                 if remanentMismatch raw i tx then tx ∉ v_valid st else tx ∈ v_valid st
             end).
Proof.
  intros Hplain. split.
  - destruct (filteringLoop_run raws Hplain raws [] initialFiltering eq_refl)
      as (st & Hst & Hvalid & Hinvalid & _).
    { repeat split. }
    exists st. split; [exact Hst |]. split.
    { rewrite Hvalid, Hinvalid, reports_length; [apply outcomes_length; lia |].
      intros [] Ho; try reflexivity.
      apply outcomes_elem in Ho as (j & _ & Hj). destruct (classify_filter _ _ _ Hj). }
    intros i raw tx Hraw Hp.
    assert (Hi : (i < length raws)%nat) by (apply lookup_lt_is_Some; eauto).
    pose proof (classify_at false raws i raw Hraw) as Hc. rewrite Hp in Hc.
    destruct (firstWithText raws i (timestamp tx)) as [first |] eqn:Hf.
    + split; [| split].
      * rewrite Hvalid, kept_elem. intros (j & _ & Hj).
        pose proof (kept_only_here _ _ _ _ _ _ _ Hp Hc Hj). discriminate.
      * rewrite Hinvalid, flat_map_elem. exists (Duplicate raw tx first).
        split; [apply outcomes_elem; eauto |]. cbn. apply list_elem_of_singleton. reflexivity.
      * destruct (firstWithText_Some _ _ _ _ Hf) as (Hlt & (tx0 & Hp0 & Ht0) & Hmin).
        exists tx0. split; [assumption |]. split; [assumption |].
        rewrite Hvalid, kept_elem. exists first. split; [lia |].
        unfold parsedAt in Hp0.
        destruct (raws !! first) as [raw0 |] eqn:Hraw0; [| discriminate].
        destruct (parseTransactionInput raw0 first "transactions") as [tx0' | e] eqn:Hq;
          [| discriminate].
        injection Hp0 as ->.
        rewrite (classify_at false raws first raw0 Hraw0), Hq.
        destruct (firstWithText raws first (timestamp tx0)) as [f0 |] eqn:Hf0; [| reflexivity].
        exfalso. destruct (firstWithText_Some _ _ _ _ Hf0) as (Hlt0 & (tx1 & Hp1 & Ht1) & _).
        apply (Hmin f0 tx1 Hlt0 Hp1). congruence.
    + rewrite Hvalid, kept_elem. exists i. split; [assumption | exact Hc].
  - intros Hrem.
    destruct (validationLoop_run raws Hplain Hrem raws [] initialValidation eq_refl)
      as (st & Hst & Hvalid & Hinvalid & Hdups & _).
    { repeat split. }
    exists st. split; [exact Hst |]. split.
    { rewrite Hvalid, Hinvalid, reports_length; [apply outcomes_length; lia |].
      intros [] _; reflexivity. }
    intros i raw tx Hraw Hp.
    assert (Hi : (i < length raws)%nat) by (apply lookup_lt_is_Some; eauto).
    pose proof (classify_at true raws i raw Hraw) as Hc. rewrite Hp in Hc.
    destruct (firstWithText raws i (timestamp tx)) as [first |] eqn:Hf.
    + split; [| split].
      * rewrite Hvalid, kept_elem. intros (j & _ & Hj).
        pose proof (kept_only_here _ _ _ _ _ _ _ Hp Hc Hj). discriminate.
      * rewrite Hinvalid, flat_map_elem. exists (Duplicate raw tx first).
        split; [apply outcomes_elem; eauto |]. cbn. apply list_elem_of_singleton. reflexivity.
      * rewrite Hdups, flat_map_elem. exists (Duplicate raw tx first).
        split; [apply outcomes_elem; eauto |]. cbn. apply list_elem_of_singleton. reflexivity.
    + cbn [andb] in Hc. destruct (remanentMismatch raw i tx).
      * rewrite Hvalid, kept_elem. intros (j & _ & Hj).
        pose proof (kept_only_here _ _ _ _ _ _ _ Hp Hc Hj). discriminate.
      * rewrite Hvalid, kept_elem. exists i. split; [assumption | exact Hc].
Qed.

Lemma duplicateRecords_noPlainErrors : noPlainErrors duplicateRecords.
Proof.
  intros i raw e Hraw Hp.
  destruct i as [| [| i]]; cbn in Hraw; try discriminate;
    injection Hraw as <-; vm_compute in Hp; discriminate.
Qed.

Lemma duplicate_timestamp_texts_first_wins_witness :
  noPlainErrors duplicateRecords
  /\ exists st,
       filteringLoop duplicateRecords 0 initialFiltering = Ok st
       /\ map inputIndex (f_validTransactions st) = [0%nat]
       /\ map inv_message (f_invalid st) = ["Duplicate timestamp with transactions[0]"].
Proof.
  split; [exact duplicateRecords_noPlainErrors |].
  destruct (duplicate_timestamp_texts_first_wins duplicateRecords
              duplicateRecords_noPlainErrors) as [(st & Hst & _) _].
  exists st. split; [exact Hst |].
  vm_compute in Hst. injection Hst as <-. split; reflexivity.
Defined.

End Batches.

(** * Numbers: rounding and the shortest digits *)

Section Rounding.

Import Js JsNumber.

Lemma eqb_eq (x y : Number) : eqb x y = true -> x = y.
Proof.
  destruct x as [| a | a m e], y as [| b | b m' e']; cbn; try discriminate.
  - reflexivity.
  - intros H. apply Bool.eqb_prop in H. congruence.
  - intros H. apply andb_prop in H as [H He]. apply andb_prop in H as [Ha Hm].
    apply Bool.eqb_prop in Ha. apply Z.eqb_eq in Hm, He. congruence.
Qed.

Lemma eqb_refl (x : Number) : eqb x x = true.
Proof.
  destruct x as [| a | a m e]; cbn; [reflexivity | apply Bool.eqb_reflx |].
  rewrite Bool.eqb_reflx, !Z.eqb_refl. reflexivity.
Qed.

(** [roundHalfEven] is within one half of the quotient. *)
Lemma roundHalfEven_spec (num den : Z) :
  0 < den -> 0 <= num ->
  2 * Z.abs (num - den * roundHalfEven num den) <= den /\ 0 <= roundHalfEven num den.
Proof.
  intros Hden Hnum. unfold roundHalfEven. cbv zeta.
  pose proof (Z.div_mod num den ltac:(lia)) as Hdm.
  pose proof (Z.mod_pos_bound num den Hden) as Hmod.
  assert (Hfl : 0 <= num / den) by (apply Z.div_pos; lia).
  destruct (Z.ltb_spec (2 * (num mod den)) den).
  - split; [| assumption]. lia.
  - destruct (Z.ltb_spec den (2 * (num mod den))).
    + split; lia.
    + destruct (Z.even (num / den)); split; lia.
Qed.

(** The error of [roundRational] on a number below one half of the last
    place, stated for results with a negative exponent. *)
Lemma roundRational_error (negative negative' : bool) (p q m e : Z) :
  0 < p -> 0 < q ->
  roundRational negative p q = Finite negative' m e ->
  e < 0 ->
  negative' = negative /\ 0 <= m /\ 2 * Z.abs (p * 2 ^ (- e) - q * m) <= q.
Proof.
  intros Hp Hq H He. unfold roundRational in H.
  destruct (Z.eqb_spec p 0) as [| _]; [lia |].
  set (e0 := Z.max (-1074) (floorLog2 p q - 52)) in H.
  unfold mulPow in H.
  destruct (Z.leb_spec 0 (- e0)) as [He0 | He0].
  - pose proof (roundHalfEven_spec (p * 2 ^ (- e0)) q Hq) as Hr.
    assert (Hpow : 0 < 2 ^ (- e0)) by (apply Z.pow_pos_nonneg; lia).
    specialize (Hr ltac:(nia)).
    set (m0 := roundHalfEven (p * 2 ^ (- e0)) q) in *.
    destruct (Z.eqb_spec m0 (2 ^ 53)) as [Hm0 | Hm0].
    + destruct (971 <? e0 + 1); [discriminate |].
      change (2 ^ 52 =? 0) with false in H. injection H as <- <- <-.
      split; [reflexivity |]. split; [apply Z.pow_nonneg; lia |].
      replace (- e0) with (1 + - (e0 + 1)) in Hr by lia.
      rewrite Z.pow_add_r in Hr by lia.
      rewrite Hm0 in Hr. change (2 ^ 53) with (2 * 2 ^ 52) in Hr.
      change (2 ^ 1) with 2 in Hr.
      remember (2 ^ (- (e0 + 1))) as X. remember (2 ^ 52) as Y. lia.
    + destruct (971 <? e0); [discriminate |].
      destruct (Z.eqb_spec m0 0); injection H as <- <- <-; [lia |].
      split; [reflexivity |]. exact (conj (proj2 Hr) (proj1 Hr)).
  - destruct (roundHalfEven p (q * 2 ^ (- - e0)) =? 2 ^ 53).
    + destruct (971 <? e0 + 1); [discriminate |].
      change (2 ^ 52 =? 0) with false in H. injection H as <- <- <-. lia.
    + destruct (971 <? e0); [discriminate |].
      destruct (_ =? 0); injection H as <- <- <-; lia.
Qed.

(** An upper bound of [floorLog2]. *)
Lemma floorLog2_upper (p q g : Z) :
  0 < p -> 0 < q -> 0 <= g + 1 -> p < 2 ^ (g + 1) * q -> floorLog2 p q <= g.
Proof.
  intros Hp Hq Hg Hlt. unfold floorLog2. cbv zeta.
  pose proof (Z.log2_spec p Hp) as [Hp1 Hp2].
  pose proof (Z.log2_spec q Hq) as [Hq1 Hq2].
  pose proof (Z.log2_nonneg p) as Hlp. pose proof (Z.log2_nonneg q) as Hlq.
  assert (Hg0 : Z.log2 p - Z.log2 q <= g + 1).
  { assert (H1 : 2 ^ Z.log2 p < 2 ^ (g + 1 + Z.succ (Z.log2 q))).
    { rewrite Z.pow_add_r by lia.
      assert (0 < 2 ^ (g + 1)) by (apply Z.pow_pos_nonneg; lia). nia. }
    apply Z.pow_lt_mono_r_iff in H1; lia. }
  set (g0 := Z.log2 p - Z.log2 q) in *.
  unfold mulPow.
  destruct (Z.leb_spec 0 (- g0)) as [Hneg | Hpos].
  - destruct (q <=? p * 2 ^ (- g0)) eqn:Hc; [| lia].
    destruct (Z.eq_dec g0 (g + 1)) as [Heq | Hne]; [| lia].
    assert (g0 = 0) by lia. exfalso.
    apply Z.leb_le in Hc. replace (- g0) with 0 in Hc by lia.
    replace (g + 1) with 0 in Hlt by lia. change (2 ^ 0) with 1 in *. lia.
  - destruct (q * 2 ^ (- - g0) <=? p) eqn:Hc; [| lia].
    destruct (Z.eq_dec g0 (g + 1)) as [Heq | Hne]; [| lia].
    exfalso. apply Z.leb_le in Hc.
    replace (- - g0) with (g + 1) in Hc by lia. lia.
Qed.

(** The Number of [N / 100] for [2 <= N < 2^46 * 100]: its last place is
    [2^-7] or finer. *)
Lemma roundRational_hundredths (negative : bool) (N : Z) :
  2 <= N < 2 ^ 46 * 100 ->
  exists m e,
    roundRational negative N 100 = Finite negative m e
    /\ e <= -7 /\ 0 < m
    /\ 2 * Z.abs (N * 2 ^ (- e) - 100 * m) <= 100.
Proof.
  intros HN.
  assert (Hshape : exists m e, roundRational negative N 100 = Finite negative m e /\ e <= -7).
  { unfold roundRational.
    destruct (Z.eqb_spec N 0) as [| _]; [lia |].
    pose proof (floorLog2_upper N 100 45 ltac:(lia) ltac:(lia) ltac:(lia)) as Hfl.
    change (2 ^ (45 + 1)) with (2 ^ 46) in Hfl. specialize (Hfl ltac:(lia)).
    set (e0 := Z.max (-1074) (floorLog2 N 100 - 52)).
    assert (He0 : -1074 <= e0 <= -7) by lia.
    unfold mulPow. destruct (Z.leb_spec 0 (- e0)) as [_ |]; [| lia].
    pose proof (roundHalfEven_spec (N * 2 ^ (- e0)) 100 ltac:(lia)) as Hr.
    assert (Hpow : 2 ^ 7 <= 2 ^ (- e0)) by (apply Z.pow_le_mono_r; lia).
    change (2 ^ 7) with 128 in Hpow.
    specialize (Hr ltac:(nia)).
    set (m0 := roundHalfEven (N * 2 ^ (- e0)) 100) in *.
    destruct (Z.eqb_spec m0 (2 ^ 53)) as [Hm0 | Hm0].
    - assert (e0 <= -8).
      { destruct (Z.eq_dec e0 (-7)) as [Heq | Hne]; [| lia]. exfalso.
        rewrite Hm0, Heq in Hr. change (2 ^ (- -7)) with 128 in Hr.
        change (2 ^ 53) with 9007199254740992 in Hr.
        change (2 ^ 46) with 70368744177664 in HN. lia. }
      destruct (Z.ltb_spec 971 (e0 + 1)); [lia |].
      change (2 ^ 52 =? 0) with false. cbv iota.
      exists (2 ^ 52), (e0 + 1). split; [reflexivity | lia].
    - destruct (Z.ltb_spec 971 e0); [lia |].
      destruct (Z.eqb_spec m0 0) as [Hz | Hz].
      + exfalso. rewrite Hz in Hr. nia.
      + exists m0, e0. split; [reflexivity | lia]. }
  destruct Hshape as (m & e & Hx & He).
  exists m, e. split; [assumption |]. split; [assumption |].
  destruct (roundRational_error negative negative N 100 m e ltac:(lia) ltac:(lia) Hx ltac:(lia))
    as (_ & Hm & Herr).
  split; [| assumption].
  assert (Hpow : 2 ^ 7 <= 2 ^ (- e)) by (apply Z.pow_le_mono_r; lia).
  change (2 ^ 7) with 128 in Hpow. nia.
Qed.

(** The number of digits of a positive integer. *)
Lemma natDigits_magnitude (s : Z) :
  1 <= s ->
  let L := Z.of_nat (String.length (natDigits s)) in
  1 <= L /\ 10 ^ (L - 1) <= s < 10 ^ L.
Proof.
  intros Hs. cbv zeta.
  destruct (String.length (natDigits s)) as [| k] eqn:HL.
  - exfalso. rewrite natDigits_unfold in HL.
    destruct (s <? 10); [discriminate |].
    rewrite length_app_string in HL. cbn in HL. lia.
  - split; [lia |]. split.
    + destruct k as [| k]; [cbn; lia |].
      pose proof (natDigits_length s k ltac:(lia)) as [_ H].
      replace (Z.of_nat (S (S k)) - 1) with (Z.of_nat (S k)) by lia.
      destruct (Z.lt_ge_cases s (10 ^ Z.of_nat (S k))) as [Hlt | Hge]; [| assumption].
      specialize (H Hlt). lia.
    + apply (natDigits_length s k ltac:(lia)). lia.
Qed.

Lemma natDigits_length_eq (s k : Z) :
  1 <= k -> 10 ^ (k - 1) <= s < 10 ^ k -> Z.of_nat (String.length (natDigits s)) = k.
Proof.
  intros Hk [Hlo Hhi].
  assert (Hs : 1 <= s).
  { assert (0 < 10 ^ (k - 1)) by (apply Z.pow_pos_nonneg; lia). lia. }
  destruct (natDigits_magnitude s Hs) as (HL & HLlo & HLhi).
  set (L := Z.of_nat (String.length (natDigits s))) in *.
  assert (H1 : 10 ^ (k - 1) < 10 ^ L) by lia.
  assert (H2 : 10 ^ (L - 1) < 10 ^ k) by lia.
  apply Z.pow_lt_mono_r_iff in H1; [| lia | lia].
  apply Z.pow_lt_mono_r_iff in H2; [| lia | lia]. lia.
Qed.

Lemma leadingZeros_two (fuel : nat) (p q : Z) :
  leadingZeros (S (S fuel)) p q
  = if q <=? 10 * p then 0
    else 1 + (if q <=? 10 * (10 * p) then 0 else 1 + leadingZeros fuel (10 * (10 * p)) q).
Proof. reflexivity. Qed.

(** [decimalPoint] of a fraction that is at least one hundredth: the
    exponent [n] with [10^(n-1) <= p / q < 10^n]. *)
Lemma decimalPoint_spec (p q : Z) :
  0 < p -> 0 < q -> q <= 100 * p ->
  -1 <= decimalPoint p q
  /\ 10 ^ (decimalPoint p q + 1) * q <= 100 * p
  /\ 100 * p < 10 ^ (decimalPoint p q + 2) * q.
Proof.
  intros Hp Hq Hlow. unfold decimalPoint.
  destruct (Z.leb_spec q p) as [Hge | Hlt].
  - assert (Hf : 1 <= p / q) by (apply Z.div_le_lower_bound; lia).
    destruct (natDigits_magnitude (p / q) Hf) as (HL & HLlo & HLhi).
    set (L := Z.of_nat (String.length (natDigits (p / q)))) in *.
    pose proof (Z.mul_div_le p q Hq) as Hd1.
    pose proof (Z.mul_succ_div_gt p q Hq) as Hd2.
    split; [lia |].
    replace (L + 1) with (2 + (L - 1)) by lia. replace (L + 2) with (2 + L) by lia.
    rewrite !Z.pow_add_r by lia. change (10 ^ 2) with 100.
    assert (0 < 10 ^ (L - 1)) by (apply Z.pow_pos_nonneg; lia).
    split; nia.
  - rewrite (leadingZeros_two 398 p q).
    destruct (Z.leb_spec q (10 * p)) as [H10 | H10].
    + change (- 0 + 1) with 1. change (- 0 + 2) with 2.
      change (10 ^ 1) with 10. change (10 ^ 2) with 100. lia.
    + destruct (Z.leb_spec q (10 * (10 * p))) as [H100 | H100]; [| lia].
      change (- (1 + 0) + 1) with 0. change (- (1 + 0) + 2) with 1.
      change (10 ^ 1) with 10. change (10 ^ 0) with 1. lia.
Qed.

(** *** The digit search *)

Lemma digitsAt_Some (x : Number) (p q n k s : Z) :
  digitsAt x p q n k = Some s ->
  (s = fst (mulPow 10 p q (k - n)) / snd (mulPow 10 p q (k - n))
   \/ s = fst (mulPow 10 p q (k - n)) / snd (mulPow 10 p q (k - n)) + 1)
  /\ convertsTo x s n k = true.
Proof.
  unfold digitsAt. destruct (mulPow 10 p q (k - n)) as [a b]. cbv zeta. cbn [fst snd].
  destruct (convertsTo x (a / b) n k) eqn:Hlo;
    destruct (convertsTo x (a / b + 1) n k) eqn:Hhi; intros H; try discriminate.
  - injection H as <-.
    destruct (2 * (a mod b) <? b); [auto |].
    destruct (b <? 2 * (a mod b)); [auto |].
    destruct (Z.even (a / b)); auto.
  - injection H as <-. auto.
  - injection H as <-. auto.
Qed.

Lemma digitsAt_found (x : Number) (p q n k s : Z) :
  (s = fst (mulPow 10 p q (k - n)) / snd (mulPow 10 p q (k - n))
   \/ s = fst (mulPow 10 p q (k - n)) / snd (mulPow 10 p q (k - n)) + 1) ->
  convertsTo x s n k = true ->
  exists s', digitsAt x p q n k = Some s'.
Proof.
  unfold digitsAt. destruct (mulPow 10 p q (k - n)) as [a b]. cbv zeta. cbn [fst snd].
  intros [-> | ->] ->.
  - destruct (convertsTo x (a / b + 1) n k); eauto.
  - destruct (convertsTo x (a / b) n k); eauto.
Qed.

(** The search stops at the first length that has a candidate. *)
Lemma shortestFrom_first (fuel : nat) (x : Number) (p q n : Z) :
  forall k K s0,
    k <= K < k + Z.of_nat fuel ->
    digitsAt x p q n K = Some s0 ->
    exists s k',
      shortestFrom fuel x p q n k = (s, k') /\ k <= k' <= K /\ digitsAt x p q n k' = Some s.
Proof.
  induction fuel as [| fuel IH]; intros k K s0 HK Hfound; [lia |].
  cbn [shortestFrom].
  destruct (digitsAt x p q n k) as [s |] eqn:Hk.
  - exists s, k. split; [reflexivity |]. split; [lia | assumption].
  - assert (k <> K) by congruence.
    destruct (IH (k + 1) K s0 ltac:(lia) Hfound) as (s & k' & Hs & Hk' & Hd).
    exists s, k'. split; [assumption |]. split; [lia | assumption].
Qed.

End Rounding.

(** * The shortest digits of an amount *)

Section Hundredths.

Import Js JsNumber.

(** [x = m / Q] is the Number nearest to [N / 100]; its last place [1 / Q]
    is finer than one hundredth. *)
Variables (N m e : Z).
Hypothesis N_large : 2 <= N.
Hypothesis N_small : N < 10 ^ 16.
Hypothesis e_fine : e <= -7.
Hypothesis m_pos : 0 < m.
Hypothesis nearest : 2 * Z.abs (N * 2 ^ (- e) - 100 * m) <= 100.
Hypothesis rounded : roundRational false N 100 = Finite false m e.

Let Q : Z := 2 ^ (- e).

Lemma Q_large : 128 <= Q.
Proof.
  unfold Q. change 128 with (2 ^ 7). apply Z.pow_le_mono_r; lia.
Qed.

Lemma above_hundredth : Q <= 100 * m.
Proof. pose proof Q_large. fold Q in nearest. nia. Qed.

Let n : Z := decimalPoint m Q.

Lemma magnitude :
  -1 <= n <= 14 /\ 10 ^ (n + 1) * Q <= 100 * m /\ 100 * m < 10 ^ (n + 2) * Q.
Proof.
  pose proof Q_large as HQ.
  destruct (decimalPoint_spec m Q m_pos ltac:(lia) above_hundredth) as (Hn & Hlo & Hhi).
  fold n in Hn, Hlo, Hhi. split; [| split; assumption]. split; [assumption |].
  assert (H : 10 ^ (n + 1) < 10 ^ 16).
  { fold Q in nearest. assert (0 < 10 ^ (n + 1)) by (apply Z.pow_pos_nonneg; lia). nia. }
  apply Z.pow_lt_mono_r_iff in H; lia.
Qed.

(** A candidate that converts to [x] is the amount itself. *)
Lemma candidate_is_amount (s k : Z) :
  0 < s -> k <= n + 2 ->
  convertsTo (Finite false m e) s n k = true ->
  s * 10 ^ (n + 2 - k) = N.
Proof.
  intros Hs Hk Hconv. pose proof Q_large as HQ. fold Q in nearest.
  unfold convertsTo in Hconv. unfold mulPow in Hconv.
  destruct (Z.leb_spec 0 (n - k)) as [Hnk | Hnk].
  - apply eqb_eq in Hconv.
    assert (HT : 0 < 10 ^ (n - k)) by (apply Z.pow_pos_nonneg; lia).
    destruct (roundRational_error false false (s * 10 ^ (n - k)) 1 m e
                ltac:(nia) ltac:(lia) Hconv ltac:(lia)) as (_ & _ & Herr).
    fold Q in Herr.
    replace (n + 2 - k) with (2 + (n - k)) by lia.
    rewrite Z.pow_add_r by lia. change (10 ^ 2) with 100.
    remember (10 ^ (n - k)) as T. nia.
  - apply eqb_eq in Hconv.
    assert (Hj : k - n = 1 \/ k - n = 2) by lia.
    replace (- (n - k)) with (k - n) in Hconv by lia.
    destruct Hj as [Hj | Hj]; rewrite Hj in Hconv.
    + change (1 * 10 ^ 1) with 10 in Hconv.
      destruct (roundRational_error false false s 10 m e Hs ltac:(lia) Hconv ltac:(lia))
        as (_ & _ & Herr).
      fold Q in Herr. replace (n + 2 - k) with 1 by lia. change (10 ^ 1) with 10. nia.
    + change (1 * 10 ^ 2) with 100 in Hconv.
      destruct (roundRational_error false false s 100 m e Hs ltac:(lia) Hconv ltac:(lia))
        as (_ & _ & Herr).
      fold Q in Herr. replace (n + 2 - k) with 0 by lia. change (10 ^ 0) with 1. nia.
Qed.

(** With two more digits than [n] the amount is a candidate. *)
Lemma amount_is_candidate :
  exists s, digitsAt (Finite false m e) m Q n (n + 2) = Some s.
Proof.
  pose proof Q_large as HQ. fold Q in nearest.
  apply (digitsAt_found _ _ _ _ _ N).
  - replace (n + 2 - n) with 2 by lia.
    change (mulPow 10 m Q 2) with (m * 100, Q). cbn [fst snd].
    assert (H1 : N - 1 <= m * 100 / Q) by (apply Z.div_le_lower_bound; nia).
    assert (H2 : m * 100 / Q < N + 1) by (apply Z.div_lt_upper_bound; nia).
    lia.
  - unfold convertsTo. replace (n - (n + 2)) with (-2) by lia.
    change (mulPow 10 N 1 (-2)) with (N, 1 * 100). cbv iota.
    change (1 * 100) with 100. rewrite rounded. apply eqb_refl.
Qed.

(** The floor of [x * 10^(k - n)] has [k] digits. *)
Lemma floor_magnitude (k : Z) :
  1 <= k ->
  10 ^ (k - 1) <= fst (mulPow 10 m Q (k - n)) / snd (mulPow 10 m Q (k - n)) < 10 ^ k.
Proof.
  intros Hk. pose proof Q_large as HQ.
  destruct magnitude as (Hn & Hlo & Hhi).
  assert (HU : 0 < 10 ^ (n + 1)) by (apply Z.pow_pos_nonneg; lia).
  replace (n + 2) with (1 + (n + 1)) in Hhi by lia.
  rewrite Z.pow_add_r in Hhi by lia. change (10 ^ 1) with 10 in Hhi.
  assert (HW : 0 < 10 ^ (k - 1)) by (apply Z.pow_pos_nonneg; lia).
  assert (HK : 10 ^ k = 10 * 10 ^ (k - 1)).
  { replace k with (1 + (k - 1)) at 1 by lia. rewrite Z.pow_add_r by lia. reflexivity. }
  unfold mulPow. destruct (Z.leb_spec 0 (k - n)) as [Hkn | Hkn]; cbn [fst snd].
  - assert (HJ : 0 < 10 ^ (k - n)) by (apply Z.pow_pos_nonneg; lia).
    assert (HUJ : 10 ^ (n + 1) * 10 ^ (k - n) = 100 * 10 ^ (k - 1)).
    { rewrite <- Z.pow_add_r by lia. replace (n + 1 + (k - n)) with (2 + (k - 1)) by lia.
      rewrite Z.pow_add_r by lia. reflexivity. }
    rewrite HK.
    remember (10 ^ (n + 1)) as U. remember (10 ^ (k - n)) as J. remember (10 ^ (k - 1)) as W.
    split.
    + apply Z.div_le_lower_bound; [lia |]. nia.
    + apply Z.div_lt_upper_bound; [lia |]. nia.
  - assert (HJ : 0 < 10 ^ (- (k - n))) by (apply Z.pow_pos_nonneg; lia).
    assert (HUJ : 100 * (10 ^ (k - 1) * 10 ^ (- (k - n))) = 10 ^ (n + 1)).
    { rewrite <- Z.pow_add_r by lia. replace (k - 1 + - (k - n)) with (n - 1) by lia.
      replace (n + 1) with (2 + (n - 1)) by lia. rewrite Z.pow_add_r by lia. reflexivity. }
    rewrite HK.
    remember (10 ^ (n + 1)) as U. remember (10 ^ (- (k - n))) as J.
    remember (10 ^ (k - 1)) as W.
    split.
    + apply Z.div_le_lower_bound; [lia |]. nia.
    + apply Z.div_lt_upper_bound; [lia |]. nia.
Qed.

(** The digits [toString] prints are the digits of the amount. *)
Lemma shortestDigits_amount :
  exists s k n',
    shortestDigits m e = (s, k, n')
    /\ 1 <= k <= n' + 2
    /\ 10 ^ (k - 1) <= s < 10 ^ k
    /\ s * 10 ^ (n' + 2 - k) = N.
Proof.
  destruct magnitude as (Hn & _).
  destruct amount_is_candidate as [s0 Hs0].
  destruct (shortestFrom_first 17 (Finite false m e) m Q n 1 (n + 2) s0 ltac:(lia) Hs0)
    as (s & k & Hsearch & Hk & Hd).
  apply digitsAt_Some in Hd as [Hs Hconv].
  pose proof (floor_magnitude k ltac:(lia)) as Hfl.
  assert (HW : 0 < 10 ^ (k - 1)) by (apply Z.pow_pos_nonneg; lia).
  pose proof (candidate_is_amount s k ltac:(lia) ltac:(lia) Hconv) as Hamount.
  unfold shortestDigits. cbv zeta.
  assert (Hpq : mulPow 2 m 1 e = (m, Q)).
  { unfold mulPow. destruct (Z.leb_spec 0 e); [lia |]. unfold Q. rewrite Z.mul_1_l. reflexivity. }
  rewrite Hpq. fold n. rewrite Hsearch.
  destruct (Z.eqb_spec s (10 ^ k)) as [Heq | Hne].
  - exists (10 ^ (k - 1)), k, (n + 1). split; [reflexivity |].
    assert (HK : 10 ^ k = 10 * 10 ^ (k - 1)).
    { replace k with (1 + (k - 1)) at 1 by lia. rewrite Z.pow_add_r by lia. reflexivity. }
    split; [lia |]. split; [lia |].
    rewrite <- Hamount, Heq, HK.
    replace (n + 1 + 2 - k) with (1 + (n + 2 - k)) by lia.
    rewrite Z.pow_add_r by lia. change (10 ^ 1) with 10. ring.
  - exists s, k, n. split; [reflexivity |]. split; [lia |]. split; [lia | assumption].
Qed.

End Hundredths.

(** * The text of an amount *)

Section MoneyText.

Import Js JsNumber JsValue Money.

(** A string that starts with a digit carries no sign. *)
Lemma matchMoney_digit (c : ascii) (r : string) :
  isDigit c = true ->
  matchMoney (String c r)
  = let '(intDigits, rest) := spanDigits (String c r) in
    if isEmpty intDigits then None
    else
      match rest with
      | EmptyString => Some (EmptyString, intDigits, None)
      | String "."%char r' =>
          let '(fracDigits, rest') := spanDigits r' in
          if isEmpty fracDigits then None
          else if isEmpty rest' then Some (EmptyString, intDigits, Some fracDigits)
          else None
      | _ => None
      end.
Proof.
  intros H.
  destruct c as [[] [] [] [] [] [] [] []]; vm_compute in H; try discriminate H; reflexivity.
Qed.

Lemma ofDecimalText_digit (c : ascii) (r : string) :
  isDigit c = true ->
  ofDecimalText (String c r)
  = let '(intDigits, rest) := spanDigits (String c r) in
    let '(fracDigits, rest) :=
      match rest with
      | String "."%char r' => spanDigits r'
      | _ => (EmptyString, rest)
      end in
    if isEmpty rest && negb (isEmpty intDigits && isEmpty fracDigits) then
      roundRational false
        (digitsValue (intDigits ++ fracDigits))
        (10 ^ Z.of_nat (String.length fracDigits))
    else NaN.
Proof.
  intros H.
  destruct c as [[] [] [] [] [] [] [] []]; vm_compute in H; try discriminate H; reflexivity.
Qed.

Lemma isDigit_not_whiteSpace (c : ascii) : isDigit c = true -> isWhiteSpace c = false.
Proof.
  intros H.
  destruct c as [[] [] [] [] [] [] [] []]; vm_compute in H; try discriminate H; reflexivity.
Qed.

Lemma spanDigits_app (i rest : string) :
  allDigits i = true ->
  match rest with
  | EmptyString => True
  | String c _ => isDigit c = false
  end ->
  spanDigits (i ++ rest) = (i, rest).
Proof.
  intros Hi Hrest. induction i as [| c i IH].
  - rewrite append_Empty. destruct rest as [| c r]; [reflexivity |].
    cbn [spanDigits]. rewrite Hrest. reflexivity.
  - cbn [allDigits] in Hi. apply andb_prop in Hi as [Hc Hi].
    rewrite append_String. cbn [spanDigits]. rewrite Hc, (IH Hi). reflexivity.
Qed.

Lemma spanDigits_all (i : string) : allDigits i = true -> spanDigits i = (i, EmptyString).
Proof.
  intros Hi. rewrite <- (append_Empty_r i) at 1. apply spanDigits_app; [assumption | exact I].
Qed.

Lemma removeWhiteSpace_digits (s : string) : allDigits s = true -> removeWhiteSpace s = s.
Proof.
  induction s as [| c s IH]; [reflexivity |]. cbn [allDigits removeWhiteSpace].
  intros H. apply andb_prop in H as [Hc Hs].
  rewrite (isDigit_not_whiteSpace c Hc), (IH Hs). reflexivity.
Qed.

(** [MONEY_RE] on an integer text and on a decimal text. *)
Lemma matchMoney_integer (negative : bool) (i : string) :
  allDigits i = true -> i <> EmptyString ->
  matchMoney ((if negative then "-" else EmptyString) ++ i)
  = Some ((if negative then "-" else EmptyString)%string, i, None).
Proof.
  intros Hi Hne.
  assert (Hbody : (let '(intDigits, rest) := spanDigits i in
                   if isEmpty intDigits then None
                   else
                     match rest with
                     | EmptyString => Some (EmptyString, intDigits, None)
                     | String "."%char r' =>
                         let '(fracDigits, rest') := spanDigits r' in
                         if isEmpty fracDigits then None
                         else if isEmpty rest' then Some (EmptyString, intDigits, Some fracDigits)
                         else None
                     | _ => None
                     end) = Some (EmptyString, i, @None string)).
  { rewrite (spanDigits_all i Hi). destruct i; [congruence | reflexivity]. }
  destruct negative.
  - rewrite append_String, append_Empty. unfold matchMoney.
    rewrite (spanDigits_all i Hi). destruct i; [congruence | reflexivity].
  - rewrite append_Empty. destruct i as [| c r]; [congruence |].
    cbn [allDigits] in Hi. apply andb_prop in Hi as [Hc _].
    rewrite (matchMoney_digit c r Hc). exact Hbody.
Qed.

Lemma matchMoney_decimal (negative : bool) (i f : string) :
  allDigits i = true -> i <> EmptyString ->
  allDigits f = true -> f <> EmptyString ->
  matchMoney ((if negative then "-" else EmptyString) ++ i ++ "." ++ f)
  = Some ((if negative then "-" else EmptyString)%string, i, Some f).
Proof.
  intros Hi Hne Hf Hfne.
  assert (Hspan : spanDigits (i ++ "." ++ f) = (i, String "."%char f)).
  { apply spanDigits_app; [assumption | reflexivity]. }
  destruct negative.
  - rewrite append_String, append_Empty. unfold matchMoney.
    rewrite Hspan. destruct i; [congruence |]. cbn [isEmpty].
    rewrite (spanDigits_all f Hf). destruct f; [congruence | reflexivity].
  - rewrite append_Empty. destruct i as [| c r]; [congruence |].
    pose proof Hi as Hi'. cbn [allDigits] in Hi'. apply andb_prop in Hi' as [Hc _].
    rewrite append_String in *. rewrite (matchMoney_digit c _ Hc).
    rewrite Hspan. cbn [isEmpty].
    rewrite (spanDigits_all f Hf). destruct f; [congruence | reflexivity].
Qed.

(** The minor units of an integer text and of a text with one or two
    decimals. *)
Lemma moneyOfMatch_integer (negative : bool) (i : string) :
  moneyOfMatch ((if negative then "-" else EmptyString)%string, i, None)
  = (if negative then -1 else 1) * (digitsValue i * 100).
Proof. destruct negative; cbn; f_equal; lia. Qed.

Lemma moneyOfMatch_decimal (negative : bool) (i f : string) :
  allDigits f = true ->
  (1 <= String.length f <= 2)%nat ->
  moneyOfMatch ((if negative then "-" else EmptyString)%string, i, Some f)
  = (if negative then -1 else 1)
    * (digitsValue i * 100 + digitsValue f * 10 ^ (2 - Z.of_nat (String.length f))).
Proof.
  intros Hf Hlen. unfold moneyOfMatch.
  rewrite (removeWhiteSpace_digits f Hf).
  assert (Hsign : (if String.eqb (if negative then "-" else EmptyString) "-" then -1 else 1)
                  = (if negative then -1 else 1)) by (destruct negative; reflexivity).
  rewrite Hsign. f_equal.
  destruct f as [| c1 [| c2 [| c3 f]]]; cbn [String.length] in Hlen; try lia.
  - cbn [allDigits] in Hf. apply andb_prop in Hf as [H1 _].
    pose proof (isDigit_bounds c1 H1) as B1.
    unfold fracDigit. cbn [String.get String.length].
    change (digitsValue (String c1 EmptyString)) with (10 * 0 + digitValue c1).
    change (2 - Z.of_nat 1) with 1. change (10 ^ 1) with 10.
    change (0 >=? 5) with false. cbv iota.
    destruct (Z.geb_spec (digitValue c1 * 10 + 0) 100); [lia |]. lia.
  - cbn [allDigits] in Hf. apply andb_prop in Hf as [H1 Hf].
    apply andb_prop in Hf as [H2 _].
    pose proof (isDigit_bounds c1 H1) as B1. pose proof (isDigit_bounds c2 H2) as B2.
    unfold fracDigit. cbn [String.get String.length].
    change (digitsValue (String c1 (String c2 EmptyString)))
      with (10 * (10 * 0 + digitValue c1) + digitValue c2).
    change (2 - Z.of_nat 2) with 0. change (10 ^ 0) with 1.
    change (0 >=? 5) with false. cbv iota.
    destruct (Z.geb_spec (digitValue c1 * 10 + digitValue c2) 100); [lia |]. lia.
Qed.

(** *** Pieces of a digit string *)

Lemma takeStr_dropStr (n : nat) (s : string) : (takeStr n s ++ dropStr n s)%string = s.
Proof.
  revert s. induction n as [| n IH]; intros s; [destruct s; reflexivity |].
  destruct s as [| c s]; [reflexivity |]. cbn [takeStr dropStr].
  rewrite append_String, IH. reflexivity.
Qed.

Lemma takeStr_length (n : nat) (s : string) :
  (n <= String.length s)%nat -> String.length (takeStr n s) = n.
Proof.
  revert s. induction n as [| n IH]; intros s Hn; [destruct s; reflexivity |].
  destruct s as [| c s]; cbn [String.length] in *; [lia |].
  cbn [takeStr String.length]. rewrite IH; lia.
Qed.

Lemma dropStr_length (n : nat) (s : string) :
  String.length (dropStr n s) = (String.length s - n)%nat.
Proof.
  revert s. induction n as [| n IH]; intros s; [destruct s; cbn; lia |].
  destruct s as [| c s]; [reflexivity |]. cbn [dropStr String.length]. rewrite IH. lia.
Qed.

Lemma digitsValue_app (s1 s2 : string) :
  digitsValue (s1 ++ s2)
  = digitsValue s1 * 10 ^ Z.of_nat (String.length s2) + digitsValue s2.
Proof.
  unfold digitsValue. rewrite digitsValueFrom_app, digitsValueFrom_shift. reflexivity.
Qed.

Lemma repeatChar_zero (j : nat) :
  allDigits (repeatChar j "0") = true
  /\ digitsValue (repeatChar j "0") = 0
  /\ String.length (repeatChar j "0") = j.
Proof.
  induction j as [| j (IH1 & IH2 & IH3)]; [repeat split |].
  cbn [repeatChar allDigits String.length]. rewrite IH1, IH3.
  split; [reflexivity |]. split; [| reflexivity].
  change (String "0" (repeatChar j "0")) with ("0" ++ repeatChar j "0")%string.
  rewrite digitsValue_app, IH2. reflexivity.
Qed.

Lemma nonempty_length (s : string) : (1 <= String.length s)%nat -> s <> EmptyString.
Proof. destruct s; cbn; [lia | discriminate]. Qed.

(** *** Printing and reading back *)

(** The text [toString] builds from the digits of an amount with at most
    two decimals reads back as the amount. *)
Lemma formatDigits_parse (negative : bool) (s k n N : Z) :
  1 <= k <= n + 2 ->
  10 ^ (k - 1) <= s < 10 ^ k ->
  s * 10 ^ (n + 2 - k) = N ->
  N < 10 ^ 16 ->
  exists matched,
    matchMoney ((if negative then "-" else EmptyString) ++ formatDigits s k n) = Some matched
    /\ moneyOfMatch matched = (if negative then -1 else 1) * N.
Proof.
  intros Hk Hs HN Hsmall.
  assert (HW : 0 < 10 ^ (k - 1)) by (apply Z.pow_pos_nonneg; lia).
  assert (Hn : n <= 14).
  { assert (H : 10 ^ (n + 1) < 10 ^ 16).
    { replace (n + 1) with (k - 1 + (n + 2 - k)) by lia. rewrite Z.pow_add_r by lia.
      assert (0 < 10 ^ (n + 2 - k)) by (apply Z.pow_pos_nonneg; lia). nia. }
    apply Z.pow_lt_mono_r_iff in H; lia. }
  pose proof (natDigits_allDigits s ltac:(lia)) as Hall.
  pose proof (digitsValue_natDigits s ltac:(lia)) as Hval.
  pose proof (natDigits_length_eq s k ltac:(lia) Hs) as Hlen.
  unfold formatDigits. cbv zeta.
  set (digits := natDigits s) in *.
  destruct (Z.leb_spec k n) as [Hkn | Hkn].
  - destruct (Z.leb_spec n 21) as [_ |]; [| lia]. cbn [andb].
    destruct (repeatChar_zero (Z.to_nat (n - k))) as (Hz1 & Hz2 & Hz3).
    set (zeros := repeatChar (Z.to_nat (n - k)) "0") in *.
    exists ((if negative then "-" else EmptyString)%string, (digits ++ zeros)%string, None).
    split.
    + apply matchMoney_integer.
      * rewrite allDigits_app, Hall, Hz1. reflexivity.
      * apply nonempty_length. rewrite length_app_string. lia.
    + rewrite moneyOfMatch_integer, digitsValue_app, Hval, Hz2, Hz3. f_equal.
      rewrite Z2Nat.id by lia. rewrite <- HN.
      replace (n + 2 - k) with (n - k + 2) by lia. rewrite Z.pow_add_r by lia.
      change (10 ^ 2) with 100. ring.
  - cbn [andb]. destruct (Z.ltb_spec 0 n) as [Hpos | Hneg].
    + destruct (Z.leb_spec n 21) as [_ |]; [| lia]. cbn [andb].
      set (i := takeStr (Z.to_nat n) digits).
      set (f := dropStr (Z.to_nat n) digits).
      assert (Hsplit : (i ++ f)%string = digits) by apply takeStr_dropStr.
      assert (Hli : String.length i = Z.to_nat n) by (apply takeStr_length; lia).
      assert (Hlf : Z.of_nat (String.length f) = k - n).
      { unfold f. rewrite dropStr_length. lia. }
      assert (Hparts : allDigits i = true /\ allDigits f = true).
      { apply andb_prop. rewrite <- allDigits_app, Hsplit. assumption. }
      destruct Hparts as [Hi Hf].
      exists ((if negative then "-" else EmptyString)%string, i, Some f). split.
      * apply matchMoney_decimal; [assumption | | assumption |]; apply nonempty_length; lia.
      * rewrite moneyOfMatch_decimal by (assumption || lia). f_equal.
        rewrite <- HN, <- Hval, <- Hsplit, digitsValue_app, Hlf.
        replace (2 - (k - n)) with (n + 2 - k) by lia.
        rewrite Z.mul_add_distr_r, <- Z.mul_assoc, <- Z.pow_add_r by lia.
        replace (k - n + (n + 2 - k)) with 2 by lia. reflexivity.
    + destruct (Z.ltb_spec (-6) n) as [_ |]; [| lia].
      destruct (Z.leb_spec n 0) as [_ |]; [| lia]. cbn [andb].
      destruct (repeatChar_zero (Z.to_nat (- n))) as (Hz1 & Hz2 & Hz3).
      set (zeros := repeatChar (Z.to_nat (- n)) "0") in *.
      exists ((if negative then "-" else EmptyString)%string, "0"%string, Some (zeros ++ digits)%string).
      assert (Hlf : Z.of_nat (String.length (zeros ++ digits)) = k - n).
      { rewrite length_app_string. lia. }
      split.
      * change ("0." ++ zeros ++ digits)%string
          with ("0" ++ "." ++ (zeros ++ digits))%string.
        apply matchMoney_decimal; [reflexivity | discriminate | |].
        -- rewrite allDigits_app, Hz1, Hall. reflexivity.
        -- apply nonempty_length. lia.
      * rewrite moneyOfMatch_decimal.
        -- f_equal. rewrite Hlf, digitsValue_app, Hz2, Hval.
           change (digitsValue "0") with 0. rewrite <- HN.
           replace (2 - (k - n)) with (n + 2 - k) by lia. ring.
        -- rewrite allDigits_app, Hz1, Hall. reflexivity.
        -- lia.
Qed.

(** The sign does not change the digits of the nearest Number. *)
Lemma roundRational_negative (negative : bool) (p q m e : Z) :
  roundRational false p q = Finite false m e ->
  roundRational negative p q = Finite negative m e.
Proof.
  unfold roundRational. destruct (p =? 0); [intros [= <- <-]; reflexivity |].
  destruct (mulPow 2 p q _) as [a b].
  destruct (roundHalfEven a b =? 2 ^ 53).
  - destruct (971 <? _); [discriminate |].
    destruct (2 ^ 52 =? 0); intros [= <- <-]; reflexivity.
  - destruct (971 <? _); [discriminate |].
    destruct (roundHalfEven a b =? 0); intros [= <- <-]; reflexivity.
Qed.

(** Two digits for the paise. *)
Lemma padStart_paise (frac : Z) :
  0 <= frac < 100 ->
  allDigits (padStart (intToString frac) 2 "0") = true
  /\ String.length (padStart (intToString frac) 2 "0") = 2%nat
  /\ digitsValue (padStart (intToString frac) 2 "0") = frac.
Proof.
  intros Hf. rewrite intToString_nonneg by lia.
  pose proof (natDigits_allDigits frac ltac:(lia)) as Hall.
  pose proof (digitsValue_natDigits frac ltac:(lia)) as Hval.
  destruct (Z.lt_ge_cases frac 10) as [Hsmall | Hlarge].
  - rewrite natDigits_small in * by assumption. unfold padStart.
    cbn [String.length Nat.sub repeatChar].
    change ("0" ++ String (digitChar frac) EmptyString)%string
      with (String "0" (String (digitChar frac) EmptyString)).
    cbn [allDigits] in *. split; [exact Hall |]. split; [reflexivity |].
    unfold digitsValue in *. cbn [digitsValueFrom] in *.
    change (digitValue "0") with 0. lia.
  - assert (Hlen : String.length (natDigits frac) = 2%nat).
    { rewrite natDigits_large by assumption.
      rewrite length_app_string, natDigits_small.
      - reflexivity.
      - apply Z.div_lt_upper_bound; lia. }
    unfold padStart. rewrite Hlen. cbn [Nat.sub repeatChar]. rewrite append_Empty.
    auto.
Qed.

(** The text of [moneyToFixed2] denotes [|paise| / 100]. *)
Lemma moneyToFixed2_value (paise : Z) :
  moneyToFixed2 paise = roundRational (paise <? 0) (Z.abs paise) 100.
Proof.
  unfold moneyToFixed2, fixed2Text. cbv zeta.
  set (abs := if paise <? 0 then - paise else paise).
  assert (Habs : abs = Z.abs paise) by (unfold abs; destruct (Z.ltb_spec paise 0); lia).
  assert (Hnn : 0 <= abs) by lia.
  rewrite (Z.quot_div_nonneg abs 100), (Z.rem_mod_nonneg abs 100) by lia.
  pose proof (Z.div_mod abs 100 ltac:(lia)) as Hdm.
  pose proof (Z.mod_pos_bound abs 100 ltac:(lia)) as Hmod.
  assert (Hwhole : 0 <= abs / 100) by (apply Z.div_pos; lia).
  rewrite (intToString_nonneg (abs / 100)) by assumption.
  destruct (padStart_paise (abs mod 100) Hmod) as (Hf1 & Hf2 & Hf3).
  set (f := padStart (intToString (abs mod 100)) 2 "0") in *.
  pose proof (natDigits_allDigits (abs / 100) Hwhole) as Hi1.
  pose proof (digitsValue_natDigits (abs / 100) Hwhole) as Hi2.
  assert (Hi3 : natDigits (abs / 100) <> EmptyString).
  { rewrite natDigits_unfold. destruct (abs / 100 <? 10); [discriminate |].
    destruct (natDigits (abs / 100 / 10)); discriminate. }
  set (i := natDigits (abs / 100)) in *.
  assert (Hspan : spanDigits (i ++ "." ++ f) = (i, String "."%char f)).
  { apply spanDigits_app; [assumption | reflexivity]. }
  assert (Hvalue : digitsValue (i ++ f) = Z.abs paise).
  { rewrite digitsValue_app, Hf2, Hi2, Hf3. change (10 ^ Z.of_nat 2) with 100. lia. }
  rewrite <- Habs in *.
  destruct (paise <? 0).
  - rewrite append_String, append_Empty. unfold ofDecimalText.
    rewrite Hspan, (spanDigits_all f Hf1). cbn [isEmpty andb].
    destruct i; [congruence |]. cbn [isEmpty andb negb].
    rewrite Hvalue, Hf2. reflexivity.
  - rewrite append_Empty. destruct i as [| c r] eqn:Hieq; [congruence |].
    pose proof Hi1 as Hc. cbn [allDigits] in Hc. apply andb_prop in Hc as [Hc _].
    pose proof (ofDecimalText_digit c (r ++ "." ++ f)%string Hc) as Hd.
    change (String c (r ++ "." ++ f)) with (String c r ++ "." ++ f)%string in Hd.
    rewrite Hd, Hspan, (spanDigits_all f Hf1). cbn [isEmpty andb negb].
    rewrite Hvalue, Hf2. reflexivity.
Qed.

End MoneyText.

(** * The display value of an amount *)

Section Display.

Import Js JsNumber JsValue Money.

(** C8, as stated, fails: the display value is a binary64 Number, and
    above [2^46] whole units two neighbouring amounts share one Number. *)
Lemma display_merges_large_amounts :
  parseMoney (JStr "70368744177664.01") = Ok 7036874417766401
  /\ toString (moneyToFixed2 7036874417766401) = "70368744177664.02"%string
  /\ parseMoney (JNum (moneyToFixed2 7036874417766401)) = Ok 7036874417766402.
Proof. repeat split; vm_compute; reflexivity. Qed.

(** C8 (amended): for every amount [A] that [parseMoney] accepts and whose
    minor units are at most [2^46 * 100] in absolute value, parsing the
    display value gives the minor units of [A] again.  The display value
    is the Number nearest to [N / 100]; its last place is finer than one
    hundredth, so [N / 100] is the shortest decimal that converts to it,
    and [toString] prints it with at most two decimals. *)
Theorem display_reads_back_below_limit (raw : value) (paise : Z) :
  parseMoney raw = Ok paise ->
  Z.abs paise <= displayLimit ->
  parseMoney (JNum (moneyToFixed2 paise)) = parseMoney raw.
Proof.
  intros Hparse Hlimit. rewrite Hparse. clear raw Hparse.
  unfold displayLimit in Hlimit.
  change (2 ^ 46 * 100) with 7036874417766400 in Hlimit.
  destruct (Z.eq_dec paise 0) as [-> | H0]; [vm_compute; reflexivity |].
  destruct (Z.eq_dec paise 1) as [-> | H1]; [vm_compute; reflexivity |].
  destruct (Z.eq_dec paise (-1)) as [-> | H1']; [vm_compute; reflexivity |].
  destruct (Z.eq_dec paise 7036874417766400) as [-> | H2]; [vm_compute; reflexivity |].
  destruct (Z.eq_dec paise (-7036874417766400)) as [-> | H2']; [vm_compute; reflexivity |].
  rewrite moneyToFixed2_value.
  set (N := Z.abs paise) in *.
  assert (HN : 2 <= N < 2 ^ 46 * 100).
  { change (2 ^ 46 * 100) with 7036874417766400. lia. }
  destruct (roundRational_hundredths false N HN) as (m & e & Hx & He & Hm & Herr).
  rewrite (roundRational_negative (paise <? 0) N 100 m e Hx).
  assert (Hsmall : N < 10 ^ 16).
  { change (10 ^ 16) with 10000000000000000. lia. }
  destruct (shortestDigits_amount N m e ltac:(lia) Hsmall He Hm Herr Hx)
    as (s & k & n & Hdigits & Hk & Hs & Hamount).
  destruct (formatDigits_parse (paise <? 0) s k n N Hk Hs Hamount Hsmall)
    as (matched & Hmatch & Hmoney).
  unfold parseMoney, normalizeMoneyInput. cbn [isFinite bind]. unfold toString.
  destruct (Z.eqb_spec m 0) as [| _]; [lia |].
  rewrite Hdigits, Hmatch, Hmoney. f_equal.
  unfold N. destruct (Z.ltb_spec paise 0); lia.
Qed.

Lemma display_reads_back_below_limit_witness :
  parseMoney (JStr "1234.5") = Ok 123450
  /\ parseMoney (JNum (moneyToFixed2 123450)) = parseMoney (JStr "1234.5").
Proof.
  split; [reflexivity |].
  apply (display_reads_back_below_limit (JStr "1234.5") 123450).
  - reflexivity.
  - unfold displayLimit. vm_compute. discriminate.
Defined.

End Display.

(** * Records: what parsing builds and what it rejects *)

Section Records.

Import Js JsNumber JsValue Money Engine.

(** Up to [displayLimit] the display value of an amount reads back as the
    amount. *)
Lemma moneyToFixed2_reads_back (paise : Z) :
  Z.abs paise <= displayLimit ->
  parseMoney (JNum (moneyToFixed2 paise)) = Ok paise.
Proof.
  intros Hlimit. unfold displayLimit in Hlimit.
  change (2 ^ 46 * 100) with 7036874417766400 in Hlimit.
  destruct (Z.eq_dec paise 0) as [-> | H0]; [vm_compute; reflexivity |].
  destruct (Z.eq_dec paise 1) as [-> | H1]; [vm_compute; reflexivity |].
  destruct (Z.eq_dec paise (-1)) as [-> | H1']; [vm_compute; reflexivity |].
  destruct (Z.eq_dec paise 7036874417766400) as [-> | H2]; [vm_compute; reflexivity |].
  destruct (Z.eq_dec paise (-7036874417766400)) as [-> | H2']; [vm_compute; reflexivity |].
  rewrite moneyToFixed2_value.
  set (N := Z.abs paise) in *.
  assert (HN : 2 <= N < 2 ^ 46 * 100).
  { change (2 ^ 46 * 100) with 7036874417766400. lia. }
  destruct (roundRational_hundredths false N HN) as (m & e & Hx & He & Hm & Herr).
  rewrite (roundRational_negative (paise <? 0) N 100 m e Hx).
  assert (Hsmall : N < 10 ^ 16).
  { change (10 ^ 16) with 10000000000000000. lia. }
  destruct (shortestDigits_amount N m e ltac:(lia) Hsmall He Hm Herr Hx)
    as (s & k & n & Hdigits & Hk & Hs & Hamount).
  destruct (formatDigits_parse (paise <? 0) s k n N Hk Hs Hamount Hsmall)
    as (matched & Hmatch & Hmoney).
  unfold parseMoney, normalizeMoneyInput. cbn [isFinite bind]. unfold toString.
  destruct (Z.eqb_spec m 0) as [| _]; [lia |].
  rewrite Hdigits, Hmatch, Hmoney. f_equal.
  unfold N. destruct (Z.ltb_spec paise 0); lia.
Qed.

Lemma validateMoneyRange_Ok (paise lo hi : Z) (fieldName : string) (u : unit) :
  validateMoneyRange paise lo hi fieldName = Ok u -> lo <= paise < hi.
Proof.
  unfold validateMoneyRange.
  destruct (Z.ltb_spec paise lo); [discriminate |].
  destruct (Z.geb_spec paise hi); [discriminate |]. lia.
Qed.

Lemma validateMoneyRange_in (paise lo hi : Z) (fieldName : string) :
  lo <= paise < hi -> validateMoneyRange paise lo hi fieldName = Ok tt.
Proof.
  intros H. unfold validateMoneyRange.
  destruct (Z.ltb_spec paise lo); [lia |].
  destruct (Z.geb_spec paise hi); [lia |]. reflexivity.
Qed.

Lemma ceilTo100_range (v : Z) :
  0 <= v -> v <= ceilTo100 v < v + 10000 /\ Z.rem (ceilTo100 v) 10000 = 0.
Proof.
  intros Hv. unfold ceilTo100. cbv zeta.
  rewrite Z.rem_mod_nonneg by lia.
  pose proof (Z.mod_pos_bound v 10000 ltac:(lia)) as Hm.
  pose proof (Z.div_mod v 10000 ltac:(lia)) as Hdm.
  destruct (Z.eqb_spec (v mod 10000) 0) as [Hz | Hz].
  - split; [lia |]. rewrite Z.rem_mod_nonneg by lia. assumption.
  - split; [lia |].
    assert (Hge : 0 <= v + (10000 - v mod 10000)) by lia.
    rewrite Z.rem_mod_nonneg by lia.
    replace (v + (10000 - v mod 10000)) with ((v / 10000 + 1) * 10000) by lia.
    apply Z.mod_mul. lia.
Qed.

(** The steps of [parseTransactionInput] on an accepted record. *)
Lemma parseTransactionInput_steps (raw : RawTransaction) (i : nat) (source : string)
    (tx : Transaction) :
  parseTransactionInput raw i source = Ok tx ->
  parseNumericField (raw_amount raw) (indexed source i ++ ".amount") = Ok (amountPaise tx)
  /\ 0 <= amountPaise tx < MAX_AMOUNT_PAISE
  /\ (if isUndefined (raw_ceiling raw) then ceilingPaise tx = ceilTo100 (amountPaise tx)
      else parseNumericField (raw_ceiling raw) (indexed source i ++ ".ceiling")
           = Ok (ceilingPaise tx))
  /\ amountPaise tx <= ceilingPaise tx
  /\ Z.rem (ceilingPaise tx) 10000 = 0.
Proof.
  unfold parseTransactionInput. cbv zeta. intros H.
  apply bind_Ok in H as (ts & Hts & H).
  apply bind_Ok in H as (es & Hes & H).
  apply bind_Ok in H as (am & Ham & H).
  apply bind_Ok in H as (u & Hu & H).
  apply bind_Ok in H as (ce & Hce & H).
  destruct (Z.ltb_spec ce am); [discriminate |].
  destruct (Z.eqb_spec (Z.rem ce 10000) 0) as [Hrem | Hrem]; [| discriminate].
  cbn [negb] in H. injection H as <-.
  cbn [amountPaise ceilingPaise].
  apply validateMoneyRange_Ok in Hu.
  split; [assumption |]. split; [assumption |]. split; [| split; assumption].
  destruct (isUndefined (raw_ceiling raw)); cbn [negb] in Hce.
  - injection Hce as <-. reflexivity.
  - assumption.
Qed.

(** X1: a transaction that [parseTransactionInput] accepts has an amount
    from 0 up to, not including, [MAX_AMOUNT_PAISE], a ceiling that is a
    multiple of 10000 paise and is not below the amount, the remanent
    [ceiling - amount >= 0] as its base and final remanent, and the input
    position as its index; without a declared ceiling the ceiling is the
    amount rounded up and the remanent is below 10000 paise. *)
Theorem accepted_transaction_invariants (raw : RawTransaction) (i : nat) (source : string)
    (tx : Transaction) :
  parseTransactionInput raw i source = Ok tx ->
  0 <= amountPaise tx < MAX_AMOUNT_PAISE
  /\ amountPaise tx <= ceilingPaise tx
  /\ ceilingPaise tx mod 10000 = 0
  /\ remanentBasePaise tx = ceilingPaise tx - amountPaise tx
  /\ 0 <= remanentBasePaise tx
  /\ remanentFinalPaise tx = remanentBasePaise tx
  /\ inputIndex tx = i
  /\ (raw_ceiling raw = JUndefined ->
      ceilingPaise tx = ceilTo100 (amountPaise tx) /\ remanentBasePaise tx < 10000).
Proof.
  intros H.
  destruct (parseTransactionInput_Ok _ _ _ _ H) as (Hfresh & Hidx & Hbase & _ & _).
  destruct (parseTransactionInput_steps _ _ _ _ H) as (_ & Hamount & Hceil & Hle & Hrem).
  split; [assumption |]. split; [assumption |]. split.
  { rewrite <- Z.rem_mod_nonneg; [assumption | lia | lia]. }
  split; [assumption |]. split; [lia |]. split; [exact Hfresh |]. split; [assumption |].
  intros Hu. rewrite Hu in Hceil. cbn [isUndefined] in Hceil.
  split; [assumption |].
  pose proof (ceilTo100_range (amountPaise tx) ltac:(lia)) as [Hr _]. lia.
Qed.

Lemma accepted_transaction_invariants_witness :
  0 <= 25000 < MAX_AMOUNT_PAISE
  /\ 25000 <= 30000
  /\ 30000 mod 10000 = 0
  /\ 5000 = 30000 - 25000
  /\ 0 <= 5000
  /\ 5000 = 5000
  /\ 0%nat = 0%nat
  /\ (raw_ceiling (expenseRecord "2023-10-12 20:15:00" (JNum (ofZ 250))) = JUndefined ->
      30000 = ceilTo100 25000 /\ 5000 < 10000).
Proof.
  apply (accepted_transaction_invariants
           (expenseRecord "2023-10-12 20:15:00" (JNum (ofZ 250))) 0 "transactions"
           (fixtureTransaction "2023-10-12 20:15:00" 1697121900 25000 30000 0)).
  vm_compute. reflexivity.
Defined.

(** [parseNumericField] and the timestamp steps only raise [ApiError]s. *)
Lemma parseNumericField_Err (raw : value) (path : string) (e : error) :
  parseNumericField raw path = Err e -> isApiError e = true.
Proof.
  unfold parseNumericField. destruct (parseMoney raw); [discriminate |].
  intros [= <-]. reflexivity.
Qed.

(** X2: [parseTransactionInput] raises an exception that is not an
    [ApiError] exactly when the timestamp is accepted and the amount is a
    decimal value outside [0, MAX_AMOUNT_PAISE); the exception is then the
    plain [Error] of [validateMoneyRange], which nothing wraps. *)
Theorem plain_error_is_amount_out_of_range (raw : RawTransaction) (i : nat)
    (source : string) :
  ((exists e, parseTransactionInput raw i source = Err e /\ isApiError e = false)
   <-> exists text seconds a,
         getTimestampField raw = Ok text
         /\ Time.parseTimestampToEpochSeconds (JStr text) (indexed source i ++ ".timestamp")
            = Ok seconds
         /\ parseNumericField (raw_amount raw) (indexed source i ++ ".amount") = Ok a
         /\ (a < 0 \/ MAX_AMOUNT_PAISE <= a))
  /\ (forall e,
         parseTransactionInput raw i source = Err e ->
         isApiError e = false ->
         e = PlainError ((indexed source i ++ ".amount") ++ " out of allowed range")).
Proof.
  assert (Hplain : forall e,
             parseTransactionInput raw i source = Err e ->
             isApiError e = false ->
             e = PlainError ((indexed source i ++ ".amount") ++ " out of allowed range")
             /\ exists text seconds a,
                  getTimestampField raw = Ok text
                  /\ Time.parseTimestampToEpochSeconds (JStr text)
                       (indexed source i ++ ".timestamp") = Ok seconds
                  /\ parseNumericField (raw_amount raw) (indexed source i ++ ".amount") = Ok a
                  /\ (a < 0 \/ MAX_AMOUNT_PAISE <= a)).
  { intros e H He. unfold parseTransactionInput in H. cbv zeta in H.
    destruct (getTimestampField raw) as [text | e0] eqn:Ht; cbn [bind] in H;
      [| injection H as <-; discriminate].
    destruct (Time.parseTimestampToEpochSeconds (JStr text) _) as [seconds | e0] eqn:Hs;
      cbn [bind] in H; [| injection H as <-; discriminate].
    destruct (parseNumericField (raw_amount raw) _) as [a | e0] eqn:Ha; cbn [bind] in H.
    2:{ injection H as <-. apply parseNumericField_Err in Ha. congruence. }
    unfold validateMoneyRange in H.
    destruct (Z.ltb_spec a 0) as [Hlo | Hlo]; cbn [orb bind] in H.
    { injection H as <-. split; [reflexivity |]. exists text, seconds, a. auto. }
    destruct (Z.geb_spec a MAX_AMOUNT_PAISE) as [Hhi | Hhi]; cbn [bind] in H.
    { injection H as <-. split; [reflexivity |]. exists text, seconds, a.
      repeat split; try assumption. right. lia. }
    exfalso.
    destruct (isUndefined (raw_ceiling raw)); cbn [negb bind] in H.
    + destruct (_ <? a); [injection H as <-; discriminate |].
      destruct (negb _); [injection H as <-; discriminate | discriminate].
    + destruct (parseNumericField (raw_ceiling raw) _) as [c | e0] eqn:Hc; cbn [bind] in H.
      * destruct (c <? a); [injection H as <-; discriminate |].
        destruct (negb _); [injection H as <-; discriminate | discriminate].
      * injection H as <-. apply parseNumericField_Err in Hc. congruence. }
  split; [split |].
  - intros (e & H & He). exact (proj2 (Hplain e H He)).
  - intros (text & seconds & a & Ht & Hs & Ha & Hrange).
    exists (PlainError ((indexed source i ++ ".amount") ++ " out of allowed range")).
    split; [| reflexivity].
    unfold parseTransactionInput. cbv zeta. rewrite Ht. cbn [bind]. rewrite Hs. cbn [bind].
    rewrite Ha. cbn [bind]. unfold validateMoneyRange.
    assert (Hout : (a <? 0) || (a >=? MAX_AMOUNT_PAISE) = true).
    { apply orb_true_iff. destruct Hrange as [Hlo | Hhi].
      - left. apply Z.ltb_lt. assumption.
      - right. apply Z.geb_le. assumption. }
    rewrite Hout. reflexivity.
  - intros e H He. exact (proj1 (Hplain e H He)).
Qed.

(** An amount of 500000 rupees, the first one out of range. *)
Lemma plain_error_is_amount_out_of_range_witness :
  parseTransactionInput (rawRecord "2023-01-02 00:00:00" 500000 500000 0) 1 "transactions"
  = Err (PlainError "transactions[1].amount out of allowed range")
  /\ parseNumericField (JNum (ofZ 500000)) "transactions[1].amount" = Ok MAX_AMOUNT_PAISE.
Proof.
  destruct (plain_error_is_amount_out_of_range
              (rawRecord "2023-01-02 00:00:00" 500000 500000 0) 1 "transactions")
    as [[_ Hout] Hform].
  destruct Hout as (e & He & Hplain).
  { exists "2023-01-02 00:00:00"%string, 1672597800, 50000000.
    split; [reflexivity |]. split; [vm_compute; reflexivity |].
    split; [vm_compute; reflexivity |]. right. vm_compute. discriminate. }
  split; [| vm_compute; reflexivity].
  rewrite He. f_equal. exact (Hform e He Hplain).
Defined.

(** *** The loops, piece by piece *)

Lemma filteringLoop_app (pre rest : list RawTransaction) (i : nat) (st : Filtering) :
  filteringLoop (pre ++ rest) i st
  = bind (filteringLoop pre i st) (fun st' => filteringLoop rest (i + length pre) st').
Proof.
  revert i st. induction pre as [| raw pre IH]; intros i st.
  - cbn. rewrite Nat.add_0_r. reflexivity.
  - cbn [app filteringLoop length].
    replace (i + S (length pre))%nat with (S i + length pre)%nat by lia.
    destruct (parseTransactionInput raw i "transactions") as [tx | e].
    + destruct (f_seen st !! timestamp tx); apply IH.
    + destruct (isApiError e); [apply IH | reflexivity].
Qed.

Lemma validationLoop_app (pre rest : list RawTransaction) (i : nat) (st : Validation) :
  validationLoop (pre ++ rest) i st
  = bind (validationLoop pre i st) (fun st' => validationLoop rest (i + length pre) st').
Proof.
  revert i st. induction pre as [| raw pre IH]; intros i st.
  - cbn. rewrite Nat.add_0_r. reflexivity.
  - cbn [app validationLoop length].
    replace (i + S (length pre))%nat with (S i + length pre)%nat by lia.
    destruct (parseTransactionInput raw i "transactions") as [tx | e].
    + cbv zeta. destruct (v_seen st !! timestamp tx); [apply IH |].
      destruct (if negb (isUndefined (raw_remanent raw)) then _ else _) as [mismatch | e];
        cbn [bind]; [| reflexivity].
      destruct mismatch; apply IH.
    + destruct (isApiError e); [apply IH | reflexivity].
Qed.

(** X3: a record that raises an exception that is not an [ApiError] (an
    amount out of range) is not reported as invalid: if the records before
    it are processed, the loop of the filter path and the loop of the
    validator both end with that exception, whatever follows. *)
Theorem plain_error_aborts_the_batch (raws : list RawTransaction) (k : nat)
    (raw : RawTransaction) (e : error) :
  raws !! k = Some raw ->
  parseTransactionInput raw k "transactions" = Err e ->
  isApiError e = false ->
  (forall st, filteringLoop (take k raws) 0 initialFiltering = Ok st ->
              filteringLoop raws 0 initialFiltering = Err e)
  /\ (forall st, validationLoop (take k raws) 0 initialValidation = Ok st ->
                 validationLoop raws 0 initialValidation = Err e).
Proof.
  intros Hraw Hp He.
  assert (Hlen : length (take k raws) = k).
  { rewrite length_take. apply lookup_lt_Some in Hraw. lia. }
  assert (Hsplit : raws = take k raws ++ raw :: drop (S k) raws).
  { rewrite <- (take_drop_middle raws k raw Hraw) at 1. reflexivity. }
  split; intros st Hst; rewrite Hsplit.
  - rewrite filteringLoop_app, Hst. cbn [bind]. rewrite Hlen. cbn [Nat.add filteringLoop].
    rewrite Hp, He. reflexivity.
  - rewrite validationLoop_app, Hst. cbn [bind]. rewrite Hlen. cbn [Nat.add validationLoop].
    rewrite Hp, He. reflexivity.
Qed.

Lemma plain_error_aborts_the_batch_witness :
  filteringLoop
    [ rawRecord "2023-01-01 00:00:00" 250 300 50; rawRecord "2023-01-02 00:00:00" 500000 500000 0 ]
    0 initialFiltering
  = Err (PlainError "transactions[1].amount out of allowed range")
  /\ validationLoop
       [ rawRecord "2023-01-01 00:00:00" 250 300 50;
         rawRecord "2023-01-02 00:00:00" 500000 500000 0 ]
       0 initialValidation
     = Err (PlainError "transactions[1].amount out of allowed range").
Proof.
  destruct (plain_error_aborts_the_batch
              [ rawRecord "2023-01-01 00:00:00" 250 300 50;
                rawRecord "2023-01-02 00:00:00" 500000 500000 0 ]
              1 (rawRecord "2023-01-02 00:00:00" 500000 500000 0)
              (PlainError "transactions[1].amount out of allowed range"))
    as [Hf Hv].
  - reflexivity.
  - vm_compute. reflexivity.
  - reflexivity.
  - split.
    + eapply Hf. vm_compute. reflexivity.
    + eapply Hv. vm_compute. reflexivity.
Defined.

End Records.

(** * The parse operation and what it hands to the other operations *)

Section ParseOperation.

Import Js JsNumber JsValue Money Engine.

Lemma mapIndexed_length {A B : Type} (f : A -> nat -> result B) (l : list A) (i : nat)
    (r : list B) :
  mapIndexed f l i = Ok r -> length r = length l.
Proof.
  revert i r. induction l as [| x l IH]; intros i r H.
  - injection H as <-. reflexivity.
  - cbn [mapIndexed] in H. apply bind_Ok in H as (y & _ & H).
    apply bind_Ok in H as (ys & Hys & H). injection H as <-.
    cbn [length]. f_equal. eapply IH. eassumption.
Qed.

(** [array.map] with a callback that throws: the exception of the first
    element that raises one. *)
Lemma mapIndexed_first_error {A B : Type} (f : A -> nat -> result B) (l : list A)
    (start k : nat) (x : A) (e : error) :
  l !! k = Some x ->
  f x (start + k)%nat = Err e ->
  (forall j y, (j < k)%nat -> l !! j = Some y -> exists b, f y (start + j)%nat = Ok b) ->
  mapIndexed f l start = Err e.
Proof.
  revert start k. induction l as [| y l IH]; intros start k Hk He Hbefore; [discriminate |].
  cbn [mapIndexed]. destruct k as [| k].
  - injection Hk as ->. rewrite Nat.add_0_r in He. rewrite He. reflexivity.
  - destruct (Hbefore 0%nat y ltac:(lia) eq_refl) as [b Hb].
    rewrite Nat.add_0_r in Hb. rewrite Hb. cbn [bind].
    rewrite (IH (S start) k Hk).
    + reflexivity.
    + rewrite <- He. f_equal. lia.
    + intros j z Hj Hz. destruct (Hbefore (S j) z ltac:(lia) Hz) as [b' Hb'].
      exists b'. rewrite <- Hb'. f_equal. lia.
Qed.

(** The result of the timestamp parser does not depend on the field name. *)
Lemma parseTimestamp_fieldName (v : value) (name1 name2 : string) (seconds : Z) :
  Time.parseTimestampToEpochSeconds v name1 = Ok seconds ->
  Time.parseTimestampToEpochSeconds v name2 = Ok seconds.
Proof.
  unfold Time.parseTimestampToEpochSeconds. destruct v; try discriminate.
  cbv zeta. destruct (Time.matchTimestamp (trim s)); [| discriminate].
  destruct (_ || _); [discriminate | auto].
Qed.

(** What [buildTransactionFromExpense] builds. *)
Lemma buildTransactionFromExpense_Ok (expense : RawTransaction) (i : nat) (tx : Transaction) :
  buildTransactionFromExpense expense i = Ok tx ->
  getTimestampField expense = Ok (timestamp tx)
  /\ Time.parseTimestampToEpochSeconds (JStr (timestamp tx))
       (indexed "expenses" i ++ ".timestamp") = Ok (epochSeconds tx)
  /\ parseNumericField (raw_amount expense) (indexed "expenses" i ++ ".amount")
     = Ok (amountPaise tx)
  /\ 0 <= amountPaise tx < MAX_AMOUNT_PAISE
  /\ ceilingPaise tx = ceilTo100 (amountPaise tx)
  /\ remanentBasePaise tx = ceilingPaise tx - amountPaise tx
  /\ remanentFinalPaise tx = remanentBasePaise tx
  /\ inputIndex tx = i.
Proof.
  unfold buildTransactionFromExpense. cbv zeta. intros H.
  apply bind_Ok in H as (ts & Hts & H).
  apply bind_Ok in H as (es & Hes & H).
  apply bind_Ok in H as (am & Ham & H).
  apply bind_Ok in H as (u & Hu & H).
  injection H as <-.
  cbn [timestamp epochSeconds amountPaise ceilingPaise remanentBasePaise
         remanentFinalPaise inputIndex].
  apply validateMoneyRange_Ok in Hu.
  split.
  { revert Hts. destruct (getTimestampField expense); [intros [= ->]; reflexivity | discriminate]. }
  split.
  { revert Hes. destruct (Time.parseTimestampToEpochSeconds _ _);
      [intros [= ->]; reflexivity | discriminate]. }
  split; [assumption |]. split; [assumption |]. repeat split.
Qed.

(** A built transaction, serialized and sent back, parses to itself. *)
Lemma serialized_parses_back (tx : Transaction) (i : nat) (name : string) :
  Time.parseTimestampToEpochSeconds (JStr (timestamp tx)) name = Ok (epochSeconds tx) ->
  0 <= amountPaise tx < MAX_AMOUNT_PAISE ->
  amountPaise tx <= ceilingPaise tx <= displayLimit ->
  Z.rem (ceilingPaise tx) 10000 = 0 ->
  remanentBasePaise tx = ceilingPaise tx - amountPaise tx ->
  remanentFinalPaise tx = remanentBasePaise tx ->
  parseTransactionInput (asRaw (serializeTransaction tx)) i "transactions" = Ok (atIndex tx i)
  /\ parseNumericField (raw_remanent (asRaw (serializeTransaction tx)))
       (indexed "transactions" i ++ ".remanent") = Ok (remanentBasePaise tx).
Proof.
  intros Hts Hamount Hceiling Hrem Hbase Hfinal.
  assert (HM : MAX_AMOUNT_PAISE <= displayLimit) by (vm_compute; discriminate).
  assert (Ha : parseMoney (JNum (moneyToFixed2 (amountPaise tx))) = Ok (amountPaise tx))
    by (apply moneyToFixed2_reads_back; lia).
  assert (Hc : parseMoney (JNum (moneyToFixed2 (ceilingPaise tx))) = Ok (ceilingPaise tx))
    by (apply moneyToFixed2_reads_back; lia).
  assert (Hr : parseMoney (JNum (moneyToFixed2 (remanentFinalPaise tx)))
               = Ok (remanentFinalPaise tx))
    by (apply moneyToFixed2_reads_back; lia).
  split.
  - unfold parseTransactionInput. cbv zeta.
    cbn [asRaw serializeTransaction raw_timestamp raw_date raw_amount raw_ceiling
           s_timestamp s_amount s_ceiling getTimestampField Time.parseTimestampLike
           isString isUndefined negb bind].
    rewrite (parseTimestamp_fieldName _ _ (indexed "transactions" i ++ ".timestamp") _ Hts).
    cbn [bind]. unfold parseNumericField. rewrite Ha. cbn [bind].
    rewrite (validateMoneyRange_in _ _ _ _ Hamount). cbn [bind]. rewrite Hc. cbn [bind].
    destruct (Z.ltb_spec (ceilingPaise tx) (amountPaise tx)); [lia |].
    rewrite Hrem. cbn [Z.eqb negb]. unfold atIndex. rewrite Hfinal, Hbase. reflexivity.
  - cbn [asRaw serializeTransaction raw_remanent s_remanent].
    unfold parseNumericField. rewrite Hr, Hfinal. reflexivity.
Qed.

Lemma sumOf_acc (f : Transaction -> Z) (l : list Transaction) (acc : Z) :
  fold_left (fun a tx => a + f tx) l acc = acc + sumOf f l.
Proof.
  unfold sumOf. revert acc. induction l as [| tx l IH]; intros acc; cbn [fold_left]; [lia |].
  rewrite (IH (acc + f tx)), (IH (0 + f tx)). lia.
Qed.

Lemma sumOf_cons (f : Transaction -> Z) (tx : Transaction) (l : list Transaction) :
  sumOf f (tx :: l) = f tx + sumOf f l.
Proof. unfold sumOf at 1. cbn [fold_left]. rewrite sumOf_acc. lia. Qed.

Lemma sumOf_bounds (f : Transaction -> Z) (lo hi : Z) (l : list Transaction) :
  Forall (fun tx => lo <= f tx <= hi) l ->
  lo * Z.of_nat (length l) <= sumOf f l <= hi * Z.of_nat (length l).
Proof.
  induction 1 as [| tx l Htx _ IH]; [cbn; lia |].
  rewrite sumOf_cons. cbn [length]. lia.
Qed.

Lemma sumOf_minus (f g : Transaction -> Z) (l : list Transaction) :
  sumOf (fun tx => f tx - g tx) l = sumOf f l - sumOf g l.
Proof.
  induction l as [| tx l IH]; [reflexivity |]. rewrite !sumOf_cons, IH. lia.
Qed.

Lemma assertArray_Ok {A : Type} (v : field A) (name : string) (l : list A) :
  assertArray v name = Ok l -> v = Items l /\ Z.of_nat (length l) <= MAX_RECORDS.
Proof.
  unfold assertArray. destruct v as [| | items]; try discriminate.
  destruct (Z.ltb_spec MAX_RECORDS (Z.of_nat (length items))); [discriminate |].
  intros [= ->]. split; [reflexivity | assumption].
Qed.

(** The transactions of the parse operation. *)
Lemma parseTransactions_Ok (payload : ParsePayload) (resp : ParseResponse) :
  parseTransactions payload = Ok resp ->
  exists raws txs,
    expenses payload = Items raws
    /\ Z.of_nat (length raws) <= MAX_RECORDS
    /\ mapIndexed buildTransactionFromExpense raws 0 = Ok txs
    /\ resp = {| pr_transactions := map serializeTransaction txs;
                 pr_transactionsTotalAmount := moneyToFixed2 (sumOf amountPaise txs);
                 pr_transactionsTotalCeiling := moneyToFixed2 (sumOf ceilingPaise txs);
                 pr_transactionsTotalRemanent :=
                   moneyToFixed2 (sumOf remanentBasePaise txs) |}.
Proof.
  unfold parseTransactions. intros H.
  apply bind_Ok in H as (raws & Hraws & H).
  apply bind_Ok in H as (txs & Htxs & H). injection H as <-.
  apply assertArray_Ok in Hraws as [Hraws Hlen].
  exists raws, txs. auto.
Qed.

Lemma built_facts (raws : list RawTransaction) (txs : list Transaction) :
  mapIndexed buildTransactionFromExpense raws 0 = Ok txs ->
  Forall (fun tx =>
            0 <= amountPaise tx < MAX_AMOUNT_PAISE
            /\ ceilingPaise tx = ceilTo100 (amountPaise tx)
            /\ remanentBasePaise tx = ceilingPaise tx - amountPaise tx
            /\ remanentFinalPaise tx = remanentBasePaise tx
            /\ exists name,
                 Time.parseTimestampToEpochSeconds (JStr (timestamp tx)) name
                 = Ok (epochSeconds tx)) txs.
Proof.
  apply mapIndexed_Forall. intros raw j tx H.
  apply buildTransactionFromExpense_Ok in H as (_ & Hs & _ & Ha & Hc & Hb & Hf & _).
  eauto 10.
Qed.

(** X4: every transaction the parse operation returns displays the amount
    of its expense, that amount rounded up to the next multiple of 10000
    paise as the ceiling, and their difference, which is below 10000, as
    the remanent; the operation returns one transaction per expense, in
    the order of the input. *)
Theorem parse_operation_displays_rounding (payload : ParsePayload) (resp : ParseResponse) :
  parseTransactions payload = Ok resp ->
  exists raws,
    expenses payload = Items raws
    /\ length (pr_transactions resp) = length raws
    /\ forall i s,
         pr_transactions resp !! i = Some s ->
         exists raw text a,
           raws !! i = Some raw
           /\ getTimestampField raw = Ok text
           /\ parseNumericField (raw_amount raw) (indexed "expenses" i ++ ".amount") = Ok a
           /\ 0 <= a < MAX_AMOUNT_PAISE
           /\ 0 <= ceilTo100 a - a < 10000
           /\ displays s text a (ceilTo100 a) (ceilTo100 a - a).
Proof.
  intros H. apply parseTransactions_Ok in H as (raws & txs & Hraws & _ & Htxs & ->).
  exists raws. split; [assumption |]. cbn [pr_transactions].
  split; [rewrite length_map; eapply mapIndexed_length; eassumption |].
  intros i s Hs. rewrite lookup_map in Hs.
  destruct (txs !! i) as [tx |] eqn:Htx; [| discriminate]. injection Hs as <-.
  destruct (mapIndexed_lookup _ _ _ _ Htxs i tx Htx) as (raw & Hraw & Hbuild).
  cbn [Nat.add] in Hbuild.
  apply buildTransactionFromExpense_Ok in Hbuild
    as (Hts & _ & Ha & Hrange & Hc & Hb & Hf & _).
  exists raw, (timestamp tx), (amountPaise tx).
  pose proof (ceilTo100_range (amountPaise tx) ltac:(lia)) as [Hr _].
  assert (HM : MAX_AMOUNT_PAISE + 10000 <= displayLimit) by (vm_compute; discriminate).
  split; [assumption |]. split; [assumption |]. split; [assumption |].
  split; [assumption |]. split; [lia |].
  unfold displays. cbn [serializeTransaction s_timestamp s_amount s_ceiling s_remanent
                         s_remanentBase s_remanentFinal].
  split; [reflexivity |].
  split; [apply moneyToFixed2_reads_back; lia |].
  split; [rewrite Hc; apply moneyToFixed2_reads_back; lia |].
  split; [rewrite Hf, Hb, Hc; apply moneyToFixed2_reads_back; lia |].
  split; [rewrite Hf; reflexivity | reflexivity].
Qed.

Lemma parse_operation_displays_rounding_witness :
  exists raws,
    Items sampleExpenses = Items raws
    /\ 4%nat = length raws
    /\ forall i s,
         map serializeTransaction fixtureTransactions !! i = Some s ->
         exists raw text a,
           raws !! i = Some raw
           /\ getTimestampField raw = Ok text
           /\ parseNumericField (raw_amount raw) (indexed "expenses" i ++ ".amount") = Ok a
           /\ 0 <= a < MAX_AMOUNT_PAISE
           /\ 0 <= ceilTo100 a - a < 10000
           /\ displays s text a (ceilTo100 a) (ceilTo100 a - a).
Proof.
  apply (parse_operation_displays_rounding
           {| expenses := Items sampleExpenses |}
           {| pr_transactions := map serializeTransaction fixtureTransactions;
              pr_transactionsTotalAmount := moneyToFixed2 172500;
              pr_transactionsTotalCeiling := moneyToFixed2 190000;
              pr_transactionsTotalRemanent := moneyToFixed2 17500 |}).
  vm_compute. reflexivity.
Defined.

Lemma sumOf_sumZ (f : Transaction -> Z) (l : list Transaction) :
  sumOf f l = sumZ (map f l).
Proof.
  induction l as [| tx l IH]; [reflexivity |].
  rewrite sumOf_cons, IH. reflexivity.
Qed.

(** X5: the totals of the parse operation display the exact sums over the
    transactions it returns: the total amount is the sum of the displayed
    amounts, the total ceiling the sum of the displayed ceilings, and the
    total remanent their difference, which is below 10000 paise per
    expense. *)
Theorem parse_operation_totals (payload : ParsePayload) (resp : ParseResponse) :
  parseTransactions payload = Ok resp ->
  exists amounts ceilings,
    Forall2 (fun s a => parseMoney (JNum (s_amount s)) = Ok a) (pr_transactions resp) amounts
    /\ Forall2 (fun s c => parseMoney (JNum (s_ceiling s)) = Ok c)
         (pr_transactions resp) ceilings
    /\ parseMoney (JNum (pr_transactionsTotalAmount resp)) = Ok (sumZ amounts)
    /\ parseMoney (JNum (pr_transactionsTotalCeiling resp)) = Ok (sumZ ceilings)
    /\ parseMoney (JNum (pr_transactionsTotalRemanent resp))
       = Ok (sumZ ceilings - sumZ amounts)
    /\ 0 <= sumZ amounts
    /\ 0 <= sumZ ceilings - sumZ amounts
       < 10000 * Z.max 1 (Z.of_nat (length (pr_transactions resp))).
Proof.
  intros H. apply parseTransactions_Ok in H as (raws & txs & Hraws & Hlen & Htxs & ->).
  cbn [pr_transactions pr_transactionsTotalAmount pr_transactionsTotalCeiling
         pr_transactionsTotalRemanent].
  pose proof (mapIndexed_length _ _ _ _ Htxs) as Hl. rewrite length_map.
  pose proof (built_facts _ _ Htxs) as Hfacts.
  assert (Ha : 0 * Z.of_nat (length txs) <= sumOf amountPaise txs
               <= MAX_AMOUNT_PAISE * Z.of_nat (length txs)).
  { apply sumOf_bounds. eapply Forall_impl; [exact Hfacts |]. cbn. intros tx (H1 & _). lia. }
  assert (Hr : 0 * Z.of_nat (length txs) <= sumOf remanentBasePaise txs
               <= 9999 * Z.of_nat (length txs)).
  { apply sumOf_bounds. eapply Forall_impl; [exact Hfacts |]. cbn.
    intros tx (H1 & H2 & H3 & _).
    pose proof (ceilTo100_range (amountPaise tx) ltac:(lia)) as [Hc _]. lia. }
  assert (Hsum : sumOf remanentBasePaise txs = sumOf ceilingPaise txs - sumOf amountPaise txs).
  { rewrite <- sumOf_minus. apply sumOf_ext.
    eapply Forall_impl; [exact Hfacts |]. cbn. intros tx (_ & _ & H3 & _). exact H3. }
  assert (HM : MAX_AMOUNT_PAISE = 50000000) by reflexivity.
  assert (HR : MAX_RECORDS = 1000000) by reflexivity.
  assert (HD : displayLimit = 7036874417766400) by reflexivity.
  exists (map amountPaise txs), (map ceilingPaise txs).
  rewrite <- !sumOf_sumZ.
  split; [| split].
  - clear - Hfacts HM HD. induction Hfacts as [| tx l (Hamount & _) _ IH]; cbn [map].
    + constructor.
    + constructor; [| exact IH]. cbn [serializeTransaction s_amount].
      apply moneyToFixed2_reads_back. lia.
  - clear - Hfacts HM HD. induction Hfacts as [| tx l (Hamount & Hceiling & _) _ IH]; cbn [map].
    + constructor.
    + constructor; [| exact IH]. cbn [serializeTransaction s_ceiling].
      apply moneyToFixed2_reads_back.
      pose proof (ceilTo100_range (amountPaise tx) ltac:(lia)) as [Hc _]. lia.
  - split; [apply moneyToFixed2_reads_back; nia |].
    split; [apply moneyToFixed2_reads_back; nia |].
    split; [rewrite Hsum; apply moneyToFixed2_reads_back; nia |].
    split; [lia |]. rewrite <- Hsum. nia.
Qed.

(** The four expenses of the tests: 1725.00, 1900.00 and 175.00. *)
Lemma parse_operation_totals_witness :
  exists amounts ceilings,
    Forall2 (fun s a => parseMoney (JNum (s_amount s)) = Ok a)
      (map serializeTransaction fixtureTransactions) amounts
    /\ Forall2 (fun s c => parseMoney (JNum (s_ceiling s)) = Ok c)
         (map serializeTransaction fixtureTransactions) ceilings
    /\ parseMoney (JNum (moneyToFixed2 172500)) = Ok (sumZ amounts)
    /\ parseMoney (JNum (moneyToFixed2 190000)) = Ok (sumZ ceilings)
    /\ parseMoney (JNum (moneyToFixed2 17500)) = Ok (sumZ ceilings - sumZ amounts)
    /\ 0 <= sumZ amounts
    /\ 0 <= sumZ ceilings - sumZ amounts
       < 10000 * Z.max 1 (Z.of_nat (length (map serializeTransaction fixtureTransactions))).
Proof.
  apply (parse_operation_totals
           {| expenses := Items sampleExpenses |}
           {| pr_transactions := map serializeTransaction fixtureTransactions;
              pr_transactionsTotalAmount := moneyToFixed2 172500;
              pr_transactionsTotalCeiling := moneyToFixed2 190000;
              pr_transactionsTotalRemanent := moneyToFixed2 17500 |}).
  vm_compute. reflexivity.
Defined.

(** *** Sending the output back *)

(** What a built transaction has to satisfy to parse back. *)
Lemma built_parses_back (raws : list RawTransaction) (txs : list Transaction) :
  mapIndexed buildTransactionFromExpense raws 0 = Ok txs ->
  Forall (fun tx =>
            forall i,
              parseTransactionInput (asRaw (serializeTransaction tx)) i "transactions"
              = Ok (atIndex tx i)
              /\ parseNumericField (raw_remanent (asRaw (serializeTransaction tx)))
                   (indexed "transactions" i ++ ".remanent") = Ok (remanentBasePaise tx)) txs.
Proof.
  intros H. eapply Forall_impl; [exact (built_facts _ _ H) |]. cbn.
  intros tx (Ha & Hc & Hb & Hf & name & Hts) i.
  pose proof (ceilTo100_range (amountPaise tx) ltac:(lia)) as [Hr Hrem].
  assert (HM : MAX_AMOUNT_PAISE + 10000 <= displayLimit) by (vm_compute; discriminate).
  apply (serialized_parses_back tx i name); try assumption.
  - lia.
  - rewrite Hc. assumption.
Qed.

Lemma reindexed_serialized (txs : list Transaction) (i : nat) :
  map serializeTransaction (reindexed txs i) = map serializeTransaction txs.
Proof.
  revert i. induction txs as [| tx txs IH]; intros i; [reflexivity |].
  cbn [reindexed map]. rewrite IH. reflexivity.
Qed.

(** The validator loop on records that parse back and carry new texts. *)
Lemma validationLoop_echo (txs : list Transaction) :
  forall (i : nat) (st : Validation),
    Forall (fun tx =>
              forall i,
                parseTransactionInput (asRaw (serializeTransaction tx)) i "transactions"
                = Ok (atIndex tx i)
                /\ parseNumericField (raw_remanent (asRaw (serializeTransaction tx)))
                     (indexed "transactions" i ++ ".remanent") = Ok (remanentBasePaise tx))
           txs ->
    NoDup (map timestamp txs) ->
    (forall tx, tx ∈ txs -> v_seen st !! timestamp tx = None) ->
    exists seen,
      validationLoop (map asRaw (map serializeTransaction txs)) i st
      = Ok {| v_valid := v_valid st ++ reindexed txs i;
              v_invalid := v_invalid st;
              v_duplicates := v_duplicates st;
              v_seen := seen |}.
Proof.
  induction txs as [| tx txs IH]; intros i st Hback Hnodup Hseen.
  - exists (v_seen st). cbn. rewrite app_nil_r. destruct st; reflexivity.
  - inversion Hback as [| ? ? Htx Hrest]; subst.
    cbn [map] in Hnodup. apply NoDup_cons in Hnodup as [Hnotin Hnodup].
    destruct (Htx i) as [Hparse Hrem].
    cbn [map validationLoop]. rewrite Hparse. cbv zeta.
    change (timestamp (atIndex tx i)) with (timestamp tx).
    rewrite (Hseen tx (list_elem_of_here _ _)).
    change (isUndefined (raw_remanent (asRaw (serializeTransaction tx)))) with false.
    cbn [negb]. rewrite Hrem. cbn [bind].
    change (remanentBasePaise (atIndex tx i)) with (remanentBasePaise tx).
    rewrite Z.eqb_refl. cbn [negb].
    destruct (IH (S i)
                {| v_valid := v_valid st ++ [atIndex tx i];
                   v_invalid := v_invalid st;
                   v_duplicates := v_duplicates st;
                   v_seen := <[timestamp tx := i]> (v_seen st) |} Hrest Hnodup)
      as [seen Hloop].
    { intros tx' Hin. cbn [v_seen]. rewrite lookup_insert_ne.
      - apply Hseen. apply list_elem_of_further. assumption.
      - intros Heq. apply Hnotin. rewrite Heq. apply list_elem_of_fmap_2. assumption. }
    exists seen. rewrite Hloop. cbn [v_valid v_invalid v_duplicates reindexed].
    rewrite <- app_assoc. reflexivity.
Qed.

(** The filter loop on such records. *)
Lemma filteringLoop_echo (txs : list Transaction) :
  forall (i : nat) (st : Filtering),
    Forall (fun tx =>
              forall i,
                parseTransactionInput (asRaw (serializeTransaction tx)) i "transactions"
                = Ok (atIndex tx i)
                /\ parseNumericField (raw_remanent (asRaw (serializeTransaction tx)))
                     (indexed "transactions" i ++ ".remanent") = Ok (remanentBasePaise tx))
           txs ->
    NoDup (map timestamp txs) ->
    (forall tx, tx ∈ txs -> f_seen st !! timestamp tx = None) ->
    exists seen,
      filteringLoop (map asRaw (map serializeTransaction txs)) i st
      = Ok {| f_validTransactions := f_validTransactions st ++ reindexed txs i;
              f_invalid := f_invalid st;
              f_seen := seen |}.
Proof.
  induction txs as [| tx txs IH]; intros i st Hback Hnodup Hseen.
  - exists (f_seen st). cbn. rewrite app_nil_r. destruct st; reflexivity.
  - inversion Hback as [| ? ? Htx Hrest]; subst.
    cbn [map] in Hnodup. apply NoDup_cons in Hnodup as [Hnotin Hnodup].
    destruct (Htx i) as [Hparse _].
    cbn [map filteringLoop]. rewrite Hparse.
    change (timestamp (atIndex tx i)) with (timestamp tx).
    rewrite (Hseen tx (list_elem_of_here _ _)).
    destruct (IH (S i)
                {| f_validTransactions := f_validTransactions st ++ [atIndex tx i];
                   f_invalid := f_invalid st;
                   f_seen := <[timestamp tx := i]> (f_seen st) |} Hrest Hnodup)
      as [seen Hloop].
    { intros tx' Hin. cbn [f_seen]. rewrite lookup_insert_ne.
      - apply Hseen. apply list_elem_of_further. assumption.
      - intros Heq. apply Hnotin. rewrite Heq. apply list_elem_of_fmap_2. assumption. }
    exists seen. rewrite Hloop. cbn [f_validTransactions f_invalid reindexed].
    rewrite <- app_assoc. reflexivity.
Qed.

(** X6: a transaction of the parse operation, sent back as a record with
    its displayed timestamp, amount, ceiling and remanent, is accepted by
    [parseTransactionInput] at any position and parses to the same
    transaction; its declared remanent is a decimal value that parses to
    the base remanent, so the validator, when the timestamp text is new,
    adds the transaction to the valid output and reports nothing. *)
Theorem parse_output_parses_back (expense : RawTransaction) (j i : nat) (tx : Transaction) :
  buildTransactionFromExpense expense j = Ok tx ->
  parseTransactionInput (asRaw (serializeTransaction tx)) i "transactions"
  = Ok (atIndex tx i)
  /\ isUndefined (raw_remanent (asRaw (serializeTransaction tx))) = false
  /\ parseNumericField (raw_remanent (asRaw (serializeTransaction tx)))
       (indexed "transactions" i ++ ".remanent")
     = Ok (remanentBasePaise (atIndex tx i))
  /\ remanentMismatch (asRaw (serializeTransaction tx)) i (atIndex tx i) = false
  /\ forall st,
       v_seen st !! timestamp tx = None ->
       validationLoop [asRaw (serializeTransaction tx)] i st
       = Ok {| v_valid := v_valid st ++ [atIndex tx i];
               v_invalid := v_invalid st;
               v_duplicates := v_duplicates st;
               v_seen := <[timestamp tx := i]> (v_seen st) |}.
Proof.
  intros H.
  apply buildTransactionFromExpense_Ok in H as (_ & Hts & _ & Ha & Hc & Hb & Hf & _).
  pose proof (ceilTo100_range (amountPaise tx) ltac:(lia)) as [Hr Hrem].
  assert (HM : MAX_AMOUNT_PAISE + 10000 <= displayLimit) by (vm_compute; discriminate).
  destruct (serialized_parses_back tx i _ Hts Ha) as [Hparse Hremanent];
    try assumption; try lia.
  { rewrite Hc. assumption. }
  split; [assumption |]. split; [reflexivity |]. split; [exact Hremanent |].
  split.
  - unfold remanentMismatch. rewrite Hremanent.
    change (remanentBasePaise (atIndex tx i)) with (remanentBasePaise tx).
    rewrite Z.eqb_refl. apply andb_false_r.
  - intros st Hseen. cbn [validationLoop]. rewrite Hparse. cbv zeta.
    change (timestamp (atIndex tx i)) with (timestamp tx). rewrite Hseen.
    change (isUndefined (raw_remanent (asRaw (serializeTransaction tx)))) with false.
    cbn [negb]. rewrite Hremanent. cbn [bind].
    change (remanentBasePaise (atIndex tx i)) with (remanentBasePaise tx).
    rewrite Z.eqb_refl. reflexivity.
Qed.

Lemma parse_output_parses_back_witness :
  parseTransactionInput
    (asRaw (serializeTransaction
              (fixtureTransaction "2023-02-28 15:49:00" 1677579540 37500 40000 1)))
    7 "transactions"
  = Ok (atIndex (fixtureTransaction "2023-02-28 15:49:00" 1677579540 37500 40000 1) 7)
  /\ parseNumericField
       (raw_remanent
          (asRaw (serializeTransaction
                    (fixtureTransaction "2023-02-28 15:49:00" 1677579540 37500 40000 1))))
       (indexed "transactions" 7 ++ ".remanent")
     = Ok 2500
  /\ validationLoop
       [asRaw (serializeTransaction
                 (fixtureTransaction "2023-02-28 15:49:00" 1677579540 37500 40000 1))]
       7 initialValidation
     = Ok {| v_valid :=
               [atIndex (fixtureTransaction "2023-02-28 15:49:00" 1677579540 37500 40000 1) 7];
             v_invalid := [];
             v_duplicates := [];
             v_seen := <["2023-02-28 15:49:00"%string := 7%nat]> ∅ |}.
Proof.
  destruct (parse_output_parses_back
              (expenseRecord "2023-02-28 15:49:00" (JNum (ofZ 375))) 1 7
              (fixtureTransaction "2023-02-28 15:49:00" 1677579540 37500 40000 1))
    as (Hparse & _ & Hremanent & _ & Hloop).
  - vm_compute. reflexivity.
  - split; [exact Hparse |]. split; [exact Hremanent |].
    exact (Hloop initialValidation eq_refl).
Defined.

(** X7: when the timestamps of the expenses are pairwise different texts,
    the validator and the filter path accept everything the parse
    operation returned: sent back, every transaction is valid, none is
    invalid or a duplicate, and the valid output displays what the parse
    operation displayed. *)
Theorem parse_output_is_valid_input (payload : ParsePayload) (resp : ParseResponse)
    (wage : value) :
  parseTransactions payload = Ok resp ->
  NoDup (map s_timestamp (pr_transactions resp)) ->
  (exists valid,
      parseAndValidateTransactionsForValidation (echoPayload (pr_transactions resp) wage)
      = Ok (valid, [], [])
      /\ map serializeTransaction valid = pr_transactions resp)
  /\ (exists parsed,
         parseForFiltering (echoPayload (pr_transactions resp) wage) = Ok parsed
         /\ map serializeTransaction (validTransactions parsed) = pr_transactions resp
         /\ invalid parsed = []).
Proof.
  intros H Hnodup.
  apply parseTransactions_Ok in H as (raws & txs & Hraws & Hlen & Htxs & ->).
  cbn [pr_transactions] in *.
  pose proof (built_parses_back _ _ Htxs) as Hback.
  pose proof (mapIndexed_length _ _ _ _ Htxs) as Hl.
  assert (Hnd : NoDup (map timestamp txs)).
  { rewrite <- list_fmap_compose in Hnodup. exact Hnodup. }
  assert (Harray : forall name,
             assertArray (Items (map asRaw (map serializeTransaction txs))) name
             = Ok (map asRaw (map serializeTransaction txs))).
  { intros name. unfold assertArray. rewrite !length_map, Hl.
    destruct (Z.ltb_spec MAX_RECORDS (Z.of_nat (length raws))); [lia | reflexivity]. }
  split.
  - destruct (validationLoop_echo txs 0
                {| v_valid := []; v_invalid := []; v_duplicates := []; v_seen := ∅ |}
                Hback Hnd) as [seen Hloop].
    { intros tx _. apply lookup_empty. }
    exists (reindexed txs 0). split; [| apply reindexed_serialized].
    unfold parseAndValidateTransactionsForValidation, echoPayload. cbn [transactions].
    rewrite Harray. cbn [bind]. rewrite Hloop. reflexivity.
  - destruct (filteringLoop_echo txs 0
                {| f_validTransactions := []; f_invalid := []; f_seen := ∅ |}
                Hback Hnd) as [seen Hloop].
    { intros tx _. apply lookup_empty. }
    eexists. split.
    + unfold parseForFiltering, echoPayload. cbn [transactions q p k orEmpty].
      rewrite Harray. cbn [bind]. 
      change (assertArray (Items []) "q") with (@Ok (list RawPeriod) []).
      change (assertArray (Items []) "p") with (@Ok (list RawPeriod) []).
      change (assertArray (Items []) "k") with (@Ok (list RawPeriod) []).
      cbn [bind]. rewrite Hloop. reflexivity.
    + cbn [validTransactions invalid f_validTransactions f_invalid app].
      split; [apply reindexed_serialized | reflexivity].
Qed.

Lemma parse_output_is_valid_input_witness :
  (exists valid,
      parseAndValidateTransactionsForValidation
        (echoPayload (map serializeTransaction fixtureTransactions) JUndefined)
      = Ok (valid, [], [])
      /\ map serializeTransaction valid = map serializeTransaction fixtureTransactions)
  /\ (exists parsed,
         parseForFiltering (echoPayload (map serializeTransaction fixtureTransactions) JUndefined)
         = Ok parsed
         /\ map serializeTransaction (validTransactions parsed)
            = map serializeTransaction fixtureTransactions
         /\ invalid parsed = []).
Proof.
  apply (parse_output_is_valid_input
           {| expenses := Items sampleExpenses |}
           {| pr_transactions := map serializeTransaction fixtureTransactions;
              pr_transactionsTotalAmount := moneyToFixed2 172500;
              pr_transactionsTotalCeiling := moneyToFixed2 190000;
              pr_transactionsTotalRemanent := moneyToFixed2 17500 |} JUndefined).
  - vm_compute. reflexivity.
  - apply (bool_decide_unpack _). vm_compute. exact I.
Defined.

End ParseOperation.

(** * The binary heap as a priority queue *)

Section HeapQueue.

Import BinaryHeap.

Context {A : Type} (compareFn : A -> A -> Z).

Hypothesis compare_trans :
  forall a b c, compareFn a b <= 0 -> compareFn b c <= 0 -> compareFn a c <= 0.
Hypothesis compare_total : forall a b, 0 < compareFn a b -> compareFn b a <= 0.

Lemma heapOrdered_nil : heapOrdered compareFn (@nil A).
Proof. intros i j x y _ H. discriminate. Qed.

Lemma pushAll_facts (values data : list A) :
  heapOrdered compareFn data ->
  heapOrdered compareFn (pushAll compareFn data values)
  /\ Permutation (pushAll compareFn data values) (data ++ values).
Proof.
  revert data. induction values as [| v values IH]; intros data Hd.
  - cbn. rewrite app_nil_r. auto.
  - cbn [pushAll fold_left].
    destruct (IH (push compareFn data v)
                (push_ordered compareFn compare_trans compare_total data v Hd))
      as [Ho Hp].
    split; [exact Ho |].
    unfold pushAll in Hp. rewrite Hp, (push_Permutation compareFn data v).
    change (data ++ v :: values) with (data ++ [v] ++ values).
    rewrite (Permutation_app_comm data ([v] ++ values)). cbn.
    constructor. apply Permutation_app_comm.
Qed.

(** X8: after any sequence of [push]es on a heap, the array is in heap
    order and holds the old and the pushed values, each as often as it was
    pushed, and [peek] returns a value that no value of the heap compares
    above; [peek] returns nothing only on the empty heap. *)
Theorem push_keeps_the_greatest_on_top (data values : list A) :
  heapOrdered compareFn data ->
  heapOrdered compareFn (pushAll compareFn data values)
  /\ Permutation (pushAll compareFn data values) (data ++ values)
  /\ (forall top, peek (pushAll compareFn data values) = Some top ->
                  forall x, x ∈ data ++ values -> compareFn x top <= 0)
  /\ (peek (pushAll compareFn data values) = None -> data = [] /\ values = []).
Proof.
  intros Hd. destruct (pushAll_facts values data Hd) as [Ho Hp].
  split; [assumption |]. split; [assumption |]. split.
  - intros top Htop x Hx.
    apply (heapOrdered_top compareFn compare_trans compare_total _ top Ho Htop).
    rewrite Hp. assumption.
  - intros Hnone. unfold peek in Hnone.
    destruct (pushAll compareFn data values) as [| y l] eqn:Hall; [| discriminate].
    apply Permutation_nil_l in Hp. symmetry in Hp. apply app_eq_nil in Hp. assumption.
Qed.

(** X9: [pop] on a heap in heap order returns a value that no value of
    the heap compares above and leaves a heap in heap order with the other
    values, one value fewer; on the empty heap it returns nothing and
    leaves the heap empty. *)
Theorem pop_removes_the_greatest (data : list A) :
  heapOrdered compareFn data ->
  match pop compareFn data with
  | (Some top, rest) =>
      Permutation data (top :: rest)
      /\ heapOrdered compareFn rest
      /\ (forall x, x ∈ data -> compareFn x top <= 0)
      /\ peek data = Some top
      /\ S (length rest) = length data
  | (None, rest) => data = [] /\ rest = []
  end.
Proof.
  intros Hd. destruct (peek data) as [top |] eqn:Htop.
  - destruct (pop_spec compareFn compare_trans compare_total data top Htop)
      as (rest & Hpop & Hperm & Hord).
    rewrite Hpop. split; [assumption |]. split; [auto |]. split.
    + apply (heapOrdered_top compareFn compare_trans compare_total _ top Hd Htop).
    + split; [reflexivity |]. apply Permutation_length in Hperm. cbn in Hperm. lia.
  - unfold peek in Htop. destruct data as [| x data]; [| discriminate].
    rewrite pop_empty. auto.
Qed.

(** X10: popping a heap in heap order until it is empty returns every
    value of the heap once, the greatest first: no value is returned
    before a value that compares above it. *)
Theorem popping_returns_descending (data : list A) :
  heapOrdered compareFn data ->
  Permutation (popAll compareFn (length data) data) data
  /\ StronglySorted (fun a b => compareFn b a <= 0) (popAll compareFn (length data) data).
Proof.
  intros Hheap.
  enough (Hfuel : forall (fuel : nat) (data : list A),
             (length data <= fuel)%nat ->
             heapOrdered compareFn data ->
             Permutation (popAll compareFn fuel data) data
             /\ StronglySorted (fun a b => compareFn b a <= 0) (popAll compareFn fuel data))
    by (apply Hfuel; [lia | assumption]).
  clear data Hheap.
  induction fuel as [| fuel IH]; intros data Hlen Hd.
  - destruct data; [| cbn in Hlen; lia]. cbn. split; constructor.
  - cbn [popAll]. destruct (peek data) as [top |] eqn:Htop.
    + destruct (pop_spec compareFn compare_trans compare_total data top Htop)
        as (rest & Hpop & Hperm & Hord).
      rewrite Hpop.
      assert (Hl : (length rest <= fuel)%nat).
      { apply Permutation_length in Hperm. cbn in Hperm. lia. }
      destruct (IH rest Hl (Hord Hd)) as [Hp Hs].
      split.
      * rewrite Hperm. constructor. assumption.
      * constructor; [assumption |].
        apply Forall_forall. intros x Hx.
        apply (heapOrdered_top compareFn compare_trans compare_total _ top Hd Htop).
        rewrite Hperm. apply list_elem_of_further. rewrite <- Hp. assumption.
    + unfold peek in Htop. destruct data as [| x data]; [| discriminate].
      rewrite pop_empty. split; constructor.
Qed.

End HeapQueue.

Section HeapQueueExamples.

Import BinaryHeap.

Lemma bySize_trans (a b c : Z) : bySize a b <= 0 -> bySize b c <= 0 -> bySize a c <= 0.
Proof. unfold bySize. lia. Qed.

Lemma bySize_total (a b : Z) : 0 < bySize a b -> bySize b a <= 0.
Proof. unfold bySize. lia. Qed.

Lemma push_keeps_the_greatest_on_top_witness :
  heapOrdered bySize (pushAll bySize [] [3; 1; 4; 1; 5])
  /\ Permutation (pushAll bySize [] [3; 1; 4; 1; 5]) ([] ++ [3; 1; 4; 1; 5])
  /\ (forall top, peek (pushAll bySize [] [3; 1; 4; 1; 5]) = Some top ->
                  forall x, x ∈ [] ++ [3; 1; 4; 1; 5] -> bySize x top <= 0)
  /\ (peek (pushAll bySize [] [3; 1; 4; 1; 5]) = None ->
      @nil Z = [] /\ [3; 1; 4; 1; 5] = @nil Z).
Proof.
  apply (push_keeps_the_greatest_on_top bySize bySize_trans bySize_total [] [3; 1; 4; 1; 5]).
  apply heapOrdered_nil.
Defined.

Lemma pop_removes_the_greatest_witness :
  match pop bySize (pushAll bySize [] [3; 1; 4; 1; 5]) with
  | (Some top, rest) =>
      Permutation (pushAll bySize [] [3; 1; 4; 1; 5]) (top :: rest)
      /\ heapOrdered bySize rest
      /\ (forall x, x ∈ pushAll bySize [] [3; 1; 4; 1; 5] -> bySize x top <= 0)
      /\ peek (pushAll bySize [] [3; 1; 4; 1; 5]) = Some top
      /\ S (length rest) = length (pushAll bySize [] [3; 1; 4; 1; 5])
  | (None, rest) => pushAll bySize [] [3; 1; 4; 1; 5] = [] /\ rest = []
  end.
Proof.
  apply (pop_removes_the_greatest bySize bySize_trans bySize_total).
  apply (pushAll_facts bySize bySize_trans bySize_total). apply heapOrdered_nil.
Defined.

Lemma popping_returns_descending_witness :
  Permutation (popAll bySize 5 (pushAll bySize [] [3; 1; 4; 1; 5]))
    (pushAll bySize [] [3; 1; 4; 1; 5])
  /\ StronglySorted (fun a b => bySize b a <= 0)
       (popAll bySize 5 (pushAll bySize [] [3; 1; 4; 1; 5])).
Proof.
  apply (popping_returns_descending bySize bySize_trans bySize_total
           (pushAll bySize [] [3; 1; 4; 1; 5])).
  apply (pushAll_facts bySize bySize_trans bySize_total). apply heapOrdered_nil.
Defined.

End HeapQueueExamples.

(** * Binary search *)

Section Search.

Import Engine.

Lemma sorted_by_index (array : list Z) :
  StronglySorted Z.le array ->
  forall i j vi vj, (i <= j)%nat -> array !! i = Some vi -> array !! j = Some vj -> vi <= vj.
Proof.
  intros Hs i j vi vj Hij Hi Hj.
  apply (sorted_lookup (fun v : Z => v) array i j vi vj); assumption.
Qed.

(** An index that splits a list by a test is the number of elements that
    pass the test. *)
Lemma split_point_counts (test : Z -> bool) (array : list Z) (r : nat) :
  (r <= length array)%nat ->
  (forall i v, (i < r)%nat -> array !! i = Some v -> test v = true) ->
  (forall i v, (r <= i)%nat -> array !! i = Some v -> test v = false) ->
  Forall (fun v => test v = true) (take r array)
  /\ Forall (fun v => test v = false) (drop r array)
  /\ r = length (List.filter test array).
Proof.
  intros Hr Hbelow Habove.
  assert (Ht : Forall (fun v => test v = true) (take r array)).
  { apply Forall_lookup. intros i v Hi.
    assert (i < r)%nat.
    { apply lookup_lt_Some in Hi. rewrite length_take in Hi. lia. }
    rewrite lookup_take_lt in Hi by assumption. eauto. }
  assert (Hd : Forall (fun v => test v = false) (drop r array)).
  { apply Forall_lookup. intros i v Hi. rewrite lookup_drop in Hi.
    apply (Habove (r + i)%nat); [lia | assumption]. }
  split; [assumption |]. split; [assumption |].
  rewrite <- (take_drop r array) at 1. rewrite List.filter_app, length_app.
  assert (H1 : List.filter test (take r array) = take r array).
  { clear - Ht. induction Ht as [| v l Hv _ IH]; [reflexivity |].
    cbn. rewrite Hv, IH. reflexivity. }
  assert (H2 : List.filter test (drop r array) = []).
  { clear - Hd. induction Hd as [| v l Hv _ IH]; [reflexivity |].
    cbn. rewrite Hv, IH. reflexivity. }
  rewrite H1, H2, length_take. cbn. lia.
Qed.

(** X11: on an array in ascending order [lowerBound] returns the number
    of elements below the target: every element before the returned index
    is below the target, every element from it on is not, so it is the
    first position where the target can be inserted. *)
Theorem lowerBound_counts_the_smaller (array : list Z) (target : Z) :
  StronglySorted Z.le array ->
  (lowerBound array target <= length array)%nat
  /\ Forall (fun v => v < target) (take (lowerBound array target) array)
  /\ Forall (fun v => target <= v) (drop (lowerBound array target) array)
  /\ lowerBound array target = length (List.filter (fun v => v <? target) array).
Proof.
  intros Hs.
  destruct (lowerBound_spec array target (sorted_by_index array Hs)) as (Hr & Hb & Ha).
  destruct (split_point_counts (fun v => v <? target) array (lowerBound array target) Hr)
    as (Ht & Hd & Hc).
  - intros i v Hi Hv. apply Z.ltb_lt. eauto.
  - intros i v Hi Hv. apply Z.ltb_ge. eauto.
  - split; [assumption |]. split; [| split; [| assumption]].
    + eapply Forall_impl; [exact Ht |]. cbn. intros v H. apply Z.ltb_lt. assumption.
    + eapply Forall_impl; [exact Hd |]. cbn. intros v H. apply Z.ltb_ge. assumption.
Qed.

(** X12: on an array in ascending order [upperBound] returns the number
    of elements that are not above the target: every element before the
    returned index is at most the target, every element from it on is
    above it; so it is never before [lowerBound], and the elements between
    the two indices are the occurrences of the target. *)
Theorem upperBound_counts_the_not_larger (array : list Z) (target : Z) :
  StronglySorted Z.le array ->
  (lowerBound array target <= upperBound array target <= length array)%nat
  /\ Forall (fun v => v <= target) (take (upperBound array target) array)
  /\ Forall (fun v => target < v) (drop (upperBound array target) array)
  /\ upperBound array target = length (List.filter (fun v => v <=? target) array)
  /\ (upperBound array target - lowerBound array target)%nat
     = length (List.filter (fun v => v =? target) array).
Proof.
  intros Hs.
  destruct (lowerBound_spec array target (sorted_by_index array Hs)) as (Hr' & Hb' & Ha').
  destruct (upperBound_spec array target (sorted_by_index array Hs)) as (Hr & Hb & Ha).
  destruct (split_point_counts (fun v => v <=? target) array (upperBound array target) Hr)
    as (Ht & Hd & Hc).
  { intros i v Hi Hv. apply Z.leb_le. eauto. }
  { intros i v Hi Hv. apply Z.leb_gt. eauto. }
  destruct (split_point_counts (fun v => v <? target) array (lowerBound array target) Hr')
    as (_ & _ & Hc').
  { intros i v Hi Hv. apply Z.ltb_lt. eauto. }
  { intros i v Hi Hv. apply Z.ltb_ge. eauto. }
  assert (Hcount : forall l : list Z,
             length (List.filter (fun v => v <=? target) l)
             = (length (List.filter (fun v => (v <? target)%Z) l)
                + length (List.filter (fun v => (v =? target)%Z) l))%nat).
  { induction l as [| v l IH]; [reflexivity |]. cbn.
    destruct (Z.leb_spec v target), (Z.ltb_spec v target), (Z.eqb_spec v target);
      cbn; lia. }
  split.
  { split; [| assumption]. rewrite Hc, Hc', Hcount. lia. }
  split.
  { eapply Forall_impl; [exact Ht |]. cbn. intros v H. apply Z.leb_le. assumption. }
  split.
  { eapply Forall_impl; [exact Hd |]. cbn. intros v H. apply Z.leb_gt. assumption. }
  split; [assumption |]. rewrite Hc, Hc' at 1. rewrite Hcount. lia.
Qed.

Lemma lowerBound_counts_the_smaller_witness :
  (lowerBound sampleArray 3%Z <= length sampleArray)%nat
  /\ Forall (fun v => v < 3) (take (lowerBound sampleArray 3) sampleArray)
  /\ Forall (fun v => 3 <= v) (drop (lowerBound sampleArray 3) sampleArray)
  /\ lowerBound sampleArray 3 = length (List.filter (fun v => v <? 3) sampleArray).
Proof.
  apply (lowerBound_counts_the_smaller sampleArray 3).
  repeat constructor; lia.
Defined.

Lemma upperBound_counts_the_not_larger_witness :
  (lowerBound sampleArray 3%Z <= upperBound sampleArray 3%Z <= length sampleArray)%nat
  /\ Forall (fun v => v <= 3) (take (upperBound sampleArray 3) sampleArray)
  /\ Forall (fun v => 3 < v) (drop (upperBound sampleArray 3) sampleArray)
  /\ upperBound sampleArray 3 = length (List.filter (fun v => v <=? 3) sampleArray)
  /\ (upperBound sampleArray 3%Z - lowerBound sampleArray 3%Z)%nat
     = length (List.filter (fun v => v =? 3) sampleArray).
Proof.
  apply (upperBound_counts_the_not_larger sampleArray 3).
  repeat constructor; lia.
Defined.

End Search.

(** * The pipeline: what it keeps and what it does not depend on *)

Section PipelineMore.

Import Js JsValue Money Engine.

Lemma applyPStep_length (st : PState) (j : nat) :
  length (ps_transactions (applyPStep st j)) = length (ps_transactions st).
Proof.
  unfold applyPStep. destruct (ps_transactions st !! j); [| reflexivity].
  cbv zeta. destruct (consume _ _ _). cbn. apply length_insert.
Qed.

Lemma applyPPeriods_length (txs : list Transaction) (ps : list PPeriod) (indices : list nat) :
  length (applyPPeriods txs ps indices) = length txs.
Proof.
  unfold applyPPeriods. destruct ps; [reflexivity |].
  cbv zeta.
  match goal with
  | |- length (ps_transactions (fold_left applyPStep indices ?st)) = _ =>
      change txs with (ps_transactions st) at 2; generalize st
  end.
  induction indices as [| j rest IH]; intros st; [reflexivity |].
  cbn [fold_left]. rewrite IH. apply applyPStep_length.
Qed.

Lemma pipeline_length (txs : list Transaction) (qs : list QPeriod) (ps : list PPeriod)
    (ks : list KPeriod) :
  length (fst (applyTemporalRules txs qs ps ks)) = length txs.
Proof.
  rewrite applyTemporalRules_fst. cbv zeta.
  rewrite applyPPeriods_length, applyQPeriods_length. reflexivity.
Qed.

(** The transactions after the override step and the additive step. *)
Lemma pipeline_outcome (txs : list Transaction) (qs : list QPeriod) (ps : list PPeriod)
    (ks : list KPeriod) :
  Forall (fun period => p_start period <= p_end period) ps ->
  forall i tx,
    txs !! i = Some tx ->
    exists f,
      fst (applyTemporalRules txs qs ps ks) !! i
      = Some (setRemanentFinal tx (f + extrasAt ps (epochSeconds tx)))
      /\ (qs <> [] -> overrideOutcome qs tx f)
      /\ (qs = [] -> f = remanentFinalPaise tx).
Proof.
  intros Hps i tx Hi.
  rewrite applyTemporalRules_fst. cbv zeta.
  pose proof (pipeline_indices txs) as Hsi.
  set (indices := JsArray.sort _ (seq 0 (length txs))) in *.
  destruct (applyQPeriods_outcome txs qs indices Hsi i tx Hi) as (f & Hf & Hne & Hnil).
  assert (Hsi' : sortedIndices (applyQPeriods txs qs indices) indices).
  { apply (sortedIndices_same_instants txs); [apply applyQPeriods_length | | assumption].
    intros i0 tx0 H0.
    destruct (applyQPeriods_outcome txs qs indices Hsi i0 tx0 H0) as (f0 & Hf0 & _). eauto. }
  rewrite (applyPPeriods_outcome _ ps indices Hsi' Hps i _ Hf).
  exists f. split; [reflexivity |]. split; assumption.
Qed.

Lemma containing_dec (qs : list QPeriod) (ts : Z) :
  (exists q, q ∈ qs /\ containsQ q ts) \/ (forall q, q ∈ qs -> ~ containsQ q ts).
Proof.
  induction qs as [| q qs [IH | IH]].
  - right. intros q Hq. inversion Hq.
  - left. destruct IH as (w & Hw & Hc). exists w. split; [right; assumption | assumption].
  - unfold containsQ in *.
    destruct (Z_le_dec (q_start q) ts) as [H1 | H1];
      [destruct (Z_le_dec ts (q_end q)) as [H2 | H2] |].
    + left. exists q. split; [left | lia].
    + right. intros w Hw. apply elem_of_cons in Hw as [-> | Hw]; [lia | auto].
    + right. intros w Hw. apply elem_of_cons in Hw as [-> | Hw]; [lia | auto].
Qed.

Lemma extrasAt_nonneg (ps : list PPeriod) (ts : Z) :
  Forall (fun period => 0 <= extraPaise period) ps -> 0 <= extrasAt ps ts.
Proof.
  induction 1 as [| period ps Hp _ IH]; [cbn; lia |].
  cbn [extrasAt foldr]. fold (extrasAt ps ts). destruct (containsP period ts); lia.
Qed.

Lemma extrasAt_Permutation (ps ps' : list PPeriod) (ts : Z) :
  Permutation ps ps' -> extrasAt ps ts = extrasAt ps' ts.
Proof.
  induction 1 as [| x l l' _ IH | x y l | l l' l'' _ IH1 _ IH2].
  - reflexivity.
  - cbn [extrasAt foldr]. fold (extrasAt l ts). fold (extrasAt l' ts). lia.
  - cbn [extrasAt foldr]. lia.
  - lia.
Qed.

(** What the parser guarantees of the amounts of the periods. *)
Lemma parseQPeriods_amounts (raws : list RawPeriod) (qs : list QPeriod) :
  parseQPeriods raws = Ok qs ->
  Forall (fun period => 0 <= fixedPaise period < MAX_AMOUNT_PAISE) qs.
Proof.
  apply mapIndexed_Forall. intros raw j period H. unfold parseQPeriod in H. cbv zeta in H.
  apply bind_Ok in H as (fixed & _ & H). apply bind_Ok in H as (u & Hu & H).
  apply bind_Ok in H as (st & _ & H). apply bind_Ok in H as (en & _ & H).
  destruct (en <? st); [discriminate |]. injection H as <-. cbn.
  apply validateMoneyRange_Ok in Hu. assumption.
Qed.

Lemma parsePPeriods_amounts (raws : list RawPeriod) (ps : list PPeriod) :
  parsePPeriods raws = Ok ps ->
  Forall (fun period => 0 <= extraPaise period < MAX_AMOUNT_PAISE) ps.
Proof.
  apply mapIndexed_Forall. intros raw j period H. unfold parsePPeriod in H. cbv zeta in H.
  apply bind_Ok in H as (extra & _ & H). apply bind_Ok in H as (u & Hu & H).
  apply bind_Ok in H as (st & _ & H). apply bind_Ok in H as (en & _ & H).
  destruct (en <? st); [discriminate |]. injection H as <-. cbn.
  apply validateMoneyRange_Ok in Hu. assumption.
Qed.

Lemma parseForFiltering_amounts (payload : Payload) (parsed : Parsed) :
  parseForFiltering payload = Ok parsed ->
  Forall (fun period => 0 <= fixedPaise period < MAX_AMOUNT_PAISE) (qPeriods parsed)
  /\ Forall (fun period => 0 <= extraPaise period < MAX_AMOUNT_PAISE) (pPeriods parsed).
Proof.
  intros H. unfold parseForFiltering in H.
  repeat (apply bind_Ok in H as (? & ? & H)). injection H as <-. cbn.
  split.
  - match goal with H : parseQPeriods _ = _ |- _ => exact (parseQPeriods_amounts _ _ H) end.
  - match goal with H : parsePPeriods _ = _ |- _ => exact (parsePPeriods_amounts _ _ H) end.
Qed.

Lemma filteringLoop_base_nonneg (raws : list RawTransaction) (i : nat) (st st' : Filtering) :
  filteringLoop raws i st = Ok st' ->
  Forall (fun tx => 0 <= remanentBasePaise tx) (f_validTransactions st) ->
  Forall (fun tx => 0 <= remanentBasePaise tx) (f_validTransactions st').
Proof.
  revert i st. induction raws as [| raw raws IH]; intros i st H Hf.
  - injection H as <-. assumption.
  - cbn [filteringLoop] in H.
    destruct (parseTransactionInput raw i "transactions") as [tx | e] eqn:Hp.
    + destruct (f_seen st !! timestamp tx).
      * apply IH in H; assumption.
      * apply IH in H; [assumption |]. cbn.
        apply Forall_app. split; [assumption |].
        constructor; [| constructor].
        destruct (parseTransactionInput_Ok _ _ _ _ Hp) as (_ & _ & Hb & _).
        destruct (parseTransactionInput_steps _ _ _ _ Hp) as (_ & _ & _ & Hle & _). lia.
    + destruct (isApiError e); [| discriminate]. apply IH in H; assumption.
Qed.

(** X13: the filter path keeps the valid transactions in the order of the
    input and changes nothing of them but the final remanent, which is
    never negative: it is the override result (a fixed amount or the base
    remanent) plus the extras that apply, none of which is negative. *)
Theorem filtered_remanents_are_not_negative (payload : Payload) (r : Filtered) :
  processFiltering payload = Ok r ->
  exists parsed,
    parseForFiltering payload = Ok parsed
    /\ length (fd_validTransactions r) = length (validTransactions parsed)
    /\ forall i tx,
         validTransactions parsed !! i = Some tx ->
         exists f,
           fd_validTransactions r !! i = Some (setRemanentFinal tx f)
           /\ 0 <= f
           /\ f - extrasAt (pPeriods parsed) (epochSeconds tx) >= 0
           /\ extrasAt (pPeriods parsed) (epochSeconds tx) >= 0.
Proof.
  intros H. apply processFiltering_Ok in H as (parsed & Hparsed & Hv & _).
  exists parsed. split; [assumption |]. rewrite Hv. split; [apply pipeline_length |].
  destruct (parseForFiltering_conditions _ _ Hparsed) as (Hwb & _ & Hps & _).
  destruct (parseForFiltering_amounts _ _ Hparsed) as (Hqa & Hpa).
  assert (Hbase : Forall (fun tx => 0 <= remanentBasePaise tx) (validTransactions parsed)).
  { unfold parseForFiltering in Hparsed.
    repeat (apply bind_Ok in Hparsed as (? & ? & Hparsed)). injection Hparsed as <-. cbn.
    match goal with
    | H : filteringLoop _ _ _ = _ |- _ =>
        apply filteringLoop_base_nonneg in H; [assumption | constructor]
    end. }
  intros i tx Hi.
  destruct (pipeline_outcome _ (qPeriods parsed) _ (kPeriods parsed) Hps i tx Hi)
    as (f & Hf & Hne & Hnil).
  exists (f + extrasAt (pPeriods parsed) (epochSeconds tx)). split; [assumption |].
  assert (Hextra : 0 <= extrasAt (pPeriods parsed) (epochSeconds tx)).
  { apply extrasAt_nonneg. eapply Forall_impl; [exact Hpa |]. cbn. intros; lia. }
  assert (Htx : wellBuilt tx /\ 0 <= remanentBasePaise tx).
  { rewrite Forall_forall in Hwb, Hbase.
    assert (tx ∈ validTransactions parsed) by (eapply list_elem_of_lookup_2; eassumption).
    auto. }
  destruct Htx as [[Hfresh _] Hb].
  assert (Hfn : 0 <= f).
  { destruct (decide (qPeriods parsed = [])) as [Hq | Hq].
    - rewrite (Hnil Hq), Hfresh. assumption.
    - destruct (Hne Hq) as [Hsome Hnone].
      destruct (containing_dec (qPeriods parsed) (epochSeconds tx)) as [Hc | Hc].
      + destruct (Hsome Hc) as (w & Hw & _ & _ & ->).
        rewrite Forall_forall in Hqa. specialize (Hqa w Hw). lia.
      + rewrite (Hnone Hc). assumption. }
  lia.
Qed.

Lemma samplePayload_filtered : processFiltering samplePayload = Ok sampleFiltered.
Proof. vm_compute. reflexivity. Qed.

Lemma filtered_remanents_are_not_negative_witness :
  exists parsed,
    parseForFiltering samplePayload = Ok parsed
    /\ length (fd_validTransactions sampleFiltered) = length (validTransactions parsed)
    /\ forall i tx,
         validTransactions parsed !! i = Some tx ->
         exists f,
           fd_validTransactions sampleFiltered !! i = Some (setRemanentFinal tx f)
           /\ 0 <= f
           /\ f - extrasAt (pPeriods parsed) (epochSeconds tx) >= 0
           /\ extrasAt (pPeriods parsed) (epochSeconds tx) >= 0.
Proof.
  apply (filtered_remanents_are_not_negative samplePayload sampleFiltered).
  exact samplePayload_filtered.
Defined.

(** X14: the order of the additive periods in the input does not matter:
    the pipeline gives the same transactions and the same window amounts
    for the periods in any other order. *)
Theorem additive_periods_order_is_irrelevant (txs : list Transaction) (qs : list QPeriod)
    (ps ps' : list PPeriod) (ks : list KPeriod) :
  Forall (fun period => p_start period <= p_end period) ps ->
  Permutation ps ps' ->
  applyTemporalRules txs qs ps ks = applyTemporalRules txs qs ps' ks.
Proof.
  intros Hps Hperm.
  assert (Hps' : Forall (fun period => p_start period <= p_end period) ps').
  { rewrite <- Hperm. assumption. }
  assert (Hfst : fst (applyTemporalRules txs qs ps ks) = fst (applyTemporalRules txs qs ps' ks)).
  { apply list_eq. intros i.
    destruct (txs !! i) as [tx |] eqn:Hi.
    - rewrite !applyTemporalRules_fst. cbv zeta.
      pose proof (pipeline_indices txs) as Hsi.
      set (indices := JsArray.sort _ (seq 0 (length txs))) in *.
      destruct (applyQPeriods_outcome txs qs indices Hsi i tx Hi) as (f & Hf & _).
      assert (Hsi' : sortedIndices (applyQPeriods txs qs indices) indices).
      { apply (sortedIndices_same_instants txs); [apply applyQPeriods_length | | assumption].
        intros i0 tx0 H0.
        destruct (applyQPeriods_outcome txs qs indices Hsi i0 tx0 H0) as (f0 & Hf0 & _).
        eauto. }
      rewrite (applyPPeriods_outcome _ ps indices Hsi' Hps i _ Hf).
      rewrite (applyPPeriods_outcome _ ps' indices Hsi' Hps' i _ Hf).
      rewrite (extrasAt_Permutation ps ps' _ Hperm). reflexivity.
    - apply lookup_ge_None in Hi.
      rewrite !lookup_ge_None_2; [reflexivity | |]; rewrite pipeline_length; assumption. }
  unfold applyTemporalRules in *. cbv zeta in *. cbn [fst] in Hfst.
  rewrite Hfst. reflexivity.
Qed.

(** Three different periods, in the order of the input and in the reverse
    order. *)
Lemma additive_periods_order_is_irrelevant_witness :
  applyTemporalRules fixtureTransactions fixtureQ overlapP fixtureK
  = applyTemporalRules fixtureTransactions fixtureQ (rev overlapP) fixtureK
  /\ map extraPaise overlapP = [2500; 700; 900]
  /\ map extraPaise (rev overlapP) = [900; 700; 2500]
  /\ map remanentFinalPaise
       (fst (applyTemporalRules fixtureTransactions fixtureQ (rev overlapP) fixtureK))
     = [5900; 2500; 3200; 2900].
Proof.
  split; [| repeat split; vm_compute; reflexivity].
  apply additive_periods_order_is_irrelevant.
  - repeat constructor; vm_compute; discriminate.
  - apply Permutation_rev.
Defined.

(** The winner among the override periods is one period. *)
Lemma overrideOutcome_unique (qs : list QPeriod) (tx : Transaction) (f g : Z) :
  (forall i q, qs !! i = Some q -> inputOrder q = i) ->
  overrideOutcome qs tx f ->
  forall tx',
    epochSeconds tx' = epochSeconds tx -> remanentBasePaise tx' = remanentBasePaise tx ->
    overrideOutcome qs tx' g -> f = g.
Proof.
  intros Hpos [Hsome Hnone] tx' He Hb [Hsome' Hnone']. rewrite He in *.
  destruct (containing_dec qs (epochSeconds tx)) as [Hc | Hc].
  - destruct (Hsome Hc) as (w & Hw & Hcw & Hmax & ->).
    destruct (Hsome' Hc) as (w' & Hw' & Hcw' & Hmax' & ->).
    pose proof (Hmax w' Hw' Hcw') as H1. pose proof (Hmax' w Hw Hcw) as H2.
    unfold hasPriority in H1, H2.
    assert (Horder : inputOrder w = inputOrder w') by lia.
    apply list_elem_of_lookup in Hw as [i Hi]. apply list_elem_of_lookup in Hw' as [i' Hi'].
    pose proof (Hpos _ _ Hi). pose proof (Hpos _ _ Hi').
    assert (i = i') by congruence. subst i'. congruence.
  - rewrite (Hnone Hc), (Hnone' Hc). symmetry. assumption.
Qed.

(** X15: the final remanent of a transaction depends on its instant, its
    remanent and the periods only, not on the other transactions of the
    batch nor on its position among them. *)
Theorem final_remanent_ignores_the_batch (txs txs' : list Transaction) (qs : list QPeriod)
    (ps : list PPeriod) (ks ks' : list KPeriod) (i i' : nat) (tx tx' : Transaction) :
  (forall j q, qs !! j = Some q -> inputOrder q = j) ->
  Forall (fun period => p_start period <= p_end period) ps ->
  txs !! i = Some tx ->
  txs' !! i' = Some tx' ->
  epochSeconds tx' = epochSeconds tx ->
  remanentBasePaise tx' = remanentBasePaise tx ->
  remanentFinalPaise tx' = remanentFinalPaise tx ->
  remanentFinalPaise <$> fst (applyTemporalRules txs qs ps ks) !! i
  = remanentFinalPaise <$> fst (applyTemporalRules txs' qs ps ks') !! i'.
Proof.
  intros Hpos Hps Hi Hi' He Hb Hf.
  destruct (pipeline_outcome txs qs ps ks Hps i tx Hi) as (f & -> & Hne & Hnil).
  destruct (pipeline_outcome txs' qs ps ks' Hps i' tx' Hi') as (g & -> & Hne' & Hnil').
  cbn. rewrite He. do 2 f_equal.
  destruct (decide (qs = [])) as [Hq | Hq].
  - rewrite (Hnil Hq), (Hnil' Hq). symmetry. assumption.
  - apply (overrideOutcome_unique qs tx f g Hpos (Hne Hq) tx' He Hb (Hne' Hq)).
Qed.

Lemma final_remanent_ignores_the_batch_witness :
  remanentFinalPaise
    <$> fst (applyTemporalRules fixtureTransactions fixtureQ fixtureP fixtureK) !! 2%nat
  = remanentFinalPaise
      <$> fst (applyTemporalRules
                 [fixtureTransaction "2023-07-01 21:59:00" 1688228940 62000 70000 0]
                 fixtureQ fixtureP []) !! 0%nat.
Proof.
  apply (final_remanent_ignores_the_batch fixtureTransactions
           [fixtureTransaction "2023-07-01 21:59:00" 1688228940 62000 70000 0]
           fixtureQ fixtureP fixtureK [] 2 0
           (fixtureTransaction "2023-07-01 21:59:00" 1688228940 62000 70000 2)
           (fixtureTransaction "2023-07-01 21:59:00" 1688228940 62000 70000 0)).
  - intros [| j] q Hq; [injection Hq as <-; reflexivity | discriminate].
  - repeat constructor; vm_compute; discriminate.
  - reflexivity.
  - reflexivity.
  - reflexivity.
  - reflexivity.
  - reflexivity.
Defined.

(** X16: a window that contains the instants of all transactions reports
    the total of the final remanents, the amount the filter operation
    returns as [transactionsTotalRemanent]; without transactions it
    reports zero. *)
Theorem covering_window_reports_the_total (txs : list Transaction) (qs : list QPeriod)
    (ps : list PPeriod) (ks : list KPeriod) (j : nat) (period : KPeriod) :
  Forall (fun p => p_start p <= p_end p) ps ->
  ks !! j = Some period ->
  k_start period <= k_end period ->
  Forall (fun tx => k_start period <= epochSeconds tx <= k_end period) txs ->
  exists entry,
    snd (applyTemporalRules txs qs ps ks) !! j = Some entry
    /\ sd_start entry = startText period
    /\ sd_end entry = endText period
    /\ sd_amountPaise entry
       = sumOf remanentFinalPaise (fst (applyTemporalRules txs qs ps ks))
    /\ sd_amount entry
       = moneyToFixed2 (sumOf remanentFinalPaise (fst (applyTemporalRules txs qs ps ks))).
Proof.
  intros Hps Hj Hk Hall.
  set (out := fst (applyTemporalRules txs qs ps ks)).
  assert (Hsnd : snd (applyTemporalRules txs qs ps ks)
                 = map (fun entry =>
                          {| sd_start := sv_start entry;
                             sd_end := sv_end entry;
                             sd_amount := moneyToFixed2 (sv_amountPaise entry);
                             sd_amountPaise := sv_amountPaise entry |})
                       (buildSavingsByKPeriods out ks)) by reflexivity.
  rewrite Hsnd, buildSavingsByKPeriods_eq, !lookup_map, Hj.
  cbn [fmap option_fmap option_map]. cbv zeta.
  eexists. split; [reflexivity |].
  cbn [sd_start sd_end sd_amountPaise sd_amount sv_start sv_end sv_amountPaise].
  assert (Hsum : at0 (prefixFrom 0 (map remanentFinalPaise
                        (JsArray.sort (fun a b => epochSeconds a - epochSeconds b) out)))
                   (upperBound (map epochSeconds
                        (JsArray.sort (fun a b => epochSeconds a - epochSeconds b) out))
                      (k_end period))
                 - at0 (prefixFrom 0 (map remanentFinalPaise
                        (JsArray.sort (fun a b => epochSeconds a - epochSeconds b) out)))
                     (lowerBound (map epochSeconds
                        (JsArray.sort (fun a b => epochSeconds a - epochSeconds b) out))
                        (k_start period))
                 = sumOf remanentFinalPaise out).
  { rewrite prefix_difference; [| apply (sort_sorted epochSeconds) | assumption].
    rewrite (windowSum_Permutation _ out) by apply sort_Permutation.
    rewrite windowSum_inside; [symmetry; apply sumOf_sumZ |].
    apply Forall_lookup. intros i tx' Hi.
    assert (Hlt : (i < length txs)%nat).
    { apply lookup_lt_Some in Hi. unfold out in Hi. rewrite pipeline_length in Hi. exact Hi. }
    destruct (lookup_lt_is_Some_2 txs i Hlt) as [tx Htx].
    destruct (pipeline_outcome txs qs ps ks Hps i tx Htx) as (f & Hf & _).
    fold out in Hf. rewrite Hf in Hi. injection Hi as <-.
    rewrite Forall_forall in Hall.
    specialize (Hall tx (list_elem_of_lookup_2 _ _ _ Htx)).
    unfold inWindow. cbn [epochSeconds setRemanentFinal].
    apply andb_true_intro. split; [apply Z.leb_le | apply Z.leb_le]; lia. }
  rewrite Hsum. repeat split.
Qed.

Lemma covering_window_reports_the_total_witness :
  exists entry,
    snd (applyTemporalRules fixtureTransactions fixtureQ fixtureP fixtureK) !! 1%nat
    = Some entry
    /\ sd_start entry = JStr "2023-01-01 00:00:00"
    /\ sd_end entry = JStr "2023-12-31 23:59:59"
    /\ sd_amountPaise entry
       = sumOf remanentFinalPaise
           (fst (applyTemporalRules fixtureTransactions fixtureQ fixtureP fixtureK))
    /\ sd_amount entry
       = moneyToFixed2
           (sumOf remanentFinalPaise
              (fst (applyTemporalRules fixtureTransactions fixtureQ fixtureP fixtureK))).
Proof.
  apply (covering_window_reports_the_total fixtureTransactions fixtureQ fixtureP fixtureK 1
           {| k_id := JStr "k-1";
              k_start := 1672511400; k_end := 1704047399;
              startText := JStr "2023-01-01 00:00:00";
              endText := JStr "2023-12-31 23:59:59";
              k_inputOrder := 1 |}).
  - repeat constructor; vm_compute; discriminate.
  - reflexivity.
  - vm_compute. discriminate.
  - repeat constructor; vm_compute; discriminate.
Defined.

End PipelineMore.

(** * Batches: what the valid output never holds *)

Section BatchMore.

Import Js JsValue Money Engine.

(** The valid transactions so far: their texts are in [seen], they differ
    pairwise, and the input positions ascend below [i]. *)
Lemma valid_step (valid : list Transaction) (seen : gmap string nat) (i : nat)
    (raw : RawTransaction) (tx : Transaction) :
  parseTransactionInput raw i "transactions" = Ok tx ->
  seen !! timestamp tx = None ->
  (forall t, t ∈ valid -> is_Some (seen !! timestamp t) /\ (inputIndex t < i)%nat) ->
  NoDup (map timestamp valid) ->
  StronglySorted lt (map inputIndex valid) ->
  (forall t, t ∈ valid ++ [tx] ->
             is_Some (<[timestamp tx := i]> seen !! timestamp t) /\ (inputIndex t < S i)%nat)
  /\ NoDup (map timestamp (valid ++ [tx]))
  /\ StronglySorted lt (map inputIndex (valid ++ [tx])).
Proof.
  intros Hp Hnone Hin Hnd Hs.
  destruct (parseTransactionInput_Ok _ _ _ _ Hp) as (_ & Hidx & _).
  split; [| split].
  - intros t Ht. apply elem_of_app in Ht as [Ht | Ht].
    + destruct (Hin t Ht) as [Hsome Hlt]. split; [| lia].
      destruct (decide (timestamp tx = timestamp t)) as [Heq | Hne].
      * rewrite Heq, lookup_insert_eq. eauto.
      * rewrite lookup_insert_ne by assumption. assumption.
    + apply list_elem_of_singleton in Ht as ->. rewrite lookup_insert_eq. split; [eauto | lia].
  - rewrite map_app. apply NoDup_app. split; [assumption |]. split.
    + intros text Htext Htx. cbn in Htx. apply list_elem_of_singleton in Htx as ->.
      apply list_elem_of_fmap in Htext as (t & Heq & Ht).
      destruct (Hin t Ht) as [[n Hn] _]. rewrite <- Heq in Hn. congruence.
    + cbn. apply NoDup_singleton.
  - rewrite map_app. cbn [map].
    clear - Hs Hin Hidx. induction valid as [| t valid IH]; cbn.
    + repeat constructor.
    + cbn in Hs. apply StronglySorted_inv in Hs as [Hs Hall].
      constructor.
      * apply IH; [| assumption]. intros t' Ht'. apply Hin. right. assumption.
      * apply Forall_app. split; [assumption |].
        constructor; [| constructor]. rewrite Hidx.
        apply (Hin t). left.
Qed.

Lemma valid_weaken (valid : list Transaction) (seen : gmap string nat) (i : nat)
    (text : string) :
  (forall t, t ∈ valid -> is_Some (seen !! timestamp t) /\ (inputIndex t < i)%nat) ->
  (forall t, t ∈ valid -> is_Some (seen !! timestamp t) /\ (inputIndex t < S i)%nat)
  /\ (forall t, t ∈ valid ->
                is_Some (<[text := i]> seen !! timestamp t) /\ (inputIndex t < S i)%nat).
Proof.
  intros Hin. split; intros t Ht; destruct (Hin t Ht) as [Hsome Hlt]; split; try lia.
  - assumption.
  - destruct (decide (text = timestamp t)) as [-> | Hne].
    + rewrite lookup_insert_eq. eauto.
    + rewrite lookup_insert_ne by assumption. assumption.
Qed.

Lemma filteringLoop_distinct (raws : list RawTransaction) :
  forall (i : nat) (st st' : Filtering),
    filteringLoop raws i st = Ok st' ->
    (forall t, t ∈ f_validTransactions st ->
               is_Some (f_seen st !! timestamp t) /\ (inputIndex t < i)%nat) ->
    NoDup (map timestamp (f_validTransactions st)) ->
    StronglySorted lt (map inputIndex (f_validTransactions st)) ->
    NoDup (map timestamp (f_validTransactions st'))
    /\ StronglySorted lt (map inputIndex (f_validTransactions st')).
Proof.
  induction raws as [| raw raws IH]; intros i st st' H Hin Hnd Hs.
  - injection H as <-. auto.
  - cbn [filteringLoop] in H.
    destruct (parseTransactionInput raw i "transactions") as [tx | e] eqn:Hp.
    + destruct (f_seen st !! timestamp tx) as [first |] eqn:Hseen.
      * apply IH in H; [assumption | | assumption | assumption].
        cbn. apply (valid_weaken _ _ i EmptyString). assumption.
      * destruct (valid_step _ _ _ _ _ Hp Hseen Hin Hnd Hs) as (H1 & H2 & H3).
        apply IH in H; assumption.
    + destruct (isApiError e); [| discriminate].
      apply IH in H; [assumption | | assumption | assumption].
      cbn. apply (valid_weaken _ _ i EmptyString). assumption.
Qed.

Lemma validationLoop_distinct (raws : list RawTransaction) :
  forall (i : nat) (st st' : Validation),
    validationLoop raws i st = Ok st' ->
    (forall t, t ∈ v_valid st ->
               is_Some (v_seen st !! timestamp t) /\ (inputIndex t < i)%nat) ->
    NoDup (map timestamp (v_valid st)) ->
    StronglySorted lt (map inputIndex (v_valid st)) ->
    NoDup (map timestamp (v_valid st'))
    /\ StronglySorted lt (map inputIndex (v_valid st')).
Proof.
  induction raws as [| raw raws IH]; intros i st st' H Hin Hnd Hs.
  - injection H as <-. auto.
  - cbn [validationLoop] in H.
    destruct (parseTransactionInput raw i "transactions") as [tx | e] eqn:Hp.
    + cbv zeta in H. destruct (v_seen st !! timestamp tx) as [first |] eqn:Hseen.
      * apply IH in H; [assumption | | assumption | assumption].
        cbn. apply (valid_weaken _ _ i EmptyString). assumption.
      * apply bind_Ok in H as (mismatch & _ & H). destruct mismatch.
        -- apply IH in H; [assumption | | assumption | assumption].
           cbn. apply (valid_weaken _ _ i (timestamp tx)). assumption.
        -- destruct (valid_step _ _ _ _ _ Hp Hseen Hin Hnd Hs) as (H1 & H2 & H3).
           apply IH in H; assumption.
    + destruct (isApiError e); [| discriminate].
      apply IH in H; [assumption | | assumption | assumption].
      cbn. apply (valid_weaken _ _ i EmptyString). assumption.
Qed.

(** X17: the valid output of the filter path and of the validator never
    holds two transactions with the same timestamp text, and it lists the
    transactions in the order of the input: their input positions
    ascend. *)
Theorem valid_output_has_distinct_timestamps (payload : Payload) :
  (forall parsed,
      parseForFiltering payload = Ok parsed ->
      NoDup (map timestamp (validTransactions parsed))
      /\ StronglySorted lt (map inputIndex (validTransactions parsed)))
  /\ (forall valid invalid duplicates,
         parseAndValidateTransactionsForValidation payload = Ok (valid, invalid, duplicates) ->
         NoDup (map timestamp valid) /\ StronglySorted lt (map inputIndex valid)).
Proof.
  split.
  - intros parsed H. apply parseForFiltering_loop in H as (raws & st & _ & Hloop & -> & _).
    apply (filteringLoop_distinct raws 0 initialFiltering st Hloop).
    + intros t Ht. inversion Ht.
    + constructor.
    + constructor.
  - intros valid invalid duplicates H. unfold parseAndValidateTransactionsForValidation in H.
    apply bind_Ok in H as (raws & _ & H). apply bind_Ok in H as (st & Hloop & H).
    injection H as <- _ _.
    apply (validationLoop_distinct raws 0 _ st Hloop).
    + intros t Ht. inversion Ht.
    + constructor.
    + constructor.
Qed.

(** [map] succeeds when its function succeeds on every element. *)
Lemma mapIndexed_all_Ok {A B : Type} (f : A -> nat -> result B) (l : list A) :
  forall start,
    (forall i x, l !! i = Some x -> exists y, f x (start + i)%nat = Ok y) ->
    exists r, mapIndexed f l start = Ok r.
Proof.
  induction l as [| x l IH]; intros start Hall; [exists []; reflexivity |].
  destruct (Hall 0%nat x eq_refl) as [y Hy]. rewrite Nat.add_0_r in Hy.
  destruct (IH (S start)) as [r Hr].
  { intros i z Hz. destruct (Hall (S i) z Hz) as [y' Hy']. exists y'.
    rewrite <- Hy'. f_equal. lia. }
  exists (y :: r). cbn [mapIndexed]. rewrite Hy. cbn [bind]. rewrite Hr. reflexivity.
Qed.

(** X18: the period parsers return one period per input period, in the
    order of the input, each built from the input period at its position:
    its parsed instants, with the start not after the end, its parsed
    amount (for an override or additive period), from 0 up to, not
    including, [MAX_AMOUNT_PAISE], its input position (override periods
    and windows) and, for a window, the texts of its bounds as they were
    sent.  A list is accepted whenever every period of it has bounds that
    parse, with the start not after the end, and an amount in range; so a
    period of a single instant is accepted. *)
Theorem accepted_periods_invariants (raws : list RawPeriod) :
  (forall qs,
      parseQPeriods raws = Ok qs ->
      length qs = length raws
      /\ forall i period,
           qs !! i = Some period ->
           exists raw,
             raws !! i = Some raw
             /\ parseNumericField (raw_fixed raw) (indexed "q" i ++ ".fixed")
                = Ok (fixedPaise period)
             /\ parsePeriodTimestamp (raw_start raw) (indexed "q" i ++ ".start")
                = Ok (q_start period)
             /\ parsePeriodTimestamp (raw_end raw) (indexed "q" i ++ ".end")
                = Ok (q_end period)
             /\ inputOrder period = i
             /\ q_start period <= q_end period
             /\ 0 <= fixedPaise period < MAX_AMOUNT_PAISE)
  /\ ((forall i raw,
          raws !! i = Some raw ->
          exists fixed start end_,
            parseNumericField (raw_fixed raw) (indexed "q" i ++ ".fixed") = Ok fixed
            /\ 0 <= fixed < MAX_AMOUNT_PAISE
            /\ parsePeriodTimestamp (raw_start raw) (indexed "q" i ++ ".start") = Ok start
            /\ parsePeriodTimestamp (raw_end raw) (indexed "q" i ++ ".end") = Ok end_
            /\ start <= end_) ->
      exists qs, parseQPeriods raws = Ok qs)
  /\ (forall ps,
         parsePPeriods raws = Ok ps ->
         length ps = length raws
         /\ forall i period,
              ps !! i = Some period ->
              exists raw,
                raws !! i = Some raw
                /\ parseNumericField (raw_extra raw) (indexed "p" i ++ ".extra")
                   = Ok (extraPaise period)
                /\ parsePeriodTimestamp (raw_start raw) (indexed "p" i ++ ".start")
                   = Ok (p_start period)
                /\ parsePeriodTimestamp (raw_end raw) (indexed "p" i ++ ".end")
                   = Ok (p_end period)
                /\ p_start period <= p_end period
                /\ 0 <= extraPaise period < MAX_AMOUNT_PAISE)
  /\ ((forall i raw,
          raws !! i = Some raw ->
          exists extra start end_,
            parseNumericField (raw_extra raw) (indexed "p" i ++ ".extra") = Ok extra
            /\ 0 <= extra < MAX_AMOUNT_PAISE
            /\ parsePeriodTimestamp (raw_start raw) (indexed "p" i ++ ".start") = Ok start
            /\ parsePeriodTimestamp (raw_end raw) (indexed "p" i ++ ".end") = Ok end_
            /\ start <= end_) ->
      exists ps, parsePPeriods raws = Ok ps)
  /\ (forall ks,
         parseKPeriods raws = Ok ks ->
         length ks = length raws
         /\ forall i period,
              ks !! i = Some period ->
              exists raw,
                raws !! i = Some raw
                /\ k_inputOrder period = i
                /\ k_start period <= k_end period
                /\ startText period = raw_start raw
                /\ endText period = raw_end raw
                /\ Time.parseTimestampToEpochSeconds (raw_start raw)
                     (indexed "k" i ++ ".start") = Ok (k_start period)
                /\ Time.parseTimestampToEpochSeconds (raw_end raw)
                     (indexed "k" i ++ ".end") = Ok (k_end period))
  /\ ((forall i raw,
          raws !! i = Some raw ->
          exists start end_,
            parsePeriodTimestamp (raw_start raw) (indexed "k" i ++ ".start") = Ok start
            /\ parsePeriodTimestamp (raw_end raw) (indexed "k" i ++ ".end") = Ok end_
            /\ start <= end_) ->
      exists ks, parseKPeriods raws = Ok ks).
Proof.
  split; [| split; [| split; [| split; [| split]]]].
  - intros qs H. split; [exact (mapIndexed_length _ _ _ _ H) |].
    intros i period Hi.
    destruct (mapIndexed_lookup _ _ _ _ H i period Hi) as (raw & Hraw & Hp).
    cbn [Nat.add] in Hp. exists raw. split; [assumption |].
    unfold parseQPeriod in Hp. cbv zeta in Hp.
    apply bind_Ok in Hp as (fixed & Hfixed & Hp). apply bind_Ok in Hp as (u & Hu & Hp).
    apply bind_Ok in Hp as (st & Hst & Hp). apply bind_Ok in Hp as (en & Hen & Hp).
    destruct (Z.ltb_spec en st); [discriminate |]. injection Hp as <-.
    cbn [fixedPaise q_start q_end inputOrder].
    apply validateMoneyRange_Ok in Hu. repeat split; try assumption; lia.
  - intros Hall. apply mapIndexed_all_Ok. intros i raw Hraw. cbn [Nat.add].
    destruct (Hall i raw Hraw) as (fixed & st & en & Hfixed & Hrange & Hst & Hen & Hle).
    unfold parseQPeriod. cbv zeta. rewrite Hfixed. cbn [bind].
    rewrite (validateMoneyRange_in _ _ _ _ Hrange). cbn [bind].
    rewrite Hst. cbn [bind]. rewrite Hen. cbn [bind].
    destruct (Z.ltb_spec en st); [lia |]. eauto.
  - intros ps H. split; [exact (mapIndexed_length _ _ _ _ H) |].
    intros i period Hi.
    destruct (mapIndexed_lookup _ _ _ _ H i period Hi) as (raw & Hraw & Hp).
    cbn [Nat.add] in Hp. exists raw. split; [assumption |].
    unfold parsePPeriod in Hp. cbv zeta in Hp.
    apply bind_Ok in Hp as (extra & Hextra & Hp). apply bind_Ok in Hp as (u & Hu & Hp).
    apply bind_Ok in Hp as (st & Hst & Hp). apply bind_Ok in Hp as (en & Hen & Hp).
    destruct (Z.ltb_spec en st); [discriminate |]. injection Hp as <-.
    cbn [extraPaise p_start p_end].
    apply validateMoneyRange_Ok in Hu. repeat split; try assumption; lia.
  - intros Hall. apply mapIndexed_all_Ok. intros i raw Hraw. cbn [Nat.add].
    destruct (Hall i raw Hraw) as (extra & st & en & Hextra & Hrange & Hst & Hen & Hle).
    unfold parsePPeriod. cbv zeta. rewrite Hextra. cbn [bind].
    rewrite (validateMoneyRange_in _ _ _ _ Hrange). cbn [bind].
    rewrite Hst. cbn [bind]. rewrite Hen. cbn [bind].
    destruct (Z.ltb_spec en st); [lia |]. eauto.
  - intros ks H. split; [exact (mapIndexed_length _ _ _ _ H) |].
    intros i period Hi.
    destruct (mapIndexed_lookup _ _ _ _ H i period Hi) as (raw & Hraw & Hp).
    cbn [Nat.add] in Hp. exists raw. split; [assumption |].
    unfold parseKPeriod in Hp. cbv zeta in Hp.
    apply bind_Ok in Hp as (st & Hst & Hp). apply bind_Ok in Hp as (en & Hen & Hp).
    destruct (Z.ltb_spec en st); [discriminate |]. injection Hp as <-.
    cbn [k_inputOrder k_start k_end startText endText].
    unfold parsePeriodTimestamp in Hst, Hen.
    destruct (Time.parseTimestampToEpochSeconds (raw_start raw) _) eqn:H1; [| discriminate].
    destruct (Time.parseTimestampToEpochSeconds (raw_end raw) _) eqn:H2; [| discriminate].
    injection Hst as ->. injection Hen as ->. repeat split; assumption.
  - intros Hall. apply mapIndexed_all_Ok. intros i raw Hraw. cbn [Nat.add].
    destruct (Hall i raw Hraw) as (st & en & Hst & Hen & Hle).
    unfold parseKPeriod. cbv zeta. rewrite Hst. cbn [bind]. rewrite Hen. cbn [bind].
    destruct (Z.ltb_spec en st); [lia |]. eauto.
Qed.

(** A period of the single instant 2023-07-01 00:00:00 is accepted as an
    override period, as an additive period and as a window. *)
Lemma accepted_periods_invariants_witness :
  exists q p k,
    parseQPeriods [instantPeriod] = Ok [q]
    /\ q_start q = 1688149800 /\ q_end q = 1688149800 /\ fixedPaise q = 0
    /\ parsePPeriods [instantPeriod] = Ok [p]
    /\ p_start p = 1688149800 /\ p_end p = 1688149800 /\ extraPaise p = 2500
    /\ parseKPeriods [instantPeriod] = Ok [k]
    /\ k_start k = 1688149800 /\ k_end k = 1688149800.
Proof.
  destruct (accepted_periods_invariants [instantPeriod])
    as (_ & Hq & _ & Hp & _ & Hk).
  destruct Hq as [qs Hqs].
  { intros [| i] raw Hraw; [| discriminate]. injection Hraw as <-.
    exists 0, 1688149800, 1688149800.
    repeat split; try (vm_compute; reflexivity); vm_compute; discriminate. }
  destruct Hp as [ps Hps].
  { intros [| i] raw Hraw; [| discriminate]. injection Hraw as <-.
    exists 2500, 1688149800, 1688149800.
    repeat split; try (vm_compute; reflexivity); vm_compute; discriminate. }
  destruct Hk as [ks Hks].
  { intros [| i] raw Hraw; [| discriminate]. injection Hraw as <-.
    exists 1688149800, 1688149800.
    repeat split; try (vm_compute; reflexivity); vm_compute; discriminate. }
  pose proof Hqs as Hqs'. pose proof Hps as Hps'. pose proof Hks as Hks'.
  vm_compute in Hqs'. vm_compute in Hps'. vm_compute in Hks'.
  injection Hqs' as <-. injection Hps' as <-. injection Hks' as <-.
  eexists _, _, _.
  split; [exact Hqs |]. split; [reflexivity |]. split; [reflexivity |].
  split; [reflexivity |].
  split; [exact Hps |]. split; [reflexivity |]. split; [reflexivity |].
  split; [reflexivity |].
  split; [exact Hks |]. split; reflexivity.
Defined.

End BatchMore.

(** * The codecs, the other way round *)

Section Codecs.

Import Js JsValue Time Money.

Lemma trimEnd_digits (s : string) : allDigits s = true -> trimEnd s = s.
Proof.
  induction s as [| c s IH]; [reflexivity |]. cbn [allDigits trimEnd].
  intros H. apply andb_prop in H as [Hc Hs]. rewrite (IH Hs).
  rewrite (isDigit_not_whiteSpace c Hc), andb_false_r. reflexivity.
Qed.

Lemma trimEnd_app (a b : string) :
  b <> EmptyString -> trimEnd b = b -> trimEnd (a ++ b) = (a ++ b)%string.
Proof.
  intros Hne Hb. induction a as [| c a IH]; [rewrite append_Empty; assumption |].
  rewrite append_String. cbn [trimEnd]. rewrite IH.
  destruct (a ++ b)%string eqn:Hab; [| reflexivity].
  destruct a; [rewrite append_Empty in Hab; congruence | discriminate].
Qed.

(** A day of the years 1000 to 9999. *)
Lemma YearFromDay_four_digits (d : Z) :
  DayFromYear 1000 <= d < DayFromYear 10000 -> 1000 <= YearFromDay d <= 9999.
Proof.
  intros Hd. pose proof (YearFromDay_spec d) as Hs.
  split.
  - destruct (Z_lt_dec (YearFromDay d) 1000) as [Hlt | Hge]; [| lia].
    destruct (Z.eq_dec (YearFromDay d + 1) 1000) as [He | Hne].
    + rewrite He in Hs. lia.
    + pose proof (DayFromYear_lt (YearFromDay d + 1) 1000 ltac:(lia)). lia.
  - destruct (Z_lt_dec 9999 (YearFromDay d)) as [Hlt | Hge]; [| lia].
    destruct (Z.eq_dec (YearFromDay d) 10000) as [He | Hne].
    + rewrite He in Hs. lia.
    + pose proof (DayFromYear_lt 10000 (YearFromDay d) ltac:(lia)). lia.
Qed.

(** [Date.UTC] of the getters of a whole second gives the time value
    back. *)
Lemma DateUTC_of_getters (t : Z) :
  t mod 1000 = 0 -> 100 <= YearFromTime t ->
  DateUTC (YearFromTime t) (MonthFromTime t + 1 - 1) (DateFromTime t)
    (HourFromTime t) (MinFromTime t) (SecFromTime t) = t.
Proof.
  intros Hms Hy. pose proof (getters_range t) as (Hm & _).
  unfold DateUTC.
  assert (Hc : (0 <=? YearFromTime t) && (YearFromTime t <=? 99) = false)
    by (apply andb_false_iff; right; apply Z.leb_gt; lia).
  rewrite Hc. unfold MakeDate, MakeDay. cbv zeta.
  replace (MonthFromTime t + 1 - 1) with (MonthFromTime t) by lia.
  replace (MonthFromTime t / 12) with 0 by (Z.div_mod_to_equations; lia).
  replace (MonthFromTime t mod 12) with (MonthFromTime t) by (Z.div_mod_to_equations; lia).
  rewrite Z.add_0_r. unfold DateFromTime, DayWithinYear.
  replace (DayFromYear (YearFromTime t)
           + monthStart (MonthFromTime t) (InLeapYear (YearFromTime t))
           + (Day t - DayFromYear (YearFromTime t)
              - monthStart (MonthFromTime t) (InLeapYear (YearFromTime t)) + 1) - 1)
    with (Day t) by lia.
  unfold Day, MakeTime, HourFromTime, MinFromTime, SecFromTime,
    msPerDay, msPerHour, msPerMinute, msPerSecond.
  Z.div_mod_to_equations. lia.
Qed.

Lemma natDigits_nonempty (n : Z) : natDigits n <> EmptyString.
Proof.
  rewrite natDigits_unfold. destruct (n <? 10); [discriminate |].
  destruct (natDigits (n / 10)); discriminate.
Qed.

(** The text of a year of four digits. *)
Lemma intToString_four_digits (y : Z) :
  1000 <= y <= 9999 ->
  String.length (intToString y) = 4%nat
  /\ allDigits (intToString y) = true
  /\ digitsValue (intToString y) = y.
Proof.
  intros Hy. rewrite intToString_nonneg by lia.
  split; [| split; [apply natDigits_allDigits; lia | apply digitsValue_natDigits; lia]].
  pose proof (natDigits_length y 3 ltac:(lia)) as H4.
  pose proof (natDigits_length y 2 ltac:(lia)) as H3.
  change (10 ^ Z.of_nat 4) with 10000 in H4. change (10 ^ Z.of_nat 3) with 1000 in H3.
  assert (String.length (natDigits y) <= 4)%nat by (apply H4; lia).
  assert (~ (String.length (natDigits y) <= 3)%nat) by (rewrite H3; lia).
  lia.
Qed.

(** X19: formatting an instant of the years 1000 to 9999 of Indian time
    and parsing the text gives the instant back. *)
Theorem parse_format_roundtrip (e : Z) (fieldName : string) :
  yearStart 1000 <= e < yearStart 10000 ->
  parseTimestampToEpochSeconds (JStr (formatEpochSecondsToTimestamp e)) fieldName = Ok e.
Proof.
  intros He. rewrite format_eq. cbv zeta.
  set (t := e * 1000 + IST_OFFSET_SECONDS * 1000).
  assert (Hms : t mod 1000 = 0).
  { subst t. unfold IST_OFFSET_SECONDS. Z.div_mod_to_equations. lia. }
  assert (Hy : 1000 <= YearFromTime t <= 9999).
  { unfold YearFromTime. apply YearFromDay_four_digits.
    unfold yearStart, IST_OFFSET_SECONDS in He. unfold Day, msPerDay. subst t.
    unfold IST_OFFSET_SECONDS.
    generalize dependent (DayFromYear 1000). generalize dependent (DayFromYear 10000).
    intros hi lo He. Z.div_mod_to_equations. lia. }
  pose proof (getters_range t) as (Rm & Rd & Rh & Rmi & Rs).
  assert (Rd' : 1 <= DateFromTime t <= 31).
  { revert Rd. unfold daysInMonth. case_ifs; lia. }
  destruct (intToString_four_digits _ Hy) as (Ly & Dy & Vy).
  destruct (padStart_paise (MonthFromTime t + 1) ltac:(lia)) as (Dmo & Lmo & Vmo).
  destruct (padStart_paise (DateFromTime t) ltac:(lia)) as (Dd & Ld & Vd).
  destruct (padStart_paise (HourFromTime t) ltac:(lia)) as (Dh & Lh & Vh).
  destruct (padStart_paise (MinFromTime t) ltac:(lia)) as (Dmi & Lmi & Vmi).
  destruct (padStart_paise (SecFromTime t) ltac:(lia)) as (Ds & Ls & Vs).
  unfold getUTCFullYear, getUTCMonth, getUTCDate, getUTCHours, getUTCMinutes, getUTCSeconds.
  set (f := {| yearText := intToString (YearFromTime t);
               monthText := padStart (intToString (MonthFromTime t + 1)) 2 "0";
               dayText := padStart (intToString (DateFromTime t)) 2 "0";
               hourText := padStart (intToString (HourFromTime t)) 2 "0";
               minuteText := padStart (intToString (MinFromTime t)) 2 "0";
               secondText := padStart (intToString (SecFromTime t)) 2 "0" |}).
  change (parseTimestampToEpochSeconds (JStr (fieldsText f)) fieldName = Ok e).
  assert (Hw : wellFormedFields f) by (unfold wellFormedFields; subst f; cbn; tauto).
  assert (Htrim : trim (fieldsText f) = fieldsText f).
  { unfold trim.
    assert (Hstart : trimStart (fieldsText f) = fieldsText f).
    { unfold fieldsText. destruct (yearText f) as [| c r] eqn:Hyt;
        [subst f; cbn [yearText] in Hyt; rewrite Hyt in Ly; discriminate |].
      assert (Hc : isDigit c = true).
      { subst f. cbn [yearText] in Hyt. rewrite Hyt in Dy. cbn [allDigits] in Dy.
        apply andb_prop in Dy as [Hc _]. exact Hc. }
      rewrite append_String. cbn [trimStart].
      rewrite (isDigit_not_whiteSpace c Hc). reflexivity. }
    rewrite Hstart. unfold fieldsText.
    assert (Ls' : String.length (secondText f) = 2%nat) by exact Ls.
    repeat (apply trimEnd_app;
            [intros Hempty; apply (f_equal String.length) in Hempty;
             repeat rewrite length_app_string in Hempty; rewrite Ls' in Hempty;
             change (String.length EmptyString) with 0%nat in Hempty; lia |]).
    apply trimEnd_digits. exact Ds. }
  rewrite (parse_matched _ fieldName f) by (rewrite Htrim; apply matchTimestamp_complete, Hw).
  unfold survivesNormalization, fieldYear, fieldMonth, fieldDay, fieldHour, fieldMinute,
    fieldSecond.
  subst f. cbn [yearText monthText dayText hourText minuteText secondText]. cbv zeta.
  rewrite Vy, Vmo, Vd, Vh, Vmi, Vs.
  rewrite (DateUTC_of_getters t Hms ltac:(lia)).
  unfold getUTCFullYear, getUTCMonth, getUTCDate, getUTCHours, getUTCMinutes, getUTCSeconds.
  rewrite !Z.eqb_refl. cbn [andb]. f_equal.
  subst t. unfold IST_OFFSET_SECONDS. Z.div_mod_to_equations. lia.
Qed.

Lemma parse_format_roundtrip_witness :
  yearStart 1000 <= 1697121900 < yearStart 10000
  /\ parseTimestampToEpochSeconds (JStr (formatEpochSecondsToTimestamp 1697121900)) "timestamp"
     = Ok 1697121900.
Proof.
  assert (H : yearStart 1000 <= 1697121900 < yearStart 10000) by (vm_compute; split; congruence).
  split; [exact H | exact (parse_format_roundtrip 1697121900 "timestamp" H)].
Defined.

Lemma takeDigits_stop (n : nat) (d r : string) :
  allDigits d = true -> (String.length d < n)%nat ->
  match r with
  | EmptyString => True
  | String c _ => isDigit c = false
  end ->
  takeDigits n (d ++ r) = None.
Proof.
  revert n. induction d as [| c d IH]; intros n Hd Hl Hr.
  - rewrite append_Empty. destruct n as [| n]; [cbn in Hl; lia |].
    cbn [takeDigits]. destruct r as [| c r]; [reflexivity |]. rewrite Hr. reflexivity.
  - cbn [allDigits] in Hd. apply andb_prop in Hd as [Hc Hd].
    destruct n as [| n]; [cbn in Hl; lia |]. cbn [String.length] in Hl.
    rewrite append_String. cbn [takeDigits]. rewrite Hc.
    rewrite (IH n Hd ltac:(lia) Hr). reflexivity.
Qed.

(** A year of five digits or more does not match the pattern. *)
Lemma matchTimestamp_long_year (d r : string) :
  allDigits d = true -> (4 < String.length d)%nat -> matchTimestamp (d ++ r) = None.
Proof.
  intros Hd Hl.
  destruct d as [| c1 [| c2 [| c3 [| c4 [| c5 d]]]]]; cbn [String.length] in Hl; try lia.
  cbn [allDigits] in Hd.
  apply andb_prop in Hd as [H1 Hd]. apply andb_prop in Hd as [H2 Hd].
  apply andb_prop in Hd as [H3 Hd]. apply andb_prop in Hd as [H4 Hd].
  apply andb_prop in Hd as [H5 _].
  unfold matchTimestamp. rewrite !append_String. cbn [takeDigits].
  rewrite H1, H2, H3, H4. cbn [mbind option_bind expectChar].
  destruct (Ascii.eqb_spec "-" c5) as [<- | _]; [discriminate H5 | reflexivity].
Qed.

(** The text of an integer starts with a digit or with the sign. *)
Lemma intToString_head (n : Z) :
  exists c r, intToString n = String c r /\ isWhiteSpace c = false.
Proof.
  unfold intToString. destruct (Z.ltb_spec n 0) as [Hneg | Hpos].
  - exists "-"%char, (natDigits (- n)). split; reflexivity.
  - pose proof (natDigits_allDigits n Hpos) as Hd.
    pose proof (natDigits_nonempty n) as Hne.
    destruct (natDigits n) as [| c r]; [congruence |].
    cbn [allDigits] in Hd. apply andb_prop in Hd as [Hc _].
    exists c, r. split; [reflexivity | apply isDigit_not_whiteSpace, Hc].
Qed.

(** X20: the text of an instant before the year 1000 or after the year
    9999 of Indian time is not a timestamp the parser accepts: the
    formatter writes the year with as many digits as it has (and with its
    sign), and the parser answers that the text must follow the format.
    The instant is one a [Date] can hold: at most 8.64e15 milliseconds
    from the epoch. *)
Theorem formatted_year_outside_four_digits_is_rejected (e : Z) (fieldName : string) :
  Z.abs (e * 1000 + IST_OFFSET_SECONDS * 1000) <= 8640000000000000 ->
  e < yearStart 1000 \/ yearStart 10000 <= e ->
  parseTimestampToEpochSeconds (JStr (formatEpochSecondsToTimestamp e)) fieldName
  = Err (PlainError (fieldName ++ " must follow " ++ TIMESTAMP_FORMAT)).
Proof.
  intros _ He. rewrite format_eq. cbv zeta.
  set (t := e * 1000 + IST_OFFSET_SECONDS * 1000).
  unfold getUTCFullYear, getUTCMonth, getUTCDate, getUTCHours, getUTCMinutes, getUTCSeconds.
  assert (Hy : YearFromTime t < 1000 \/ 10000 <= YearFromTime t).
  { unfold YearFromTime. pose proof (YearFromDay_spec (Day t)) as Hs.
    assert (Hd : Day t < DayFromYear 1000 \/ DayFromYear 10000 <= Day t).
    { unfold yearStart, IST_OFFSET_SECONDS in He. unfold Day, msPerDay. subst t.
      unfold IST_OFFSET_SECONDS.
      generalize dependent (DayFromYear 1000). generalize dependent (DayFromYear 10000).
      intros hi lo He. Z.div_mod_to_equations. lia. }
    destruct Hd as [Hd | Hd].
    - left. destruct (Z_lt_dec (YearFromDay (Day t)) 1000) as [Hlt | Hge]; [assumption |].
      destruct (Z.eq_dec (YearFromDay (Day t)) 1000) as [Heq | Hne].
      + rewrite Heq in Hs. lia.
      + pose proof (DayFromYear_lt 1000 (YearFromDay (Day t)) ltac:(lia)). lia.
    - right. destruct (Z_lt_dec (YearFromDay (Day t)) 10000) as [Hlt | Hge]; [| lia].
      destruct (Z.eq_dec (YearFromDay (Day t) + 1) 10000) as [Heq | Hne].
      + rewrite Heq in Hs. lia.
      + pose proof (DayFromYear_lt (YearFromDay (Day t) + 1) 10000 ltac:(lia)). lia. }
  pose proof (getters_range t) as (_ & _ & _ & _ & Rs).
  destruct (padStart_paise (SecFromTime t) ltac:(lia)) as (Ds & Ls & _).
  set (rest := (padStart (intToString (MonthFromTime t + 1)) 2 "0" ++ "-"
                ++ padStart (intToString (DateFromTime t)) 2 "0" ++ " "
                ++ padStart (intToString (HourFromTime t)) 2 "0" ++ ":"
                ++ padStart (intToString (MinFromTime t)) 2 "0" ++ ":"
                ++ padStart (intToString (SecFromTime t)) 2 "0")%string).
  assert (Hend : forall a, trimEnd (a ++ "-" ++ rest) = (a ++ "-" ++ rest)%string).
  { intros a. subst rest.
    repeat (apply trimEnd_app;
            [intros Hempty; apply (f_equal String.length) in Hempty;
             repeat rewrite length_app_string in Hempty; rewrite Ls in Hempty;
             change (String.length EmptyString) with 0%nat in Hempty; lia |]).
    apply trimEnd_digits. exact Ds. }
  assert (Htrim : trim (intToString (YearFromTime t) ++ "-" ++ rest)
                  = (intToString (YearFromTime t) ++ "-" ++ rest)%string).
  { unfold trim. destruct (intToString_head (YearFromTime t)) as (c & r & Hcr & Hc).
    rewrite Hcr at 1. rewrite append_String. cbn [trimStart]. rewrite Hc.
    rewrite <- append_String, <- Hcr. apply Hend. }
  unfold parseTimestampToEpochSeconds. rewrite Htrim.
  assert (Hm : matchTimestamp (intToString (YearFromTime t) ++ "-" ++ rest) = None).
  { unfold intToString. destruct (Z.ltb_spec (YearFromTime t) 0) as [Hneg | Hpos].
    - reflexivity.
    - pose proof (natDigits_allDigits _ Hpos) as Hd.
      destruct Hy as [Hy | Hy].
      + unfold matchTimestamp. rewrite (takeDigits_stop 4 _ _ Hd); [reflexivity | | reflexivity].
        pose proof (natDigits_length (YearFromTime t) 2 Hpos) as H3.
        change (10 ^ Z.of_nat 3) with 1000 in H3.
        assert (String.length (natDigits (YearFromTime t)) <= 3)%nat by (apply H3; lia). lia.
      + apply matchTimestamp_long_year; [assumption |].
        pose proof (natDigits_length (YearFromTime t) 3 Hpos) as H4.
        change (10 ^ Z.of_nat 4) with 10000 in H4.
        assert (~ (String.length (natDigits (YearFromTime t)) <= 4)%nat) by (rewrite H4; lia).
        lia. }
  rewrite Hm. reflexivity.
Qed.

Lemma formatted_year_outside_four_digits_is_rejected_witness :
  Z.abs (253402281000 * 1000 + IST_OFFSET_SECONDS * 1000) <= 8640000000000000
  /\ (253402281000 < yearStart 1000 \/ yearStart 10000 <= 253402281000)
  /\ formatEpochSecondsToTimestamp 253402281000 = "10000-01-01 00:00:00"%string
  /\ parseTimestampToEpochSeconds (JStr (formatEpochSecondsToTimestamp 253402281000))
       "timestamp"
     = Err (PlainError ("timestamp" ++ " must follow " ++ TIMESTAMP_FORMAT)).
Proof.
  assert (Hd : Z.abs (253402281000 * 1000 + IST_OFFSET_SECONDS * 1000) <= 8640000000000000)
    by (vm_compute; congruence).
  assert (H : 253402281000 < yearStart 1000 \/ yearStart 10000 <= 253402281000)
    by (right; vm_compute; congruence).
  split; [exact Hd |]. split; [exact H |]. split; [vm_compute; reflexivity |].
  exact (formatted_year_outside_four_digits_is_rejected 253402281000 "timestamp" Hd H).
Defined.

(** *** Decimal texts *)

Lemma halfUp_thousandths (I c d3 r P : Z) :
  0 < P -> 0 <= r < P -> 0 <= d3 <= 9 ->
  halfUp (100 * (I * (1000 * P) + ((10 * c + d3) * P + r))) (1000 * P)
  = 100 * I + c + (if d3 >=? 5 then 1 else 0).
Proof.
  intros HP Hr Hd. unfold halfUp. symmetry.
  destruct (Z.geb_spec d3 5).
  - apply Z.div_unique with (r := 200 * (d3 - 5) * P + 200 * r); nia.
  - apply Z.div_unique with (r := 200 * d3 * P + 200 * r + 1000 * P); nia.
Qed.

(** The minor units of a matched decimal text: its value in hundredths,
    rounded half up. *)
Lemma moneyOfMatch_halfUp (negative : bool) (i f : string) :
  allDigits f = true -> f <> EmptyString ->
  moneyOfMatch ((if negative then "-" else EmptyString)%string, i, Some f)
  = (if negative then -1 else 1)
    * halfUp (100 * digitsValue (i ++ f)) (10 ^ Z.of_nat (String.length f)).
Proof.
  intros Hf Hne. rewrite digitsValue_app.
  destruct f as [| c1 [| c2 [| c3 f]]]; [congruence | | |].
  - rewrite moneyOfMatch_decimal by (cbn; auto; lia). f_equal.
    cbn [String.length]. change (10 ^ Z.of_nat 1) with 10. change (10 ^ (2 - Z.of_nat 1)) with 10.
    unfold halfUp. apply Z.div_unique with (r := 10); lia.
  - rewrite moneyOfMatch_decimal by (cbn [String.length]; auto; lia). f_equal.
    cbn [String.length]. change (10 ^ Z.of_nat 2) with 100. change (10 ^ (2 - Z.of_nat 2)) with 1.
    unfold halfUp. apply Z.div_unique with (r := 100); lia.
  - unfold moneyOfMatch. rewrite (removeWhiteSpace_digits _ Hf).
    assert (Hsign : (if String.eqb (if negative then "-" else EmptyString) "-" then -1 else 1)
                    = (if negative then -1 else 1)) by (destruct negative; reflexivity).
    rewrite Hsign. f_equal.
    cbn [allDigits] in Hf.
    apply andb_prop in Hf as [H1 Hf]. apply andb_prop in Hf as [H2 Hf].
    apply andb_prop in Hf as [H3 Hf].
    pose proof (isDigit_bounds c1 H1) as B1. pose proof (isDigit_bounds c2 H2) as B2.
    pose proof (isDigit_bounds c3 H3) as B3.
    pose proof (digitsValue_upper f Hf) as Bf.
    unfold fracDigit. cbn [String.get].
    change (String c1 (String c2 (String c3 f)))
      with (String c1 (String c2 (String c3 EmptyString)) ++ f)%string.
    rewrite (digitsValue_app _ f), length_app_string.
    change (digitsValue (String c1 (String c2 (String c3 EmptyString))))
      with (10 * (10 * (10 * 0 + digitValue c1) + digitValue c2) + digitValue c3).
    change (String.length (String c1 (String c2 (String c3 EmptyString)))) with 3%nat.
    rewrite Nat2Z.inj_add, Z.pow_add_r by lia. change (10 ^ Z.of_nat 3) with 1000.
    set (P := 10 ^ Z.of_nat (String.length f)) in *.
    assert (HP : 0 < P) by (subst P; apply Z.pow_pos_nonneg; lia).
    replace (10 * (10 * (10 * 0 + digitValue c1) + digitValue c2) + digitValue c3)
      with (10 * (digitValue c1 * 10 + digitValue c2) + digitValue c3) by lia.
    rewrite (halfUp_thousandths (digitsValue i) _ (digitValue c3) (digitsValue f) P HP
               ltac:(lia) B3).
    destruct (digitValue c3 >=? 5);
      match goal with
      | |- context [?a >=? 100] => destruct (Z.geb_spec a 100)
      end; lia.
Qed.

(** X21: a decimal text, whatever the number of its decimals, parses to
    its value in hundredths rounded to the nearest integer, a half away
    from zero: [(200 * digits + 10^L) / (2 * 10^L)] for the digits of the
    text without the point and its [L] decimals, with the sign of the
    text. *)
Theorem parseMoney_rounds_half_up (negative : bool) (i f : string) :
  allDigits i = true -> i <> EmptyString ->
  allDigits f = true -> f <> EmptyString ->
  parseMoney (JStr (decimalText negative i f))
  = Ok ((if negative then -1 else 1)
        * halfUp (100 * digitsValue (i ++ f)) (10 ^ Z.of_nat (String.length f))).
Proof.
  intros Hi Hine Hf Hfne.
  assert (Htrim : trim (decimalText negative i f) = decimalText negative i f).
  { unfold trim, decimalText.
    assert (Hend : forall a, trimEnd (a ++ i ++ "." ++ f) = (a ++ i ++ "." ++ f)%string).
    { intros a.
      repeat (apply trimEnd_app;
              [intros Hempty; apply (f_equal String.length) in Hempty;
               repeat rewrite length_app_string in Hempty;
               destruct f; [congruence | cbn [String.length] in Hempty; lia] |]).
      apply trimEnd_digits, Hf. }
    destruct negative.
    - rewrite append_String, append_Empty. cbn [trimStart].
      change (isWhiteSpace "-") with false. cbv iota.
      apply (Hend (String "-" EmptyString)).
    - rewrite append_Empty. destruct i as [| c r] eqn:Ei; [congruence |].
      pose proof Hi as Hc. cbn [allDigits] in Hc. apply andb_prop in Hc as [Hc _].
      rewrite append_String. cbn [trimStart]. rewrite (isDigit_not_whiteSpace c Hc).
      rewrite <- append_String. apply (Hend EmptyString). }
  unfold parseMoney, normalizeMoneyInput. rewrite Htrim.
  assert (Hnonempty : isEmpty (decimalText negative i f) = false).
  { unfold decimalText. destruct negative; [reflexivity |].
    rewrite append_Empty. destruct i; [congruence | reflexivity]. }
  rewrite Hnonempty. cbn [bind]. unfold decimalText.
  rewrite (matchMoney_decimal negative i f Hi Hine Hf Hfne).
  rewrite (moneyOfMatch_halfUp negative i f Hf Hfne). reflexivity.
Qed.

Lemma parseMoney_rounds_half_up_witness :
  parseMoney (JStr "-12.3450001") = Ok (-1235)
  /\ parseMoney (JStr (decimalText true "12" "3450001"))
     = Ok (-1 * halfUp (100 * digitsValue ("12" ++ "3450001"))
                  (10 ^ Z.of_nat (String.length "3450001"))).
Proof.
  split; [vm_compute; reflexivity |].
  apply (parseMoney_rounds_half_up true "12" "3450001"); [reflexivity | | reflexivity |];
    discriminate.
Defined.

(** *** Rounding up and the minimum *)

(** X22: on every integer, negative ones included, [ceilTo100] returns a
    multiple of 10000 that is not below its argument, and rounding a
    second time changes nothing; but on a negative amount that is not a
    multiple of 10000 the result is not the nearest multiple above: it is
    the one after it. *)
Theorem ceilTo100_on_every_integer (v : Z) :
  ceilTo100 v mod 10000 = 0
  /\ v <= ceilTo100 v
  /\ ceilTo100 (ceilTo100 v) = ceilTo100 v
  /\ (v < 0 -> v mod 10000 <> 0 ->
      leastMultipleAtLeast 10000 v (ceilTo100 v - 10000)
      /\ 10000 <= ceilTo100 v - v < 20000).
Proof.
  assert (Hm : ceilTo100 v mod 10000 = 0).
  { unfold ceilTo100. cbv zeta.
    destruct (Z.eqb_spec (Z.rem v 10000) 0); Z.to_euclidean_division_equations; lia. }
  split; [exact Hm |]. split; [| split].
  - unfold ceilTo100. cbv zeta.
    destruct (Z.eqb_spec (Z.rem v 10000) 0); Z.to_euclidean_division_equations; lia.
  - revert Hm. generalize (ceilTo100 v). intros w Hw. unfold ceilTo100. cbv zeta.
    destruct (Z.eqb_spec (Z.rem w 10000) 0) as [H0 | Hn]; [reflexivity |].
    exfalso. apply Hn. Z.to_euclidean_division_equations. lia.
  - intros Hneg Hnot. unfold ceilTo100. cbv zeta.
    destruct (Z.eqb_spec (Z.rem v 10000) 0) as [H0 | Hn].
    + exfalso. apply Hnot. Z.to_euclidean_division_equations. lia.
    + split; [| Z.to_euclidean_division_equations; lia]. unfold leastMultipleAtLeast.
      replace (v + (10000 - Z.rem v 10000) - 10000) with (Z.quot v 10000 * 10000)
        by (Z.to_euclidean_division_equations; lia).
      split; [apply Z.mod_mul; lia |].
      split; [Z.to_euclidean_division_equations; lia |].
      intros r' Hr' Hle. apply Z.mod_divide in Hr' as [k ->]; [| lia].
      Z.to_euclidean_division_equations. lia.
Qed.

(** X23: [bigintMin] of one value or more returns one of them, and none
    of them is smaller; with no value at all it throws, the [reduce] it is
    written with having nothing to start from. *)
Theorem bigintMin_is_the_least :
  (exists message, bigintMin [] = Err (PlainError message))
  /\ forall first rest,
       exists least,
         bigintMin (first :: rest) = Ok least
         /\ In least (first :: rest)
         /\ forall v, In v (first :: rest) -> least <= v.
Proof.
  split; [eexists; reflexivity |].
  intros first rest. eexists. split; [reflexivity |].
  revert first. induction rest as [| x rest IH]; intros first.
  - cbn. split; [auto |]. intros v [<- | []]. lia.
  - cbn [fold_left]. specialize (IH (if x <? first then x else first)).
    destruct IH as [Hin Hle]. split.
    + destruct Hin as [Hin | Hin]; [| right; right; exact Hin].
      rewrite <- Hin. destruct (x <? first); [right; left | left]; reflexivity.
    + intros v Hv.
      pose proof (Hle _ (or_introl eq_refl)) as Hhead.
      destruct Hv as [<- | [<- | Hv]].
      * destruct (Z.ltb_spec x first); lia.
      * destruct (Z.ltb_spec x first); lia.
      * apply Hle. right. exact Hv.
Qed.

End Codecs.

(** * The two ways from minor units to a Number *)

Section Quotient.

Import Js JsNumber Money.

Lemma mulPow_two (p q g : Z) :
  mulPow 2 p q (- g) = (p * 2 ^ Z.max 0 (- g), q * 2 ^ Z.max 0 g)
  \/ (0 < g /\ mulPow 2 p q (- g) = (p, q * 2 ^ Z.max 0 g)).
Proof.
  unfold mulPow. destruct (Z.leb_spec 0 (- g)) as [Hg | Hg].
  - left. rewrite (Z.max_r 0 (- g)) by lia. rewrite (Z.max_l 0 g) by lia.
    rewrite Z.mul_1_r. reflexivity.
  - right. split; [lia |]. rewrite (Z.max_r 0 g) by lia.
    replace (- - g) with g by lia. reflexivity.
Qed.

(** The components of [mulPow 2 p q (- g)]. *)
Lemma mulPow_two_eq (p q g n d : Z) :
  mulPow 2 p q (- g) = (n, d) ->
  n = p * 2 ^ Z.max 0 (- g) /\ d = q * 2 ^ Z.max 0 g.
Proof.
  destruct (mulPow_two p q g) as [H | [Hg H]]; rewrite H; intros [= <- <-].
  - auto.
  - split; [| reflexivity]. rewrite (Z.max_l 0 (- g)) by lia. lia.
Qed.

(** [floorLog2 p q] is the [g] with [2^g <= p / q < 2^(g+1)]. *)
Lemma floorLog2_spec (p q : Z) :
  0 < p -> 0 < q ->
  q * 2 ^ Z.max 0 (floorLog2 p q) <= p * 2 ^ Z.max 0 (- floorLog2 p q)
  /\ p * 2 ^ Z.max 0 (- floorLog2 p q) < 2 * (q * 2 ^ Z.max 0 (floorLog2 p q)).
Proof.
  intros Hp Hq. unfold floorLog2. cbv zeta.
  pose proof (Z.log2_spec p Hp) as [Hp1 Hp2].
  pose proof (Z.log2_spec q Hq) as [Hq1 Hq2].
  pose proof (Z.log2_nonneg p) as Hlp. pose proof (Z.log2_nonneg q) as Hlq.
  rewrite Z.pow_succ_r in Hp2, Hq2 by assumption.
  set (lp := Z.log2 p) in *. set (lq := Z.log2 q) in *.
  set (a := 2 ^ lp) in *. set (b := 2 ^ lq) in *.
  destruct (mulPow 2 p q (- (lp - lq))) as [n d] eqn:Hm.
  apply mulPow_two_eq in Hm as [-> ->].
  destruct (Z.le_gt_cases (lp - lq) 0) as [Hg | Hg].
  - (* q has at least as many bits as p *)
    rewrite (Z.max_r 0 (- (lp - lq))), (Z.max_l 0 (lp - lq)) by lia.
    change (2 ^ 0) with 1. rewrite Z.mul_1_r.
    assert (Hb : b = a * 2 ^ (- (lp - lq))).
    { subst a b. rewrite <- Z.pow_add_r by lia. f_equal. lia. }
    set (c := 2 ^ (- (lp - lq))) in *.
    assert (Hc : 0 < c) by (subst c; apply Z.pow_pos_nonneg; lia).
    destruct (Z.leb_spec q (p * c)) as [Hle | Hgt].
    + rewrite (Z.max_r 0 (- (lp - lq))), (Z.max_l 0 (lp - lq)) by lia.
      change (2 ^ 0) with 1. fold c. nia.
    + rewrite (Z.max_r 0 (- (lp - lq - 1))), (Z.max_l 0 (lp - lq - 1)) by lia.
      change (2 ^ 0) with 1.
      replace (- (lp - lq - 1)) with (Z.succ (- (lp - lq))) by lia.
      rewrite Z.pow_succ_r by lia. fold c. nia.
  - (* p has more bits than q *)
    rewrite (Z.max_l 0 (- (lp - lq))), (Z.max_r 0 (lp - lq)) by lia.
    change (2 ^ 0) with 1. rewrite Z.mul_1_r.
    assert (Ha : a = b * 2 ^ (lp - lq)).
    { subst a b. rewrite <- Z.pow_add_r by lia. f_equal. lia. }
    assert (Hc : 2 ^ (lp - lq) = 2 * 2 ^ (lp - lq - 1)).
    { rewrite <- Z.pow_succ_r by lia. f_equal. lia. }
    set (c := 2 ^ (lp - lq - 1)) in *.
    assert (Hc0 : 0 < c) by (subst c; apply Z.pow_pos_nonneg; lia).
    destruct (Z.leb_spec (q * 2 ^ (lp - lq)) p) as [Hle | Hgt].
    + rewrite (Z.max_l 0 (- (lp - lq))), (Z.max_r 0 (lp - lq)) by lia.
      change (2 ^ 0) with 1. nia.
    + rewrite (Z.max_l 0 (- (lp - lq - 1))), (Z.max_r 0 (lp - lq - 1)) by lia.
      change (2 ^ 0) with 1. fold c. nia.
Qed.

Lemma floorLog2_unique (p q g g' : Z) :
  0 < p -> 0 < q ->
  q * 2 ^ Z.max 0 g <= p * 2 ^ Z.max 0 (- g) ->
  p * 2 ^ Z.max 0 (- g') < 2 * (q * 2 ^ Z.max 0 g') ->
  g <= g'.
Proof.
  intros Hp Hq Hlow Hup.
  destruct (Z.le_gt_cases g g') as [| Hgt]; [assumption | exfalso].
  assert (Hpow : forall x, 0 < 2 ^ Z.max 0 x) by (intros x; apply Z.pow_pos_nonneg; lia).
  pose proof (Hpow g) as H1. pose proof (Hpow (- g)) as H2.
  pose proof (Hpow g') as H3. pose proof (Hpow (- g')) as H4.
  (* 2 * 2^(max 0 g') * 2^(max 0 (-g)) <= 2^(max 0 g) * 2^(max 0 (-g')) *)
  assert (Hexp : 2 * (2 ^ Z.max 0 g' * 2 ^ Z.max 0 (- g))
                 <= 2 ^ Z.max 0 g * 2 ^ Z.max 0 (- g')).
  { rewrite <- !Z.pow_add_r by lia.
    rewrite <- (Z.pow_succ_r 2) by lia.
    apply Z.pow_le_mono_r; lia. }
  set (A := 2 ^ Z.max 0 g) in *. set (B := 2 ^ Z.max 0 (- g)) in *.
  set (C := 2 ^ Z.max 0 g') in *. set (D := 2 ^ Z.max 0 (- g')) in *.
  assert (E1 : q * A * D <= p * B * D) by nia.
  assert (E2 : p * D * B < 2 * (q * C) * B) by nia.
  assert (E3 : q * (2 * (C * B)) <= q * (A * D)) by nia.
  nia.
Qed.

(** [floorLog2] depends on the quotient only. *)
Lemma floorLog2_scale (p q k : Z) :
  0 < p -> 0 < q -> 0 < k -> floorLog2 (p * k) (q * k) = floorLog2 p q.
Proof.
  intros Hp Hq Hk.
  destruct (floorLog2_spec p q Hp Hq) as [L U].
  destruct (floorLog2_spec (p * k) (q * k) ltac:(nia) ltac:(nia)) as [L' U'].
  set (g := floorLog2 p q) in *. set (g' := floorLog2 (p * k) (q * k)) in *.
  assert (Hpow : forall x, 0 < 2 ^ Z.max 0 x) by (intros x; apply Z.pow_pos_nonneg; lia).
  pose proof (Hpow g'). pose proof (Hpow (- g')).
  assert (L'' : q * 2 ^ Z.max 0 g' <= p * 2 ^ Z.max 0 (- g')) by nia.
  assert (U'' : p * 2 ^ Z.max 0 (- g') < 2 * (q * 2 ^ Z.max 0 g')) by nia.
  pose proof (floorLog2_unique p q g g' Hp Hq L U'').
  pose proof (floorLog2_unique p q g' g Hp Hq L'' U).
  lia.
Qed.

Lemma roundHalfEven_scale (n d k : Z) :
  0 < d -> 0 < k -> roundHalfEven (n * k) (d * k) = roundHalfEven n d.
Proof.
  intros Hd Hk. unfold roundHalfEven. cbv zeta.
  rewrite Z.div_mul_cancel_r by lia. rewrite Z.mul_mod_distr_r by lia.
  destruct (Z.ltb_spec (2 * (n mod d * k)) (d * k)), (Z.ltb_spec (2 * (n mod d)) d);
    try nia; try reflexivity.
  destruct (Z.ltb_spec (d * k) (2 * (n mod d * k))), (Z.ltb_spec d (2 * (n mod d)));
    try nia; reflexivity.
Qed.

(** The Number nearest to a quotient depends on the quotient only. *)
Lemma roundRational_scale (negative : bool) (p q k : Z) :
  0 <= p -> 0 < q -> 0 < k ->
  roundRational negative (p * k) (q * k) = roundRational negative p q.
Proof.
  intros Hp Hq Hk. unfold roundRational.
  destruct (Z.eqb_spec p 0) as [-> | Hne]; [reflexivity |].
  destruct (Z.eqb_spec (p * k) 0) as [H0 | _]; [nia |].
  rewrite (floorLog2_scale p q k) by lia.
  set (e := Z.max (-1074) (floorLog2 p q - 52)).
  assert (Hr : (let '(n, d) := mulPow 2 (p * k) (q * k) (- e) in roundHalfEven n d)
               = (let '(n, d) := mulPow 2 p q (- e) in roundHalfEven n d)).
  { unfold mulPow. destruct (Z.leb_spec 0 (- e)).
    - replace (p * k * 2 ^ (- e)) with (p * 2 ^ (- e) * k) by ring.
      apply roundHalfEven_scale; assumption.
    - replace (q * k * 2 ^ (- - e)) with (q * 2 ^ (- - e) * k) by ring.
      apply roundHalfEven_scale; [| assumption].
      assert (0 < 2 ^ (- - e)) by (apply Z.pow_pos_nonneg; lia). nia. }
  destruct (mulPow 2 (p * k) (q * k) (- e)) as [n' d'].
  destruct (mulPow 2 p q (- e)) as [n d].
  rewrite Hr. reflexivity.
Qed.

(** The Number of an integer below [2^53] is the integer. *)
Lemma ofZ_exact (n : Z) :
  0 < Z.abs n < 2 ^ 53 ->
  exists m e,
    ofZ n = Finite (n <? 0) m e /\ m <> 0 /\ e <= 0 /\ m = Z.abs n * 2 ^ (- e).
Proof.
  intros Hn. unfold ofZ. set (a := Z.abs n) in *. unfold roundRational.
  destruct (Z.eqb_spec a 0) as [| _]; [lia |].
  destruct (floorLog2_spec a 1 ltac:(lia) ltac:(lia)) as [L U].
  pose proof (Z.log2_spec a ltac:(lia)) as [La Ua].
  pose proof (Z.log2_nonneg a) as Hla.
  assert (Hfl : floorLog2 a 1 = Z.log2 a).
  { apply Z.le_antisymm.
    - apply (floorLog2_unique a 1 _ _ ltac:(lia) ltac:(lia) L).
      rewrite (Z.max_l 0 (- Z.log2 a)), (Z.max_r 0 (Z.log2 a)) by lia.
      rewrite Z.pow_succ_r in Ua by lia. change (2 ^ 0) with 1. lia.
    - apply (floorLog2_unique a 1 _ _ ltac:(lia) ltac:(lia)); [| exact U].
      rewrite (Z.max_l 0 (- Z.log2 a)), (Z.max_r 0 (Z.log2 a)) by lia.
      change (2 ^ 0) with 1. lia. }
  rewrite Hfl.
  assert (Hlog : Z.log2 a <= 52).
  { assert (2 ^ Z.log2 a < 2 ^ 53) by lia.
    apply Z.pow_lt_mono_r_iff in H; lia. }
  rewrite (Z.max_r (-1074) (Z.log2 a - 52)) by lia.
  set (e := Z.log2 a - 52).
  unfold mulPow. destruct (Z.leb_spec 0 (- e)) as [_ |]; [| lia].
  assert (Hround : roundHalfEven (a * 2 ^ (- e)) 1 = a * 2 ^ (- e)).
  { unfold roundHalfEven. cbv zeta. rewrite Z.mod_1_r, Z.div_1_r. reflexivity. }
  rewrite Hround.
  assert (Hm : 2 ^ 52 <= a * 2 ^ (- e) < 2 ^ 53).
  { assert (E52 : 2 ^ 52 = 2 ^ Z.log2 a * 2 ^ (- e)).
    { rewrite <- Z.pow_add_r by lia. f_equal. lia. }
    assert (E53 : 2 ^ 53 = 2 ^ Z.succ (Z.log2 a) * 2 ^ (- e)).
    { rewrite <- Z.pow_add_r by lia. f_equal. lia. }
    rewrite E52, E53.
    assert (0 < 2 ^ (- e)) by (apply Z.pow_pos_nonneg; lia). nia. }
  destruct (Z.eqb_spec (a * 2 ^ (- e)) (2 ^ 53)) as [| _]; [lia |].
  destruct (Z.ltb_spec 971 e); [lia |].
  destruct (Z.eqb_spec (a * 2 ^ (- e)) 0) as [H0 | Hne].
  - change (2 ^ 52) with 4503599627370496 in Hm. lia.
  - exists (a * 2 ^ (- e)), e. repeat split; [assumption | lia].
Qed.

(** X24: [moneyToNumber] and [moneyToFixed2] return the same Number for
    every amount below [2^53] minor units in absolute value: the quotient
    of the Numbers and the Number of the decimal text are both the Number
    nearest to the amount divided by 100. *)
Theorem moneyToNumber_agrees_with_display (paise : Z) :
  Z.abs paise < 2 ^ 53 ->
  moneyToNumber paise = moneyToFixed2 paise.
Proof.
  intros Hp. rewrite moneyToFixed2_value. unfold moneyToNumber.
  assert (H100 : ofZ 100 = Finite false 7036874417766400 (-46)) by (vm_compute; reflexivity).
  rewrite H100.
  destruct (Z.eq_dec paise 0) as [-> | Hne]; [vm_compute; reflexivity |].
  destruct (ofZ_exact paise ltac:(lia)) as (m & e & Hx & Hm0 & He & Hm).
  rewrite Hx. unfold div.
  change (7036874417766400 =? 0) with false. cbv iota.
  change (mulPow 2 7036874417766400 1 (-46)) with (7036874417766400, 1 * 2 ^ 46).
  rewrite xorb_false_r.
  assert (Hpow : 0 < 2 ^ (- e)) by (apply Z.pow_pos_nonneg; lia).
  unfold mulPow. destruct (Z.leb_spec 0 e) as [He0 | He0].
  - assert (e = 0) by lia. subst e. change (2 ^ (- 0)) with 1 in Hm. change (2 ^ 0) with 1.
    replace (m * 1 * (1 * 2 ^ 46)) with (Z.abs paise * 2 ^ 46) by lia.
    replace (1 * 7036874417766400) with (100 * 2 ^ 46) by reflexivity.
    apply roundRational_scale; lia.
  - replace (m * (1 * 2 ^ 46)) with (Z.abs paise * (2 ^ (- e) * 2 ^ 46)) by lia.
    replace (1 * 2 ^ (- e) * 7036874417766400) with (100 * (2 ^ (- e) * 2 ^ 46)).
    + apply roundRational_scale; lia.
    + change 7036874417766400 with (100 * 2 ^ 46). ring.
Qed.

Lemma moneyToNumber_agrees_with_display_witness :
  Z.abs 123456 < 2 ^ 53 /\ moneyToNumber 123456 = moneyToFixed2 123456.
Proof.
  assert (H : Z.abs 123456 < 2 ^ 53) by (vm_compute; reflexivity).
  split; [exact H | exact (moneyToNumber_agrees_with_display 123456 H)].
Defined.

End Quotient.

(** * Requests that fail as a whole *)

Section Operations.

Import Js JsValue Money Engine.

(** X25: the parse operation is all or nothing: when an expense cannot be
    built, the request fails with the error of the first such expense, and
    nothing is returned for the expenses that could be built (the validator
    and the filter path list such a record as invalid and go on). *)
Theorem parse_operation_is_all_or_nothing (raws : list RawTransaction) (k : nat)
    (expense : RawTransaction) (e : error) :
  Z.of_nat (length raws) <= MAX_RECORDS ->
  raws !! k = Some expense ->
  buildTransactionFromExpense expense k = Err e ->
  (forall j earlier,
      (j < k)%nat -> raws !! j = Some earlier ->
      exists tx, buildTransactionFromExpense earlier j = Ok tx) ->
  parseTransactions {| expenses := Items raws |} = Err e.
Proof.
  intros Hlen Hk He Hbefore. unfold parseTransactions. cbn [expenses assertArray].
  destruct (Z.ltb_spec MAX_RECORDS (Z.of_nat (length raws))) as [Hgt | _]; [lia |].
  cbn [bind].
  rewrite (mapIndexed_first_error buildTransactionFromExpense raws 0 k expense e Hk He Hbefore).
  reflexivity.
Qed.

Lemma parse_operation_is_all_or_nothing_witness :
  parseTransactions {| expenses := Items brokenExpenses |}
  = Err (ApiError 400 "expenses[1].timestamp must follow YYYY-MM-DD HH:mm:ss").
Proof.
  apply (parse_operation_is_all_or_nothing brokenExpenses 1
           (expenseRecord "2023-10-12" (JNum (JsNumber.ofZ 375)))).
  - vm_compute. discriminate.
  - reflexivity.
  - vm_compute. reflexivity.
  - intros j earlier Hj Hearlier. destruct j as [| j]; [| lia].
    injection Hearlier as <-. eexists. vm_compute. reflexivity.
Defined.

(** X26: a declared [remanent] that is no decimal value is not reported as
    an invalid record: when the record parses and its timestamp text is
    new, the validator fails as a whole with the [ApiError] of that
    [remanent], whatever follows.  The filter path never reads the field
    and keeps the record. *)
Theorem malformed_remanent_aborts_the_validator (raws : list RawTransaction) (k : nat)
    (raw : RawTransaction) (tx : Transaction) (e : error) (st : Validation) :
  raws !! k = Some raw ->
  parseTransactionInput raw k "transactions" = Ok tx ->
  isUndefined (raw_remanent raw) = false ->
  parseNumericField (raw_remanent raw) (indexed "transactions" k ++ ".remanent") = Err e ->
  validationLoop (take k raws) 0 initialValidation = Ok st ->
  v_seen st !! timestamp tx = None ->
  validationLoop raws 0 initialValidation = Err e
  /\ e = ApiError 400 (indexed "transactions" k ++ ".remanent" ++ " "
                        ++ match parseMoney (raw_remanent raw) with
                           | Err cause => errorMessage cause
                           | Ok _ => EmptyString
                           end)
  /\ forall stf,
       filteringLoop (take k raws) 0 initialFiltering = Ok stf ->
       f_seen stf !! timestamp tx = None ->
       filteringLoop (take (S k) raws) 0 initialFiltering
       = Ok {| f_validTransactions := f_validTransactions stf ++ [tx];
               f_invalid := f_invalid stf;
               f_seen := <[timestamp tx := k]> (f_seen stf) |}.
Proof.
  intros Hraw Hp Hu Hr Hst Hseen.
  assert (Hlen : length (take k raws) = k).
  { rewrite length_take. apply lookup_lt_Some in Hraw. lia. }
  split; [| split].
  - assert (Hsplit : raws = take k raws ++ raw :: drop (S k) raws).
    { rewrite <- (take_drop_middle raws k raw Hraw) at 1. reflexivity. }
    rewrite Hsplit, validationLoop_app, Hst. cbn [bind]. rewrite Hlen.
    cbn [Nat.add validationLoop]. rewrite Hp. cbv zeta. rewrite Hseen, Hu.
    cbn [negb]. rewrite Hr. reflexivity.
  - unfold parseNumericField in Hr. destruct (parseMoney (raw_remanent raw)); [discriminate |].
    injection Hr as <-. rewrite append_assoc. reflexivity.
  - intros stf Hstf Hnew. rewrite (take_S_r raws k raw Hraw).
    rewrite filteringLoop_app, Hstf. cbn [bind]. rewrite Hlen.
    cbn [Nat.add filteringLoop]. rewrite Hp, Hnew. reflexivity.
Qed.

Lemma malformed_remanent_aborts_the_validator_witness :
  validationLoop malformedRemanentRecords 0 initialValidation
  = Err (ApiError 400 "transactions[1].remanent must be a valid decimal value")
  /\ exists stf, filteringLoop malformedRemanentRecords 0 initialFiltering = Ok stf
                 /\ length (f_validTransactions stf) = 2%nat.
Proof.
  destruct (malformed_remanent_aborts_the_validator malformedRemanentRecords 1
              (withRemanent (rawRecord "2023-01-02 00:00:00" 150 200 50) (JStr "fifty"))
              (fixtureTransaction "2023-01-02 00:00:00" 1672597800 15000 20000 1)
              (ApiError 400 "transactions[1].remanent must be a valid decimal value")
              {| v_valid := [fixtureTransaction "2023-01-01 00:00:00" 1672511400 25000 30000 0];
                 v_invalid := [];
                 v_duplicates := [];
                 v_seen := <["2023-01-01 00:00:00"%string := 0%nat]> ∅ |})
    as (Hv & _ & Hf).
  - reflexivity.
  - vm_compute. reflexivity.
  - reflexivity.
  - vm_compute. reflexivity.
  - vm_compute. reflexivity.
  - vm_compute. reflexivity.
  - split; [exact Hv |]. eexists. split.
    + apply (Hf {| f_validTransactions :=
                     [fixtureTransaction "2023-01-01 00:00:00" 1672511400 25000 30000 0];
                   f_invalid := [];
                   f_seen := <["2023-01-01 00:00:00"%string := 0%nat]> ∅ |}).
      * vm_compute. reflexivity.
      * vm_compute. reflexivity.
    + reflexivity.
Defined.

End Operations.
